(** * Dynamic computation graphs: a shallow embedding of
      src/main/dynamicComputationGraph.py, feasibleGraph.py and
      verificationWalk.py, and the properties of their specification.

    The Python objects that are shared and mutated in place (the vertex axis
    [V] of a graph, the graphs themselves) live in an explicit heap; every
    method is a computation in a state-and-exception monad over that heap.
    Loops that Python writes with [while] take fuel. *)

From Stdlib Require Import String ZArith List Bool Lia ZifyBool Permutation Arith.
Import ListNotations.
Open Scope Z_scope.

Set Implicit Arguments.

(* ================================================================== *)
(** * Outcomes: values, Python exceptions, exhausted fuel *)

Inductive exn : Type :=
| AssertionError
| AttributeError
| ValueError
| IndexError.

Inductive outcome (A : Type) : Type :=
| Ret (a : A)
| Raise (x : exn)
| OutOfFuel.

Arguments Ret {A} a.
Arguments Raise {A} x.
Arguments OutOfFuel {A}.

Definition obind {A B} (m : outcome A) (f : A -> outcome B) : outcome B :=
  match m with
  | Ret a => f a
  | Raise x => Raise x
  | OutOfFuel => OutOfFuel
  end.

(* ================================================================== *)
(** * Configuration model: transition cases and vertices *)

(** The four fields that identify a [TransitionCase]; [TransitionCase.__eq__]
    compares exactly these. *)
Record TKey : Type := mkT
  { t_index : Z; t_tier : nat; t_state : string; t_symbol : string }.

(** A [vertex] is compared and hashed by its [key]:
    [(index, tier, state, symbol)] on tier 0 and
    [(index, tier, state, symbol, pred.state, pred.symbol)] above, where the
    predecessor case [pred] sits at the same index one tier below (asserted by
    [TransitionCase.vertex], the only place that builds vertices above the
    floor).  A vertex is modelled by its key: [Upper i t ...] has tier
    [S t]. *)
Inductive vertex : Type :=
| Floor (i : Z) (q s : string)
| Upper (i : Z) (t : nat) (q s pq ps : string).

Definition vindex (v : vertex) : Z :=
  match v with Floor i _ _ => i | Upper i _ _ _ _ _ => i end.
Definition vtier (v : vertex) : nat :=
  match v with Floor _ _ _ => O | Upper _ t _ _ _ _ => S t end.
Definition vstate (v : vertex) : string :=
  match v with Floor _ q _ => q | Upper _ _ q _ _ _ => q end.
Definition vsymbol (v : vertex) : string :=
  match v with Floor _ _ s => s | Upper _ _ _ s _ _ => s end.

(** [v.T], compared by its four fields. *)
Definition transitionCase (v : vertex) : TKey :=
  mkT (vindex v) (vtier v) (vstate v) (vsymbol v).

(** [v.pred]: [None] on the floor. *)
Definition pred (v : vertex) : option TKey :=
  match v with
  | Floor _ _ _ => None
  | Upper i t _ _ pq ps => Some (mkT i t pq ps)
  end.

(** [vertex(T, P)] as [TransitionCase.vertex] and [TransitionCase.__init__]
    call it. *)
Definition mk_vertex (T : TKey) (P : option TKey) : outcome vertex :=
  match t_tier T, P with
  | O, _ => Ret (Floor (t_index T) (t_state T) (t_symbol T))
  | S t, Some p =>
      Ret (Upper (t_index T) t (t_state T) (t_symbol T) (t_state p) (t_symbol p))
  | S _, None => Raise AttributeError
  end.

Definition TKey_eqb (a b : TKey) : bool :=
  (t_index a =? t_index b) && Nat.eqb (t_tier a) (t_tier b)
  && String.eqb (t_state a) (t_state b) && String.eqb (t_symbol a) (t_symbol b).

Definition vertex_eq_dec (u v : vertex) : {u = v} + {u <> v}.
Proof. decide equality; auto using Z.eq_dec, Nat.eq_dec, string_dec. Defined.

Definition vertex_eqb (u v : vertex) : bool :=
  if vertex_eq_dec u v then true else false.

Definition edge : Type := (vertex * vertex)%type.

Definition edge_eq_dec (e f : edge) : {e = f} + {e <> f}.
Proof. decide equality; apply vertex_eq_dec. Defined.

Definition edge_eqb (e f : edge) : bool :=
  if edge_eq_dec e f then true else false.

(** [index(e)] and [dir(e)]. *)
Definition index (e : edge) : Z := Z.min (vindex (fst e)) (vindex (snd e)).
Definition dir (e : edge) : Z := vindex (snd e) - vindex (fst e).

(* ================================================================== *)
(** * Python containers *)

(** [x in l] *)
Definition mem {A} (eqd : forall a b : A, {a = b} + {a <> b}) (x : A) (l : list A) : bool :=
  if in_dec eqd x l then true else false.

Definition memv := mem vertex_eq_dec.
Definition meme := mem edge_eq_dec.

(** A [set] is kept as a duplicate-free list; [set.add]. *)
Definition set_add {A} (eqd : forall a b : A, {a = b} + {a <> b}) (x : A) (l : list A) : list A :=
  if in_dec eqd x l then l else l ++ [x].

Definition set_union {A} (eqd : forall a b : A, {a = b} + {a <> b}) (l r : list A) : list A :=
  fold_left (fun acc x => set_add eqd x acc) r l.

Definition set_of {A} (eqd : forall a b : A, {a = b} + {a <> b}) (l : list A) : list A :=
  set_union eqd [] l.

(** [list.remove(x)]: drops the first occurrence, [ValueError] when absent. *)
Fixpoint list_remove {A} (eqd : forall a b : A, {a = b} + {a <> b}) (x : A) (l : list A)
  : outcome (list A) :=
  match l with
  | [] => Raise ValueError
  | y :: r => if eqd x y then Ret r
              else obind (list_remove eqd x r) (fun r' => Ret (y :: r'))
  end.

(** [deque.pop()] takes from the right end. *)
Definition pop_right {A} (l : list A) : option (A * list A) :=
  match rev l with
  | [] => None
  | x :: r => Some (x, rev r)
  end.

(** A [dict] in insertion order. *)
Section Dict.
Variables (K A : Type) (eqd : forall a b : K, {a = b} + {a <> b}).

Fixpoint dict_get (k : K) (d : list (K * A)) : option A :=
  match d with
  | [] => None
  | (k', a) :: r => if eqd k k' then Some a else dict_get k r
  end.

(** [d[k] = a]: overwrite in place, or append a new key. *)
Fixpoint dict_set (k : K) (a : A) (d : list (K * A)) : list (K * A) :=
  match d with
  | [] => [(k, a)]
  | (k', a') :: r => if eqd k k' then (k', a) :: r else (k', a') :: dict_set k a r
  end.
End Dict.

Definition zrange (lo hi : Z) : list Z :=
  map (fun k => lo + Z.of_nat k) (seq 0 (Z.to_nat (hi - lo))).

Fixpoint list_set {A} (n : nat) (x : A) (l : list A) : list A :=
  match l, n with
  | [], _ => []
  | _ :: r, O => x :: r
  | y :: r, S n' => y :: list_set n' x r
  end.

(** [CellArray]: a list with a movable [base], grown on out-of-range reads. *)
Record CellArray (A : Type) : Type := mkCA { base : Z; items : list A }.

Section CellArrayOps.
Variable A : Type.
(** [newItem(i)] for the array's kind, and the in-range assertion
    ([item.index == index], made for edge slices only). *)
Variable newItem : Z -> A.
Variable chk : Z -> A -> bool.

Definition ca_top (ca : CellArray A) : Z := Z.of_nat (length (items ca)) + base ca.

Definition isDefined (ca : CellArray A) (i : Z) : bool :=
  (base ca <=? i) && (i <? ca_top ca).

(** [CellArray.__getitem__]. *)
Definition ca_getitem (ca : CellArray A) (i : Z) : outcome (A * CellArray A) :=
  if isDefined ca i then
    match nth_error (items ca) (Z.to_nat (i - base ca)) with
    | Some item => if chk i item then Ret (item, ca) else Raise AssertionError
    | None => Raise IndexError
    end
  else
    let up := map newItem (zrange (ca_top ca) (i + 1)) in
    let down := map newItem (zrange i (base ca)) in
    Ret (newItem i,
         mkCA (if i <? base ca then i else base ca) (down ++ items ca ++ up)).

(** The item object stored under [i] is mutated in place. *)
Definition ca_store (ca : CellArray A) (i : Z) (x : A) : CellArray A :=
  mkCA (base ca) (list_set (Z.to_nat (i - base ca)) x (items ca)).

(** [CellArray.__setitem__]. *)
Definition ca_setitem (ca : CellArray A) (i : Z) (x : A) : outcome (CellArray A) :=
  if (i <=? ca_top ca) && (base ca - 1 <=? i) then
    if i =? base ca - 1 then Ret (mkCA (base ca - 1) (x :: items ca))
    else if i =? ca_top ca then Ret (mkCA (base ca) (items ca ++ [x]))
    else Ret (ca_store ca i x)
  else Raise AssertionError.
End CellArrayOps.

(* ================================================================== *)
(** * Edge storage *)

Record EdgeListOf : Type := mkEL
  { at_ : vertex;
    left_incoming : list vertex;
    left_outgoing : list vertex;
    right_incoming : list vertex;
    right_outgoing : list vertex }.

Definition new_EdgeListOf (v : vertex) : EdgeListOf := mkEL v [] [] [] [].

Record EdgeSlice : Type := mkES
  { es_index : Z;
    edges : list (vertex * EdgeListOf);   (* dict keyed by [vertex.key] *)
    edgeCount : Z }.

Definition new_EdgeSlice (i : Z) : EdgeSlice := mkES i [] 0.

(** [EdgeSlice.__getitem__]: asserts the vertex belongs to the slice and
    materialises an empty [EdgeListOf] on first access. *)
Definition es_getitem (s : EdgeSlice) (v : vertex) : outcome (EdgeListOf * EdgeSlice) :=
  if (es_index s =? vindex v) || (es_index s =? vindex v - 1) then
    match dict_get vertex_eq_dec v (edges s) with
    | Some el => Ret (el, s)
    | None =>
        let el := new_EdgeListOf v in
        Ret (el, mkES (es_index s) (dict_set vertex_eq_dec v el (edges s)) (edgeCount s))
    end
  else Raise AssertionError.

Definition es_size (s : EdgeSlice) : Z := edgeCount s.

(* ================================================================== *)
(** * Vertex storage: [V[index][tier][state][symbol]] *)

(** A [TransitionCase] is a [set] of vertices carrying its four fields. *)
Record TransitionCase : Type := mkTC { tc_key : TKey; tc_members : list vertex }.

Record SymbolDict : Type := mkSyD
  { sy_index : Z; sy_tier : nat; sy_state : string;
    sy_items : list (string * TransitionCase) }.

Record StateDict : Type := mkStD
  { sd_index : Z; sd_tier : nat; sd_items : list (string * SymbolDict) }.

Record TierArray : Type := mkTA { cell_index : Z; ta_items : list StateDict }.

Definition Vaxis : Type := CellArray TierArray.

Definition new_TierArray (i : Z) : TierArray := mkTA i [].
Definition new_StateDict (i : Z) (t : nat) : StateDict := mkStD i t [].
Definition new_SymbolDict (i : Z) (t : nat) (q : string) : SymbolDict := mkSyD i t q [].

(** [TransitionCase.__init__]: a floor case is born with its one vertex. *)
Definition new_TransitionCase (i : Z) (t : nat) (q s : string) : TransitionCase :=
  mkTC (mkT i t q s) (match t with O => [Floor i q s] | S _ => [] end).

(** [TierArray.__getitem__]: appends the missing tiers. *)
Definition ta_getitem (ta : TierArray) (t : nat) : outcome (StateDict * TierArray) :=
  let n := length (ta_items ta) in
  let ta' := mkTA (cell_index ta)
               (ta_items ta ++ map (fun k => new_StateDict (cell_index ta) k) (seq n (S t - n))) in
  match nth_error (ta_items ta') t with
  | Some d => Ret (d, ta')
  | None => Raise IndexError
  end.

(** [StateDict.__getitem__]. *)
Definition sd_getitem (d : StateDict) (q : string) : outcome (SymbolDict * StateDict) :=
  match dict_get string_dec q (sd_items d) with
  | Some y => Ret (y, d)
  | None =>
      let y := new_SymbolDict (sd_index d) (sd_tier d) q in
      Ret (y, mkStD (sd_index d) (sd_tier d) (dict_set string_dec q y (sd_items d)))
  end.

(* ================================================================== *)
(** * The heap *)

Record Graph : Type := mkG
  { gV : nat;                       (* reference to the vertex axis [self.V] *)
    gE : CellArray EdgeSlice;       (* [self.E] *)
    gcount : Z }.                   (* [self.__edgeCount] *)

Record heap : Type := mkH
  { h_graph : nat -> Graph; h_ngraph : nat;
    h_vaxis : nat -> Vaxis; h_nvaxis : nat }.

Definition empty_heap : heap :=
  mkH (fun _ => mkG O (mkCA 0 []) 0) O (fun _ => mkCA 0 []) O.

Definition M (A : Type) : Type := heap -> outcome (A * heap).

Definition ret {A} (a : A) : M A := fun h => Ret (a, h).
Definition bind {A B} (m : M A) (f : A -> M B) : M B :=
  fun h => match m h with
           | Ret (a, h') => f a h'
           | Raise x => Raise x
           | OutOfFuel => OutOfFuel
           end.
Definition raise {A} (x : exn) : M A := fun _ => Raise x.
Definition out_of_fuel {A} : M A := fun _ => OutOfFuel.
Definition lift {A} (o : outcome A) : M A :=
  fun h => match o with Ret a => Ret (a, h) | Raise x => Raise x | OutOfFuel => OutOfFuel end.
Definition assert_ (b : bool) : M unit := if b then ret tt else raise AssertionError.

Declare Scope m_scope.
Delimit Scope m_scope with m.
Notation "x <- m ;; k" := (bind m (fun x => k))
  (at level 61, m at next level, right associativity) : m_scope.
Notation "' p <- m ;; k" := (bind m (fun x => match x with p => k end))
  (at level 61, p pattern, m at next level, right associativity) : m_scope.
Notation "m ;; k" := (bind m (fun _ => k))
  (at level 61, right associativity) : m_scope.
Open Scope m_scope.

Fixpoint foldM {A B} (f : B -> A -> M B) (l : list A) (b : B) : M B :=
  match l with
  | [] => ret b
  | x :: r => b' <- f b x ;; foldM f r b'
  end.

Definition forM_ {A} (l : list A) (f : A -> M unit) : M unit :=
  foldM (fun _ x => f x) l tt.

Fixpoint filterM {A} (p : A -> M bool) (l : list A) : M (list A) :=
  match l with
  | [] => ret []
  | x :: r => b <- p x ;; r' <- filterM p r ;; ret (if b then x :: r' else r')
  end.

Definition gref : Type := nat.

Definition get_graph (g : gref) : M Graph := fun h => Ret (h_graph h g, h).
Definition put_graph (g : gref) (G : Graph) : M unit :=
  fun h => Ret (tt, mkH (fun k => if Nat.eqb k g then G else h_graph h k) (h_ngraph h)
                        (h_vaxis h) (h_nvaxis h)).
Definition get_vaxis (r : nat) : M Vaxis := fun h => Ret (h_vaxis h r, h).
Definition put_vaxis (r : nat) (V : Vaxis) : M unit :=
  fun h => Ret (tt, mkH (h_graph h) (h_ngraph h)
                        (fun k => if Nat.eqb k r then V else h_vaxis h k) (h_nvaxis h)).

(** [DynamicComputationGraph()]: a fresh graph over a fresh vertex axis. *)
Definition DynamicComputationGraph : M gref :=
  fun h =>
    let r := h_nvaxis h in
    let g := h_ngraph h in
    Ret (g, mkH (fun k => if Nat.eqb k g then mkG r (mkCA 0 []) 0 else h_graph h k) (S g)
                (fun k => if Nat.eqb k r then mkCA 0 [] else h_vaxis h k) (S r)).

(* ================================================================== *)
(** * The machine: transition oracle, alphabet, iteration order of sets *)

Section Machine.

(** [TransitionCase.delta] and [SymbolDict.symbols], set once by
    [initialize]. *)
Variable delta : string -> string -> string * string * Z.
Variable symbols : list string.

(** Python leaves the order in which a [set] is iterated unspecified; every
    place that iterates a set, or turns it into a sequence, goes through
    [iter_v] or [iter_e]. *)
Variable iter_v : list vertex -> list vertex.
Variable iter_e : list edge -> list edge.

Definition output (v : vertex) : string := snd (fst (delta (vstate v) (vsymbol v))).
Definition next_state (v : vertex) : string := fst (fst (delta (vstate v) (vsymbol v))).
Definition next_index (v : vertex) : Z := snd (delta (vstate v) (vsymbol v)) + vindex v.

(** [SymbolDict.__getitem__]: creates the case of a known symbol, fails the
    assertion on an unknown one. *)
Definition syd_getitem (d : SymbolDict) (s : string)
  : outcome (TransitionCase * SymbolDict) :=
  match dict_get string_dec s (sy_items d) with
  | Some T => Ret (T, d)
  | None =>
      if mem string_dec s symbols then
        let T := new_TransitionCase (sy_index d) (sy_tier d) (sy_state d) s in
        Ret (T, mkSyD (sy_index d) (sy_tier d) (sy_state d)
                      (dict_set string_dec s T (sy_items d)))
      else Raise AssertionError
  end.

(** [x.state == P.state] inside [TransitionCase.vertex]: [x] is a [vertex],
    whose [state] and [symbol] are methods; the bound method is compared with
    the string without being called, and is never equal to it. *)
Definition method_eq_str (x : vertex) (s : string) : bool := false.

(** [TransitionCase.vertex(P)].  The result is [None] for a floor case that
    is given a precedent. *)
Definition TransitionCase_vertex (T : TransitionCase) (P : option TKey)
  : outcome (option vertex * TransitionCase) :=
  match t_tier (tc_key T) with
  | O =>
      match P with
      | Some _ => Ret (None, T)
      | None => match iter_v (tc_members T) with
                | v :: _ => Ret (Some v, T)
                | [] => Raise IndexError
                end
      end
  | S t =>
      match P with
      | None => Raise AttributeError
      | Some p =>
          if negb (t_index p =? t_index (tc_key T)) then Raise AssertionError
          else if negb (Nat.eqb (t_tier p) t) then Raise AssertionError
          else
            let items_ :=
              filter (fun x => method_eq_str x (t_state p) && method_eq_str x (t_symbol p))
                     (iter_v (tc_members T)) in
            match items_ with
            | x :: _ => Ret (Some x, T)
            | [] =>
                obind (mk_vertex (tc_key T) (Some p)) (fun v =>
                  Ret (Some v, mkTC (tc_key T) (set_add vertex_eq_dec v (tc_members T))))
            end
      end
  end.

(** [V[i][t]], materialising the cell and the tiers. *)
Definition V_tier (V : Vaxis) (i : Z) (t : nat) : outcome (StateDict * Vaxis) :=
  obind (ca_getitem new_TierArray (fun _ _ => true) V i) (fun '(ta, V1) =>
  obind (ta_getitem ta t) (fun '(d, ta1) =>
  Ret (d, ca_store V1 i ta1))).

(** [V[i][t][q][s]], materialising the whole path; [f] is what the caller
    then does to the case object in place. *)
Definition V_case (f : TransitionCase -> TransitionCase)
    (V : Vaxis) (i : Z) (t : nat) (q s : string) : outcome (TransitionCase * Vaxis) :=
  obind (ca_getitem new_TierArray (fun _ _ => true) V i) (fun '(ta, V1) =>
  obind (ta_getitem ta t) (fun '(d, ta1) =>
  obind (sd_getitem d q) (fun '(y, d1) =>
  obind (syd_getitem y s) (fun '(T, y1) =>
    let T' := f T in
    let y2 := mkSyD (sy_index y1) (sy_tier y1) (sy_state y1)
                    (dict_set string_dec s T' (sy_items y1)) in
    let d2 := mkStD (sd_index d1) (sd_tier d1) (dict_set string_dec q y2 (sd_items d1)) in
    let ta2 := mkTA (cell_index ta1) (list_set t d2 (ta_items ta1)) in
    Ret (T', ca_store V1 i ta2))))).

(* ------------------------------------------------------------------ *)
(** ** Access to [self.E] *)

(** [self.E[i]] *)
Definition E_getitem (g : gref) (i : Z) : M EdgeSlice :=
  G <- get_graph g ;;
  '(s, E') <- lift (ca_getitem new_EdgeSlice (fun k s => es_index s =? k) (gE G) i) ;;
  put_graph g (mkG (gV G) E' (gcount G)) ;;
  ret s.

(** The slice object [self.E[i]] after an in-place change. *)
Definition E_setslice (g : gref) (i : Z) (s : EdgeSlice) : M unit :=
  G <- get_graph g ;;
  put_graph g (mkG (gV G) (ca_store (gE G) i s) (gcount G)).

(** [self.E[i][v]] *)
Definition E_at (g : gref) (i : Z) (v : vertex) : M EdgeListOf :=
  s <- E_getitem g i ;;
  '(el, s') <- lift (es_getitem s v) ;;
  E_setslice g i s' ;;
  ret el.

(** The list object [self.E[i][v]] after an in-place change. *)
Definition E_put (g : gref) (i : Z) (v : vertex) (el : EdgeListOf) : M unit :=
  s <- E_getitem g i ;;
  E_setslice g i (mkES (es_index s) (dict_set vertex_eq_dec v el (edges s)) (edgeCount s)).

(** [self.E[i].edgeCount += d] *)
Definition E_count_add (g : gref) (i : Z) (d : Z) : M unit :=
  s <- E_getitem g i ;;
  E_setslice g i (mkES (es_index s) (edges s) (edgeCount s + d)).

(** [self.__edgeCount += d] *)
Definition count_add (g : gref) (d : Z) : M unit :=
  G <- get_graph g ;;
  put_graph g (mkG (gV G) (gE G) (gcount G + d)).

(** [self.V[i][t][q][s]], followed by the in-place change [f]. *)
Definition V_at (f : TransitionCase -> TransitionCase)
    (g : gref) (i : Z) (t : nat) (q s : string) : M TransitionCase :=
  G <- get_graph g ;;
  V <- get_vaxis (gV G) ;;
  '(T, V') <- lift (V_case f V i t q s) ;;
  put_vaxis (gV G) V' ;;
  ret T.

(* ------------------------------------------------------------------ *)
(** ** [DynamicComputationGraph] methods *)

Definition size (g : gref) : M Z := G <- get_graph g ;; ret (gcount G).

Definition incomingEdgeOf (g : gref) (v : vertex) : M (list edge) :=
  let i := vindex v in
  a <- E_at g i v ;;
  b <- E_at g (i - 1) v ;;
  ret (map (fun w => (w, v)) (right_incoming a ++ left_incoming b)).

Definition outgoingEdgeOf (g : gref) (v : vertex) : M (list edge) :=
  let i := vindex v in
  a <- E_at g i v ;;
  b <- E_at g (i - 1) v ;;
  ret (map (fun w => (v, w)) (right_outgoing a ++ left_outgoing b)).

Definition nonempty {A} (l : list A) : bool := match l with [] => false | _ => true end.

(** Each condition reads the same list object twice; the second read finds
    the entry the first one materialised. *)
Definition isFoldingNode (g : gref) (v : vertex) : M bool :=
  let i := vindex v in
  a <- E_at g (i - 1) v ;;
  if nonempty (left_incoming a) && nonempty (left_outgoing a) then ret true
  else
    b <- E_at g i v ;;
    ret (nonempty (right_incoming b) && nonempty (right_outgoing b)).

Definition hasEdge (g : gref) (e : edge) : M bool :=
  let '(u, v) := e in
  let i := Z.min (vindex u) (vindex v) in
  a <- E_at g i u ;;
  if memv v (right_outgoing a) then ret true
  else
    b <- E_at g i v ;;
    ret (memv u (right_incoming b)).

Definition addVertex (g : gref) (v : vertex) : M unit :=
  _ <- V_at (fun T => mkTC (tc_key T) (set_add vertex_eq_dec v (tc_members T)))
            g (vindex v) (vtier v) (vstate v) (vsymbol v) ;;
  ret tt.

Definition addEdge (g : gref) (e : edge) : M unit :=
  let '(u, v) := e in
  let i := Z.min (vindex u) (vindex v) in
  s <- E_getitem g i ;;
  assert_ (i =? es_index s) ;;
  assert_ (negb (Z.abs (vindex u - vindex v) =? 0)) ;;
  b <- hasEdge g e ;;
  if b then ret tt
  else
    addVertex g u ;;
    addVertex g v ;;
    (if vindex u <? vindex v then
       a <- E_at g (vindex u) u ;;
       E_put g (vindex u) u (mkEL (at_ a) (left_incoming a) (left_outgoing a)
                                  (right_incoming a) (right_outgoing a ++ [v])) ;;
       c <- E_at g (vindex u) v ;;
       E_put g (vindex u) v (mkEL (at_ c) (left_incoming c ++ [u]) (left_outgoing c)
                                  (right_incoming c) (right_outgoing c))
     else
       a <- E_at g (vindex v) u ;;
       E_put g (vindex v) u (mkEL (at_ a) (left_incoming a) (left_outgoing a ++ [v])
                                  (right_incoming a) (right_outgoing a)) ;;
       c <- E_at g (vindex v) v ;;
       E_put g (vindex v) v (mkEL (at_ c) (left_incoming c) (left_outgoing c)
                                  (right_incoming c ++ [u]) (right_outgoing c))) ;;
    E_count_add g i 1 ;;
    count_add g 1.

Definition removeEdge (g : gref) (e : edge) : M unit :=
  let '(u, v) := e in
  b <- hasEdge g e ;;
  if negb b then ret tt
  else
    (if vindex u <? vindex v then
       a <- E_at g (vindex u) u ;;
       l <- lift (list_remove vertex_eq_dec v (right_outgoing a)) ;;
       E_put g (vindex u) u (mkEL (at_ a) (left_incoming a) (left_outgoing a)
                                  (right_incoming a) l) ;;
       c <- E_at g (vindex u) v ;;
       l' <- lift (list_remove vertex_eq_dec u (left_incoming c)) ;;
       E_put g (vindex u) v (mkEL (at_ c) l' (left_outgoing c)
                                  (right_incoming c) (right_outgoing c)) ;;
       E_count_add g (vindex u) (-1)
     else
       a <- E_at g (vindex v) u ;;
       l <- lift (list_remove vertex_eq_dec v (left_outgoing a)) ;;
       E_put g (vindex v) u (mkEL (at_ a) (left_incoming a) l
                                  (right_incoming a) (right_outgoing a)) ;;
       c <- E_at g (vindex v) v ;;
       l' <- lift (list_remove vertex_eq_dec u (right_incoming c)) ;;
       E_put g (vindex v) v (mkEL (at_ c) (left_incoming c) (left_outgoing c)
                                  l' (right_outgoing c)) ;;
       E_count_add g (vindex v) (-1)) ;;
    count_add g (-1).

Definition isSplittingEdge (g : gref) (e : edge) : M bool :=
  b <- hasEdge g e ;;
  assert_ b ;;
  let '(u, v) := e in
  if vindex u <? vindex v then
    a <- E_at g (vindex u) u ;; ret (1 <? Z.of_nat (length (right_outgoing a)))
  else
    a <- E_at g (vindex v) u ;; ret (1 <? Z.of_nat (length (left_outgoing a))).

Definition isMergingEdge (g : gref) (e : edge) : M bool :=
  b <- hasEdge g e ;;
  assert_ b ;;
  let '(u, v) := e in
  if vindex u <? vindex v then
    a <- E_at g (vindex u) v ;; ret (1 <? Z.of_nat (length (left_incoming a)))
  else
    a <- E_at g (vindex v) v ;; ret (1 <? Z.of_nat (length (right_incoming a))).

Definition getNextEdges (g : gref) (e : edge) : M (list edge) := outgoingEdgeOf g (snd e).
Definition getPrevEdges (g : gref) (e : edge) : M (list edge) := incomingEdgeOf g (fst e).

(** What [IPrecedent] returns: a plain [set()] on the floor, the
    [TransitionCase] object (itself a set of vertices) above it. *)
Inductive vset : Type :=
| PlainSet (l : list vertex)
| CaseSet (T : TransitionCase).

Definition elems (p : vset) : list vertex :=
  match p with PlainSet l => l | CaseSet T => tc_members T end.

Definition IPrecedent (g : gref) (v : vertex) : M vset :=
  match v with
  | Floor _ _ _ => ret (PlainSet [])
  | Upper i t _ _ pq ps => T <- V_at (fun T => T) g i t pq ps ;; ret (CaseSet T)
  end.

(** [s.pred == v.T]: [TransitionCase.__eq__] reads the four fields of both
    sides, so a [None] predecessor is an attribute error. *)
Definition pred_is (T : TKey) (s : vertex) : outcome bool :=
  match pred s with
  | Some p => Ret (TKey_eqb p T)
  | None => Raise AttributeError
  end.

Fixpoint filterO {A} (p : A -> outcome bool) (l : list A) : outcome (list A) :=
  match l with
  | [] => Ret []
  | x :: r => obind (p x) (fun b => obind (filterO p r) (fun r' =>
                Ret (if b then x :: r' else r')))
  end.

Definition ISuccedent (g : gref) (v : vertex) : M (list vertex) :=
  let i := vindex v in
  let t := S (vtier v) in
  let s := output v in
  G <- get_graph g ;;
  V <- get_vaxis (gV G) ;;
  '(d, V') <- lift (V_tier V i t) ;;
  put_vaxis (gV G) V' ;;
  S_ <- foldM (fun S_ q =>
                 T <- V_at (fun T => T) g i t q s ;;
                 L <- lift (filterO (pred_is (transitionCase v)) (iter_v (tc_members T))) ;;
                 ret (S_ ++ L))
              (map fst (sd_items d)) [] ;;
  ret (set_of vertex_eq_dec S_).

Definition CountIPrecedents (g : gref) (e : edge) : M Z :=
  let i := Z.min (vindex (fst e)) (vindex (snd e)) in
  _ <- E_getitem g i ;;
  P <- IPrecedent g (snd e) ;;
  foldM (fun cnt p =>
           a <- E_at g i p ;;
           ret (cnt + Z.of_nat (length (right_outgoing a)) + Z.of_nat (length (left_outgoing a))))
        (iter_v (elems P)) 0.

Definition CountISuccedents (g : gref) (e : edge) : M Z :=
  let i := Z.min (vindex (fst e)) (vindex (snd e)) in
  _ <- E_getitem g i ;;
  S_ <- ISuccedent g (fst e) ;;
  foldM (fun cnt s =>
           a <- E_at g i s ;;
           ret (cnt + Z.of_nat (length (left_incoming a)) + Z.of_nat (length (right_incoming a))))
        (iter_v S_) 0.

Definition GetIPrecedents (g : gref) (e : edge) : M (list edge) :=
  let '(u, v) := e in
  if Nat.eqb (vtier v) 0 then ret []
  else
    Pv <- IPrecedent g v ;;
    P <- foldM (fun P v_ =>
                  O_ <- outgoingEdgeOf g v_ ;;
                  foldM (fun P f =>
                           let u_ := snd f in
                           Pu <- IPrecedent g u ;;
                           if memv u_ (elems Pu) || vertex_eqb u u_
                              || (Z.of_nat (vtier u_) <? Z.of_nat (vtier u) - 1)
                           then ret (P ++ [(fst f, u_)]) else ret P)
                        O_ P)
               (iter_v (elems Pv)) [] ;;
    ret (set_of edge_eq_dec P).

Definition GetISuccedents (g : gref) (e : edge) : M (list edge) :=
  let '(u, v) := e in
  Su <- ISuccedent g u ;;
  S_ <- foldM (fun S_ u_ =>
                 I_ <- incomingEdgeOf g u_ ;;
                 foldM (fun S_ f =>
                          let v_ := fst f in
                          Sv <- ISuccedent g v ;;
                          if memv v_ Sv || vertex_eqb v v_
                             || (Z.of_nat (vtier v) + 1 <? Z.of_nat (vtier v_))
                          then ret (S_ ++ [(v_, u_)]) else ret S_)
                       I_ S_)
              (iter_v Su) [] ;;
  ret (set_of edge_eq_dec S_).

(** [while self.E[m].size()==0: m+=d], started by [minEdgeIndex] at the
    bottom of [V] with [d = 1] and by [maxEdgeIndex] at its top with
    [d = -1]. *)
Fixpoint scanEdgeIndex (fuel : nat) (g : gref) (d m : Z) : M Z :=
  match fuel with
  | O => out_of_fuel
  | S fuel' =>
      s <- E_getitem g m ;;
      if es_size s =? 0 then scanEdgeIndex fuel' g d (m + d) else ret m
  end.

Definition minEdgeIndex (fuel : nat) (g : gref) : M Z :=
  G <- get_graph g ;;
  V <- get_vaxis (gV G) ;;
  scanEdgeIndex fuel g 1 (base V).

Definition maxEdgeIndex (fuel : nat) (g : gref) : M Z :=
  G <- get_graph g ;;
  V <- get_vaxis (gV G) ;;
  scanEdgeIndex fuel g (-1) (base V + Z.of_nat (length (items V)) - 1).

Definition getCopyedGraph (fuel : nat) (g : gref) : M gref :=
  G <- DynamicComputationGraph ;;
  n <- size g ;;
  if n =? 0 then ret G
  else
    self <- get_graph g ;;
    copy <- get_graph G ;;
    put_graph G (mkG (gV self) (gE copy) (gcount copy)) ;;
    m <- minEdgeIndex fuel g ;;
    M_ <- maxEdgeIndex fuel g ;;
    forM_ (zrange m (M_ + 1)) (fun i =>
      s <- E_getitem g i ;;
      forM_ (map snd (edges s)) (fun elist =>
        let u := at_ elist in
        forM_ (right_incoming elist) (fun v => addEdge G (v, u)) ;;
        forM_ (right_outgoing elist) (fun v => addEdge G (u, v)))) ;;
    ret G.

(** [deque.popleft()] is the head of the list; the loop of
    [GetWeakCeilingAdjacentEdges]. *)
Fixpoint weakCeilingLoop (fuel : nat) (g : gref) (v0 : vertex)
    (Q Vv : list vertex) (C : list edge) : M (list edge) :=
  match fuel with
  | O => out_of_fuel
  | S fuel' =>
      match Q with
      | [] => ret C
      | u :: Q' =>
          if memv u Vv then weakCeilingLoop fuel' g v0 Q' Vv C
          else
            let Vv' := set_add vertex_eq_dec u Vv in
            fold <- isFoldingNode g u ;;
            if fold || vertex_eqb u v0 then
              P <- IPrecedent g u ;;
              weakCeilingLoop fuel' g v0 (Q' ++ iter_v (elems P)) Vv' C
            else
              I_ <- incomingEdgeOf g u ;;
              weakCeilingLoop fuel' g v0 Q' Vv' (set_union edge_eq_dec C I_)
      end
  end.

Definition GetWeakCeilingAdjacentEdges (fuel : nat) (g : gref) (e0 : edge) (Ef : list edge)
  : M (list edge) :=
  let '(u0, v0) := e0 in
  let Q := [u0] ++ (if meme e0 Ef then [v0] else []) in
  weakCeilingLoop fuel g v0 Q [] [].

(* ------------------------------------------------------------------ *)
(** ** feasibleGraph.py *)

(** [CellArray(TYPE_SET)]: one set of edges per index. *)
Definition EdgeSets : Type := CellArray (list edge).

(** [C[i]] *)
Definition C_getitem (C : EdgeSets) (i : Z) : M (list edge * EdgeSets) :=
  lift (ca_getitem (fun _ => []) (fun _ _ => true) C i).

(** [C[i].add(e)] *)
Definition C_add (C : EdgeSets) (i : Z) (e : edge) : M EdgeSets :=
  '(l, C1) <- C_getitem C i ;;
  ret (ca_store C1 i (set_add edge_eq_dec e l)).

Fixpoint collectLoop (fuel : nat) (g : gref) (C0 : EdgeSets)
    (Q Ev : list edge) (C : EdgeSets) : M EdgeSets :=
  match fuel with
  | O => out_of_fuel
  | S fuel' =>
      match pop_right Q with
      | None => ret C
      | Some (e, Q') =>
          if meme e Ev then collectLoop fuel' g C0 Q' Ev C
          else
            let i := index e in
            '(l0, C0') <- C_getitem C0 i ;;
            C' <- (if meme e l0 then C_add C i e else ret C) ;;
            I_ <- incomingEdgeOf g (fst e) ;;
            collectLoop fuel' g C0' (Q' ++ I_) (set_add edge_eq_dec e Ev) C'
      end
  end.

Definition collectEdgesWithPath (fuel : nat) (g : gref) (C0 : EdgeSets) (Ef : list edge)
  : M EdgeSets :=
  collectLoop fuel g C0 (iter_e Ef) [] (mkCA 0 []).

Fixpoint coverLoop (fuel : nat) (g : gref) (Ef : list edge)
    (Q : list edge) (C : EdgeSets) : M EdgeSets :=
  match fuel with
  | O => out_of_fuel
  | S fuel' =>
      match Q with
      | [] => ret C
      | f :: Q' =>
          Ec <- GetWeakCeilingAdjacentEdges fuel g f Ef ;;
          '(Q'', C') <-
             foldM (fun '(Q1, C1) e =>
                      let i := index e in
                      '(l, C2) <- C_getitem C1 i ;;
                      if meme e l then ret (Q1, C2)
                      else C3 <- C_add C2 i e ;; ret (Q1 ++ [e], C3))
                   (iter_e Ec) (Q', C) ;;
          coverLoop fuel' g Ef Q'' C'
      end
  end.

Definition ComputeCoverEdges (fuel : nat) (g : gref) (Ef : list edge) : M EdgeSets :=
  C <- foldM (fun C f => C_add C (index f) f) (iter_e Ef) (mkCA 0 []) ;;
  C' <- coverLoop fuel g Ef (iter_e Ef) C ;;
  collectEdgesWithPath fuel g C' Ef.

Fixpoint reachableLoop (fuel : nat) (G H : gref) (V0 : list vertex) (Ef : list edge)
    (T Er : list edge) (C : EdgeSets) : M (list edge * EdgeSets) :=
  match fuel with
  | O => out_of_fuel
  | S fuel' =>
      match pop_right T with
      | None => ret (Er, C)
      | Some (f, T') =>
          let i := index f in
          b <- hasEdge H f ;;
          if b then reachableLoop fuel' G H V0 Ef T' Er C
          else
            addEdge H f ;;
            let '(u, v) := f in
            '(l, C1) <- C_getitem C i ;;
            Er1 <- (if negb (meme f l) then
                      n <- CountISuccedents G f ;;
                      ret (if n =? 0 then set_add edge_eq_dec f Er else Er)
                    else ret Er) ;;
            Er2 <- (if (0 <? Z.of_nat (vtier v)) then
                      n <- CountIPrecedents G f ;;
                      ret (if n =? 0 then set_add edge_eq_dec f Er1 else Er1)
                    else ret Er1) ;;
            '(T1, Er3) <- (if negb (meme f Ef) then
                             En <- getNextEdges G f ;;
                             ret (match En with
                                  | [] => (T', set_add edge_eq_dec f Er2)
                                  | _ => (T' ++ En, Er2)
                                  end)
                           else ret (T', Er2)) ;;
            '(T2, Er4) <- (if negb (memv u V0) then
                             Eb <- getPrevEdges G f ;;
                             ret (match Eb with
                                  | [] => (T1, set_add edge_eq_dec f Er3)
                                  | _ => (T1 ++ Eb, Er3)
                                  end)
                           else ret (T1, Er3)) ;;
            reachableLoop fuel' G H V0 Ef T2 Er4 C1
      end
  end.

(** Returns [H], [Er], and the cover set, whose cells the membership tests
    materialise. *)
Definition GetStepPendentEdgesWithReachableGraph (fuel : nat) (G : gref) (C : EdgeSets)
    (V0 : list vertex) (Ef : list edge) : M (gref * list edge * EdgeSets) :=
  E0 <- foldM (fun E0 v0 => O_ <- outgoingEdgeOf G v0 ;; ret (set_union edge_eq_dec E0 O_))
              (iter_v V0) [] ;;
  H <- DynamicComputationGraph ;;
  '(Er, C') <- reachableLoop fuel G H V0 Ef (iter_e E0) [] C ;;
  ret (H, Er, C').

Definition set_remove (e : edge) (l : list edge) : list edge :=
  filter (fun f => negb (edge_eqb e f)) l.

Fixpoint cascadeLoop (fuel : nat) (H : gref) (Ef : list edge)
    (T Ef_ : list edge) (C : EdgeSets) : M gref :=
  match fuel with
  | O => out_of_fuel
  | S fuel' =>
      match pop_right T with
      | None => ret H
      | Some (e, T0) =>
          b <- hasEdge H e ;;
          if negb b then cascadeLoop fuel' H Ef T0 Ef_ C
          else
            mg <- isMergingEdge H e ;;
            T1 <- (if negb mg then E_ <- getNextEdges H e ;; ret (T0 ++ E_) else ret T0) ;;
            Es <- GetISuccedents H e ;;
            T2 <- foldM (fun T f =>
                           n <- CountIPrecedents H f ;;
                           ret (if n =? 1 then T ++ [f] else T))
                        (iter_e Es) T1 ;;
            Ep <- GetIPrecedents H e ;;
            '(T3, C1) <-
               foldM (fun '(T, C) f =>
                        '(l, C') <- C_getitem C (index f) ;;
                        if meme f l then ret (T, C')
                        else
                          n <- CountISuccedents H f ;;
                          ret (if n =? 1 then T ++ [f] else T, C'))
                     (iter_e Ep) (T2, C) ;;
            sp <- isSplittingEdge H e ;;
            T4 <- (if negb sp then
                     P_ <- getPrevEdges H e ;;
                     ret (T3 ++ filter (fun f => negb (meme f Ef)) P_)   (* final edges stay *)
                   else ret T3) ;;
            removeEdge H e ;;
            if meme e Ef_ then
              let Ef_' := set_remove e Ef_ in
              match Ef_' with
              | [] => DynamicComputationGraph
              | _ => cascadeLoop fuel' H Ef T4 Ef_' C1
              end
            else cascadeLoop fuel' H Ef T4 Ef_ C1
      end
  end.

Definition ComputeFeasibleGraph (fuel : nat) (G : gref) (V0 : list vertex)
    (Ef Er_ : list edge) : M gref :=
  C <- ComputeCoverEdges fuel G Ef ;;
  '(H, Er, C') <- GetStepPendentEdgesWithReachableGraph fuel G C V0 Ef ;;
  cascadeLoop fuel H Ef (iter_e (set_union edge_eq_dec Er Er_)) Ef C'.

(* ------------------------------------------------------------------ *)
(** ** verificationWalk.py *)

Fixpoint obsoleteLoop (fuel : nat) (G_U G : gref) (T Ev Eo : list edge) : M (list edge) :=
  match fuel with
  | O => out_of_fuel
  | S fuel' =>
      match pop_right T with
      | None => ret Eo
      | Some (e, T') =>
          if meme e Ev then obsoleteLoop fuel' G_U G T' Ev Eo
          else
            let Ev' := set_add edge_eq_dec e Ev in
            b <- hasEdge G e ;;
            if b then
              En <- getNextEdges G_U e ;;
              obsoleteLoop fuel' G_U G (T' ++ En) Ev' Eo
            else if 0 <? Z.of_nat (vtier (snd e)) then
              n <- CountIPrecedents G e ;;
              if 0 <? n then
                addEdge G e ;;
                obsoleteLoop fuel' G_U G T' Ev' (set_add edge_eq_dec e Eo)
              else obsoleteLoop fuel' G_U G T' Ev' Eo
            else obsoleteLoop fuel' G_U G T' Ev' Eo
      end
  end.

Definition AddFinalEdgesOfObsoleteWalks (fuel : nat) (G_U G : gref) (V0 : list vertex)
  : M (list edge) :=
  ES <- foldM (fun ES v0 => O_ <- outgoingEdgeOf G_U v0 ;;
                            ret (set_union edge_eq_dec ES (set_of edge_eq_dec O_)))
              (iter_v V0) [] ;;
  obsoleteLoop fuel G_U G (iter_e ES) [] [].

Fixpoint FindFirstMergingEdgeOrFinalEdge (G : gref) (W : list edge) : M edge :=
  match W with
  | [] => raise IndexError
  | [e] => ret e
  | e :: W' =>
      b <- isMergingEdge G e ;;
      if b then ret e else FindFirstMergingEdgeOrFinalEdge G W'
  end.

(** [any(map(lambda f_: G.hasEdge(f_), Ef))] stops at the first hit. *)
Fixpoint anyM {A} (p : A -> M bool) (l : list A) : M bool :=
  match l with
  | [] => ret false
  | x :: r => b <- p x ;; if b then ret true else anyM p r
  end.

Definition PruneWalk (fuel : nat) (G_U G : gref) (V0 : list vertex) (Ef : list edge)
    (W : list edge) (preserveObsolete : bool) : M gref :=
  e_ <- FindFirstMergingEdgeOrFinalEdge G W ;;
  Eo <- (if preserveObsolete then AddFinalEdgesOfObsoleteWalks fuel G_U G V0 else ret []) ;;
  removeEdge G e_ ;;
  G_ <- ComputeFeasibleGraph fuel G V0 (set_union edge_eq_dec Eo Ef) [] ;;
  addEdge G e_ ;;
  n <- size G_ ;;
  keep <- (if 0 <? n then anyM (hasEdge G) (iter_e Ef) else ret false) ;;
  (if keep then
     forM_ (iter_e Eo) (fun e => b <- hasEdge G_ e ;; if b then removeEdge G_ e else ret tt)
   else ret tt) ;;
  ret G_.

(** The surface: [CellArray()] of kind 0, whose new items are [None]. *)
Definition Surface : Type := CellArray (option TKey).

(** [G.IPrecedent(e[1]) == S[e[1].index()]], with [TransitionCase.__eq__]
    reading the fields of its right operand. *)
Definition consistent (G : gref) (S_ : Surface) (e : edge) : M (bool * Surface) :=
  if Nat.eqb (vtier (snd e)) 0 then ret (true, S_)
  else
    P <- IPrecedent G (snd e) ;;
    '(x, S') <- lift (ca_getitem (fun _ => None) (fun _ _ => true) S_ (vindex (snd e))) ;;
    match P, x with
    | CaseSet T, Some k => ret (TKey_eqb (tc_key T) k, S')
    | _, _ => raise AttributeError
    end.

Fixpoint walkLoop (fuel : nat) (G : gref) (S_ : Surface) (e : edge) (W : list edge)
  : M (list edge) :=
  match fuel with
  | O => out_of_fuel
  | S fuel' =>
      let '(u, v) := e in
      S1 <- lift (ca_setitem S_ (vindex u) (Some (transitionCase u))) ;;
      let W' := W ++ [e] in
      N_ <- getNextEdges G e ;;
      '(EN, S2) <- foldM (fun '(acc, S2) f =>
                            '(b, S3) <- consistent G S2 f ;;
                            ret (if b then acc ++ [f] else acc, S3))
                         N_ ([], S1) ;;
      match EN with
      | e' :: _ => walkLoop fuel' G S2 e' W'
      | [] => ret W'
      end
  end.

Definition TakeArbitraryWalk (fuel : nat) (G : gref) (V0 : list vertex) : M (list edge) :=
  match iter_v V0 with
  | [] => raise IndexError
  | v0 :: _ =>
      ES <- outgoingEdgeOf G v0 ;;
      match ES with
      | [] => ret []
      | e :: _ => walkLoop fuel G (mkCA 0 []) e []
      end
  end.

Fixpoint FindDisjointEdge (R : gref) (W : list edge) : M (option edge) :=
  match W with
  | [] => ret None
  | e :: W' => b <- hasEdge R e ;; if negb b then ret (Some e) else FindDisjointEdge R W'
  end.

Fixpoint feasibleOrDisjointLoop (fuel : nat) (G_U G R : gref) (V0 : list vertex)
    (ef : edge) : M (option edge * option (list edge)) :=
  match fuel with
  | O => out_of_fuel
  | S fuel' =>
      n <- size G ;;
      if negb (0 <? n) then ret (None, None)
      else
        W <- TakeArbitraryWalk fuel G V0 ;;
        match W with
        | [] => ret (None, None)
        | _ =>
            if meme ef W then ret (Some ef, Some W)
            else
              r <- size R ;;
              if 0 <? r then
                f <- FindDisjointEdge R W ;;
                ret (f, Some W)
              else
                H <- PruneWalk fuel G_U G V0 [ef] W false ;;
                h <- size H ;;
                if h =? 0 then
                  forM_ W (fun e => addEdge R e) ;;
                  G' <- PruneWalk fuel G_U G V0 [ef] W true ;;
                  feasibleOrDisjointLoop fuel' G_U G' R V0 ef
                else feasibleOrDisjointLoop fuel' G_U H R V0 ef
        end
  end.

Definition FindFeasibleOrDisjointEdge (fuel : nat) (G_U G : gref) (V0 : list vertex)
    (ef : edge) : M (option edge * option (list edge)) :=
  G' <- getCopyedGraph fuel G ;;
  R <- DynamicComputationGraph ;;
  feasibleOrDisjointLoop fuel G_U G' R V0 ef.

Fixpoint verifyLoop (fuel : nat) (G0 G : gref) (V0 : list vertex) (ef : edge)
  : M (option (list edge)) :=
  match fuel with
  | O => out_of_fuel
  | S fuel' =>
      n <- size G ;;
      if negb (0 <? n) then ret None
      else
        '(e, W) <- FindFeasibleOrDisjointEdge fuel G0 G V0 ef ;;
        match e with
        | None => ret None
        | Some e' =>
            if meme e' [ef] then ret W
            else
              removeEdge G e' ;;
              G' <- ComputeFeasibleGraph fuel G V0 [ef] [] ;;
              verifyLoop fuel' G0 G' V0 ef
        end
  end.

Definition VerifyExistenceOfWalk (fuel : nat) (G0 : gref) (V0 : list vertex) (ef : edge)
  : M (option (list edge)) :=
  G <- ComputeFeasibleGraph fuel G0 V0 [ef] [] ;;
  verifyLoop fuel G0 G V0 ef.

(* ------------------------------------------------------------------ *)
(** ** Graphs as the program builds them *)

(** A graph of the program is what a sequence of [addEdge] and [removeEdge]
    calls makes of [DynamicComputationGraph()]. *)
Inductive op : Type :=
| Add (e : edge)
| Remove (e : edge).

Definition apply_op (g : gref) (o : op) : M unit :=
  match o with
  | Add e => addEdge g e
  | Remove e => removeEdge g e
  end.

Definition run_ops (g : gref) (ops : list op) : M unit := forM_ ops (apply_op g).

Definition build (ops : list op) : M gref :=
  g <- DynamicComputationGraph ;; run_ops g ops ;; ret g.

(** The contract of the two calls: endpoints one index apart and over the
    alphabet for [addEdge]; endpoints that fit one slice for [removeEdge]. *)
Definition adjacentb (e : edge) : bool := Z.abs (vindex (fst e) - vindex (snd e)) =? 1.
Definition nearb (e : edge) : bool := Z.abs (vindex (fst e) - vindex (snd e)) <=? 1.
Definition over_alphabet (v : vertex) : bool := mem string_dec (vsymbol v) symbols.

Definition op_okb (o : op) : bool :=
  match o with
  | Add e => adjacentb e && over_alphabet (fst e) && over_alphabet (snd e)
  | Remove e => nearb e
  end.

End Machine.

(* ================================================================== *)
(** * Reading the containers without touching them *)

(** What [ca[i]] evaluates to, whether or not the cell is materialised. *)
Definition ca_lookup {A} (newItem : Z -> A) (ca : CellArray A) (i : Z) : A :=
  if isDefined ca i then nth (Z.to_nat (i - base ca)) (items ca) (newItem i)
  else newItem i.

Definition slice_of (G : Graph) (i : Z) : EdgeSlice :=
  ca_lookup new_EdgeSlice (gE G) i.

(** What [G.E[i][v]] evaluates to. *)
Definition el_of (G : Graph) (i : Z) (v : vertex) : EdgeListOf :=
  match dict_get vertex_eq_dec v (edges (slice_of G i)) with
  | Some el => el
  | None => new_EdgeListOf v
  end.

(** What [G.hasEdge(e)] evaluates to. *)
Definition has (G : Graph) (e : edge) : bool :=
  let i := Z.min (vindex (fst e)) (vindex (snd e)) in
  memv (snd e) (right_outgoing (el_of G i (fst e)))
  || memv (fst e) (right_incoming (el_of G i (snd e))).

(* ================================================================== *)
(** * Container lemmas *)

Unset Implicit Arguments.

Lemma zrange_length lo hi : length (zrange lo hi) = Z.to_nat (hi - lo).
Proof. unfold zrange. now rewrite length_map, length_seq. Qed.

Lemma map_nth_lt {A B} (f : A -> B) l k d d' :
  (k < length l)%nat -> nth k (map f l) d = f (nth k l d').
Proof.
  revert k; induction l as [|x l IH]; intros [|k] Hk; simpl in *; try lia; auto.
  apply IH; lia.
Qed.

Lemma zrange_nth lo hi k d :
  (k < Z.to_nat (hi - lo))%nat -> nth k (zrange lo hi) d = lo + Z.of_nat k.
Proof.
  intros Hk. unfold zrange.
  rewrite map_nth_lt with (d' := O) by (now rewrite length_seq).
  rewrite seq_nth by assumption. reflexivity.
Qed.

Lemma map_zrange_nth {A} (f : Z -> A) lo hi k d :
  (k < Z.to_nat (hi - lo))%nat -> nth k (map f (zrange lo hi)) d = f (lo + Z.of_nat k).
Proof.
  intros Hk.
  rewrite map_nth_lt with (d' := 0) by (now rewrite zrange_length).
  rewrite zrange_nth by assumption. reflexivity.
Qed.

Lemma list_set_length {A} n (x : A) l : length (list_set n x l) = length l.
Proof. revert n; induction l; destruct n; simpl; auto. Qed.

Lemma list_set_nth {A} n m (x : A) l d :
  nth m (list_set n x l) d = if Nat.eqb m n then (if (n <? length l)%nat then x else d)
                             else nth m l d.
Proof.
  revert n m; induction l as [|y l IH]; intros n m; simpl.
  - destruct m, n; simpl; auto; destruct (Nat.eqb m n); auto.
  - destruct n, m; simpl; auto.
Qed.

Section CellArrayFacts.
Variable A : Type.
Variable newItem : Z -> A.
Variable chk : Z -> A -> bool.
Hypothesis chk_new : forall i, chk i (newItem i) = true.

Definition ca_ok (ca : CellArray A) : Prop :=
  forall i, chk i (ca_lookup newItem ca i) = true.

Lemma ca_lookup_nth_error ca i :
  isDefined ca i = true ->
  nth_error (items ca) (Z.to_nat (i - base ca)) = Some (ca_lookup newItem ca i).
Proof.
  intros Hd. unfold ca_lookup. rewrite Hd.
  apply nth_error_nth'. unfold isDefined, ca_top in Hd. lia.
Qed.

Lemma ca_getitem_spec ca i :
  ca_ok ca ->
  exists ca',
    ca_getitem newItem chk ca i = Ret (ca_lookup newItem ca i, ca')
    /\ (forall j, ca_lookup newItem ca' j = ca_lookup newItem ca j)
    /\ isDefined ca' i = true
    /\ (forall j, isDefined ca j = true -> isDefined ca' j = true)
    /\ (isDefined ca i = true -> ca' = ca).
Proof.
  intros Hok. unfold ca_getitem.
  destruct (isDefined ca i) eqn:Hd.
  - rewrite (ca_lookup_nth_error _ _ Hd), Hok. eauto 10.
  - eexists; split; [unfold ca_lookup; rewrite Hd; reflexivity|].
    assert (Hb : i < base ca \/ ca_top ca <= i)
      by (unfold isDefined in Hd; lia).
    set (up := map newItem (zrange (ca_top ca) (i + 1))).
    set (down := map newItem (zrange i (base ca))).
    assert (Lup : length up = Z.to_nat (i + 1 - ca_top ca))
      by (unfold up; now rewrite length_map, zrange_length).
    assert (Ldown : length down = Z.to_nat (base ca - i))
      by (unfold down; now rewrite length_map, zrange_length).
    assert (Hlen : 0 <= Z.of_nat (length (items ca))) by lia.
    repeat split.
    + intros j. unfold ca_lookup at 1, isDefined, ca_top; simpl.
      rewrite !length_app, Lup, Ldown.
      unfold ca_lookup, isDefined, ca_top in *.
      destruct (i <? base ca) eqn:Hib.
      * (* grown downwards *)
        assert (Z.to_nat (i + 1 - (Z.of_nat (length (items ca)) + base ca)) = O) by lia.
        match goal with |- (if ?c then _ else _) = _ => destruct c eqn:Hc end.
        -- destruct (Z.ltb j (base ca)) eqn:Hjb.
           ++ rewrite app_nth1 by lia.
              unfold down. rewrite map_zrange_nth by lia.
              replace (base ca <=? j) with false by lia. simpl.
              f_equal; lia.
           ++ rewrite app_nth2 by lia. rewrite app_nth1 by lia.
              replace (base ca <=? j) with true by lia.
              replace (j <? Z.of_nat (length (items ca)) + base ca) with true by lia.
              simpl. f_equal. lia.
        -- replace ((base ca <=? j) && (j <? Z.of_nat (length (items ca)) + base ca))
             with false by lia. reflexivity.
      * (* grown upwards *)
        assert (Z.to_nat (base ca - i) = O) by lia.
        assert (down = []) by (destruct down; simpl in *; [auto|lia]).
        match goal with |- (if ?c then _ else _) = _ => destruct c eqn:Hc end.
        -- rewrite H0; simpl.
           destruct (Z.ltb j (Z.of_nat (length (items ca)) + base ca)) eqn:Hjt.
           ++ rewrite app_nth1 by lia.
              replace (base ca <=? j) with true by lia. reflexivity.
           ++ rewrite app_nth2 by lia.
              unfold up, ca_top. rewrite map_zrange_nth by lia.
              replace ((base ca <=? j) && false) with false by (destruct (base ca <=? j); auto).
              f_equal; lia.
        -- replace ((base ca <=? j) && (j <? Z.of_nat (length (items ca)) + base ca))
             with false by lia. reflexivity.
    + unfold isDefined, ca_top; simpl. rewrite !length_app, Lup, Ldown.
      unfold ca_top in *. destruct (i <? base ca) eqn:Hib; lia.
    + intros j. unfold isDefined, ca_top; simpl. rewrite !length_app, Lup, Ldown.
      unfold ca_top in *. destruct (i <? base ca) eqn:Hib; lia.
    + discriminate.
Qed.

Lemma ca_store_lookup ca i x j :
  isDefined ca i = true ->
  ca_lookup newItem (ca_store ca i x) j
  = if j =? i then x else ca_lookup newItem ca j.
Proof.
  intros Hd. unfold ca_lookup, ca_store, isDefined, ca_top in *; simpl.
  rewrite list_set_length.
  destruct (j =? i) eqn:Hji.
  - apply Z.eqb_eq in Hji; subst j. rewrite Hd.
    rewrite list_set_nth, Nat.eqb_refl.
    replace (Z.to_nat (i - base ca) <? length (items ca))%nat with true; auto.
    symmetry. apply Nat.ltb_lt. lia.
  - destruct ((base ca <=? j) && (j <? Z.of_nat (length (items ca)) + base ca)) eqn:Hj; auto.
    rewrite list_set_nth.
    replace (Nat.eqb (Z.to_nat (j - base ca)) (Z.to_nat (i - base ca))) with false; auto.
    symmetry. apply Nat.eqb_neq. lia.
Qed.

Lemma ca_store_defined (ca : CellArray A) i x j :
  isDefined (ca_store ca i x) j = isDefined ca j.
Proof. unfold isDefined, ca_store, ca_top; simpl. now rewrite list_set_length. Qed.

Lemma ca_ok_empty : ca_ok (mkCA 0 (@nil A)).
Proof.
  intros i. unfold ca_lookup.
  replace (isDefined (mkCA 0 (@nil A)) i) with false; [apply chk_new|].
  unfold isDefined, ca_top; simpl. lia.
Qed.
End CellArrayFacts.

(* ================================================================== *)
(** * Heaps: shape, views, and what a read may change *)

Definition upd_graph (h : heap) (g : gref) (G : Graph) : heap :=
  mkH (fun k => if Nat.eqb k g then G else h_graph h k) (h_ngraph h)
      (h_vaxis h) (h_nvaxis h).

Definition upd_vaxis (h : heap) (r : nat) (V : Vaxis) : heap :=
  mkH (h_graph h) (h_ngraph h)
      (fun k => if Nat.eqb k r then V else h_vaxis h k) (h_nvaxis h).

(** Sum of the per-slice counters over the materialised slices. *)
Definition wsum {A} (f : A -> Z) (l : list A) : Z :=
  fold_right (fun a acc => f a + acc) 0 l.

Definition esum (G : Graph) : Z := wsum edgeCount (items (gE G)).

Definition slice_ok (i : Z) (s : EdgeSlice) : Prop :=
  es_index s = i
  /\ NoDup (map fst (edges s))
  /\ (forall k el, In (k, el) (edges s) -> at_ el = k).

(** The shape every graph keeps: slice [i] knows its index, its dict has one
    entry per vertex, and each entry is the list object of its key. *)
Definition gshape (G : Graph) : Prop := forall i, slice_ok i (slice_of G i).

(** Two states of a graph that differ only by materialised empty cells. *)
Record gsim (G G' : Graph) : Prop := mk_gsim
  { gs_V : gV G' = gV G;
    gs_count : gcount G' = gcount G;
    gs_el : forall i v, el_of G' i v = el_of G i v;
    gs_cnt : forall i, edgeCount (slice_of G' i) = edgeCount (slice_of G i);
    gs_sum : esum G' = esum G }.

Lemma gsim_refl G : gsim G G.
Proof. constructor; auto. Qed.

Lemma gsim_trans G1 G2 G3 : gsim G1 G2 -> gsim G2 G3 -> gsim G1 G3.
Proof.
  intros [a b c d e] [a' b' c' d' e']; constructor; intros; congruence.
Qed.

Lemma gsim_has G G' e : gsim G G' -> has G' e = has G e.
Proof. intros [_ _ Hel _ _]. unfold has. now rewrite !Hel. Qed.

Lemma bind_run {A B} (m : M A) (f : A -> M B) h a h' :
  m h = Ret (a, h') -> bind m f h = f a h'.
Proof. intros H; unfold bind; now rewrite H. Qed.

Lemma bind_raise {A B} (m : M A) (f : A -> M B) h x :
  m h = Raise x -> bind m f h = Raise x.
Proof. intros H; unfold bind; now rewrite H. Qed.

Lemma upd_graph_same h g G : h_graph (upd_graph h g G) g = G.
Proof. simpl. now rewrite Nat.eqb_refl. Qed.

Lemma upd_graph_other h g G k : k <> g -> h_graph (upd_graph h g G) k = h_graph h k.
Proof. intros Hk; simpl. destruct (Nat.eqb k g) eqn:E; auto. apply Nat.eqb_eq in E; tauto. Qed.

Lemma wsum_app {A} (f : A -> Z) l r : wsum f (l ++ r) = wsum f l + wsum f r.
Proof. induction l; simpl; lia. Qed.

Lemma wsum_map_zero {A B} (f : A -> Z) (new : B -> A) l :
  (forall i, f (new i) = 0) -> wsum f (map new l) = 0.
Proof. intros H; induction l; simpl; auto. rewrite H; lia. Qed.

Lemma wsum_list_set {A} (f : A -> Z) n x l d :
  (n < length l)%nat -> wsum f (list_set n x l) = wsum f l - f (nth n l d) + f x.
Proof.
  revert n; induction l as [|y l IH]; intros [|n] Hn; simpl in *; try lia.
  rewrite IH by lia. lia.
Qed.

Lemma ca_getitem_wsum {A} (newItem : Z -> A) chk (f : A -> Z) ca i x ca' :
  (forall j, f (newItem j) = 0) ->
  ca_getitem newItem chk ca i = Ret (x, ca') ->
  wsum f (items ca') = wsum f (items ca).
Proof.
  intros Hz. unfold ca_getitem.
  destruct (isDefined ca i).
  - destruct (nth_error _ _); [|discriminate]. destruct (chk i a); [|discriminate].
    intros H; inversion H; auto.
  - intros H; inversion H; subst; simpl.
    rewrite !wsum_app, !wsum_map_zero by assumption. lia.
Qed.

Lemma ca_store_wsum {A} (newItem : Z -> A) (f : A -> Z) (ca : CellArray A) i x :
  isDefined ca i = true ->
  wsum f (items (ca_store ca i x)) = wsum f (items ca) - f (ca_lookup newItem ca i) + f x.
Proof.
  intros Hd. unfold ca_store, ca_lookup; simpl. rewrite Hd.
  apply wsum_list_set. unfold isDefined, ca_top in Hd. lia.
Qed.

(* ------------------------------------------------------------------ *)
(** ** Dicts *)

Section DictFacts.
Variables (K A : Type) (eqd : forall a b : K, {a = b} + {a <> b}).

Lemma dict_get_set k k' (a : A) d :
  dict_get eqd k' (dict_set eqd k a d) = if eqd k' k then Some a else dict_get eqd k' d.
Proof.
  induction d as [|[k0 a0] d IH]; simpl.
  - destruct (eqd k' k); auto.
  - destruct (eqd k k0); simpl.
    + subst. destruct (eqd k' k0); auto.
    + destruct (eqd k' k0); auto.
      subst. destruct (eqd k0 k); auto. congruence.
Qed.

Lemma dict_set_keys k (a : A) d :
  map fst (dict_set eqd k a d)
  = if in_dec eqd k (map fst d) then map fst d else map fst d ++ [k].
Proof.
  induction d as [|[k0 a0] d IH]; simpl; auto.
  destruct (eqd k k0); simpl.
  - subst. destruct (eqd k0 k0); [|congruence]. reflexivity.
  - rewrite IH. destruct (eqd k0 k); [congruence|].
    destruct (in_dec eqd k (map fst d)); reflexivity.
Qed.

Lemma dict_set_NoDup k (a : A) d :
  NoDup (map fst d) -> NoDup (map fst (dict_set eqd k a d)).
Proof.
  intros H. rewrite dict_set_keys.
  destruct (in_dec eqd k (map fst d)); auto.
  apply NoDup_app;
    [assumption | constructor; [intros []|constructor]
    | intros x Hx [<-|[]]; contradiction].
Qed.

Lemma dict_set_In k (a : A) d k' a' :
  In (k', a') (dict_set eqd k a d) -> (k' = k /\ a' = a) \/ In (k', a') d.
Proof.
  induction d as [|[k0 a0] d IH]; simpl.
  - intros [H|[]]; inversion H; auto.
  - destruct (eqd k k0); simpl.
    + subst. intros [H|H]; [inversion H; auto|auto].
    + intros [H|H]; auto. destruct (IH H); auto.
Qed.

Lemma dict_get_In k (a : A) d : dict_get eqd k d = Some a -> In (k, a) d.
Proof.
  induction d as [|[k0 a0] d IH]; simpl; [discriminate|].
  destruct (eqd k k0); [intros H; inversion H; subst; auto|auto].
Qed.

Lemma dict_In_get k (a : A) d :
  NoDup (map fst d) -> In (k, a) d -> dict_get eqd k d = Some a.
Proof.
  induction d as [|[k0 a0] d IH]; simpl; [tauto|].
  intros Hnd [H|H].
  - inversion H; subst. destruct (eqd k k); congruence.
  - inversion Hnd; subst. destruct (eqd k k0).
    + subst. exfalso. apply H2. now apply (in_map fst) in H.
    + auto.
Qed.
End DictFacts.

(* ------------------------------------------------------------------ *)
(** ** Reads and in-place writes of [self.E] *)

(** Everything but graph [g] is untouched. *)
Record frame_g (g : gref) (h h' : heap) : Prop := mk_frame_g
  { fg_others : forall k, k <> g -> h_graph h' k = h_graph h k;
    fg_vaxis : forall r, h_vaxis h' r = h_vaxis h r;
    fg_ng : h_ngraph h' = h_ngraph h;
    fg_nv : h_nvaxis h' = h_nvaxis h }.

Lemma frame_g_refl g h : frame_g g h h.
Proof. constructor; auto. Qed.

Lemma frame_g_trans g h1 h2 h3 : frame_g g h1 h2 -> frame_g g h2 h3 -> frame_g g h1 h3.
Proof.
  intros [a b c d] [a' b' c' d']; constructor; intros; try congruence.
  rewrite a', a; auto.
Qed.

Lemma frame_g_upd g h G : frame_g g h (upd_graph h g G).
Proof. constructor; auto. intros; now apply upd_graph_other. Qed.

(** Same slices, possibly more of them materialised. *)
Record slice_same (G G' : Graph) : Prop := mk_slice_same
  { ss_V : gV G' = gV G;
    ss_count : gcount G' = gcount G;
    ss_slice : forall j, slice_of G' j = slice_of G j;
    ss_sum : esum G' = esum G;
    ss_def : forall j, isDefined (gE G) j = true -> isDefined (gE G') j = true }.

Lemma slice_same_gsim G G' : slice_same G G' -> gsim G G'.
Proof.
  intros [a b c d _]; constructor; auto; intros; unfold el_of; now rewrite c.
Qed.

Lemma slice_same_gshape G G' : slice_same G G' -> gshape G -> gshape G'.
Proof. intros [_ _ c _ _] H i. rewrite c. apply H. Qed.

Lemma gshape_ca_ok G :
  gshape G -> ca_ok _ new_EdgeSlice (fun k s => es_index s =? k) (gE G).
Proof. intros H i. destruct (H i) as [Hi _]. fold (slice_of G i). lia. Qed.

Lemma E_getitem_run h g i :
  gshape (h_graph h g) ->
  exists h',
    E_getitem g i h = Ret (slice_of (h_graph h g) i, h')
    /\ frame_g g h h'
    /\ slice_same (h_graph h g) (h_graph h' g)
    /\ isDefined (gE (h_graph h' g)) i = true.
Proof.
  intros Hs. unfold E_getitem, get_graph, put_graph, lift, bind, ret.
  destruct (ca_getitem_spec _ _ _ _ i (gshape_ca_ok _ Hs))
    as (E' & Hrun & Hlk & Hdef & Hmono & _).
  pose proof (ca_getitem_wsum new_EdgeSlice _ edgeCount _ _ _ _ (fun _ => eq_refl) Hrun) as Hsum.
  rewrite Hrun.
  eexists; split; [reflexivity|].
  split; [apply frame_g_upd|].
  simpl. rewrite Nat.eqb_refl.
  split; [constructor; simpl; auto|assumption].
Qed.

Definition with_slice (G : Graph) (i : Z) (s : EdgeSlice) : Graph :=
  mkG (gV G) (ca_store (gE G) i s) (gcount G).

Lemma E_setslice_run h g i s :
  exists h',
    E_setslice g i s h = Ret (tt, h')
    /\ frame_g g h h'
    /\ h_graph h' g = with_slice (h_graph h g) i s.
Proof.
  unfold E_setslice, get_graph, put_graph, bind.
  eexists; split; [reflexivity|]. split; [apply frame_g_upd|apply upd_graph_same].
Qed.

(** The graph after the slice object at a materialised index [i] became
    [s]. *)
Lemma with_slice_facts G i s :
  isDefined (gE G) i = true ->
  (forall j, slice_of (with_slice G i s) j = if j =? i then s else slice_of G j)
  /\ esum (with_slice G i s) = esum G - edgeCount (slice_of G i) + edgeCount s
  /\ (forall j, isDefined (gE (with_slice G i s)) j = isDefined (gE G) j).
Proof.
  intros Hd. repeat split.
  - intros j. unfold slice_of, with_slice; simpl. now apply ca_store_lookup.
  - unfold esum, with_slice; simpl. now apply ca_store_wsum.
  - intros j. apply ca_store_defined.
Qed.

Definition in_slice (i : Z) (v : vertex) : Prop := vindex v = i \/ vindex v = i + 1.

Lemma in_slice_chk i v :
  in_slice i v -> (i =? vindex v) || (i =? vindex v - 1) = true.
Proof. unfold in_slice; lia. Qed.

Lemma E_at_run h g i v :
  gshape (h_graph h g) -> in_slice i v ->
  exists h',
    E_at g i v h = Ret (el_of (h_graph h g) i v, h')
    /\ frame_g g h h'
    /\ gsim (h_graph h g) (h_graph h' g)
    /\ gshape (h_graph h' g)
    /\ isDefined (gE (h_graph h' g)) i = true
    /\ (forall j, isDefined (gE (h_graph h g)) j = true -> isDefined (gE (h_graph h' g)) j = true).
Proof.
  intros Hs Hin. unfold E_at.
  destruct (E_getitem_run h g i Hs) as (h1 & R1 & F1 & S1 & D1).
  rewrite (bind_run _ _ _ _ _ R1).
  pose proof (slice_same_gshape _ _ S1 Hs) as Hs1.
  destruct (Hs i) as (Hidx & Hnd & Hat).
  unfold es_getitem. rewrite Hidx, (in_slice_chk _ _ Hin).
  destruct (E_setslice_run h1 g i
              (match dict_get vertex_eq_dec v (edges (slice_of (h_graph h g) i)) with
               | Some _ => slice_of (h_graph h g) i
               | None => mkES i (dict_set vertex_eq_dec v (new_EdgeListOf v)
                                          (edges (slice_of (h_graph h g) i)))
                              (edgeCount (slice_of (h_graph h g) i))
               end)) as (h2 & R2 & F2 & G2).
  match type of G2 with _ = with_slice _ _ ?s' =>
    destruct (with_slice_facts (h_graph h1 g) i s' D1) as (L2 & Sum2 & Def2) end.
  rewrite <- G2 in L2, Sum2, Def2.
  exists h2.
  assert (Hsl : forall j, j <> i -> slice_of (h_graph h2 g) j = slice_of (h_graph h g) j).
  { intros j Hj. rewrite L2. replace (j =? i) with false by lia. apply (ss_slice _ _ S1). }
  unfold el_of at 1.
  destruct (dict_get vertex_eq_dec v (edges (slice_of (h_graph h g) i))) eqn:Hget.
  - unfold lift, bind at 1, ret. simpl. rewrite (bind_run _ _ _ _ _ R2). unfold ret.
    assert (Hsi : slice_of (h_graph h2 g) i = slice_of (h_graph h g) i)
      by (rewrite L2; now rewrite Z.eqb_refl).
    assert (Hall : forall j, slice_of (h_graph h2 g) j = slice_of (h_graph h g) j).
    { intros j. destruct (Z.eq_dec j i); [subst; auto|auto]. }
    split; [reflexivity|].
    split; [eapply frame_g_trans; eauto|].
    split.
    { constructor.
      - rewrite G2; simpl. apply (ss_V _ _ S1).
      - rewrite G2; simpl. apply (ss_count _ _ S1).
      - intros; unfold el_of; now rewrite Hall.
      - intros; now rewrite Hall.
      - rewrite Sum2, (ss_slice _ _ S1), (ss_sum _ _ S1). lia. }
    split; [intros j; rewrite Hall; apply Hs|].
    split; [now rewrite Def2|].
    intros j Hj. rewrite Def2. now apply (ss_def _ _ S1).
  - unfold lift, bind at 1, ret. simpl. rewrite (bind_run _ _ _ _ _ R2). unfold ret.
    assert (Hsi : slice_of (h_graph h2 g) i
                  = mkES i (dict_set vertex_eq_dec v (new_EdgeListOf v)
                                     (edges (slice_of (h_graph h g) i)))
                         (edgeCount (slice_of (h_graph h g) i)))
      by (rewrite L2; now rewrite Z.eqb_refl).
    split; [reflexivity|].
    split; [eapply frame_g_trans; eauto|].
    split.
    { constructor.
      - rewrite G2; simpl. apply (ss_V _ _ S1).
      - rewrite G2; simpl. apply (ss_count _ _ S1).
      - intros j w; unfold el_of. destruct (Z.eq_dec j i) as [->|Hj].
        + rewrite Hsi; simpl. rewrite dict_get_set.
          destruct (vertex_eq_dec w v) as [->|]; [now rewrite Hget|reflexivity].
        + now rewrite Hsl.
      - intros j. destruct (Z.eq_dec j i) as [->|Hj]; [now rewrite Hsi|now rewrite Hsl].
      - rewrite Sum2, (ss_slice _ _ S1), (ss_sum _ _ S1). simpl. lia. }
    split.
    { intros j. destruct (Z.eq_dec j i) as [->|Hj]; [|rewrite Hsl; auto].
      rewrite Hsi. split; [reflexivity|]. simpl. split.
      - now apply dict_set_NoDup.
      - intros k el Hk. apply dict_set_In in Hk as [[-> ->]|Hk]; [reflexivity|eauto]. }
    split; [now rewrite Def2|].
    intros j Hj. rewrite Def2. now apply (ss_def _ _ S1).
Qed.

Lemma E_put_run h g i v el :
  gshape (h_graph h g) -> at_ el = v ->
  exists h',
    E_put g i v el h = Ret (tt, h')
    /\ frame_g g h h'
    /\ gshape (h_graph h' g)
    /\ gV (h_graph h' g) = gV (h_graph h g)
    /\ gcount (h_graph h' g) = gcount (h_graph h g)
    /\ (forall j w, el_of (h_graph h' g) j w
                    = if (j =? i) && vertex_eqb w v then el else el_of (h_graph h g) j w)
    /\ (forall j, edgeCount (slice_of (h_graph h' g) j) = edgeCount (slice_of (h_graph h g) j))
    /\ esum (h_graph h' g) = esum (h_graph h g).
Proof.
  intros Hs Hat. unfold E_put.
  destruct (E_getitem_run h g i Hs) as (h1 & R1 & F1 & S1 & D1).
  rewrite (bind_run _ _ _ _ _ R1).
  destruct (Hs i) as (Hidx & Hnd & Hats).
  set (s' := mkES (es_index (slice_of (h_graph h g) i))
                  (dict_set vertex_eq_dec v el (edges (slice_of (h_graph h g) i)))
                  (edgeCount (slice_of (h_graph h g) i))).
  destruct (E_setslice_run h1 g i s') as (h2 & R2 & F2 & G2).
  destruct (with_slice_facts (h_graph h1 g) i s' D1) as (L2 & Sum2 & Def2).
  rewrite <- G2 in L2, Sum2, Def2.
  exists h2. split; [exact R2|].
  split; [eapply frame_g_trans; eauto|].
  assert (Hsl : forall j, j <> i -> slice_of (h_graph h2 g) j = slice_of (h_graph h g) j).
  { intros j Hj. rewrite L2. replace (j =? i) with false by lia. apply (ss_slice _ _ S1). }
  assert (Hsi : slice_of (h_graph h2 g) i = s') by (rewrite L2; now rewrite Z.eqb_refl).
  split.
  { intros j. destruct (Z.eq_dec j i) as [->|Hj]; [|rewrite Hsl; auto].
    rewrite Hsi. unfold s'. split; [assumption|]. simpl. split.
    - now apply dict_set_NoDup.
    - intros k el' Hk. apply dict_set_In in Hk as [[-> ->]|Hk]; [assumption|eauto]. }
  split; [rewrite G2; apply (ss_V _ _ S1)|].
  split; [rewrite G2; apply (ss_count _ _ S1)|].
  split.
  { intros j w. unfold el_of. destruct (Z.eq_dec j i) as [->|Hj].
    - rewrite Hsi, Z.eqb_refl; simpl. rewrite dict_get_set. unfold vertex_eqb.
      destruct (vertex_eq_dec w v); reflexivity.
    - rewrite Hsl by assumption. replace (j =? i) with false by lia. reflexivity. }
  split.
  { intros j. destruct (Z.eq_dec j i) as [->|Hj]; [now rewrite Hsi|now rewrite Hsl]. }
  rewrite Sum2, (ss_slice _ _ S1), (ss_sum _ _ S1). unfold s'; simpl. lia.
Qed.

Lemma E_count_add_run h g i d :
  gshape (h_graph h g) ->
  exists h',
    E_count_add g i d h = Ret (tt, h')
    /\ frame_g g h h'
    /\ gshape (h_graph h' g)
    /\ gV (h_graph h' g) = gV (h_graph h g)
    /\ gcount (h_graph h' g) = gcount (h_graph h g)
    /\ (forall j w, el_of (h_graph h' g) j w = el_of (h_graph h g) j w)
    /\ (forall j, edgeCount (slice_of (h_graph h' g) j)
                  = edgeCount (slice_of (h_graph h g) j) + (if j =? i then d else 0))
    /\ esum (h_graph h' g) = esum (h_graph h g) + d.
Proof.
  intros Hs. unfold E_count_add.
  destruct (E_getitem_run h g i Hs) as (h1 & R1 & F1 & S1 & D1).
  rewrite (bind_run _ _ _ _ _ R1).
  destruct (Hs i) as (Hidx & Hnd & Hats).
  set (s' := mkES (es_index (slice_of (h_graph h g) i))
                  (edges (slice_of (h_graph h g) i))
                  (edgeCount (slice_of (h_graph h g) i) + d)).
  destruct (E_setslice_run h1 g i s') as (h2 & R2 & F2 & G2).
  destruct (with_slice_facts (h_graph h1 g) i s' D1) as (L2 & Sum2 & Def2).
  rewrite <- G2 in L2, Sum2, Def2.
  exists h2. split; [exact R2|].
  split; [eapply frame_g_trans; eauto|].
  assert (Hsl : forall j, j <> i -> slice_of (h_graph h2 g) j = slice_of (h_graph h g) j).
  { intros j Hj. rewrite L2. replace (j =? i) with false by lia. apply (ss_slice _ _ S1). }
  assert (Hsi : slice_of (h_graph h2 g) i = s') by (rewrite L2; now rewrite Z.eqb_refl).
  split.
  { intros j. destruct (Z.eq_dec j i) as [->|Hj]; [|rewrite Hsl; auto].
    rewrite Hsi. unfold s'. split; [assumption|]. simpl. split; assumption. }
  split; [rewrite G2; apply (ss_V _ _ S1)|].
  split; [rewrite G2; apply (ss_count _ _ S1)|].
  split.
  { intros j w. unfold el_of. destruct (Z.eq_dec j i) as [->|Hj].
    - now rewrite Hsi.
    - now rewrite Hsl. }
  split.
  { intros j. destruct (Z.eq_dec j i) as [->|Hj].
    - rewrite Hsi, Z.eqb_refl. reflexivity.
    - rewrite Hsl by assumption. replace (j =? i) with false by lia. lia. }
  rewrite Sum2, (ss_slice _ _ S1), (ss_sum _ _ S1). unfold s'; simpl. lia.
Qed.

Lemma count_add_run h g d :
  exists h',
    count_add g d h = Ret (tt, h')
    /\ frame_g g h h'
    /\ h_graph h' g = mkG (gV (h_graph h g)) (gE (h_graph h g)) (gcount (h_graph h g) + d).
Proof.
  unfold count_add, get_graph, put_graph, bind.
  eexists; split; [reflexivity|]. split; [apply frame_g_upd|apply upd_graph_same].
Qed.

(* ------------------------------------------------------------------ *)
(** ** The vertex axis *)

Definition tier_lookup (V : Vaxis) (i : Z) (t : nat) : option StateDict :=
  nth_error (ta_items (ca_lookup new_TierArray V i)) t.

Definition case_lookup (V : Vaxis) (i : Z) (t : nat) (q s : string)
  : option TransitionCase :=
  match tier_lookup V i t with
  | Some d => match dict_get string_dec q (sd_items d) with
              | Some y => dict_get string_dec s (sy_items y)
              | None => None
              end
  | None => None
  end.

(** The members of the case [V[i][t][q][s]], as a read would find them. *)
Definition case_members (V : Vaxis) (i : Z) (t : nat) (q s : string) : list vertex :=
  match case_lookup V i t q s with
  | Some T => tc_members T
  | None => tc_members (new_TransitionCase i t q s)
  end.

Record vshape (V : Vaxis) : Prop := mk_vshape
  { vs_cell : forall i, cell_index (ca_lookup new_TierArray V i) = i;
    vs_tier : forall i t d, tier_lookup V i t = Some d -> sd_index d = i /\ sd_tier d = t;
    vs_state : forall i t d q y,
        tier_lookup V i t = Some d -> dict_get string_dec q (sd_items d) = Some y ->
        sy_index y = i /\ sy_tier y = t /\ sy_state y = q;
    vs_case : forall i t q s T, case_lookup V i t q s = Some T -> tc_key T = mkT i t q s }.

Lemma list_set_nth_error {A} n m (x : A) l :
  nth_error (list_set n x l) m
  = if Nat.eqb m n then (if (n <? length l)%nat then Some x else None) else nth_error l m.
Proof.
  revert n m; induction l as [|y l IH]; intros n m; simpl.
  - destruct m, n; simpl; auto; destruct (Nat.eqb m n); auto.
  - destruct n, m; simpl; auto.
Qed.

Lemma ta_getitem_spec ta t :
  exists d ta',
    ta_getitem ta t = Ret (d, ta')
    /\ nth_error (ta_items ta') t = Some d
    /\ cell_index ta' = cell_index ta
    /\ (t < length (ta_items ta'))%nat
    /\ (forall t', nth_error (ta_items ta') t'
                   = match nth_error (ta_items ta) t' with
                     | Some x => Some x
                     | None => if (t' <=? t)%nat
                               then Some (new_StateDict (cell_index ta) t') else None
                     end).
Proof.
  unfold ta_getitem.
  set (n := length (ta_items ta)).
  set (l' := ta_items ta ++ map (fun k => new_StateDict (cell_index ta) k) (seq n (S t - n))).
  assert (Hlen : (t < length l')%nat).
  { unfold l'. rewrite length_app, length_map, length_seq. fold n. lia. }
  assert (Hall : forall t', nth_error l' t'
                   = match nth_error (ta_items ta) t' with
                     | Some x => Some x
                     | None => if (t' <=? t)%nat
                               then Some (new_StateDict (cell_index ta) t') else None
                     end).
  { intros t'. unfold l'. destruct (nth_error (ta_items ta) t') eqn:E.
    - rewrite nth_error_app1; auto. apply nth_error_Some. congruence.
    - apply nth_error_None in E. fold n in E.
      rewrite nth_error_app2 by (fold n; lia). fold n.
      destruct (t' <=? t)%nat eqn:Ht.
      + apply Nat.leb_le in Ht.
        rewrite nth_error_map, nth_error_seq.
        replace (t' - n <? S t - n)%nat with true by (symmetry; apply Nat.ltb_lt; lia).
        simpl. f_equal. f_equal. lia.
      + apply Nat.leb_gt in Ht. apply nth_error_None.
        rewrite length_map, length_seq. lia. }
  destruct (nth_error l' t) as [d|] eqn:E.
  - exists d, (mkTA (cell_index ta) l'). simpl. fold l'. rewrite E. auto 10.
  - apply nth_error_None in E. lia.
Qed.

Lemma sd_getitem_spec d q :
  exists y d1,
    sd_getitem d q = Ret (y, d1)
    /\ y = match dict_get string_dec q (sd_items d) with
           | Some y => y
           | None => new_SymbolDict (sd_index d) (sd_tier d) q
           end
    /\ sd_index d1 = sd_index d /\ sd_tier d1 = sd_tier d
    /\ (forall q', dict_get string_dec q' (sd_items d1)
                   = if string_dec q' q then Some y else dict_get string_dec q' (sd_items d)).
Proof.
  unfold sd_getitem. destruct (dict_get string_dec q (sd_items d)) as [y|] eqn:E.
  - exists y, d. repeat split; auto.
    intros q'. destruct (string_dec q' q); [subst; auto|auto].
  - eexists _, _. split; [reflexivity|]. simpl. repeat split; auto.
    intros q'. apply dict_get_set.
Qed.

Section VaxisFacts.
Variable symbols : list string.

Lemma syd_getitem_spec y s :
  In s symbols ->
  exists T y1,
    syd_getitem symbols y s = Ret (T, y1)
    /\ T = match dict_get string_dec s (sy_items y) with
           | Some T => T
           | None => new_TransitionCase (sy_index y) (sy_tier y) (sy_state y) s
           end
    /\ sy_index y1 = sy_index y /\ sy_tier y1 = sy_tier y /\ sy_state y1 = sy_state y
    /\ (forall s', dict_get string_dec s' (sy_items y1)
                   = if string_dec s' s then Some T else dict_get string_dec s' (sy_items y)).
Proof.
  intros Hs. unfold syd_getitem.
  destruct (dict_get string_dec s (sy_items y)) as [T|] eqn:E.
  - exists T, y. repeat split; auto.
    intros s'. destruct (string_dec s' s); [subst; auto|auto].
  - unfold mem. destruct (in_dec string_dec s symbols); [|contradiction].
    eexists _, _. split; [reflexivity|]. simpl. repeat split; auto.
    intros s'. apply dict_get_set.
Qed.

Lemma V_ca_ok (V : Vaxis) : ca_ok _ new_TierArray (fun _ _ => true) V.
Proof. intros i; reflexivity. Qed.

Definition same_path (i : Z) (t : nat) (q s : string) (i' : Z) (t' : nat) (q' s' : string)
  : bool :=
  (i' =? i) && Nat.eqb t' t && (if string_dec q' q then true else false)
  && (if string_dec s' s then true else false).

Lemma V_case_spec f V i t q s :
  vshape V -> In s symbols -> (forall T, tc_key (f T) = tc_key T) ->
  exists V',
    V_case symbols f V i t q s = Ret (f (mkTC (mkT i t q s) (case_members V i t q s)), V')
    /\ vshape V'
    /\ (forall i' t' q' s',
          case_lookup V' i' t' q' s'
          = if same_path i t q s i' t' q' s'
            then Some (f (mkTC (mkT i t q s) (case_members V i t q s)))
            else case_lookup V i' t' q' s')
    /\ (forall j, isDefined V j = true -> isDefined V' j = true)
    /\ isDefined V' i = true.
Proof.
  intros HV Hs Hf. unfold V_case.
  destruct (ca_getitem_spec _ _ _ _ i (V_ca_ok V)) as (V1 & R1 & L1 & D1 & M1 & _).
  rewrite R1; simpl.
  set (ta := ca_lookup new_TierArray V i).
  destruct (ta_getitem_spec ta t) as (d & ta1 & R2 & Hd & Hci & Hlen & Hnth).
  rewrite R2; simpl.
  destruct (sd_getitem_spec d q) as (y & d1 & R3 & Hy & Hdi & Hdt & Hdq).
  rewrite R3; simpl.
  destruct (syd_getitem_spec y s Hs) as (T & y1 & R4 & HT & Hyi & Hyt & Hys & Hyq).
  rewrite R4; simpl.
  (* what was read *)
  assert (Hta : cell_index ta = i) by apply (vs_cell _ HV).
  assert (Hd0 : nth_error (ta_items ta) t = Some d
                \/ (nth_error (ta_items ta) t = None /\ d = new_StateDict i t)).
  { rewrite Hnth in Hd. destruct (nth_error (ta_items ta) t) eqn:E.
    - left; congruence.
    - right. split; auto. rewrite Nat.leb_refl, Hta in Hd. congruence. }
  assert (Hdk : sd_index d = i /\ sd_tier d = t).
  { destruct Hd0 as [E|[_ ->]]; [apply (vs_tier _ HV _ _ _ E)|auto]. }
  assert (Hyk : sy_index y = i /\ sy_tier y = t /\ sy_state y = q).
  { destruct (dict_get string_dec q (sd_items d)) as [y0|] eqn:E.
    - subst y0. destruct Hd0 as [E0|[_ ->]]; [apply (vs_state _ HV _ _ _ _ _ E0 E)|discriminate].
    - subst y. destruct Hdk as [-> ->]. auto. }
  assert (HTeq : T = mkTC (mkT i t q s) (case_members V i t q s)).
  { unfold case_members, case_lookup, tier_lookup. fold ta.
    destruct Hd0 as [E0|[E0 ->]]; rewrite E0.
    - destruct (dict_get string_dec q (sd_items d)) as [y0|] eqn:E.
      + subst y0. destruct (dict_get string_dec s (sy_items y)) as [T0|] eqn:E'.
        * subst T0. assert (K : tc_key T = mkT i t q s).
          { apply (vs_case _ HV). unfold case_lookup, tier_lookup. fold ta.
            now rewrite E0, E, E'. }
          destruct T; simpl in *; congruence.
        * subst T. destruct Hyk as (-> & -> & ->). reflexivity.
      + subst y. simpl in HT. subst T. simpl. destruct Hdk as [-> ->]. reflexivity.
    - simpl in Hy. subst y. simpl in HT. subst T. reflexivity. }
  rewrite <- HTeq.
  set (y2 := mkSyD (sy_index y1) (sy_tier y1) (sy_state y1)
                   (dict_set string_dec s (f T) (sy_items y1))).
  set (d2 := mkStD (sd_index d1) (sd_tier d1) (dict_set string_dec q y2 (sd_items d1))).
  set (ta2 := mkTA (cell_index ta1) (list_set t d2 (ta_items ta1))).
  eexists; split; [reflexivity|].
  (* the cells after the write *)
  assert (Hcell : forall i', ca_lookup new_TierArray (ca_store V1 i ta2) i'
                             = if i' =? i then ta2 else ca_lookup new_TierArray V i').
  { intros i'. rewrite ca_store_lookup by assumption. now rewrite L1. }
  assert (Htl : forall i' t', tier_lookup (ca_store V1 i ta2) i' t'
                 = if i' =? i then
                     (if Nat.eqb t' t then Some d2
                      else match tier_lookup V i t' with
                           | Some x => Some x
                           | None => if (t' <=? t)%nat then Some (new_StateDict i t') else None
                           end)
                   else tier_lookup V i' t').
  { intros i' t'. unfold tier_lookup at 1. rewrite Hcell.
    destruct (i' =? i) eqn:Ei; [|reflexivity].
    unfold ta2; simpl. rewrite list_set_nth_error.
    destruct (Nat.eqb t' t) eqn:Et.
    - replace (t <? length (ta_items ta1))%nat with true; auto.
      symmetry; now apply Nat.ltb_lt.
    - rewrite Hnth, Hta. reflexivity. }
  assert (Hq2 : forall q', dict_get string_dec q' (sd_items d2)
                 = if string_dec q' q then Some y2 else dict_get string_dec q' (sd_items d)).
  { intros q'. unfold d2; simpl. rewrite dict_get_set, Hdq.
    destruct (string_dec q' q); reflexivity. }
  assert (Hs2 : forall s', dict_get string_dec s' (sy_items y2)
                 = if string_dec s' s then Some (f T) else dict_get string_dec s' (sy_items y)).
  { intros s'. unfold y2; simpl. rewrite dict_get_set, Hyq.
    destruct (string_dec s' s); reflexivity. }
  assert (Hlk : forall i' t' q' s',
             case_lookup (ca_store V1 i ta2) i' t' q' s'
             = if same_path i t q s i' t' q' s' then Some (f T)
               else case_lookup V i' t' q' s').
  { intros i' t' q' s'. unfold case_lookup at 1, same_path. rewrite Htl.
    destruct (i' =? i) eqn:Ei; simpl; [|reflexivity].
    apply Z.eqb_eq in Ei; subst i'.
    destruct (Nat.eqb t' t) eqn:Et; simpl.
    - apply Nat.eqb_eq in Et; subst t'. rewrite Hq2.
      destruct (string_dec q' q) as [->|Hq]; simpl.
      + rewrite Hs2. destruct (string_dec s' s) as [->|Hs']; [reflexivity|].
        unfold case_lookup, tier_lookup. fold ta.
        destruct Hd0 as [E0|[E0 ->]]; rewrite E0.
        * rewrite Hy. destruct (dict_get string_dec q (sd_items d)); reflexivity.
        * rewrite Hy; reflexivity.
      + unfold case_lookup, tier_lookup. fold ta.
        destruct Hd0 as [E0|[E0 ->]]; rewrite E0; reflexivity.
    - unfold case_lookup. destruct (tier_lookup V i t') eqn:E; [reflexivity|].
      destruct (t' <=? t)%nat; reflexivity. }
  split.
  { constructor.
    - intros i'. rewrite Hcell. destruct (i' =? i) eqn:Ei; [|apply (vs_cell _ HV)].
      unfold ta2; simpl. rewrite Hci. lia.
    - intros i' t' d'. rewrite Htl.
      destruct (i' =? i) eqn:Ei; [|apply (vs_tier _ HV)].
      apply Z.eqb_eq in Ei; subst i'.
      destruct (Nat.eqb t' t) eqn:Et.
      + apply Nat.eqb_eq in Et; subst t'. intros H; inversion H; subst d'.
        unfold d2; simpl. rewrite Hdi, Hdt. assumption.
      + destruct (tier_lookup V i t') eqn:E.
        * intros H; injection H as <-. apply (vs_tier _ HV _ _ _ E).
        * destruct (t' <=? t)%nat; [|discriminate].
          intros H; injection H as <-; auto.
    - intros i' t' d' q' y'. rewrite Htl.
      destruct (i' =? i) eqn:Ei; [|apply (vs_state _ HV)].
      apply Z.eqb_eq in Ei; subst i'.
      destruct (Nat.eqb t' t) eqn:Et.
      + apply Nat.eqb_eq in Et; subst t'. intros H; inversion H; subst d'.
        rewrite Hq2. destruct (string_dec q' q) as [->|Hq].
        * intros H'; inversion H'; subst y'. unfold y2; simpl.
          rewrite Hyi, Hyt, Hys. assumption.
        * destruct Hd0 as [E0|[E0 ->]]; [apply (vs_state _ HV _ _ _ _ _ E0)|discriminate].
      + destruct (tier_lookup V i t') eqn:E.
        * intros H; injection H as <-. apply (vs_state _ HV _ _ _ _ _ E).
        * destruct (t' <=? t)%nat; [|discriminate].
          intros H; injection H as <-; discriminate.
    - intros i' t' q' s' T'. rewrite Hlk. unfold same_path.
      destruct (i' =? i) eqn:Ei; simpl; [|apply (vs_case _ HV)].
      destruct (Nat.eqb t' t) eqn:Et; simpl; [|apply (vs_case _ HV)].
      destruct (string_dec q' q); simpl; [|apply (vs_case _ HV)].
      destruct (string_dec s' s); simpl; [|apply (vs_case _ HV)].
      intros H; injection H as <-. rewrite Hf, HTeq; simpl.
      apply Z.eqb_eq in Ei. apply Nat.eqb_eq in Et. congruence. }
  split; [exact Hlk|].
  split.
  - intros j Hj. rewrite ca_store_defined. auto.
  - now rewrite ca_store_defined.
Qed.

End VaxisFacts.

(* ------------------------------------------------------------------ *)
(** ** Graph invariants *)

(** The four directional lists of a graph describe one set of directed
    edges between neighbouring indices, each edge listed once at its
    source and once at its target. *)
Record gwf (G : Graph) : Prop := mk_gwf
  { wf_ro : forall i u w, In w (right_outgoing (el_of G i u)) ->
        vindex u = i /\ vindex w = i + 1 /\ In u (left_incoming (el_of G i w));
    wf_li : forall i u w, In u (left_incoming (el_of G i w)) ->
        vindex u = i /\ vindex w = i + 1 /\ In w (right_outgoing (el_of G i u));
    wf_lo : forall i u w, In w (left_outgoing (el_of G i u)) ->
        vindex u = i + 1 /\ vindex w = i /\ In u (right_incoming (el_of G i w));
    wf_ri : forall i u w, In u (right_incoming (el_of G i w)) ->
        vindex u = i + 1 /\ vindex w = i /\ In w (left_outgoing (el_of G i u));
    wf_nd : forall i v,
        NoDup (right_outgoing (el_of G i v)) /\ NoDup (left_incoming (el_of G i v))
        /\ NoDup (left_outgoing (el_of G i v)) /\ NoDup (right_incoming (el_of G i v)) }.

(** Conservation: the graph counter is the sum of the slice counters. *)
Definition gsum (G : Graph) : Prop := gcount G = esum G.

Lemma gwf_el_eq G G' : (forall i x, el_of G' i x = el_of G i x) -> gwf G -> gwf G'.
Proof. intros c [r1 r2 r3 r4 r5]; constructor; intros *; rewrite ?c; auto. Qed.

Lemma has_el_eq G G' e : (forall i x, el_of G' i x = el_of G i x) -> has G' e = has G e.
Proof. intros Hel. unfold has. now rewrite !Hel. Qed.

Lemma gsim_gwf G G' : gsim G G' -> gwf G -> gwf G'.
Proof. intros S. apply gwf_el_eq, (gs_el _ _ S). Qed.

Lemma gsim_gsum G G' : gsim G G' -> gsum G -> gsum G'.
Proof. intros [a b c d e]. unfold gsum. congruence. Qed.

Definition adjacent (e : edge) : Prop := Z.abs (vindex (fst e) - vindex (snd e)) = 1.
Definition near (e : edge) : Prop := Z.abs (vindex (fst e) - vindex (snd e)) <= 1.

Lemma memv_In v l : memv v l = true <-> In v l.
Proof. unfold memv, mem. destruct (in_dec vertex_eq_dec v l); split; auto; discriminate. Qed.

Lemma memv_false v l : memv v l = false <-> ~ In v l.
Proof. unfold memv, mem. destruct (in_dec vertex_eq_dec v l); split; auto; try discriminate; tauto. Qed.

Lemma meme_In e l : meme e l = true <-> In e l.
Proof. unfold meme, mem. destruct (in_dec edge_eq_dec e l); split; auto; discriminate. Qed.

Lemma meme_false e l : meme e l = false <-> ~ In e l.
Proof. unfold meme, mem. destruct (in_dec edge_eq_dec e l); split; auto; try discriminate; tauto. Qed.

Lemma has_adjacent G e : gwf G -> has G e = true -> adjacent e.
Proof.
  intros W. destruct e as [u v]. unfold has, adjacent; simpl.
  rewrite orb_true_iff, !memv_In. intros [H|H].
  - apply (wf_ro _ W) in H. lia.
  - apply (wf_ri _ W) in H. lia.
Qed.

(** Where an edge of a well-formed graph is listed. *)
Lemma has_right G u v :
  gwf G -> vindex u < vindex v ->
  (has G (u, v) = true <-> In v (right_outgoing (el_of G (vindex u) u))).
Proof.
  intros W Hlt. unfold has; simpl. rewrite Z.min_l by lia.
  rewrite orb_true_iff, !memv_In. split; [|auto].
  intros [H|H]; auto. apply (wf_ri _ W) in H. lia.
Qed.

Lemma has_left G u v :
  gwf G -> vindex v <= vindex u ->
  (has G (u, v) = true <-> In u (right_incoming (el_of G (vindex v) v))).
Proof.
  intros W Hlt. unfold has; simpl. rewrite Z.min_r by lia.
  rewrite orb_true_iff, !memv_In. split; [|auto].
  intros [H|H]; auto. apply (wf_ro _ W) in H. lia.
Qed.

Lemma in_ro_has G i u w :
  gwf G -> In w (right_outgoing (el_of G i u)) -> has G (u, w) = true.
Proof.
  intros W H. destruct (wf_ro _ W _ _ _ H) as (Hu & Hw & _).
  apply has_right; auto; [lia|now rewrite Hu].
Qed.

Lemma in_li_has G i u w :
  gwf G -> In u (left_incoming (el_of G i w)) -> has G (u, w) = true.
Proof. intros W H. apply (wf_li _ W) in H as (_ & _ & H). eapply in_ro_has; eauto. Qed.

Lemma in_ri_has G i u w :
  gwf G -> In u (right_incoming (el_of G i w)) -> has G (u, w) = true.
Proof.
  intros W H. destruct (wf_ri _ W _ _ _ H) as (Hu & Hw & _).
  apply has_left; auto; [lia|now rewrite Hw].
Qed.

Lemma in_lo_has G i u w :
  gwf G -> In w (left_outgoing (el_of G i u)) -> has G (u, w) = true.
Proof. intros W H. apply (wf_lo _ W) in H as (_ & _ & H). eapply in_ri_has; eauto. Qed.

(** What a read of graph [g] may do to the heap. *)
Record q_ok (g : gref) (h h' : heap) : Prop := mk_q_ok
  { q_frame : frame_g g h h';
    q_sim : gsim (h_graph h g) (h_graph h' g);
    q_shape : gshape (h_graph h' g) }.

Lemma q_ok_refl g h : gshape (h_graph h g) -> q_ok g h h.
Proof. constructor; auto using frame_g_refl, gsim_refl. Qed.

Lemma q_ok_trans g h1 h2 h3 : q_ok g h1 h2 -> q_ok g h2 h3 -> q_ok g h1 h3.
Proof.
  intros [a b c] [a' b' c']; constructor; eauto using frame_g_trans, gsim_trans.
Qed.

Lemma E_at_q h g i v :
  gshape (h_graph h g) -> in_slice i v ->
  exists h', E_at g i v h = Ret (el_of (h_graph h g) i v, h') /\ q_ok g h h'.
Proof.
  intros Hs Hi. destruct (E_at_run h g i v Hs Hi) as (h' & R & F & S & Sh & _).
  exists h'; split; auto. constructor; auto.
Qed.

Lemma in_slice_self v : in_slice (vindex v) v.
Proof. left; reflexivity. Qed.

Lemma in_slice_pred v : in_slice (vindex v - 1) v.
Proof. right; lia. Qed.

Definition out_list (G : Graph) (v : vertex) : list edge :=
  map (fun w => (v, w))
      (right_outgoing (el_of G (vindex v) v) ++ left_outgoing (el_of G (vindex v - 1) v)).

Definition in_list (G : Graph) (v : vertex) : list edge :=
  map (fun w => (w, v))
      (right_incoming (el_of G (vindex v) v) ++ left_incoming (el_of G (vindex v - 1) v)).

Lemma outgoingEdgeOf_run h g v :
  gshape (h_graph h g) ->
  exists h', outgoingEdgeOf g v h = Ret (out_list (h_graph h g) v, h') /\ q_ok g h h'.
Proof.
  intros Hs. unfold outgoingEdgeOf.
  destruct (E_at_q h g _ v Hs (in_slice_self v)) as (h1 & R1 & Q1).
  rewrite (bind_run _ _ _ _ _ R1).
  destruct (E_at_q h1 g _ v (q_shape _ _ _ Q1) (in_slice_pred v)) as (h2 & R2 & Q2).
  rewrite (bind_run _ _ _ _ _ R2).
  exists h2. split; [|eapply q_ok_trans; eauto].
  unfold ret, out_list. now rewrite (gs_el _ _ (q_sim _ _ _ Q1)).
Qed.

Lemma incomingEdgeOf_run h g v :
  gshape (h_graph h g) ->
  exists h', incomingEdgeOf g v h = Ret (in_list (h_graph h g) v, h') /\ q_ok g h h'.
Proof.
  intros Hs. unfold incomingEdgeOf.
  destruct (E_at_q h g _ v Hs (in_slice_self v)) as (h1 & R1 & Q1).
  rewrite (bind_run _ _ _ _ _ R1).
  destruct (E_at_q h1 g _ v (q_shape _ _ _ Q1) (in_slice_pred v)) as (h2 & R2 & Q2).
  rewrite (bind_run _ _ _ _ _ R2).
  exists h2. split; [|eapply q_ok_trans; eauto].
  unfold ret, in_list. now rewrite (gs_el _ _ (q_sim _ _ _ Q1)).
Qed.

Lemma out_list_has G v e : gwf G -> (In e (out_list G v) <-> fst e = v /\ has G e = true).
Proof.
  intros W. unfold out_list. rewrite in_map_iff. split.
  - intros (w & <- & Hw). split; auto. apply in_app_or in Hw as [H|H].
    + eapply in_ro_has; eauto.
    + eapply in_lo_has; eauto.
  - destruct e as [u w]; simpl. intros [-> He]. exists w; split; auto.
    pose proof (has_adjacent _ _ W He) as Ha. unfold adjacent in Ha; simpl in Ha.
    apply in_or_app. destruct (Z_lt_ge_dec (vindex v) (vindex w)).
    + left. now apply has_right.
    + right. apply has_left in He; auto; [|lia].
      apply (wf_ri _ W) in He as (Hv & Hw & He). now replace (vindex v - 1) with (vindex w) by lia.
Qed.

Lemma in_list_has G v e : gwf G -> (In e (in_list G v) <-> snd e = v /\ has G e = true).
Proof.
  intros W. unfold in_list. rewrite in_map_iff. split.
  - intros (w & <- & Hw). split; auto. apply in_app_or in Hw as [H|H].
    + eapply in_ri_has; eauto.
    + eapply in_li_has; eauto.
  - destruct e as [u w]; simpl. intros [-> He]. exists u; split; auto.
    pose proof (has_adjacent _ _ W He) as Ha. unfold adjacent in Ha; simpl in Ha.
    apply in_or_app. destruct (Z_lt_ge_dec (vindex u) (vindex v)).
    + right. apply has_right in He; auto.
      apply (wf_ro _ W) in He as (Hv & Hw & He). now replace (vindex v - 1) with (vindex u) by lia.
    + left. apply has_left; auto. lia.
Qed.

Lemma near_in_slice_fst e : near e -> in_slice (Z.min (vindex (fst e)) (vindex (snd e))) (fst e).
Proof. unfold near, in_slice. lia. Qed.

Lemma near_in_slice_snd e : near e -> in_slice (Z.min (vindex (fst e)) (vindex (snd e))) (snd e).
Proof. unfold near, in_slice. lia. Qed.

Lemma hasEdge_run h g e :
  gshape (h_graph h g) -> near e ->
  exists h', hasEdge g e h = Ret (has (h_graph h g) e, h') /\ q_ok g h h'.
Proof.
  intros Hs Hn. destruct e as [u v]. unfold hasEdge, has.
  pose proof (near_in_slice_fst _ Hn) as Hu. pose proof (near_in_slice_snd _ Hn) as Hv.
  simpl in *.
  destruct (E_at_q h g _ u Hs Hu) as (h1 & R1 & Q1).
  rewrite (bind_run _ _ _ _ _ R1).
  destruct (memv v (right_outgoing (el_of (h_graph h g) _ u))) eqn:E.
  - exists h1; split; auto.
  - destruct (E_at_q h1 g _ v (q_shape _ _ _ Q1) Hv) as (h2 & R2 & Q2).
    rewrite (bind_run _ _ _ _ _ R2).
    exists h2. split; [|eapply q_ok_trans; eauto].
    unfold ret. now rewrite (gs_el _ _ (q_sim _ _ _ Q1)).
Qed.

(** Outside the contract the slice assertion fires. *)
Lemma hasEdge_far h g e :
  gshape (h_graph h g) -> gwf (h_graph h g) -> ~ near e ->
  hasEdge g e h = Raise AssertionError.
Proof.
  intros Hs W Hn. destruct e as [u v]. unfold hasEdge, near in *; simpl in *.
  destruct (Z_le_gt_dec (vindex u) (vindex v)) as [Hle|Hgt].
  - rewrite Z.min_l by lia.
    destruct (E_at_q h g _ u Hs (in_slice_self u)) as (h1 & R1 & Q1).
    rewrite (bind_run _ _ _ _ _ R1).
    destruct (memv v (right_outgoing (el_of (h_graph h g) (vindex u) u))) eqn:E.
    + apply memv_In in E. apply (wf_ro _ W) in E. lia.
    + apply bind_raise. unfold E_at.
      destruct (E_getitem_run h1 g (vindex u) (q_shape _ _ _ Q1)) as (h2 & R2 & _ & S2 & _).
      rewrite (bind_run _ _ _ _ _ R2). apply bind_raise.
      unfold lift, es_getitem.
      destruct (q_shape _ _ _ Q1 (vindex u)) as (-> & _).
      replace ((vindex u =? vindex v) || (vindex u =? vindex v - 1)) with false by lia.
      reflexivity.
  - rewrite Z.min_r by lia.
    apply bind_raise. unfold E_at.
    destruct (E_getitem_run h g (vindex v) Hs) as (h2 & R2 & _ & S2 & _).
    rewrite (bind_run _ _ _ _ _ R2). apply bind_raise.
    unfold lift, es_getitem.
    destruct (Hs (vindex v)) as (-> & _).
    replace ((vindex v =? vindex u) || (vindex v =? vindex u - 1)) with false by lia.
    reflexivity.
Qed.

(* ------------------------------------------------------------------ *)
(** ** Vertex registration *)

(** Everything but vertex axis [r] is untouched. *)
Record frame_v (r : nat) (h h' : heap) : Prop := mk_frame_v
  { fv_graph : forall k, h_graph h' k = h_graph h k;
    fv_others : forall k, k <> r -> h_vaxis h' k = h_vaxis h k;
    fv_ng : h_ngraph h' = h_ngraph h;
    fv_nv : h_nvaxis h' = h_nvaxis h }.

Lemma frame_v_refl r h : frame_v r h h.
Proof. constructor; auto. Qed.

Lemma frame_v_trans r h1 h2 h3 : frame_v r h1 h2 -> frame_v r h2 h3 -> frame_v r h1 h3.
Proof.
  intros [a b c d] [a' b' c' d']; constructor; intros; try congruence.
  rewrite b', b; auto.
Qed.

(** The members of every case belong to it, once each; a floor case holds
    its vertex. *)
Record vwf (V : Vaxis) : Prop := mk_vwf
  { vw_key : forall i t q s w, In w (case_members V i t q s) -> transitionCase w = mkT i t q s;
    vw_nd : forall i t q s, NoDup (case_members V i t q s);
    vw_floor : forall i q s, In (Floor i q s) (case_members V i 0 q s) }.

Lemma set_add_In {A} (eqd : forall a b : A, {a = b} + {a <> b}) x y l :
  In y (set_add eqd x l) <-> y = x \/ In y l.
Proof.
  unfold set_add. destruct (in_dec eqd x l).
  - split; auto. intros [->|]; auto.
  - rewrite in_app_iff; simpl. intuition.
Qed.

Lemma set_add_NoDup {A} (eqd : forall a b : A, {a = b} + {a <> b}) x l :
  NoDup l -> NoDup (set_add eqd x l).
Proof.
  intros H. unfold set_add. destruct (in_dec eqd x l); auto.
  apply NoDup_app; [assumption | constructor; [intros []|constructor]
                    | intros y Hy [<-|[]]; contradiction].
Qed.

Lemma vshape_empty : vshape (mkCA 0 []).
Proof.
  assert (L : forall i, ca_lookup new_TierArray (mkCA 0 []) i = new_TierArray i).
  { intros i. unfold ca_lookup.
    replace (isDefined (mkCA 0 (@nil TierArray)) i) with false; auto.
    unfold isDefined, ca_top; simpl. lia. }
  assert (T : forall i t, tier_lookup (mkCA 0 []) i t = None).
  { intros. unfold tier_lookup. rewrite L. simpl. now destruct t. }
  constructor; intros *; unfold case_lookup; rewrite ?T, ?L; auto; discriminate.
Qed.

Lemma vwf_empty : vwf (mkCA 0 []).
Proof.
  assert (L : forall i, ca_lookup new_TierArray (mkCA 0 []) i = new_TierArray i).
  { intros i. unfold ca_lookup.
    replace (isDefined (mkCA 0 (@nil TierArray)) i) with false; auto.
    unfold isDefined, ca_top; simpl. lia. }
  assert (T : forall i t q s, case_members (mkCA 0 []) i t q s
                              = tc_members (new_TransitionCase i t q s)).
  { intros. unfold case_members, case_lookup, tier_lookup. rewrite L. simpl. now destruct t. }
  constructor; intros *; rewrite T; simpl.
  - destruct t; simpl; [intros [<-|[]]; reflexivity|tauto].
  - destruct t; repeat constructor; auto.
  - auto.
Qed.

Section GraphFacts.
Variable symbols : list string.

Lemma V_at_run f h g i t q s :
  vshape (h_vaxis h (gV (h_graph h g))) -> In s symbols ->
  (forall T, tc_key (f T) = tc_key T) ->
  exists h',
    V_at symbols f g i t q s h
    = Ret (f (mkTC (mkT i t q s) (case_members (h_vaxis h (gV (h_graph h g))) i t q s)), h')
    /\ frame_v (gV (h_graph h g)) h h'
    /\ vshape (h_vaxis h' (gV (h_graph h g)))
    /\ (forall i' t' q' s',
          case_lookup (h_vaxis h' (gV (h_graph h g))) i' t' q' s'
          = if same_path i t q s i' t' q' s'
            then Some (f (mkTC (mkT i t q s)
                               (case_members (h_vaxis h (gV (h_graph h g))) i t q s)))
            else case_lookup (h_vaxis h (gV (h_graph h g))) i' t' q' s').
Proof.
  intros HV Hs Hf. unfold V_at, get_graph, get_vaxis, put_vaxis, lift, bind, ret.
  destruct (V_case_spec symbols f _ i t q s HV Hs Hf) as (V' & R & HV' & Hlk & _).
  rewrite R. eexists; split; [reflexivity|].
  split; [constructor; simpl; auto|].
  { intros k Hk. destruct (Nat.eqb k _) eqn:E; auto. apply Nat.eqb_eq in E; tauto. }
  simpl. rewrite Nat.eqb_refl. auto.
Qed.

Lemma same_path_true i t q s i' t' q' s' :
  same_path i t q s i' t' q' s' = true <-> i' = i /\ t' = t /\ q' = q /\ s' = s.
Proof.
  unfold same_path. destruct (string_dec q' q), (string_dec s' s);
    rewrite ?andb_true_r, ?andb_false_r, ?andb_true_iff, ?Z.eqb_eq, ?Nat.eqb_eq;
    intuition (try discriminate; auto).
Qed.

(** After [addVertex(v)] the registry holds [v] and what it held before. *)
Lemma addVertex_run h g v :
  vshape (h_vaxis h (gV (h_graph h g))) -> vwf (h_vaxis h (gV (h_graph h g))) ->
  In (vsymbol v) symbols ->
  exists h',
    addVertex symbols g v h = Ret (tt, h')
    /\ frame_v (gV (h_graph h g)) h h'
    /\ vshape (h_vaxis h' (gV (h_graph h g)))
    /\ vwf (h_vaxis h' (gV (h_graph h g)))
    /\ (forall i t q s w,
          In w (case_members (h_vaxis h' (gV (h_graph h g))) i t q s)
          <-> In w (case_members (h_vaxis h (gV (h_graph h g))) i t q s)
              \/ (w = v /\ transitionCase v = mkT i t q s)).
Proof.
  intros HV HW Hs. unfold addVertex.
  destruct (V_at_run (fun T => mkTC (tc_key T) (set_add vertex_eq_dec v (tc_members T)))
              h g (vindex v) (vtier v) (vstate v) (vsymbol v) HV Hs (fun _ => eq_refl))
    as (h' & R & F & HV' & Hlk).
  rewrite (bind_run _ _ _ _ _ R). exists h'. split; [reflexivity|].
  split; [assumption|]. split; [assumption|].
  set (V := h_vaxis h (gV (h_graph h g))) in *.
  set (V' := h_vaxis h' (gV (h_graph h g))) in *.
  assert (Hm : forall i t q s,
             case_members V' i t q s
             = if same_path (vindex v) (vtier v) (vstate v) (vsymbol v) i t q s
               then set_add vertex_eq_dec v (case_members V i t q s)
               else case_members V i t q s).
  { intros i t q s. unfold case_members at 1. rewrite Hlk.
    destruct (same_path _ _ _ _ i t q s) eqn:E; [|reflexivity].
    apply same_path_true in E as (-> & -> & -> & ->). reflexivity. }
  assert (Hin : forall i t q s w,
             In w (case_members V' i t q s)
             <-> In w (case_members V i t q s) \/ (w = v /\ transitionCase v = mkT i t q s)).
  { intros i t q s w. rewrite Hm.
    destruct (same_path _ _ _ _ i t q s) eqn:E.
    - apply same_path_true in E as (-> & -> & -> & ->).
      rewrite set_add_In. unfold transitionCase. intuition.
    - split; auto. intros [H|[-> H]]; auto.
      unfold transitionCase in H. injection H as <- <- <- <-.
      assert (same_path (vindex v) (vtier v) (vstate v) (vsymbol v)
                        (vindex v) (vtier v) (vstate v) (vsymbol v) = true)
        by (apply same_path_true; auto).
      congruence. }
  split; [|exact Hin].
  constructor.
  - intros i t q s w Hw. apply Hin in Hw as [Hw|[-> Hw]]; auto. now apply (vw_key _ HW).
  - intros i t q s. rewrite Hm. destruct (same_path _ _ _ _ i t q s).
    + apply set_add_NoDup, (vw_nd _ HW).
    + apply (vw_nd _ HW).
  - intros i q s. apply Hin. left. apply (vw_floor _ HW).
Qed.

End GraphFacts.

(* ------------------------------------------------------------------ *)
(** ** Adding and removing an edge *)

Definition ro (G : Graph) i x := right_outgoing (el_of G i x).
Definition li (G : Graph) i x := left_incoming (el_of G i x).
Definition lo (G : Graph) i x := left_outgoing (el_of G i x).
Definition ri (G : Graph) i x := right_incoming (el_of G i x).

Lemma el_of_at G i v : gshape G -> at_ (el_of G i v) = v.
Proof.
  intros Hs. unfold el_of. destruct (dict_get _ _ _) eqn:E; auto.
  apply dict_get_In in E. destruct (Hs i) as (_ & _ & H). eauto.
Qed.

(** [self.E[i][x]] is read and the list object is changed in place by [F]. *)
Lemma E_modify_run h g i x F :
  gshape (h_graph h g) -> in_slice i x ->
  at_ (F (el_of (h_graph h g) i x)) = x ->
  exists h1 h',
    E_at g i x h = Ret (el_of (h_graph h g) i x, h1)
    /\ E_put g i x (F (el_of (h_graph h g) i x)) h1 = Ret (tt, h')
    /\ frame_g g h h'
    /\ gshape (h_graph h' g)
    /\ gV (h_graph h' g) = gV (h_graph h g)
    /\ gcount (h_graph h' g) = gcount (h_graph h g)
    /\ (forall j w, el_of (h_graph h' g) j w
                    = if (j =? i) && vertex_eqb w x then F (el_of (h_graph h g) i x)
                      else el_of (h_graph h g) j w)
    /\ (forall j, edgeCount (slice_of (h_graph h' g) j) = edgeCount (slice_of (h_graph h g) j))
    /\ esum (h_graph h' g) = esum (h_graph h g).
Proof.
  intros Hs Hi Hat.
  destruct (E_at_q h g i x Hs Hi) as (h1 & R1 & Q1).
  destruct (E_put_run h1 g i x _ (q_shape _ _ _ Q1) Hat)
    as (h2 & R2 & F2 & Sh2 & V2 & C2 & El2 & Cn2 & Su2).
  destruct Q1 as [F1 S1 Sh1].
  exists h1, h2.
  split; [assumption|]. split; [assumption|].
  split; [eapply frame_g_trans; eauto|].
  split; [assumption|].
  split; [rewrite V2; apply (gs_V _ _ S1)|].
  split; [rewrite C2; apply (gs_count _ _ S1)|].
  split; [intros j w; rewrite El2, (gs_el _ _ S1); reflexivity|].
  split; [intros j; rewrite Cn2; apply (gs_cnt _ _ S1)|].
  rewrite Su2. apply (gs_sum _ _ S1).
Qed.

Lemma vertex_eqb_true u v : vertex_eqb u v = true <-> u = v.
Proof. unfold vertex_eqb. destruct (vertex_eq_dec u v); split; auto; discriminate. Qed.

Lemma vertex_eqb_refl u : vertex_eqb u u = true.
Proof. now apply vertex_eqb_true. Qed.

Lemma edge_eqb_true e f : edge_eqb e f = true <-> e = f.
Proof. unfold edge_eqb. destruct (edge_eq_dec e f); split; auto; discriminate. Qed.

(** The lists of [G'] are those of [G] with the edge [(u, v)] added. *)
Record added (u v : vertex) (G G' : Graph) : Prop := mk_added
  { ad_ro : forall j x w, In w (ro G' j x) <->
        In w (ro G j x) \/ (vindex u < vindex v /\ j = vindex u /\ x = u /\ w = v);
    ad_li : forall j x w, In x (li G' j w) <->
        In x (li G j w) \/ (vindex u < vindex v /\ j = vindex u /\ x = u /\ w = v);
    ad_lo : forall j x w, In w (lo G' j x) <->
        In w (lo G j x) \/ (vindex v <= vindex u /\ j = vindex v /\ x = u /\ w = v);
    ad_ri : forall j x w, In x (ri G' j w) <->
        In x (ri G j w) \/ (vindex v <= vindex u /\ j = vindex v /\ x = u /\ w = v);
    ad_nd : gwf G -> has G (u, v) = false ->
            forall i x, NoDup (ro G' i x) /\ NoDup (li G' i x)
                        /\ NoDup (lo G' i x) /\ NoDup (ri G' i x) }.

Lemma NoDup_snoc {A} (x : A) l : NoDup l -> ~ In x l -> NoDup (l ++ [x]).
Proof.
  intros H Hx. apply NoDup_app; [assumption | constructor; [intros []|constructor]
                                 | intros y Hy [<-|[]]; contradiction].
Qed.

Lemma has_false_right G u v :
  vindex u < vindex v -> has G (u, v) = false -> ~ In v (ro G (vindex u) u).
Proof.
  intros Hlt. unfold has, ro; simpl. rewrite Z.min_l by lia. intros H.
  apply orb_false_iff in H as [H _]. now apply memv_false.
Qed.

Lemma has_false_left G u v :
  vindex v <= vindex u -> has G (u, v) = false -> ~ In u (ri G (vindex v) v).
Proof.
  intros Hle. unfold has, ri; simpl. rewrite Z.min_r by lia. intros H.
  apply orb_false_iff in H as [_ H]. now apply memv_false.
Qed.

Lemma gwf_added u v G G' :
  gwf G -> adjacent (u, v) -> added u v G G' ->
  (has G (u, v) = false -> gwf G')
  /\ (forall e, has G' e = has G e || edge_eqb (u, v) e).
Proof.
  intros W Ha [Aro Ali Alo Ari And].
  unfold adjacent in Ha; simpl in Ha.
  fold (ro G) (li G) (lo G) (ri G) in *.
  split.
  - intros Hnew. constructor; auto.
    + intros i x w H. fold (ro G' i x) in H. fold (li G' i w).
      apply Aro in H as [H|(? & -> & -> & ->)].
      * destruct (wf_ro _ W _ _ _ H) as (? & ? & ?). repeat split; auto. apply Ali; auto.
      * repeat split; auto; [lia|]. apply Ali; right; auto.
    + intros i x w H. fold (li G' i w) in H. fold (ro G' i x).
      apply Ali in H as [H|(? & -> & -> & ->)].
      * destruct (wf_li _ W _ _ _ H) as (? & ? & ?). repeat split; auto. apply Aro; auto.
      * repeat split; auto; [lia|]. apply Aro; right; auto.
    + intros i x w H. fold (lo G' i x) in H. fold (ri G' i w).
      apply Alo in H as [H|(? & -> & -> & ->)].
      * destruct (wf_lo _ W _ _ _ H) as (? & ? & ?). repeat split; auto. apply Ari; auto.
      * repeat split; auto; [lia|]. apply Ari; right; auto.
    + intros i x w H. fold (ri G' i w) in H. fold (lo G' i x).
      apply Ari in H as [H|(? & -> & -> & ->)].
      * destruct (wf_ri _ W _ _ _ H) as (? & ? & ?). repeat split; auto. apply Alo; auto.
      * repeat split; auto; [lia|]. apply Alo; right; auto.
    + apply And; auto.
  - intros [x w]. apply eq_true_iff_eq.
    rewrite orb_true_iff, edge_eqb_true.
    unfold has at 1; simpl. rewrite orb_true_iff, !memv_In.
    fold (ro G' (Z.min (vindex x) (vindex w)) x) (ri G' (Z.min (vindex x) (vindex w)) w).
    rewrite Aro, Ari. unfold has; simpl. rewrite orb_true_iff, !memv_In.
    fold (ro G (Z.min (vindex x) (vindex w)) x) (ri G (Z.min (vindex x) (vindex w)) w).
    split.
    + intros [[H|(? & ? & -> & ->)]|[H|(? & ? & -> & ->)]]; auto.
    + intros [[H|H]|H]; auto. injection H as <- <-.
      destruct (Z_lt_ge_dec (vindex u) (vindex v)).
      * left; right. repeat split; auto. lia.
      * right; right. repeat split; auto; lia.
Qed.

Definition add_ro (v : vertex) (a : EdgeListOf) : EdgeListOf :=
  mkEL (at_ a) (left_incoming a) (left_outgoing a) (right_incoming a) (right_outgoing a ++ [v]).
Definition add_li (u : vertex) (a : EdgeListOf) : EdgeListOf :=
  mkEL (at_ a) (left_incoming a ++ [u]) (left_outgoing a) (right_incoming a) (right_outgoing a).
Definition add_lo (v : vertex) (a : EdgeListOf) : EdgeListOf :=
  mkEL (at_ a) (left_incoming a) (left_outgoing a ++ [v]) (right_incoming a) (right_outgoing a).
Definition add_ri (u : vertex) (a : EdgeListOf) : EdgeListOf :=
  mkEL (at_ a) (left_incoming a) (left_outgoing a) (right_incoming a ++ [u]) (right_outgoing a).

Ltac split_cond :=
  repeat match goal with
         | |- context [(?j =? ?i) && vertex_eqb ?w ?x] =>
             let E := fresh "E" in
             destruct ((j =? i) && vertex_eqb w x) eqn:E;
             [apply andb_true_iff in E as [?%Z.eqb_eq ?%vertex_eqb_true]|]
         end.

Lemma cond_false_neq j i (w x : vertex) :
  (j =? i) && vertex_eqb w x = false -> ~ (j = i /\ w = x).
Proof.
  intros H [-> ->]. rewrite Z.eqb_refl, vertex_eqb_refl in H. discriminate.
Qed.

Lemma added_up u v G G' :
  vindex u < vindex v ->
  (forall j w, el_of G' j w
               = if (j =? vindex u) && vertex_eqb w v then add_li u (el_of G (vindex u) v)
                 else if (j =? vindex u) && vertex_eqb w u then add_ro v (el_of G (vindex u) u)
                      else el_of G j w) ->
  added u v G G'.
Proof.
  intros Hlt Hel.
  assert (Huv : u <> v) by (intros ->; lia).
  constructor; unfold ro, li, lo, ri; intros *.
  - rewrite Hel. split_cond; subst; simpl; rewrite ?in_app_iff; simpl;
      repeat match goal with H : _ && _ = false |- _ => apply cond_false_neq in H end;
      intuition (subst; auto; try lia; try congruence).
  - rewrite Hel. split_cond; subst; simpl; rewrite ?in_app_iff; simpl;
      repeat match goal with H : _ && _ = false |- _ => apply cond_false_neq in H end;
      intuition (subst; auto; try lia; try congruence).
  - rewrite Hel. split_cond; subst; simpl; rewrite ?in_app_iff; simpl;
      repeat match goal with H : _ && _ = false |- _ => apply cond_false_neq in H end;
      intuition (subst; auto; try lia; try congruence).
  - rewrite Hel. split_cond; subst; simpl; rewrite ?in_app_iff; simpl;
      repeat match goal with H : _ && _ = false |- _ => apply cond_false_neq in H end;
      intuition (subst; auto; try lia; try congruence).
  - intros W Hnew i x. pose proof (has_false_right _ _ _ Hlt Hnew) as Hn1.
    assert (Hn2 : ~ In u (li G (vindex u) v)).
    { intros H. apply (wf_li _ W) in H. tauto. }
    unfold ro, li in Hn1, Hn2. rewrite !Hel.
    destruct (wf_nd _ W i x) as (N1 & N2 & N3 & N4).
    split_cond; subst; simpl; auto using NoDup_snoc.
Qed.

Lemma added_down u v G G' :
  vindex v < vindex u ->
  (forall j w, el_of G' j w
               = if (j =? vindex v) && vertex_eqb w v then add_ri u (el_of G (vindex v) v)
                 else if (j =? vindex v) && vertex_eqb w u then add_lo v (el_of G (vindex v) u)
                      else el_of G j w) ->
  added u v G G'.
Proof.
  intros Hlt Hel.
  assert (Huv : u <> v) by (intros ->; lia).
  constructor; unfold ro, li, lo, ri; intros *.
  - rewrite Hel. split_cond; subst; simpl; rewrite ?in_app_iff; simpl;
      repeat match goal with H : _ && _ = false |- _ => apply cond_false_neq in H end;
      intuition (subst; auto; try lia; try congruence).
  - rewrite Hel. split_cond; subst; simpl; rewrite ?in_app_iff; simpl;
      repeat match goal with H : _ && _ = false |- _ => apply cond_false_neq in H end;
      intuition (subst; auto; try lia; try congruence).
  - rewrite Hel. split_cond; subst; simpl; rewrite ?in_app_iff; simpl;
      repeat match goal with H : _ && _ = false |- _ => apply cond_false_neq in H end;
      intuition (subst; auto; try lia; try congruence).
  - rewrite Hel. split_cond; subst; simpl; rewrite ?in_app_iff; simpl;
      repeat match goal with H : _ && _ = false |- _ => apply cond_false_neq in H end;
      intuition (subst; auto; try lia; try congruence).
  - intros W Hnew i x.
    assert (Hle : vindex v <= vindex u) by lia.
    pose proof (has_false_left _ _ _ Hle Hnew) as Hn1.
    assert (Hn2 : ~ In v (lo G (vindex v) u)).
    { intros H. apply (wf_lo _ W) in H. tauto. }
    unfold ri, lo in Hn1, Hn2. rewrite !Hel.
    destruct (wf_nd _ W i x) as (N1 & N2 & N3 & N4).
    split_cond; subst; simpl; auto using NoDup_snoc.
Qed.

Lemma added_el_eq u v G0 G G' G'' :
  (forall i x, el_of G i x = el_of G0 i x) ->
  (forall i x, el_of G'' i x = el_of G' i x) ->
  added u v G G' -> added u v G0 G''.
Proof.
  intros H0 H2 [a b c d e].
  constructor; unfold ro, li, lo, ri in *; intros *; rewrite ?H2, <- ?H0; auto.
  intros W Hn i x. rewrite !H2. apply e.
  - eapply gwf_el_eq; [|exact W]. auto.
  - rewrite <- Hn. now apply has_el_eq.
Qed.

(** Everything but graph [g] and vertex axis [r] is untouched. *)
Record frame_gv (g : gref) (r : nat) (h h' : heap) : Prop := mk_frame_gv
  { fgv_graph : forall k, k <> g -> h_graph h' k = h_graph h k;
    fgv_vaxis : forall k, k <> r -> h_vaxis h' k = h_vaxis h k;
    fgv_ng : h_ngraph h' = h_ngraph h;
    fgv_nv : h_nvaxis h' = h_nvaxis h }.

Lemma frame_gv_refl g r h : frame_gv g r h h.
Proof. constructor; auto. Qed.

Lemma frame_gv_trans g r h1 h2 h3 :
  frame_gv g r h1 h2 -> frame_gv g r h2 h3 -> frame_gv g r h1 h3.
Proof.
  intros [a b c d] [a' b' c' d']; constructor; intros; try congruence.
  - rewrite a', a; auto.
  - rewrite b', b; auto.
Qed.

Lemma frame_g_gv g r h h' : frame_g g h h' -> frame_gv g r h h'.
Proof. intros [a b c d]; constructor; auto. Qed.

Lemma frame_v_gv g r h h' : frame_v r h h' -> frame_gv g r h h'.
Proof. intros [a b c d]; constructor; auto. Qed.

Lemma adjacent_near e : adjacent e -> near e.
Proof. unfold adjacent, near; lia. Qed.

(** The four appends of [addEdge]. *)
Lemma add_lists_run h g u v :
  gshape (h_graph h g) -> adjacent (u, v) ->
  exists h',
    (if vindex u <? vindex v then
       bind (E_at g (vindex u) u) (fun a =>
       bind (E_put g (vindex u) u (mkEL (at_ a) (left_incoming a) (left_outgoing a)
                                        (right_incoming a) (right_outgoing a ++ [v]))) (fun _ =>
       bind (E_at g (vindex u) v) (fun c =>
       E_put g (vindex u) v (mkEL (at_ c) (left_incoming c ++ [u]) (left_outgoing c)
                                  (right_incoming c) (right_outgoing c)))))
     else
       bind (E_at g (vindex v) u) (fun a =>
       bind (E_put g (vindex v) u (mkEL (at_ a) (left_incoming a) (left_outgoing a ++ [v])
                                        (right_incoming a) (right_outgoing a))) (fun _ =>
       bind (E_at g (vindex v) v) (fun c =>
       E_put g (vindex v) v (mkEL (at_ c) (left_incoming c) (left_outgoing c)
                                  (right_incoming c ++ [u]) (right_outgoing c)))))) h
    = Ret (tt, h')
    /\ frame_g g h h'
    /\ gshape (h_graph h' g)
    /\ gV (h_graph h' g) = gV (h_graph h g)
    /\ gcount (h_graph h' g) = gcount (h_graph h g)
    /\ (forall j, edgeCount (slice_of (h_graph h' g) j) = edgeCount (slice_of (h_graph h g) j))
    /\ esum (h_graph h' g) = esum (h_graph h g)
    /\ added u v (h_graph h g) (h_graph h' g).
Proof.
  intros Hs Ha. unfold adjacent in Ha; simpl in Ha.
  destruct (vindex u <? vindex v) eqn:Hc.
  - assert (Hlt : vindex u < vindex v) by lia.
    destruct (E_modify_run h g (vindex u) u (add_ro v) Hs (in_slice_self u)
                (el_of_at _ _ _ Hs))
      as (h1 & h2 & R1 & R2 & F2 & Sh2 & V2 & C2 & El2 & Cn2 & Su2).
    rewrite (bind_run _ _ _ _ _ R1). unfold add_ro in R2.
    rewrite (bind_run _ _ _ _ _ R2).
    assert (Hv : in_slice (vindex u) v) by (right; lia).
    destruct (E_modify_run h2 g (vindex u) v (add_li u) Sh2 Hv (el_of_at _ _ _ Sh2))
      as (h3 & h4 & R3 & R4 & F4 & Sh4 & V4 & C4 & El4 & Cn4 & Su4).
    rewrite (bind_run _ _ _ _ _ R3). unfold add_li in R4. rewrite R4.
    exists h4. split; [reflexivity|].
    split; [eapply frame_g_trans; eauto|].
    split; [assumption|].
    split; [congruence|]. split; [congruence|].
    split; [intros j; rewrite Cn4; apply Cn2|].
    split; [congruence|].
    apply added_up; auto. intros j w. rewrite El4, !El2.
    assert (Hne : (vindex u =? vindex u) && vertex_eqb v u = false).
    { destruct (vertex_eqb v u) eqn:E; [|now rewrite andb_false_r].
      apply vertex_eqb_true in E. subst. lia. }
    rewrite Hne. reflexivity.
  - assert (Hlt : vindex v < vindex u) by lia.
    assert (Hu : in_slice (vindex v) u) by (right; lia).
    destruct (E_modify_run h g (vindex v) u (add_lo v) Hs Hu (el_of_at _ _ _ Hs))
      as (h1 & h2 & R1 & R2 & F2 & Sh2 & V2 & C2 & El2 & Cn2 & Su2).
    rewrite (bind_run _ _ _ _ _ R1). unfold add_lo in R2.
    rewrite (bind_run _ _ _ _ _ R2).
    destruct (E_modify_run h2 g (vindex v) v (add_ri u) Sh2 (in_slice_self v)
                (el_of_at _ _ _ Sh2))
      as (h3 & h4 & R3 & R4 & F4 & Sh4 & V4 & C4 & El4 & Cn4 & Su4).
    rewrite (bind_run _ _ _ _ _ R3). unfold add_ri in R4. rewrite R4.
    exists h4. split; [reflexivity|].
    split; [eapply frame_g_trans; eauto|].
    split; [assumption|].
    split; [congruence|]. split; [congruence|].
    split; [intros j; rewrite Cn4; apply Cn2|].
    split; [congruence|].
    apply added_down; auto. intros j w. rewrite El4, !El2.
    assert (Hne : (vindex v =? vindex v) && vertex_eqb v u = false).
    { destruct (vertex_eqb v u) eqn:E; [|now rewrite andb_false_r].
      apply vertex_eqb_true in E. subst. lia. }
    rewrite Hne. reflexivity.
Qed.

Section EdgeOps.
Variable symbols : list string.

(** What a heap must satisfy around graph [g] for its methods to run. *)
Record g_ok (h : heap) (g : gref) : Prop := mk_g_ok
  { ok_shape : gshape (h_graph h g);
    ok_wf : gwf (h_graph h g);
    ok_sum : gsum (h_graph h g);
    ok_vshape : vshape (h_vaxis h (gV (h_graph h g)));
    ok_vwf : vwf (h_vaxis h (gV (h_graph h g))) }.

Lemma q_ok_g_ok g h h' : q_ok g h h' -> g_ok h g -> g_ok h' g.
Proof.
  intros [F S Sh] [a b c d e].
  constructor; auto.
  - eapply gsim_gwf; eauto.
  - eapply gsim_gsum; eauto.
  - rewrite (gs_V _ _ S), (fg_vaxis _ _ _ F). assumption.
  - rewrite (gs_V _ _ S), (fg_vaxis _ _ _ F). assumption.
Qed.

(** The effect of [addEdge((u, v))] on an index-adjacent pair over the
    alphabet. *)
Lemma addEdge_run h g u v :
  g_ok h g -> adjacent (u, v) ->
  In (vsymbol u) symbols -> In (vsymbol v) symbols ->
  exists h',
    addEdge symbols g (u, v) h = Ret (tt, h')
    /\ frame_gv g (gV (h_graph h g)) h h'
    /\ g_ok h' g
    /\ gV (h_graph h' g) = gV (h_graph h g)
    /\ (forall e, has (h_graph h' g) e = has (h_graph h g) e || edge_eqb (u, v) e)
    /\ gcount (h_graph h' g)
       = gcount (h_graph h g) + (if has (h_graph h g) (u, v) then 0 else 1)
    /\ (has (h_graph h g) (u, v) = true ->
        gsim (h_graph h g) (h_graph h' g)
        /\ h_vaxis h' (gV (h_graph h g)) = h_vaxis h (gV (h_graph h g)))
    /\ (has (h_graph h g) (u, v) = false -> added u v (h_graph h g) (h_graph h' g))
    /\ (forall i t q s w,
          In w (case_members (h_vaxis h' (gV (h_graph h g))) i t q s)
          <-> In w (case_members (h_vaxis h (gV (h_graph h g))) i t q s)
              \/ (has (h_graph h g) (u, v) = false
                  /\ (w = u \/ w = v) /\ transitionCase w = mkT i t q s)).
Proof.
  intros [Hs W Sm HV HW] Ha Hu Hv.
  unfold addEdge.
  set (i := Z.min (vindex u) (vindex v)).
  (* the slice read and the two assertions *)
  destruct (E_getitem_run h g i Hs) as (h1 & R1 & F1 & S1 & D1).
  rewrite (bind_run _ _ _ _ _ R1).
  destruct (Hs i) as (Hidx & _).  rewrite Hidx, Z.eqb_refl.
  unfold assert_ at 1. unfold bind at 1, ret at 1.
  replace (negb (Z.abs (vindex u - vindex v) =? 0)) with true
    by (unfold adjacent in Ha; simpl in Ha; lia).
  unfold assert_ at 1. unfold bind at 1, ret at 1.
  pose proof (slice_same_gshape _ _ S1 Hs) as Hs1.
  pose proof (slice_same_gsim _ _ S1) as Sim1.
  (* the membership test *)
  destruct (hasEdge_run h1 g (u, v) Hs1 (adjacent_near _ Ha)) as (h2 & R2 & Q2).
  rewrite (bind_run _ _ _ _ _ R2).
  assert (Sim2 : gsim (h_graph h g) (h_graph h2 g)) by (eapply gsim_trans; [exact Sim1|apply (q_sim _ _ _ Q2)]).
  assert (F2 : frame_g g h h2) by (eapply frame_g_trans; [exact F1|apply (q_frame _ _ _ Q2)]).
  rewrite (gsim_has _ _ (u, v) Sim1).
  destruct (has (h_graph h g) (u, v)) eqn:Hhas.
  - (* already present *)
    exists h2. split; [reflexivity|].
    split; [now apply frame_g_gv|].
    assert (Q : q_ok g h h2) by (constructor; auto; apply (q_shape _ _ _ Q2)).
    split; [eapply q_ok_g_ok; eauto; constructor; auto|].
    split; [apply (gs_V _ _ Sim2)|].
    split.
    { intros e. rewrite (gsim_has _ _ e Sim2).
      destruct (edge_eqb (u, v) e) eqn:E; [|now rewrite orb_false_r].
      apply edge_eqb_true in E; subst e.  now rewrite Hhas. }
    split; [rewrite (gs_count _ _ Sim2); lia|].
    split; [intros _; split; [assumption|apply (fg_vaxis _ _ _ F2)]|].
    split; [discriminate|].
    intros. rewrite (fg_vaxis _ _ _ F2).  intuition discriminate.
  - (* a new edge: register the endpoints *)
    simpl.
    assert (HrG2 : gV (h_graph h2 g) = (gV (h_graph h g))) by apply (gs_V _ _ Sim2).
    assert (HV2 : h_vaxis h2 (gV (h_graph h g)) = h_vaxis h (gV (h_graph h g))) by apply (fg_vaxis _ _ _ F2).
    destruct (addVertex_run symbols h2 g u) as (h3 & R3 & F3 & HV3 & HW3 & M3);
      rewrite ?HrG2, ?HV2; auto.
    rewrite HrG2 in F3, HV3, HW3, M3.
    assert (M3' := fun i t q s w => M3 i t q s w). clear M3.
    setoid_rewrite HV2 in M3'.
    rewrite (bind_run _ _ _ _ _ R3).
    assert (HG3 : h_graph h3 g = h_graph h2 g) by apply (fv_graph _ _ _ F3).
    destruct (addVertex_run symbols h3 g v) as (h4 & R4 & F4 & HV4 & HW4 & M4);
      rewrite ?HG3, ?HrG2; auto.
    rewrite HG3, HrG2 in F4, HV4, HW4, M4.
    rewrite (bind_run _ _ _ _ _ R4).
    assert (HG4 : h_graph h4 g = h_graph h2 g)
      by (rewrite (fv_graph _ _ _ F4); exact HG3).
    (* the four appends *)
    assert (Hs4 : gshape (h_graph h4 g)) by (rewrite HG4; apply (q_shape _ _ _ Q2)).
    destruct (add_lists_run h4 g u v Hs4 Ha)
      as (h5 & R5 & F5 & Sh5 & V5 & C5 & Cn5 & Su5 & Ad5).
    rewrite (bind_run _ _ _ _ _ R5).
    (* the two counters *)
    destruct (E_count_add_run h5 g i 1 Sh5)
      as (h6 & R6 & F6 & Sh6 & V6 & C6 & El6 & Cn6 & Su6).
    rewrite (bind_run _ _ _ _ _ R6).
    destruct (count_add_run h6 g 1) as (h7 & R7 & F7 & G7).
    rewrite R7.
    exists h7. split; [reflexivity|].
    assert (El7 : forall j x, el_of (h_graph h7 g) j x = el_of (h_graph h5 g) j x).
    { intros. rewrite G7. unfold el_of, slice_of; simpl. apply El6. }
    assert (Ad : added u v (h_graph h g) (h_graph h7 g)).
    { eapply added_el_eq; [| |exact Ad5]; auto.
      intros. rewrite HG4. apply (gs_el _ _ Sim2). }
    destruct (gwf_added u v (h_graph h g) _ W Ha Ad) as (W7 & Has7).
    assert (Hr7 : gV (h_graph h7 g) = (gV (h_graph h g))).
    { rewrite G7; simpl. rewrite V6, V5, HG4. exact HrG2. }
    assert (FV : forall k, h_vaxis h7 k = h_vaxis h4 k).
    { intros k. rewrite (fg_vaxis _ _ _ F7), (fg_vaxis _ _ _ F6), (fg_vaxis _ _ _ F5).
      reflexivity. }
    split.
    { constructor.
      - intros k Hk. rewrite (fg_others _ _ _ F7), (fg_others _ _ _ F6),
          (fg_others _ _ _ F5), (fv_graph _ _ _ F4), (fv_graph _ _ _ F3),
          (fg_others _ _ _ F2); auto.
      - intros k Hk. rewrite FV, (fv_others _ _ _ F4), (fv_others _ _ _ F3),
          (fg_vaxis _ _ _ F2); auto.
      - rewrite (fg_ng _ _ _ F7), (fg_ng _ _ _ F6), (fg_ng _ _ _ F5), (fv_ng _ _ _ F4),
          (fv_ng _ _ _ F3). apply (fg_ng _ _ _ F2).
      - rewrite (fg_nv _ _ _ F7), (fg_nv _ _ _ F6), (fg_nv _ _ _ F5), (fv_nv _ _ _ F4),
          (fv_nv _ _ _ F3). apply (fg_nv _ _ _ F2). }
    split.
    { constructor.
      - rewrite G7. intros j. unfold slice_of; simpl. apply Sh6.
      - auto.
      - unfold gsum. rewrite G7; simpl. unfold esum at 1; simpl. fold (esum (h_graph h6 g)).
        rewrite C6, C5, Su6, Su5, HG4, (gs_count _ _ Sim2), (gs_sum _ _ Sim2).
        unfold gsum in Sm.  lia.
      - rewrite Hr7, FV. assumption.
      - rewrite Hr7, FV. assumption. }
    split; [assumption|].
    split; [assumption|].
    split.
    { rewrite G7; simpl. rewrite C6, C5, HG4, (gs_count _ _ Sim2).  lia. }
    split; [discriminate|].
    split; [auto|].
    intros j t q s w. rewrite FV, M4, M3'. intuition (subst; auto).
Qed.

End EdgeOps.

(** The list [list.remove(x)] leaves behind. *)
Fixpoint del (x : vertex) (l : list vertex) : list vertex :=
  match l with
  | [] => []
  | y :: r => if vertex_eq_dec x y then r else y :: del x r
  end.

Lemma list_remove_del x l : In x l -> list_remove vertex_eq_dec x l = Ret (del x l).
Proof.
  induction l as [|y l IH]; simpl; [tauto|].
  destruct (vertex_eq_dec x y); auto.
  intros [H|H]; [congruence|]. rewrite (IH H). reflexivity.
Qed.

Lemma list_remove_absent x l : ~ In x l -> list_remove vertex_eq_dec x l = Raise ValueError.
Proof.
  induction l as [|y l IH]; simpl; auto.
  destruct (vertex_eq_dec x y); [intros H; exfalso; auto|].
  intros H. rewrite IH; auto.
Qed.

Lemma del_In x y l : NoDup l -> (In y (del x l) <-> In y l /\ y <> x).
Proof.
  induction l as [|z l IH]; simpl; [tauto|].
  intros Hnd. inversion Hnd; subst.
  destruct (vertex_eq_dec x z).
  - subst. split; [intros H; split; auto; intros ->; contradiction|].
    intros [[->|H] Hne]; [congruence|auto].
  - simpl. rewrite IH by assumption. intuition congruence.
Qed.

Lemma del_NoDup x l : NoDup l -> NoDup (del x l).
Proof.
  induction l as [|z l IH]; simpl; auto.
  intros Hnd. inversion Hnd; subst.
  destruct (vertex_eq_dec x z); auto.
  constructor; auto. rewrite del_In by assumption. tauto.
Qed.

Lemma del_length x l : In x l -> S (length (del x l)) = length l.
Proof.
  induction l as [|z l IH]; simpl; [tauto|].
  destruct (vertex_eq_dec x z); auto.
  intros [H|H]; [congruence|]. simpl. now rewrite IH.
Qed.

Definition del_ro (v : vertex) (a : EdgeListOf) : EdgeListOf :=
  mkEL (at_ a) (left_incoming a) (left_outgoing a) (right_incoming a) (del v (right_outgoing a)).
Definition del_li (u : vertex) (a : EdgeListOf) : EdgeListOf :=
  mkEL (at_ a) (del u (left_incoming a)) (left_outgoing a) (right_incoming a) (right_outgoing a).
Definition del_lo (v : vertex) (a : EdgeListOf) : EdgeListOf :=
  mkEL (at_ a) (left_incoming a) (del v (left_outgoing a)) (right_incoming a) (right_outgoing a).
Definition del_ri (u : vertex) (a : EdgeListOf) : EdgeListOf :=
  mkEL (at_ a) (left_incoming a) (left_outgoing a) (del u (right_incoming a)) (right_outgoing a).

(** The lists of [G'] are those of [G] without the edge [(u, v)]. *)
Record removed (u v : vertex) (G G' : Graph) : Prop := mk_removed
  { rm_ro : forall j x w, In w (ro G' j x) <-> In w (ro G j x) /\ ~ (x = u /\ w = v);
    rm_li : forall j x w, In x (li G' j w) <-> In x (li G j w) /\ ~ (x = u /\ w = v);
    rm_lo : forall j x w, In w (lo G' j x) <-> In w (lo G j x) /\ ~ (x = u /\ w = v);
    rm_ri : forall j x w, In x (ri G' j w) <-> In x (ri G j w) /\ ~ (x = u /\ w = v);
    rm_nd : forall i x, NoDup (ro G' i x) /\ NoDup (li G' i x)
                        /\ NoDup (lo G' i x) /\ NoDup (ri G' i x) }.

Lemma gwf_removed u v G G' :
  gwf G -> removed u v G G' ->
  gwf G' /\ (forall e, has G' e = has G e && negb (edge_eqb (u, v) e)).
Proof.
  intros W [Rro Rli Rlo Rri Rnd].
  fold (ro G) (li G) (lo G) (ri G) in *.
  split.
  - constructor; auto.
    + intros i x w H. fold (ro G' i x) in H. fold (li G' i w).
      apply Rro in H as [H Hne].
      destruct (wf_ro _ W _ _ _ H) as (? & ? & ?). repeat split; auto. apply Rli; auto.
    + intros i x w H. fold (li G' i w) in H. fold (ro G' i x).
      apply Rli in H as [H Hne].
      destruct (wf_li _ W _ _ _ H) as (? & ? & ?). repeat split; auto. apply Rro; auto.
    + intros i x w H. fold (lo G' i x) in H. fold (ri G' i w).
      apply Rlo in H as [H Hne].
      destruct (wf_lo _ W _ _ _ H) as (? & ? & ?). repeat split; auto. apply Rri; auto.
    + intros i x w H. fold (ri G' i w) in H. fold (lo G' i x).
      apply Rri in H as [H Hne].
      destruct (wf_ri _ W _ _ _ H) as (? & ? & ?). repeat split; auto. apply Rlo; auto.
  - intros [x w]. apply eq_true_iff_eq.
    rewrite andb_true_iff, negb_true_iff.
    unfold has at 1; simpl. rewrite orb_true_iff, !memv_In.
    fold (ro G' (Z.min (vindex x) (vindex w)) x) (ri G' (Z.min (vindex x) (vindex w)) w).
    rewrite Rro, Rri. unfold has; simpl. rewrite orb_true_iff, !memv_In.
    fold (ro G (Z.min (vindex x) (vindex w)) x) (ri G (Z.min (vindex x) (vindex w)) w).
    assert (Hq : edge_eqb (u, v) (x, w) = false <-> ~ (x = u /\ w = v)).
    { destruct (edge_eqb (u, v) (x, w)) eqn:E.
      - apply edge_eqb_true in E. injection E as <- <-. intuition discriminate.
      - split; auto. intros _ [-> ->]. unfold edge_eqb in E.
        destruct (edge_eq_dec (u, v) (u, v)); congruence. }
    rewrite Hq. tauto.
Qed.

Lemma removed_el_eq u v G0 G G' G'' :
  (forall i x, el_of G i x = el_of G0 i x) ->
  (forall i x, el_of G'' i x = el_of G' i x) ->
  removed u v G G' -> removed u v G0 G''.
Proof.
  intros H0 H2 [a b c d e].
  constructor; unfold ro, li, lo, ri in *; intros *; rewrite ?H2, <- ?H0; auto.
Qed.

Lemma removed_up u v G G' :
  gwf G -> vindex u < vindex v ->
  (forall j w, el_of G' j w
               = if (j =? vindex u) && vertex_eqb w v then del_li u (el_of G (vindex u) v)
                 else if (j =? vindex u) && vertex_eqb w u then del_ro v (el_of G (vindex u) u)
                      else el_of G j w) ->
  removed u v G G'.
Proof.
  intros W Hlt Hel.
  assert (Huv : u <> v) by (intros ->; lia).
  assert (Nd := wf_nd _ W).
  constructor; unfold ro, li, lo, ri; intros *.
  - rewrite Hel. split_cond; subst; simpl;
      repeat match goal with H : _ && _ = false |- _ => apply cond_false_neq in H end.
    + intuition (subst; auto; try lia; try congruence).
    + rewrite del_In by apply Nd. intuition (subst; auto; try lia; try congruence).
    + split; [|tauto]. intros H. split; auto. intros [-> ->].
      apply (wf_ro _ W) in H. intuition.
  - rewrite Hel. split_cond; subst; simpl;
      repeat match goal with H : _ && _ = false |- _ => apply cond_false_neq in H end.
    + rewrite del_In by apply Nd. intuition (subst; auto; try lia; try congruence).
    + intuition (subst; auto; try lia; try congruence).
    + split; [|tauto]. intros H. split; auto. intros [-> ->].
      apply (wf_li _ W) in H. intuition.
  - rewrite Hel. split_cond; subst; simpl;
      repeat match goal with H : _ && _ = false |- _ => apply cond_false_neq in H end.
    + split; [|tauto]. intros H. split; auto. intros [-> ->].
      apply (wf_lo _ W) in H. lia.
    + split; [|tauto]. intros H. split; auto. intros [_ ->].
      apply (wf_lo _ W) in H. lia.
    + split; [|tauto]. intros H. split; auto. intros [-> ->].
      apply (wf_lo _ W) in H. lia.
  - rewrite Hel. split_cond; subst; simpl;
      repeat match goal with H : _ && _ = false |- _ => apply cond_false_neq in H end.
    + split; [|tauto]. intros H. split; auto. intros [-> _].
      apply (wf_ri _ W) in H. lia.
    + split; [|tauto]. intros H. split; auto. intros [-> ->].
      apply (wf_ri _ W) in H. lia.
    + split; [|tauto]. intros H. split; auto. intros [-> ->].
      apply (wf_ri _ W) in H. lia.
  - rewrite !Hel. destruct (Nd i x) as (N1 & N2 & N3 & N4).
    split_cond; subst; simpl; auto using del_NoDup.
Qed.

Lemma removed_down u v G G' :
  gwf G -> vindex v < vindex u ->
  (forall j w, el_of G' j w
               = if (j =? vindex v) && vertex_eqb w v then del_ri u (el_of G (vindex v) v)
                 else if (j =? vindex v) && vertex_eqb w u then del_lo v (el_of G (vindex v) u)
                      else el_of G j w) ->
  removed u v G G'.
Proof.
  intros W Hlt Hel.
  assert (Huv : u <> v) by (intros ->; lia).
  assert (Nd := wf_nd _ W).
  constructor; unfold ro, li, lo, ri; intros *.
  - rewrite Hel. split_cond; subst; simpl;
      repeat match goal with H : _ && _ = false |- _ => apply cond_false_neq in H end.
    + split; [|tauto]. intros H. split; auto. intros [-> ->].
      apply (wf_ro _ W) in H. lia.
    + split; [|tauto]. intros H. split; auto. intros [_ ->].
      apply (wf_ro _ W) in H. lia.
    + split; [|tauto]. intros H. split; auto. intros [-> ->].
      apply (wf_ro _ W) in H. lia.
  - rewrite Hel. split_cond; subst; simpl;
      repeat match goal with H : _ && _ = false |- _ => apply cond_false_neq in H end.
    + split; [|tauto]. intros H. split; auto. intros [-> _].
      apply (wf_li _ W) in H. lia.
    + split; [|tauto]. intros H. split; auto. intros [-> ->].
      apply (wf_li _ W) in H. lia.
    + split; [|tauto]. intros H. split; auto. intros [-> ->].
      apply (wf_li _ W) in H. lia.
  - rewrite Hel. split_cond; subst; simpl;
      repeat match goal with H : _ && _ = false |- _ => apply cond_false_neq in H end.
    + intuition (subst; auto; try lia; try congruence).
    + rewrite del_In by apply Nd. intuition (subst; auto; try lia; try congruence).
    + split; [|tauto]. intros H. split; auto. intros [-> ->].
      apply (wf_lo _ W) in H. intuition.
  - rewrite Hel. split_cond; subst; simpl;
      repeat match goal with H : _ && _ = false |- _ => apply cond_false_neq in H end.
    + rewrite del_In by apply Nd. intuition (subst; auto; try lia; try congruence).
    + intuition (subst; auto; try lia; try congruence).
    + split; [|tauto]. intros H. split; auto. intros [-> ->].
      apply (wf_ri _ W) in H. intuition.
  - rewrite !Hel. destruct (Nd i x) as (N1 & N2 & N3 & N4).
    split_cond; subst; simpl; auto using del_NoDup.
Qed.

(** The two removals and the slice counter of [removeEdge]. *)
Lemma rem_lists_run h g u v :
  gshape (h_graph h g) -> gwf (h_graph h g) -> has (h_graph h g) (u, v) = true ->
  exists h',
    (if vindex u <? vindex v then
       bind (E_at g (vindex u) u) (fun a =>
       bind (lift (list_remove vertex_eq_dec v (right_outgoing a))) (fun l =>
       bind (E_put g (vindex u) u (mkEL (at_ a) (left_incoming a) (left_outgoing a)
                                        (right_incoming a) l)) (fun _ =>
       bind (E_at g (vindex u) v) (fun c =>
       bind (lift (list_remove vertex_eq_dec u (left_incoming c))) (fun l' =>
       bind (E_put g (vindex u) v (mkEL (at_ c) l' (left_outgoing c)
                                        (right_incoming c) (right_outgoing c))) (fun _ =>
       E_count_add g (vindex u) (-1)))))))
     else
       bind (E_at g (vindex v) u) (fun a =>
       bind (lift (list_remove vertex_eq_dec v (left_outgoing a))) (fun l =>
       bind (E_put g (vindex v) u (mkEL (at_ a) (left_incoming a) l
                                        (right_incoming a) (right_outgoing a))) (fun _ =>
       bind (E_at g (vindex v) v) (fun c =>
       bind (lift (list_remove vertex_eq_dec u (right_incoming c))) (fun l' =>
       bind (E_put g (vindex v) v (mkEL (at_ c) (left_incoming c) (left_outgoing c)
                                        l' (right_outgoing c))) (fun _ =>
       E_count_add g (vindex v) (-1)))))))) h
    = Ret (tt, h')
    /\ frame_g g h h'
    /\ gshape (h_graph h' g)
    /\ gV (h_graph h' g) = gV (h_graph h g)
    /\ gcount (h_graph h' g) = gcount (h_graph h g)
    /\ esum (h_graph h' g) = esum (h_graph h g) - 1
    /\ removed u v (h_graph h g) (h_graph h' g).
Proof.
  intros Hs W Hhas.
  pose proof (has_adjacent _ _ W Hhas) as Ha. unfold adjacent in Ha; simpl in Ha.
  destruct (vindex u <? vindex v) eqn:Hc.
  - assert (Hlt : vindex u < vindex v) by lia.
    assert (Hin : In v (right_outgoing (el_of (h_graph h g) (vindex u) u)))
      by (apply has_right; auto).
    destruct (E_modify_run h g (vindex u) u (del_ro v) Hs (in_slice_self u)
                (el_of_at _ _ _ Hs))
      as (h1 & h2 & R1 & R2 & F2 & Sh2 & V2 & C2 & El2 & Cn2 & Su2).
    rewrite (bind_run _ _ _ _ _ R1).
    rewrite (list_remove_del _ _ Hin). unfold lift at 1, bind at 1.
    unfold del_ro in R2. rewrite (bind_run _ _ _ _ _ R2).
    assert (Hv : in_slice (vindex u) v) by (right; lia).
    destruct (E_modify_run h2 g (vindex u) v (del_li u) Sh2 Hv (el_of_at _ _ _ Sh2))
      as (h3 & h4 & R3 & R4 & F4 & Sh4 & V4 & C4 & El4 & Cn4 & Su4).
    rewrite (bind_run _ _ _ _ _ R3).
    assert (Hne : (vindex u =? vindex u) && vertex_eqb v u = false).
    { destruct (vertex_eqb v u) eqn:E; [|now rewrite andb_false_r].
      apply vertex_eqb_true in E. subst. lia. }
    assert (Hel2v : el_of (h_graph h2 g) (vindex u) v = el_of (h_graph h g) (vindex u) v)
      by (rewrite El2, Hne; reflexivity).
    assert (Hin' : In u (left_incoming (el_of (h_graph h2 g) (vindex u) v))).
    { rewrite Hel2v. apply (wf_ro _ W) in Hin. tauto. }
    rewrite (list_remove_del _ _ Hin'). unfold lift at 1, bind at 1.
    unfold del_li in R4. rewrite (bind_run _ _ _ _ _ R4).
    destruct (E_count_add_run h4 g (vindex u) (-1) Sh4)
      as (h6 & R6 & F6 & Sh6 & V6 & C6 & El6 & Cn6 & Su6).
    rewrite R6. exists h6. split; [reflexivity|].
    split; [eapply frame_g_trans; [|exact F6]; eapply frame_g_trans; eauto|].
    split; [assumption|].
    split; [congruence|]. split; [congruence|].
    split; [lia|].
    apply removed_up; auto. intros j w. rewrite El6, El4, !El2, Hne. reflexivity.
  - assert (Hlt : vindex v < vindex u) by lia.
    assert (Hin : In u (right_incoming (el_of (h_graph h g) (vindex v) v)))
      by (apply has_left; auto; lia).
    assert (Hin0 : In v (left_outgoing (el_of (h_graph h g) (vindex v) u))).
    { apply (wf_ri _ W) in Hin. tauto. }
    assert (Hu : in_slice (vindex v) u) by (right; lia).
    destruct (E_modify_run h g (vindex v) u (del_lo v) Hs Hu (el_of_at _ _ _ Hs))
      as (h1 & h2 & R1 & R2 & F2 & Sh2 & V2 & C2 & El2 & Cn2 & Su2).
    rewrite (bind_run _ _ _ _ _ R1).
    rewrite (list_remove_del _ _ Hin0). unfold lift at 1, bind at 1.
    unfold del_lo in R2. rewrite (bind_run _ _ _ _ _ R2).
    destruct (E_modify_run h2 g (vindex v) v (del_ri u) Sh2 (in_slice_self v)
                (el_of_at _ _ _ Sh2))
      as (h3 & h4 & R3 & R4 & F4 & Sh4 & V4 & C4 & El4 & Cn4 & Su4).
    rewrite (bind_run _ _ _ _ _ R3).
    assert (Hne : (vindex v =? vindex v) && vertex_eqb v u = false).
    { destruct (vertex_eqb v u) eqn:E; [|now rewrite andb_false_r].
      apply vertex_eqb_true in E. subst. lia. }
    assert (Hel2v : el_of (h_graph h2 g) (vindex v) v = el_of (h_graph h g) (vindex v) v)
      by (rewrite El2, Hne; reflexivity).
    assert (Hin' : In u (right_incoming (el_of (h_graph h2 g) (vindex v) v)))
      by (now rewrite Hel2v).
    rewrite (list_remove_del _ _ Hin'). unfold lift at 1, bind at 1.
    unfold del_ri in R4. rewrite (bind_run _ _ _ _ _ R4).
    destruct (E_count_add_run h4 g (vindex v) (-1) Sh4)
      as (h6 & R6 & F6 & Sh6 & V6 & C6 & El6 & Cn6 & Su6).
    rewrite R6. exists h6. split; [reflexivity|].
    split; [eapply frame_g_trans; [|exact F6]; eapply frame_g_trans; eauto|].
    split; [assumption|].
    split; [congruence|]. split; [congruence|].
    split; [lia|].
    apply removed_down; auto. intros j w. rewrite El6, El4, !El2, Hne. reflexivity.
Qed.

(** The effect of [removeEdge((u, v))]. *)
Lemma removeEdge_run h g u v :
  gshape (h_graph h g) -> gwf (h_graph h g) -> near (u, v) ->
  exists h',
    removeEdge g (u, v) h = Ret (tt, h')
    /\ frame_g g h h'
    /\ gshape (h_graph h' g)
    /\ gwf (h_graph h' g)
    /\ gV (h_graph h' g) = gV (h_graph h g)
    /\ (forall e, has (h_graph h' g) e = has (h_graph h g) e && negb (edge_eqb (u, v) e))
    /\ gcount (h_graph h' g)
       = gcount (h_graph h g) - (if has (h_graph h g) (u, v) then 1 else 0)
    /\ esum (h_graph h' g)
       = esum (h_graph h g) - (if has (h_graph h g) (u, v) then 1 else 0)
    /\ (has (h_graph h g) (u, v) = false -> gsim (h_graph h g) (h_graph h' g))
    /\ (has (h_graph h g) (u, v) = true -> removed u v (h_graph h g) (h_graph h' g)).
Proof.
  intros Hs W Hn. unfold removeEdge.
  destruct (hasEdge_run h g (u, v) Hs Hn) as (h1 & R1 & [F1 S1 Sh1]).
  rewrite (bind_run _ _ _ _ _ R1).
  destruct (has (h_graph h g) (u, v)) eqn:Hhas; simpl.
  - pose proof (gsim_gwf _ _ S1 W) as W1.
    assert (Hhas1 : has (h_graph h1 g) (u, v) = true) by (rewrite (gsim_has _ _ _ S1); auto).
    destruct (rem_lists_run h1 g u v Sh1 W1 Hhas1)
      as (h2 & R2 & F2 & Sh2 & V2 & C2 & Su2 & Rm2).
    rewrite (bind_run _ _ _ _ _ R2).
    destruct (count_add_run h2 g (-1)) as (h3 & R3 & F3 & G3).
    rewrite R3. exists h3. split; [reflexivity|].
    assert (El3 : forall j x, el_of (h_graph h3 g) j x = el_of (h_graph h2 g) j x).
    { intros. rewrite G3. reflexivity. }
    assert (Rm : removed u v (h_graph h g) (h_graph h3 g)).
    { eapply removed_el_eq; [| |exact Rm2]; auto. apply (gs_el _ _ S1). }
    destruct (gwf_removed u v _ _ W Rm) as (W3 & Has3).
    split; [eapply frame_g_trans; [|exact F3]; eapply frame_g_trans; eauto|].
    split; [rewrite G3; intros j; unfold slice_of; simpl; apply Sh2|].
    split; [assumption|].
    split; [rewrite G3; simpl; rewrite V2; apply (gs_V _ _ S1)|].
    split; [assumption|].
    split; [rewrite G3; simpl; rewrite C2, (gs_count _ _ S1); lia|].
    assert (Su3 : esum (h_graph h3 g) = esum (h_graph h2 g)) by (rewrite G3; reflexivity).
    split; [rewrite Su3, Su2, (gs_sum _ _ S1); lia|].
    split; [discriminate|auto].
  - exists h1. split; [reflexivity|].
    split; [assumption|]. split; [assumption|].
    split; [eapply gsim_gwf; eauto|].
    split; [apply (gs_V _ _ S1)|].
    split.
    { intros e. rewrite (gsim_has _ _ _ S1).
      destruct (edge_eqb (u, v) e) eqn:E; [|now rewrite andb_true_r].
      apply edge_eqb_true in E; subst. rewrite Hhas. reflexivity. }
    split; [rewrite (gs_count _ _ S1); lia|].
    split; [rewrite (gs_sum _ _ S1); lia|].
    split; [auto|discriminate].
Qed.

(* ================================================================== *)
(** * Graphs built by the program *)

Lemma slice_of_empty r c i : slice_of (mkG r (mkCA 0 []) c) i = new_EdgeSlice i.
Proof.
  unfold slice_of, ca_lookup; simpl.
  replace (isDefined (mkCA 0 (@nil EdgeSlice)) i) with false; auto.
  unfold isDefined, ca_top; simpl. lia.
Qed.

Lemma el_of_empty r c i v : el_of (mkG r (mkCA 0 []) c) i v = new_EdgeListOf v.
Proof. unfold el_of. now rewrite slice_of_empty. Qed.

Lemma gshape_empty r c : gshape (mkG r (mkCA 0 []) c).
Proof.
  intros i. rewrite slice_of_empty. repeat split; simpl; auto using NoDup_nil. tauto.
Qed.

Lemma gwf_empty r c : gwf (mkG r (mkCA 0 []) c).
Proof.
  constructor; intros *; rewrite ?el_of_empty; simpl; try tauto.
  repeat split; apply NoDup_nil.
Qed.

Lemma has_empty r c e : has (mkG r (mkCA 0 []) c) e = false.
Proof. unfold has. now rewrite !el_of_empty. Qed.

Section Built.
Variable symbols : list string.

(** [DynamicComputationGraph()] allocates past everything there is. *)
Lemma new_graph_run h :
  exists h',
    DynamicComputationGraph h = Ret (h_ngraph h, h')
    /\ h_graph h' (h_ngraph h) = mkG (h_nvaxis h) (mkCA 0 []) 0
    /\ h_vaxis h' (h_nvaxis h) = mkCA 0 []
    /\ (forall k, k <> h_ngraph h -> h_graph h' k = h_graph h k)
    /\ (forall k, k <> h_nvaxis h -> h_vaxis h' k = h_vaxis h k)
    /\ h_ngraph h' = S (h_ngraph h) /\ h_nvaxis h' = S (h_nvaxis h).
Proof.
  unfold DynamicComputationGraph. eexists; split; [reflexivity|]. simpl.
  rewrite !Nat.eqb_refl. repeat split; auto.
  - intros k Hk. destruct (Nat.eqb k (h_ngraph h)) eqn:E; auto.
    apply Nat.eqb_eq in E; tauto.
  - intros k Hk. destruct (Nat.eqb k (h_nvaxis h)) eqn:E; auto.
    apply Nat.eqb_eq in E; tauto.
Qed.

Lemma new_graph_ok h h' g :
  DynamicComputationGraph h = Ret (g, h') -> g_ok h' g /\ gcount (h_graph h' g) = 0.
Proof.
  destruct (new_graph_run h) as (h1 & R & HG & HV & _).
  rewrite R. intros E; injection E as <- <-.
  rewrite HG. split; auto. constructor; rewrite ?HG; simpl; rewrite ?HV.
  - apply gshape_empty.
  - apply gwf_empty.
  - reflexivity.
  - apply vshape_empty.
  - apply vwf_empty.
Qed.

Lemma adjacentb_true e : adjacentb e = true <-> adjacent e.
Proof. unfold adjacentb, adjacent. lia. Qed.

Lemma nearb_true e : nearb e = true <-> near e.
Proof. unfold nearb, near. lia. Qed.

Lemma over_alphabet_true v : over_alphabet symbols v = true <-> In (vsymbol v) symbols.
Proof.
  unfold over_alphabet, mem. destruct (in_dec string_dec (vsymbol v) symbols);
    split; auto; discriminate.
Qed.

Lemma apply_op_ok h g o :
  g_ok h g -> op_okb symbols o = true ->
  exists h', apply_op symbols g o h = Ret (tt, h') /\ g_ok h' g
             /\ frame_gv g (gV (h_graph h g)) h h'
             /\ gV (h_graph h' g) = gV (h_graph h g).
Proof.
  intros Hok Ho. destruct o as [[u v]|[u v]]; simpl in *.
  - apply andb_true_iff in Ho as [Ho Hv]. apply andb_true_iff in Ho as [Ha Hu].
    apply adjacentb_true in Ha. apply over_alphabet_true in Hu, Hv. simpl in *.
    destruct (addEdge_run symbols h g u v Hok Ha Hu Hv) as (h' & R & F & Ok & HV & _).
    eauto.
  - apply nearb_true in Ho.
    destruct Hok as [Hs W Sm HV HW].
    destruct (removeEdge_run h g u v Hs W Ho)
      as (h' & R & F & Sh & W' & V' & _ & C & Su & _).
    exists h'. split; [assumption|]. split; [|split; [now apply frame_g_gv|assumption]].
    constructor; auto.
    + unfold gsum in *. lia.
    + rewrite V', (fg_vaxis _ _ _ F). assumption.
    + rewrite V', (fg_vaxis _ _ _ F). assumption.
Qed.

Lemma run_ops_ok ops : forall h g,
  g_ok h g -> forallb (op_okb symbols) ops = true ->
  exists h', run_ops symbols g ops h = Ret (tt, h') /\ g_ok h' g.
Proof.
  induction ops as [|o ops IH]; intros h g Hok Hall; simpl in *.
  - exists h. auto.
  - apply andb_true_iff in Hall as [Ho Hall].
    destruct (apply_op_ok h g o Hok Ho) as (h1 & R1 & Ok1 & _).
    destruct (IH h1 g Ok1 Hall) as (h2 & R2 & Ok2).
    exists h2. split; auto.
    unfold run_ops, forM_ in *. simpl. rewrite (bind_run _ _ _ _ _ R1). exact R2.
Qed.

(** A sequence of calls within the contract runs to the end, and leaves a
    graph that satisfies the invariants. *)
Lemma build_ok ops :
  forallb (op_okb symbols) ops = true ->
  exists g h, build symbols ops empty_heap = Ret (g, h) /\ g_ok h g.
Proof.
  intros Hall. unfold build.
  destruct (new_graph_run empty_heap) as (h1 & R1 & _).
  destruct (new_graph_ok _ _ _ R1) as (Ok1 & _).
  destruct (run_ops_ok ops h1 _ Ok1 Hall) as (h2 & R2 & Ok2).
  exists (h_ngraph empty_heap), h2.
  rewrite (bind_run _ _ _ _ _ R1), (bind_run _ _ _ _ _ R2). auto.
Qed.

Lemma build_inv ops g h :
  forallb (op_okb symbols) ops = true ->
  build symbols ops empty_heap = Ret (g, h) -> g_ok h g.
Proof.
  intros Hall Hb. destruct (build_ok ops Hall) as (g' & h' & R & Ok).
  rewrite R in Hb. injection Hb as <- <-. assumption.
Qed.

(** The first lines of [addEdge], down to the membership test. *)
Lemma addEdge_prefix h g u v (k : bool -> M unit) :
  gshape (h_graph h g) -> near (u, v) -> vindex u <> vindex v ->
  exists h1,
    q_ok g h h1
    /\ bind (E_getitem g (Z.min (vindex u) (vindex v))) (fun s =>
       bind (assert_ (Z.min (vindex u) (vindex v) =? es_index s)) (fun _ =>
       bind (assert_ (negb (Z.abs (vindex u - vindex v) =? 0))) (fun _ =>
       bind (hasEdge g (u, v)) k))) h
       = k (has (h_graph h g) (u, v)) h1.
Proof.
  intros Hs Hn Hne.
  destruct (E_getitem_run h g (Z.min (vindex u) (vindex v)) Hs) as (h1 & R1 & F1 & S1 & D1).
  rewrite (bind_run _ _ _ _ _ R1).
  destruct (Hs (Z.min (vindex u) (vindex v))) as (Hidx & _). rewrite Hidx, Z.eqb_refl.
  unfold assert_ at 1. unfold bind at 1, ret at 1.
  replace (negb (Z.abs (vindex u - vindex v) =? 0)) with true by lia.
  unfold assert_ at 1. unfold bind at 1, ret at 1.
  pose proof (slice_same_gshape _ _ S1 Hs) as Hs1.
  pose proof (slice_same_gsim _ _ S1) as Sim1.
  destruct (hasEdge_run h1 g (u, v) Hs1 Hn) as (h2 & R2 & Q2).
  rewrite (bind_run _ _ _ _ _ R2), (gsim_has _ _ (u, v) Sim1).
  exists h2. split; auto.
  eapply q_ok_trans; [|exact Q2]. constructor; auto.
Qed.

(** [addEdge] of an edge that is there: nothing but materialised cells. *)
Lemma addEdge_present h g u v :
  gshape (h_graph h g) -> adjacent (u, v) -> has (h_graph h g) (u, v) = true ->
  exists h', addEdge symbols g (u, v) h = Ret (tt, h') /\ q_ok g h h'.
Proof.
  intros Hs Ha Hhas. unfold addEdge.
  destruct (addEdge_prefix h g u v
              (fun b => if b then ret tt
                        else bind (addVertex symbols g u) (fun _ =>
                             bind (addVertex symbols g v) (fun _ =>
                             bind (if vindex u <? vindex v then
       bind (E_at g (vindex u) u) (fun a =>
       bind (E_put g (vindex u) u (mkEL (at_ a) (left_incoming a) (left_outgoing a)
                                        (right_incoming a) (right_outgoing a ++ [v]))) (fun _ =>
       bind (E_at g (vindex u) v) (fun c =>
       E_put g (vindex u) v (mkEL (at_ c) (left_incoming c ++ [u]) (left_outgoing c)
                                  (right_incoming c) (right_outgoing c)))))
     else
       bind (E_at g (vindex v) u) (fun a =>
       bind (E_put g (vindex v) u (mkEL (at_ a) (left_incoming a) (left_outgoing a ++ [v])
                                        (right_incoming a) (right_outgoing a))) (fun _ =>
       bind (E_at g (vindex v) v) (fun c =>
       E_put g (vindex v) v (mkEL (at_ c) (left_incoming c) (left_outgoing c)
                                  (right_incoming c ++ [u]) (right_outgoing c)))))) (fun _ =>
                             bind (E_count_add g (Z.min (vindex u) (vindex v)) 1) (fun _ =>
                             count_add g 1)))))
              Hs (adjacent_near _ Ha))
    as (h1 & Q1 & R1).
  { unfold adjacent in Ha; simpl in Ha. lia. }
  rewrite R1, Hhas. exists h1. auto.
Qed.

(** Outside the contract [addEdge] fails an assertion: its own when the two
    indices are equal, the slice's when they are two or more apart. *)
Lemma addEdge_abort h g u v :
  gshape (h_graph h g) -> gwf (h_graph h g) -> ~ adjacent (u, v) ->
  addEdge symbols g (u, v) h = Raise AssertionError.
Proof.
  intros Hs W Hna. unfold addEdge, adjacent in *; simpl in Hna.
  destruct (E_getitem_run h g (Z.min (vindex u) (vindex v)) Hs) as (h1 & R1 & F1 & S1 & D1).
  rewrite (bind_run _ _ _ _ _ R1).
  destruct (Hs (Z.min (vindex u) (vindex v))) as (Hidx & _). rewrite Hidx, Z.eqb_refl.
  unfold assert_ at 1. unfold bind at 1, ret at 1.
  destruct (Z.eq_dec (vindex u) (vindex v)) as [Heq|Hne].
  - replace (negb (Z.abs (vindex u - vindex v) =? 0)) with false by lia.
    reflexivity.
  - replace (negb (Z.abs (vindex u - vindex v) =? 0)) with true by lia.
    unfold assert_ at 1. unfold bind at 1, ret at 1.
    apply bind_raise. apply hasEdge_far.
    + eapply slice_same_gshape; eauto.
    + eapply gsim_gwf; [apply slice_same_gsim; eassumption|assumption].
    + unfold near; simpl. lia.
Qed.

End Built.

(* ================================================================== *)
(** * A small machine for the concrete runs *)

Module Ex.
Open Scope string_scope.

(** An oracle that leaves state and symbol alone and moves right. *)
Definition delta (q s : string) : string * string * Z := (q, s, 1).
Definition symbols : list string := ["0"; "1"].
Definition iter_v (l : list vertex) : list vertex := l.
Definition iter_e (l : list edge) : list edge := l.

Definition v0 : vertex := Floor 0 "q0" "0".
Definition a : vertex := Floor 1 "a" "0".
Definition b : vertex := Floor 2 "b" "0".

(** The heap a run ends in. *)
Definition heap_of {A} (m : M A) : heap :=
  match m empty_heap with Ret (_, h) => h | _ => empty_heap end.

Definition G1_ops : list op := [Add (v0, a); Add (a, b); Remove (a, b)].
Definition G1_heap : heap := heap_of (build symbols G1_ops).

Close Scope string_scope.
End Ex.

(* ================================================================== *)
(** * The computation graph: properties of [addEdge], [removeEdge], [hasEdge] *)

Lemma NoDup_map_inj {A B} (f : A -> B) l :
  (forall x y, f x = f y -> x = y) -> NoDup l -> NoDup (map f l).
Proof.
  intros Hinj. induction 1 as [|x l Hx Hl IH]; simpl; constructor; auto.
  rewrite in_map_iff. intros (y & Hy & Hin). apply Hinj in Hy. subst. contradiction.
Qed.

Lemma out_list_NoDup G v : gwf G -> NoDup (out_list G v).
Proof.
  intros W. unfold out_list. apply NoDup_map_inj; [intros x y H; congruence|].
  destruct (wf_nd _ W (vindex v) v) as (N1 & _).
  destruct (wf_nd _ W (vindex v - 1) v) as (_ & _ & N3 & _).
  apply NoDup_app; auto.
  intros w H1 H2. apply (wf_ro _ W) in H1. apply (wf_lo _ W) in H2. lia.
Qed.

Lemma in_list_NoDup G v : gwf G -> NoDup (in_list G v).
Proof.
  intros W. unfold in_list. apply NoDup_map_inj; [intros x y H; congruence|].
  destruct (wf_nd _ W (vindex v) v) as (_ & _ & _ & N4).
  destruct (wf_nd _ W (vindex v - 1) v) as (_ & N2 & _).
  apply NoDup_app; auto.
  intros w H1 H2. apply (wf_ri _ W) in H1. apply (wf_li _ W) in H2. lia.
Qed.

Section GraphClaims.
Variable symbols : list string.

(** C5 (conservation).  After any sequence of [addEdge] and [removeEdge]
    calls within their contract, [size(G)] is the sum of the [edgeCount]
    counters of the materialised edge slices. *)
Theorem C5_conservation (ops : list op) (g : gref) (h : heap) :
  forallb (op_okb symbols) ops = true ->
  build symbols ops empty_heap = Ret (g, h) ->
  size g h = Ret (wsum es_size (items (gE (h_graph h g))), h).
Proof.
  intros Hall Hb. destruct (build_inv symbols ops g h Hall Hb) as [_ _ Sm _ _].
  unfold size, get_graph, bind, ret. unfold gsum, esum in Sm. now rewrite Sm.
Qed.

(** C3, as amended (addEdge precondition).  On a graph built within the
    contract, [addEdge((u, v))] fails an assertion whenever the indices of
    [u] and [v] do not differ by exactly one, and completes whenever they do
    and the symbols of both vertices belong to the alphabet. *)
Theorem C3_addEdge_precondition (ops : list op) (g : gref) (h : heap) (u v : vertex) :
  forallb (op_okb symbols) ops = true ->
  build symbols ops empty_heap = Ret (g, h) ->
  (Z.abs (vindex u - vindex v) <> 1 -> addEdge symbols g (u, v) h = Raise AssertionError)
  /\ (Z.abs (vindex u - vindex v) = 1 ->
      over_alphabet symbols u = true -> over_alphabet symbols v = true ->
      exists h', addEdge symbols g (u, v) h = Ret (tt, h')).
Proof.
  intros Hall Hb. pose proof (build_inv symbols ops g h Hall Hb) as Ok.
  split.
  - intros Hd. apply addEdge_abort; [apply Ok|apply Ok|exact Hd].
  - intros Hd Hu Hv. apply over_alphabet_true in Hu, Hv.
    destruct (addEdge_run symbols h g u v Ok Hd Hu Hv) as (h' & R & _). eauto.
Qed.

(** What "unchanged" means for graph [g]: the same vertex axis, the same
    counters, the same four lists at every index and vertex; the vertex axes
    themselves are not touched. *)
Definition unchanged (g : gref) (h h' : heap) : Prop :=
  gsim (h_graph h g) (h_graph h' g) /\ forall r, h_vaxis h' r = h_vaxis h r.

(** C6 (idempotence).  For an index-adjacent pair, [addEdge] of an edge that
    is present leaves the edge count and all edge lists unchanged, and
    [removeEdge] of an edge that is absent leaves the graph unchanged. *)
Theorem C6_idempotence (ops : list op) (g : gref) (h : heap) (u v : vertex) :
  forallb (op_okb symbols) ops = true ->
  build symbols ops empty_heap = Ret (g, h) ->
  adjacentb (u, v) = true ->
  exists b h1,
    hasEdge g (u, v) h = Ret (b, h1)
    /\ (b = true ->
        exists h', addEdge symbols g (u, v) h = Ret (tt, h') /\ unchanged g h h')
    /\ (b = false ->
        exists h', removeEdge g (u, v) h = Ret (tt, h') /\ unchanged g h h').
Proof.
  intros Hall Hb Ha. apply adjacentb_true in Ha.
  destruct (build_inv symbols ops g h Hall Hb) as [Hs W Sm HV HW].
  destruct (hasEdge_run h g (u, v) Hs (adjacent_near _ Ha)) as (h1 & R1 & Q1).
  exists (has (h_graph h g) (u, v)), h1. split; [assumption|]. split.
  - intros Hhas.
    destruct (addEdge_present symbols h g u v Hs Ha Hhas) as (h' & R & [F S _]).
    exists h'. split; [assumption|]. split; [assumption|apply (fg_vaxis _ _ _ F)].
  - intros Hhas.
    destruct (removeEdge_run h g u v Hs W (adjacent_near _ Ha))
      as (h' & R & F & _ & _ & _ & _ & _ & _ & S & _).
    exists h'. split; [assumption|]. split; [auto|apply (fg_vaxis _ _ _ F)].
Qed.

(** C7, as amended (storage per ordered pair).  After [addEdge((u, v))] on
    an index-adjacent pair over the alphabet the edge is stored once: it
    occurs exactly once among the outgoing edges of [u] and exactly once
    among the incoming edges of [v], and [size] has grown by one if the edge
    was absent and not at all if it was present.  [hasEdge((u, v))] is
    true, and a second [addEdge((u, v))] changes nothing, so there is at
    most one edge per ordered pair.  The reversed pair [(v, u)] is another
    edge: the call leaves [hasEdge((v, u))] as it was. *)
Theorem C7_one_edge_per_ordered_pair (ops : list op) (g : gref) (h : heap) (u v : vertex) :
  forallb (op_okb symbols) ops = true ->
  build symbols ops empty_heap = Ret (g, h) ->
  adjacentb (u, v) = true ->
  over_alphabet symbols u = true -> over_alphabet symbols v = true ->
  exists h1,
    addEdge symbols g (u, v) h = Ret (tt, h1)
    /\ (exists h2, hasEdge g (u, v) h1 = Ret (true, h2))
    /\ (exists h2, addEdge symbols g (u, v) h1 = Ret (tt, h2) /\ unchanged g h1 h2)
    /\ (exists b h2 h3, hasEdge g (v, u) h = Ret (b, h2) /\ hasEdge g (v, u) h1 = Ret (b, h3))
    /\ (exists O_ h2, outgoingEdgeOf g u h1 = Ret (O_, h2)
                      /\ count_occ edge_eq_dec O_ (u, v) = 1%nat)
    /\ (exists I_ h2, incomingEdgeOf g v h1 = Ret (I_, h2)
                      /\ count_occ edge_eq_dec I_ (u, v) = 1%nat)
    /\ (exists n b h2, size g h = Ret (n, h) /\ hasEdge g (u, v) h = Ret (b, h2)
                       /\ size g h1 = Ret (n + (if b then 0 else 1), h1)).
Proof.
  intros Hall Hb Ha Hu Hv. apply adjacentb_true in Ha.
  apply over_alphabet_true in Hu, Hv.
  pose proof (build_inv symbols ops g h Hall Hb) as Ok.
  destruct (addEdge_run symbols h g u v Ok Ha Hu Hv)
    as (h1 & R1 & F1 & Ok1 & V1 & Has1 & Cnt1 & _).
  exists h1. split; [assumption|].
  assert (Hp : has (h_graph h1 g) (u, v) = true).
  { rewrite Has1. unfold edge_eqb. destruct (edge_eq_dec (u, v) (u, v)); [|congruence].
    apply orb_true_r. }
  assert (Hn : near (v, u)).
  { unfold near, adjacent in *; simpl in *. lia. }
  split; [|split; [|split; [|split; [|split]]]].
  - destruct (hasEdge_run h1 g (u, v) (ok_shape _ _ Ok1) (adjacent_near _ Ha))
      as (h2 & R2 & _).
    rewrite Hp in R2. eauto.
  - destruct (addEdge_present symbols h1 g u v (ok_shape _ _ Ok1) Ha Hp)
      as (h2 & R2 & [F S _]).
    exists h2. split; [assumption|]. split; [assumption|apply (fg_vaxis _ _ _ F)].
  - destruct (hasEdge_run h g (v, u) (ok_shape _ _ Ok) Hn) as (h2 & R2 & _).
    destruct (hasEdge_run h1 g (v, u) (ok_shape _ _ Ok1) Hn) as (h3 & R3 & _).
    exists (has (h_graph h g) (v, u)), h2, h3. split; [assumption|].
    rewrite R3, Has1. f_equal. f_equal.
    destruct (edge_eqb (u, v) (v, u)) eqn:E; [|apply orb_false_r].
    apply edge_eqb_true in E. injection E as E1 E2. subst.
    unfold adjacent in Ha; simpl in Ha. lia.
  - destruct (outgoingEdgeOf_run h1 g u (ok_shape _ _ Ok1)) as (h2 & R2 & _).
    exists (out_list (h_graph h1 g) u), h2. split; [exact R2|].
    apply (proj1 (NoDup_count_occ' edge_eq_dec _) (out_list_NoDup _ u (ok_wf _ _ Ok1))).
    apply (out_list_has _ _ _ (ok_wf _ _ Ok1)). split; [reflexivity|exact Hp].
  - destruct (incomingEdgeOf_run h1 g v (ok_shape _ _ Ok1)) as (h2 & R2 & _).
    exists (in_list (h_graph h1 g) v), h2. split; [exact R2|].
    apply (proj1 (NoDup_count_occ' edge_eq_dec _) (in_list_NoDup _ v (ok_wf _ _ Ok1))).
    apply (in_list_has _ _ _ (ok_wf _ _ Ok1)). split; [reflexivity|exact Hp].
  - destruct (hasEdge_run h g (u, v) (ok_shape _ _ Ok) (adjacent_near _ Ha))
      as (h2 & R2 & _).
    exists (gcount (h_graph h g)), (has (h_graph h g) (u, v)), h2.
    split; [reflexivity|]. split; [exact R2|].
    unfold size, get_graph, bind, ret. now rewrite Cnt1.
Qed.

End GraphClaims.

(** C5, on the graph that [Ex.G1_ops] builds. *)
Lemma C5_conservation_witness :
  forallb (op_okb Ex.symbols) Ex.G1_ops = true
  /\ build Ex.symbols Ex.G1_ops empty_heap = Ret (O, Ex.G1_heap)
  /\ size O Ex.G1_heap = Ret (wsum es_size (items (gE (h_graph Ex.G1_heap O))), Ex.G1_heap).
Proof.
  split; [reflexivity|]. split; [vm_compute; reflexivity|].
  apply (C5_conservation Ex.symbols Ex.G1_ops); vm_compute; reflexivity.
Defined.

(** C3, on the graph of [Ex.G1_ops]: two indices apart aborts, one apart
    completes. *)
Lemma C3_addEdge_precondition_witness :
  (forallb (op_okb Ex.symbols) Ex.G1_ops = true
   /\ build Ex.symbols Ex.G1_ops empty_heap = Ret (O, Ex.G1_heap))
  /\ addEdge Ex.symbols O (Ex.v0, Ex.b) Ex.G1_heap = Raise AssertionError
  /\ exists h', addEdge Ex.symbols O (Ex.a, Ex.b) Ex.G1_heap = Ret (tt, h').
Proof.
  split; [split; vm_compute; reflexivity|].
  split.
  - apply (C3_addEdge_precondition Ex.symbols Ex.G1_ops O Ex.G1_heap Ex.v0 Ex.b);
      [vm_compute; reflexivity|vm_compute; reflexivity|vm_compute; discriminate].
  - apply (C3_addEdge_precondition Ex.symbols Ex.G1_ops O Ex.G1_heap Ex.a Ex.b);
      vm_compute; reflexivity.
Defined.

(** C6, on the graph of [Ex.G1_ops] and the pair [(v0, a)], which is
    present. *)
Lemma C6_idempotence_witness :
  (forallb (op_okb Ex.symbols) Ex.G1_ops = true
   /\ build Ex.symbols Ex.G1_ops empty_heap = Ret (O, Ex.G1_heap)
   /\ adjacentb (Ex.v0, Ex.a) = true)
  /\ exists b h1,
       hasEdge O (Ex.v0, Ex.a) Ex.G1_heap = Ret (b, h1)
       /\ (b = true ->
           exists h', addEdge Ex.symbols O (Ex.v0, Ex.a) Ex.G1_heap = Ret (tt, h')
                      /\ unchanged O Ex.G1_heap h')
       /\ (b = false ->
           exists h', removeEdge O (Ex.v0, Ex.a) Ex.G1_heap = Ret (tt, h')
                      /\ unchanged O Ex.G1_heap h').
Proof.
  split; [split; [|split]; vm_compute; reflexivity|].
  apply (C6_idempotence Ex.symbols Ex.G1_ops O Ex.G1_heap Ex.v0 Ex.a);
    vm_compute; reflexivity.
Defined.

(** C7 as amended, on the graph of [Ex.G1_ops] and the pair [(a, b)]. *)
Lemma C7_one_edge_per_ordered_pair_witness :
  (forallb (op_okb Ex.symbols) Ex.G1_ops = true
   /\ build Ex.symbols Ex.G1_ops empty_heap = Ret (O, Ex.G1_heap)
   /\ adjacentb (Ex.a, Ex.b) = true
   /\ over_alphabet Ex.symbols Ex.a = true /\ over_alphabet Ex.symbols Ex.b = true)
  /\ exists h1,
       addEdge Ex.symbols O (Ex.a, Ex.b) Ex.G1_heap = Ret (tt, h1)
       /\ (exists h2, hasEdge O (Ex.a, Ex.b) h1 = Ret (true, h2))
       /\ (exists h2, addEdge Ex.symbols O (Ex.a, Ex.b) h1 = Ret (tt, h2)
                      /\ unchanged O h1 h2)
       /\ (exists b h2 h3, hasEdge O (Ex.b, Ex.a) Ex.G1_heap = Ret (b, h2)
                           /\ hasEdge O (Ex.b, Ex.a) h1 = Ret (b, h3))
       /\ (exists O_ h2, outgoingEdgeOf O Ex.a h1 = Ret (O_, h2)
                         /\ count_occ edge_eq_dec O_ (Ex.a, Ex.b) = 1%nat)
       /\ (exists I_ h2, incomingEdgeOf O Ex.b h1 = Ret (I_, h2)
                         /\ count_occ edge_eq_dec I_ (Ex.a, Ex.b) = 1%nat)
       /\ (exists n b h2, size O Ex.G1_heap = Ret (n, Ex.G1_heap)
                          /\ hasEdge O (Ex.a, Ex.b) Ex.G1_heap = Ret (b, h2)
                          /\ size O h1 = Ret (n + (if b then 0 else 1), h1)).
Proof.
  split; [split; [|split; [|split; [|split]]]; vm_compute; reflexivity|].
  apply (C7_one_edge_per_ordered_pair Ex.symbols Ex.G1_ops O Ex.G1_heap Ex.a Ex.b);
    vm_compute; reflexivity.
Defined.

(** The result of a run, without the heap. *)
Definition result {A} (o : outcome (A * heap)) : outcome A :=
  match o with Ret (x, _) => Ret x | Raise x => Raise x | OutOfFuel => OutOfFuel end.

(** C7 as stated fails: on the empty graph, after [addEdge((v0, a))] the
    query [hasEdge((a, v0))] is false, and [addEdge((a, v0))] then stores a
    second edge over the same two vertices. *)
Lemma C7_counterexample :
  result ((g <- build Ex.symbols [] ;;
           addEdge Ex.symbols g (Ex.v0, Ex.a) ;;
           reversed <- hasEdge g (Ex.a, Ex.v0) ;;
           addEdge Ex.symbols g (Ex.a, Ex.v0) ;;
           n <- size g ;;
           ret (reversed, n)) empty_heap)
  = Ret (false, 2).
Proof. vm_compute. reflexivity. Qed.

(** C3 as stated fails: the indices of the two vertices differ by exactly
    one, but ["9"] is no symbol of the alphabet, and [addEdge] fails the
    assertion of [SymbolDict.__getitem__] when it registers the first
    vertex. *)
Lemma C3_counterexample :
  Z.abs (vindex (Floor 3 "q" "9") - vindex (Floor 4 "q" "0")) = 1
  /\ result ((g <- build Ex.symbols [] ;;
              addEdge Ex.symbols g (Floor 3 "q" "9", Floor 4 "q" "0")) empty_heap)
     = Raise AssertionError.
Proof. split; vm_compute; reflexivity. Qed.

(* ================================================================== *)
(** * Further properties of the graph engine *)

(** The edge set a sequence of calls describes, kept as a duplicate-free
    list. *)
Fixpoint replay (ops : list op) (l : list edge) : list edge :=
  match ops with
  | [] => l
  | Add e :: r => replay r (set_add edge_eq_dec e l)
  | Remove e :: r => replay r (set_remove e l)
  end.

Lemma set_remove_In e f l : In f (set_remove e l) <-> In f l /\ f <> e.
Proof.
  unfold set_remove. rewrite filter_In, negb_true_iff.
  destruct (edge_eqb e f) eqn:E.
  - apply edge_eqb_true in E. intuition congruence.
  - split; [intros [H _]|intros [H _]; auto].
    split; auto. intros ->. unfold edge_eqb in E.
    destruct (edge_eq_dec e e); congruence.
Qed.

Lemma set_remove_NoDup e l : NoDup l -> NoDup (set_remove e l).
Proof. apply NoDup_filter. Qed.

Lemma set_remove_length e l :
  NoDup l ->
  Z.of_nat (length (set_remove e l)) = Z.of_nat (length l) - (if meme e l then 1 else 0).
Proof.
  induction l as [|f l IH]; intros Hnd; [reflexivity|].
  inversion Hnd as [|? ? Hf Hl]; subst.
  unfold set_remove in *. simpl filter.
  destruct (edge_eqb e f) eqn:E; simpl negb; cbv iota.
  - apply edge_eqb_true in E; subst f.
    assert (Hm : meme e (e :: l) = true) by (apply meme_In; left; reflexivity).
    rewrite Hm, IH by assumption.
    assert (Hm' : meme e l = false) by (now apply meme_false).
    rewrite Hm'. simpl length. lia.
  - simpl length. rewrite !Nat2Z.inj_succ, IH by assumption.
    assert (Hne : e <> f).
    { intros ->. unfold edge_eqb in E. destruct (edge_eq_dec f f); congruence. }
    destruct (meme e l) eqn:M.
    + assert (Hm : meme e (f :: l) = true) by (apply meme_In; right; now apply meme_In).
      rewrite Hm. lia.
    + assert (Hm : meme e (f :: l) = false).
      { apply meme_false. intros [H|H]; [congruence|]. apply meme_false in M. tauto. }
      rewrite Hm. lia.
Qed.

Lemma set_add_length e l :
  Z.of_nat (length (set_add edge_eq_dec e l))
  = Z.of_nat (length l) + (if meme e l then 0 else 1).
Proof.
  unfold set_add, meme, mem. destruct (in_dec edge_eq_dec e l); [lia|].
  rewrite length_app; simpl. lia.
Qed.

(** Graph [g] of heap [h] stores exactly the edges of [l]. *)
Record stores (h : heap) (g : gref) (l : list edge) : Prop := mk_stores
  { st_has : forall e, has (h_graph h g) e = meme e l;
    st_nd : NoDup l;
    st_count : gcount (h_graph h g) = Z.of_nat (length l) }.

Section Replay.
Variable symbols : list string.

Lemma apply_op_stores h g o l :
  g_ok h g -> stores h g l -> op_okb symbols o = true ->
  exists h', apply_op symbols g o h = Ret (tt, h') /\ g_ok h' g
             /\ stores h' g (replay [o] l).
Proof.
  intros Hok [Hh Hnd Hc] Ho. destruct o as [[u v]|[u v]]; simpl in *.
  - apply andb_true_iff in Ho as [Ho Hv]. apply andb_true_iff in Ho as [Ha Hu].
    apply adjacentb_true in Ha. apply over_alphabet_true in Hu, Hv. simpl in *.
    destruct (addEdge_run symbols h g u v Hok Ha Hu Hv)
      as (h' & R & F & Ok & HV & Has & Cnt & _).
    exists h'. split; [assumption|]. split; [assumption|].
    constructor.
    + intros e. rewrite Has, Hh. apply eq_true_iff_eq.
      rewrite orb_true_iff, !meme_In, set_add_In, edge_eqb_true. intuition.
    + now apply set_add_NoDup.
    + rewrite Cnt, Hc, set_add_length, Hh. reflexivity.
  - apply nearb_true in Ho.
    destruct (removeEdge_run h g u v (ok_shape _ _ Hok) (ok_wf _ _ Hok) Ho)
      as (h' & R & F & Sh & W' & V' & Has & C & Su & _).
    exists h'. split; [assumption|]. split.
    + constructor; auto.
      * pose proof (ok_sum _ _ Hok) as Sm. unfold gsum in *. lia.
      * rewrite V', (fg_vaxis _ _ _ F). apply (ok_vshape _ _ Hok).
      * rewrite V', (fg_vaxis _ _ _ F). apply (ok_vwf _ _ Hok).
    + constructor.
      * intros e. rewrite Has, Hh. apply eq_true_iff_eq.
        rewrite andb_true_iff, negb_true_iff, !meme_In, set_remove_In.
        destruct (edge_eqb (u, v) e) eqn:E.
        -- apply edge_eqb_true in E. intuition congruence.
        -- assert (e <> (u, v)).
           { intros ->. unfold edge_eqb in E.
             destruct (edge_eq_dec (u, v) (u, v)); congruence. }
           tauto.
      * now apply set_remove_NoDup.
      * rewrite C, Hc, set_remove_length, Hh by assumption. reflexivity.
Qed.

Lemma run_ops_stores ops : forall h g l,
  g_ok h g -> stores h g l -> forallb (op_okb symbols) ops = true ->
  exists h', run_ops symbols g ops h = Ret (tt, h') /\ g_ok h' g
             /\ stores h' g (replay ops l).
Proof.
  induction ops as [|o ops IH]; intros h g l Hok Hst Hall; simpl in *.
  - exists h. auto.
  - apply andb_true_iff in Hall as [Ho Hall].
    destruct (apply_op_stores h g o l Hok Hst Ho) as (h1 & R1 & Ok1 & St1).
    destruct (IH h1 g _ Ok1 St1 Hall) as (h2 & R2 & Ok2 & St2).
    exists h2. split; [|split; [assumption|]].
    + unfold run_ops, forM_ in *. simpl. rewrite (bind_run _ _ _ _ _ R1). exact R2.
    + destruct o; exact St2.
Qed.

Lemma build_stores ops g h :
  forallb (op_okb symbols) ops = true ->
  build symbols ops empty_heap = Ret (g, h) ->
  g_ok h g /\ stores h g (replay ops []).
Proof.
  intros Hall Hb. unfold build in Hb.
  destruct (new_graph_run empty_heap) as (h1 & R1 & HG & _).
  destruct (new_graph_ok _ _ _ R1) as (Ok1 & C1).
  assert (St1 : stores h1 (h_ngraph empty_heap) []).
  { constructor; [|constructor|assumption].
    intros e. rewrite HG. apply has_empty. }
  destruct (run_ops_stores ops h1 _ [] Ok1 St1 Hall) as (h2 & R2 & Ok2 & St2).
  rewrite (bind_run _ _ _ _ _ R1), (bind_run _ _ _ _ _ R2) in Hb.
  injection Hb as <- <-. auto.
Qed.

(** X1.  The graph as a finite set: after any sequence of [addEdge] and
    [removeEdge] calls within the contract, [hasEdge(e)] answers membership
    in the set the calls describe ([addEdge] inserts, [removeEdge] deletes),
    for every pair [e] whose endpoints fit one slice, and [size()] is the
    number of elements of that set. *)
Theorem X1_graph_is_edge_set (ops : list op) (g : gref) (h : heap) :
  forallb (op_okb symbols) ops = true ->
  build symbols ops empty_heap = Ret (g, h) ->
  (forall e, nearb e = true ->
     exists h', hasEdge g e h = Ret (meme e (replay ops []), h'))
  /\ size g h = Ret (Z.of_nat (length (replay ops [])), h).
Proof.
  intros Hall Hb. destruct (build_stores ops g h Hall Hb) as (Ok & [Hh Hnd Hc]).
  split.
  - intros e He. apply nearb_true in He.
    destruct (hasEdge_run h g e (ok_shape _ _ Ok) He) as (h' & R & _).
    exists h'. now rewrite <- Hh.
  - unfold size, get_graph, bind, ret. now rewrite Hc.
Qed.

End Replay.

(** X1 on the graph of [Ex.G1_ops]. *)
Lemma X1_graph_is_edge_set_witness :
  (forallb (op_okb Ex.symbols) Ex.G1_ops = true
   /\ build Ex.symbols Ex.G1_ops empty_heap = Ret (O, Ex.G1_heap))
  /\ (forall e, nearb e = true ->
        exists h', hasEdge O e Ex.G1_heap = Ret (meme e (replay Ex.G1_ops []), h'))
  /\ size O Ex.G1_heap = Ret (Z.of_nat (length (replay Ex.G1_ops [])), Ex.G1_heap).
Proof.
  split; [split; vm_compute; reflexivity|].
  apply (X1_graph_is_edge_set Ex.symbols Ex.G1_ops O Ex.G1_heap); vm_compute; reflexivity.
Defined.

Section Adjacency.
Variable symbols : list string.

(** X2.  Adjacency lists: on a graph built within the contract,
    [outgoingEdgeOf(v)] lists exactly the stored edges that leave [v] and
    [incomingEdgeOf(v)] exactly those that enter it, each edge once; so
    [getNextEdges((u, v))] and [getPrevEdges((u, v))] are the stored edges
    leaving [v] and entering [u]. *)
Theorem X2_adjacency_lists (ops : list op) (g : gref) (h : heap) (v : vertex) :
  forallb (op_okb symbols) ops = true ->
  build symbols ops empty_heap = Ret (g, h) ->
  exists outs ins h1 h2,
    outgoingEdgeOf g v h = Ret (outs, h1)
    /\ incomingEdgeOf g v h = Ret (ins, h2)
    /\ (forall e, In e outs <-> fst e = v /\ In e (replay ops []))
    /\ (forall e, In e ins <-> snd e = v /\ In e (replay ops []))
    /\ NoDup outs /\ NoDup ins
    /\ (forall u, getNextEdges g (u, v) h = Ret (outs, h1))
    /\ (forall w, getPrevEdges g (v, w) h = Ret (ins, h2)).
Proof.
  intros Hall Hb. destruct (build_stores symbols ops g h Hall Hb) as (Ok & [Hh Hnd Hc]).
  destruct (outgoingEdgeOf_run h g v (ok_shape _ _ Ok)) as (h1 & R1 & _).
  destruct (incomingEdgeOf_run h g v (ok_shape _ _ Ok)) as (h2 & R2 & _).
  exists (out_list (h_graph h g) v), (in_list (h_graph h g) v), h1, h2.
  split; [assumption|]. split; [assumption|].
  split; [intros e; rewrite out_list_has, Hh, meme_In by apply Ok; tauto|].
  split; [intros e; rewrite in_list_has, Hh, meme_In by apply Ok; tauto|].
  split; [apply out_list_NoDup, Ok|].
  split; [apply in_list_NoDup, Ok|].
  split; intros; assumption.
Qed.

End Adjacency.

(** X2 on the graph of [Ex.G1_ops] and the vertex [Ex.a]. *)
Lemma X2_adjacency_lists_witness :
  (forallb (op_okb Ex.symbols) Ex.G1_ops = true
   /\ build Ex.symbols Ex.G1_ops empty_heap = Ret (O, Ex.G1_heap))
  /\ exists outs ins h1 h2,
       outgoingEdgeOf O Ex.a Ex.G1_heap = Ret (outs, h1)
       /\ incomingEdgeOf O Ex.a Ex.G1_heap = Ret (ins, h2)
       /\ (forall e, In e outs <-> fst e = Ex.a /\ In e (replay Ex.G1_ops []))
       /\ (forall e, In e ins <-> snd e = Ex.a /\ In e (replay Ex.G1_ops []))
       /\ NoDup outs /\ NoDup ins
       /\ (forall u, getNextEdges O (u, Ex.a) Ex.G1_heap = Ret (outs, h1))
       /\ (forall w, getPrevEdges O (Ex.a, w) Ex.G1_heap = Ret (ins, h2)).
Proof.
  split; [split; vm_compute; reflexivity|].
  apply (X2_adjacency_lists Ex.symbols Ex.G1_ops O Ex.G1_heap Ex.a); vm_compute; reflexivity.
Defined.

(** Which stored edges each of the four lists holds. *)
Lemma ro_iff G i u w :
  gwf G -> (In w (ro G i u) <-> has G (u, w) = true /\ vindex u = i /\ vindex w = i + 1).
Proof.
  intros W. unfold ro. split.
  - intros H. destruct (wf_ro _ W _ _ _ H) as (? & ? & _). split; auto.
    eapply in_ro_has; eauto.
  - intros (H & <- & Hw). apply has_right; auto. lia.
Qed.

Lemma li_iff G i u w :
  gwf G -> (In u (li G i w) <-> has G (u, w) = true /\ vindex u = i /\ vindex w = i + 1).
Proof.
  intros W. rewrite <- ro_iff by assumption. unfold li, ro. split; intros H.
  - apply (wf_li _ W) in H. tauto.
  - apply (wf_ro _ W) in H. tauto.
Qed.

Lemma ri_iff G i u w :
  gwf G -> (In u (ri G i w) <-> has G (u, w) = true /\ vindex u = i + 1 /\ vindex w = i).
Proof.
  intros W. unfold ri. split.
  - intros H. destruct (wf_ri _ W _ _ _ H) as (? & ? & _). split; auto.
    eapply in_ri_has; eauto.
  - intros (H & Hu & <-). apply has_left; auto. lia.
Qed.

Lemma lo_iff G i u w :
  gwf G -> (In w (lo G i u) <-> has G (u, w) = true /\ vindex u = i + 1 /\ vindex w = i).
Proof.
  intros W. rewrite <- ri_iff by assumption. unfold lo, ri. split; intros H.
  - apply (wf_lo _ W) in H. tauto.
  - apply (wf_ri _ W) in H. tauto.
Qed.

Lemma more_than_one (u : vertex) l :
  NoDup l -> In u l ->
  ((1 <? Z.of_nat (length l)) = true <-> exists x, In x l /\ x <> u).
Proof.
  intros Hnd Hin. destruct l as [|a [|b r]]; simpl in *.
  - tauto.
  - split; [discriminate|]. intros (x & [<-|[]] & Hx). destruct Hin as [->|[]]. congruence.
  - split; [intros _|intros _; lia].
    inversion Hnd as [|? ? Ha _]; subst.
    destruct (vertex_eq_dec a u) as [->|Hne].
    + exists b. split; auto. intros ->. apply Ha. now left.
    + exists a. auto.
Qed.

Lemma bind_ret_l {A B} (a : A) (f : A -> M B) : bind (ret a) f = f a.
Proof. reflexivity. Qed.

Section Classification.
Variable symbols : list string.

Lemma hasEdge_absent_assert h g e (k : M bool) :
  gshape (h_graph h g) -> gwf (h_graph h g) -> has (h_graph h g) e = false ->
  bind (hasEdge g e) (fun b => bind (assert_ b) (fun _ => k)) h = Raise AssertionError.
Proof.
  intros Hs W Hh.
  destruct (Z_le_gt_dec (Z.abs (vindex (fst e) - vindex (snd e))) 1) as [Hn|Hf].
  - destruct (hasEdge_run h g e Hs Hn) as (h1 & R1 & _).
    rewrite (bind_run _ _ _ _ _ R1), Hh. reflexivity.
  - apply bind_raise. apply hasEdge_far; [assumption|assumption|unfold near; lia].
Qed.

(** X3.  Merging and splitting edges: on a graph built within the contract,
    both predicates fail their assertion on an edge that is not stored; on a
    stored edge [(u, v)], [isMergingEdge] holds exactly when another stored
    edge enters [v] from the index of [u], and [isSplittingEdge] exactly
    when another stored edge leaves [u] towards the index of [v]. *)
Theorem X3_merging_splitting (ops : list op) (g : gref) (h : heap) (u v : vertex) :
  forallb (op_okb symbols) ops = true ->
  build symbols ops empty_heap = Ret (g, h) ->
  (~ In (u, v) (replay ops []) ->
     isMergingEdge g (u, v) h = Raise AssertionError
     /\ isSplittingEdge g (u, v) h = Raise AssertionError)
  /\ (In (u, v) (replay ops []) ->
      exists bm bs h1 h2,
        isMergingEdge g (u, v) h = Ret (bm, h1)
        /\ isSplittingEdge g (u, v) h = Ret (bs, h2)
        /\ (bm = true <-> exists u', u' <> u /\ vindex u' = vindex u
                                     /\ In (u', v) (replay ops []))
        /\ (bs = true <-> exists v', v' <> v /\ vindex v' = vindex v
                                     /\ In (u, v') (replay ops []))).
Proof.
  intros Hall Hb. destruct (build_stores symbols ops g h Hall Hb) as (Ok & [Hh Hnd Hc]).
  destruct Ok as [Hs W _ _ _].
  assert (Hin : forall e, In e (replay ops []) <-> has (h_graph h g) e = true)
    by (intros e; now rewrite Hh, meme_In).
  split.
  - intros Habs. assert (Hf : has (h_graph h g) (u, v) = false).
    { destruct (has (h_graph h g) (u, v)) eqn:E; auto. apply Hin in E. contradiction. }
    split; [unfold isMergingEdge|unfold isSplittingEdge];
      now apply hasEdge_absent_assert.
  - intros Hpres. apply Hin in Hpres.
    pose proof (has_adjacent _ _ W Hpres) as Ha. unfold adjacent in Ha; simpl in Ha.
    destruct (hasEdge_run h g (u, v) Hs (adjacent_near (u, v) Ha)) as (h1 & R1 & Q1).
    pose proof (q_shape _ _ _ Q1) as Hs1.
    pose proof (gs_el _ _ (q_sim _ _ _ Q1)) as El1.
    unfold isMergingEdge, isSplittingEdge.
    rewrite !(bind_run _ _ _ _ _ R1), Hpres.
    change (assert_ true) with (@ret unit tt). rewrite !bind_ret_l.
    destruct (vindex u <? vindex v) eqn:Hc'.
    + assert (Hlt : vindex v = vindex u + 1) by lia.
      destruct (E_at_q h1 g (vindex u) v Hs1 (or_intror Hlt)) as (h2 & R2 & _).
      destruct (E_at_q h1 g (vindex u) u Hs1 (in_slice_self u)) as (h3 & R3 & _).
      rewrite (bind_run _ _ _ _ _ R2), (bind_run _ _ _ _ _ R3), !El1.
      eexists _, _, h2, h3. split; [reflexivity|]. split; [reflexivity|].
      fold (li (h_graph h g) (vindex u) v) (ro (h_graph h g) (vindex u) u).
      split.
      * rewrite (more_than_one u).
        -- split; intros (x & A & B).
           ++ apply li_iff in A as (A1 & A2 & A3); auto.
              exists x. rewrite Hin. auto.
           ++ exists x. split; auto. apply li_iff; auto. rewrite <- Hin. intuition.
        -- apply (wf_nd _ W).
        -- apply li_iff; auto.
      * rewrite (more_than_one v).
        -- split; intros (x & A & B).
           ++ apply ro_iff in A as (A1 & A2 & A3); auto.
              exists x. rewrite Hin. split; auto. split; auto. lia.
           ++ exists x. split; auto. apply ro_iff; auto. rewrite <- Hin.
              intuition. lia.
        -- apply (wf_nd _ W).
        -- apply ro_iff; auto.
    + assert (Hlt : vindex u = vindex v + 1) by lia.
      destruct (E_at_q h1 g (vindex v) v Hs1 (in_slice_self v)) as (h2 & R2 & _).
      destruct (E_at_q h1 g (vindex v) u Hs1 (or_intror Hlt)) as (h3 & R3 & _).
      rewrite (bind_run _ _ _ _ _ R2), (bind_run _ _ _ _ _ R3), !El1.
      eexists _, _, h2, h3. split; [reflexivity|]. split; [reflexivity|].
      fold (ri (h_graph h g) (vindex v) v) (lo (h_graph h g) (vindex v) u).
      split.
      * rewrite (more_than_one u).
        -- split; intros (x & A & B).
           ++ apply ri_iff in A as (A1 & A2 & A3); auto.
              exists x. rewrite Hin. split; auto. split; auto. lia.
           ++ exists x. split; auto. apply ri_iff; auto. rewrite <- Hin.
              intuition. lia.
        -- apply (wf_nd _ W).
        -- apply ri_iff; auto.
      * rewrite (more_than_one v).
        -- split; intros (x & A & B).
           ++ apply lo_iff in A as (A1 & A2 & A3); auto.
              exists x. rewrite Hin. auto.
           ++ exists x. split; auto. apply lo_iff; auto. rewrite <- Hin. intuition.
        -- apply (wf_nd _ W).
        -- apply lo_iff; auto.
Qed.

End Classification.

(** X3 on the graph of [Ex.G1_ops]: [(v0, a)] is stored, [(a, b)] was
    removed. *)
Lemma X3_merging_splitting_witness :
  (forallb (op_okb Ex.symbols) Ex.G1_ops = true
   /\ build Ex.symbols Ex.G1_ops empty_heap = Ret (O, Ex.G1_heap))
  /\ isMergingEdge O (Ex.a, Ex.b) Ex.G1_heap = Raise AssertionError
  /\ exists bm bs h1 h2,
       isMergingEdge O (Ex.v0, Ex.a) Ex.G1_heap = Ret (bm, h1)
       /\ isSplittingEdge O (Ex.v0, Ex.a) Ex.G1_heap = Ret (bs, h2)
       /\ (bm = true <-> exists u', u' <> Ex.v0 /\ vindex u' = vindex Ex.v0
                                    /\ In (u', Ex.a) (replay Ex.G1_ops []))
       /\ (bs = true <-> exists v', v' <> Ex.a /\ vindex v' = vindex Ex.a
                                    /\ In (Ex.v0, v') (replay Ex.G1_ops [])).
Proof.
  split; [split; vm_compute; reflexivity|].
  split.
  - apply (X3_merging_splitting Ex.symbols Ex.G1_ops O Ex.G1_heap Ex.a Ex.b);
      [vm_compute; reflexivity|vm_compute; reflexivity|].
    vm_compute. intros [H|[]]. discriminate.
  - apply (X3_merging_splitting Ex.symbols Ex.G1_ops O Ex.G1_heap Ex.v0 Ex.a);
      [vm_compute; reflexivity|vm_compute; reflexivity|].
    vm_compute. left. reflexivity.
Defined.

Lemma nonempty_In {A} (l : list A) : nonempty l = true <-> exists x, In x l.
Proof.
  destruct l as [|a l]; simpl.
  - split; [discriminate|intros (x & [])].
  - split; auto. intros _. exists a. auto.
Qed.

Section Folding.
Variable symbols : list string.

(** X4.  Folding nodes: on a graph built within the contract,
    [isFoldingNode(v)] holds exactly when some stored edge enters [v] and
    some stored edge leaves [v] on the same side, that is, with their other
    endpoints at the same index. *)
Theorem X4_folding_node (ops : list op) (g : gref) (h : heap) (v : vertex) :
  forallb (op_okb symbols) ops = true ->
  build symbols ops empty_heap = Ret (g, h) ->
  exists b h',
    isFoldingNode g v h = Ret (b, h')
    /\ (b = true <-> exists x y, In (x, v) (replay ops []) /\ In (v, y) (replay ops [])
                                 /\ vindex x = vindex y).
Proof.
  intros Hall Hb. destruct (build_stores symbols ops g h Hall Hb) as (Ok & [Hh Hnd Hc]).
  destruct Ok as [Hs W _ _ _].
  assert (Hin : forall e, In e (replay ops []) <-> has (h_graph h g) e = true)
    by (intros e; now rewrite Hh, meme_In).
  unfold isFoldingNode.
  destruct (E_at_q h g (vindex v - 1) v Hs (in_slice_pred v)) as (h1 & R1 & Q1).
  rewrite (bind_run _ _ _ _ _ R1).
  fold (li (h_graph h g) (vindex v - 1) v) (lo (h_graph h g) (vindex v - 1) v).
  assert (Left : nonempty (li (h_graph h g) (vindex v - 1) v)
                 && nonempty (lo (h_graph h g) (vindex v - 1) v) = true
                 <-> exists x y, In (x, v) (replay ops []) /\ In (v, y) (replay ops [])
                                 /\ vindex x = vindex v - 1 /\ vindex y = vindex v - 1).
  { rewrite andb_true_iff, !nonempty_In. split.
    - intros [(x & Hx) (y & Hy)]. apply li_iff in Hx; auto. apply lo_iff in Hy; auto.
      exists x, y. rewrite !Hin. tauto.
    - intros (x & y & Hx & Hy & Ex & Ey). split.
      + exists x. apply li_iff; auto. rewrite <- Hin. repeat split; auto; lia.
      + exists y. apply lo_iff; auto. rewrite <- Hin. repeat split; auto; lia. }
  destruct (nonempty (li (h_graph h g) (vindex v - 1) v)
            && nonempty (lo (h_graph h g) (vindex v - 1) v)) eqn:EL.
  - exists true, h1. split; [reflexivity|]. split; auto. intros _.
    destruct Left as [L _]. destruct (L eq_refl) as (x & y & ? & ? & ? & ?).
    exists x, y. repeat split; auto. lia.
  - destruct (E_at_q h1 g (vindex v) v (q_shape _ _ _ Q1) (in_slice_self v))
      as (h2 & R2 & Q2).
    rewrite (bind_run _ _ _ _ _ R2), !(gs_el _ _ (q_sim _ _ _ Q1)).
    fold (ri (h_graph h g) (vindex v) v) (ro (h_graph h g) (vindex v) v).
    eexists _, h2. split; [reflexivity|].
    rewrite andb_true_iff, !nonempty_In. split.
    + intros [(x & Hx) (y & Hy)]. apply ri_iff in Hx; auto. apply ro_iff in Hy; auto.
      exists x, y. rewrite !Hin. repeat split; try tauto. lia.
    + intros (x & y & Hx & Hy & Exy).
      apply Hin in Hx, Hy.
      pose proof (has_adjacent _ _ W Hx) as Ax. pose proof (has_adjacent _ _ W Hy) as Ay.
      unfold adjacent in Ax, Ay; simpl in Ax, Ay.
      destruct (Z.eq_dec (vindex x) (vindex v - 1)) as [E1|E1].
      * exfalso. destruct Left as [_ L].
        enough (X : exists x y, In (x, v) (replay ops []) /\ In (v, y) (replay ops [])
                                /\ vindex x = vindex v - 1 /\ vindex y = vindex v - 1)
          by (apply L in X; congruence).
        exists x, y. rewrite !Hin. repeat split; auto. lia.
      * split.
        -- exists x. apply ri_iff; auto. repeat split; auto. lia.
        -- exists y. apply ro_iff; auto. repeat split; auto. lia.
Qed.

End Folding.

(** X4 on the graph of [Ex.G1_ops] and the vertex [Ex.a]. *)
Lemma X4_folding_node_witness :
  (forallb (op_okb Ex.symbols) Ex.G1_ops = true
   /\ build Ex.symbols Ex.G1_ops empty_heap = Ret (O, Ex.G1_heap))
  /\ exists b h',
       isFoldingNode O Ex.a Ex.G1_heap = Ret (b, h')
       /\ (b = true <-> exists x y, In (x, Ex.a) (replay Ex.G1_ops [])
                                    /\ In (Ex.a, y) (replay Ex.G1_ops [])
                                    /\ vindex x = vindex y).
Proof.
  split; [split; vm_compute; reflexivity|].
  apply (X4_folding_node Ex.symbols Ex.G1_ops O Ex.G1_heap Ex.a); vm_compute; reflexivity.
Defined.

(* ================================================================== *)
(** * The slice assertion as the contract of edge queries *)

Section SliceContract.
Variable symbols : list string.

(** X5.  The assertion of [EdgeSlice.__getitem__] is what bounds the edge
    queries: on a graph built within the contract, [hasEdge] and [removeEdge]
    raise [AssertionError] for a pair of vertices two or more cells apart,
    and [hasEdge] answers [False] for a pair on the same cell. *)
Theorem X5_slice_contract (ops : list op) (g : gref) (h : heap) (u v : vertex) :
  forallb (op_okb symbols) ops = true ->
  build symbols ops empty_heap = Ret (g, h) ->
  (2 <= Z.abs (vindex u - vindex v) ->
     hasEdge g (u, v) h = Raise AssertionError
     /\ removeEdge g (u, v) h = Raise AssertionError)
  /\ (vindex u = vindex v -> exists h', hasEdge g (u, v) h = Ret (false, h')).
Proof.
  intros Hall Hb. pose proof (build_inv symbols ops g h Hall Hb) as Ok.
  destruct Ok as [Hs W _ _ _].
  split.
  - intros Hfar.
    assert (F : hasEdge g (u, v) h = Raise AssertionError).
    { apply hasEdge_far; auto. unfold near; simpl. lia. }
    split; auto. unfold removeEdge. now apply bind_raise.
  - intros Heq.
    assert (Hn : near (u, v)) by (unfold near; simpl; lia).
    destruct (hasEdge_run h g (u, v) Hs Hn) as (h' & R & _).
    exists h'. rewrite R.
    destruct (has (h_graph h g) (u, v)) eqn:E; auto.
    apply (has_adjacent _ _ W) in E. unfold adjacent in E; simpl in E. lia.
Qed.

End SliceContract.

(** X5 on the graph of [Ex.G1_ops]: [v0] and [b] are two cells apart. *)
Lemma X5_slice_contract_witness :
  (forallb (op_okb Ex.symbols) Ex.G1_ops = true
   /\ build Ex.symbols Ex.G1_ops empty_heap = Ret (O, Ex.G1_heap))
  /\ 2 <= Z.abs (vindex Ex.v0 - vindex Ex.b)
  /\ hasEdge O (Ex.v0, Ex.b) Ex.G1_heap = Raise AssertionError
  /\ removeEdge O (Ex.v0, Ex.b) Ex.G1_heap = Raise AssertionError.
Proof.
  split; [split; vm_compute; reflexivity|].
  split; [vm_compute; discriminate|].
  apply (X5_slice_contract Ex.symbols Ex.G1_ops O Ex.G1_heap Ex.v0 Ex.b);
    [vm_compute; reflexivity|vm_compute; reflexivity|vm_compute; discriminate].
Defined.

(* ================================================================== *)
(** * [CellArray] as an unbounded array *)

(** X6.  [CellArray.__getitem__] on an array without the slice assertion
    (every kind but the edge slices) never fails: it returns the value the
    cell holds, or the fresh item of a cell not yet materialised; it changes
    no cell's value; afterwards exactly the cells from the lower of the old
    base and [i] up to the higher of the old top and [i] are materialised;
    reading [i] again returns the same value and changes nothing. *)
Theorem X6_cellarray_read (A : Type) (newItem : Z -> A) (ca : CellArray A) (i : Z) :
  exists ca',
    ca_getitem newItem (fun _ _ => true) ca i = Ret (ca_lookup newItem ca i, ca')
    /\ (forall j, ca_lookup newItem ca' j = ca_lookup newItem ca j)
    /\ (forall j, isDefined ca' j = true
                  <-> (isDefined ca j = true
                       \/ Z.min (base ca) i <= j < Z.max (ca_top ca) (i + 1)))
    /\ ca_getitem newItem (fun _ _ => true) ca' i = Ret (ca_lookup newItem ca i, ca').
Proof.
  assert (Hok : forall c : CellArray A, ca_ok A newItem (fun _ _ => true) c)
    by (intros c j; reflexivity).
  destruct (ca_getitem_spec A newItem (fun _ _ => true) ca i (Hok ca))
    as (ca' & R & L & D & Mono & Same).
  exists ca'. split; [exact R|]. split; [exact L|]. split.
  - intros j. destruct (isDefined ca i) eqn:Hd.
    + rewrite (Same eq_refl). unfold isDefined, ca_top in *. lia.
    + unfold ca_getitem in R. rewrite Hd in R. injection R as _ <-.
      unfold isDefined, ca_top in *; simpl.
      rewrite !length_app, !length_map, !zrange_length.
      destruct (i <? base ca) eqn:Hib; lia.
  - destruct (ca_getitem_spec A newItem (fun _ _ => true) ca' i (Hok ca'))
      as (ca2 & R2 & _ & _ & _ & Same2).
    rewrite R2, (Same2 D), L. reflexivity.
Qed.

(** X7.  [CellArray.__setitem__] accepts an index inside the array or one
    cell beyond either end, and fails its assertion on any other; an accepted
    write materialises the cell, stores the value there, and leaves every
    other cell's value as it was. *)
Theorem X7_cellarray_write (A : Type) (newItem : Z -> A) (ca : CellArray A) (i : Z) (x : A) :
  (i < base ca - 1 \/ ca_top ca < i -> ca_setitem ca i x = Raise AssertionError)
  /\ (base ca - 1 <= i <= ca_top ca ->
      exists ca',
        ca_setitem ca i x = Ret ca'
        /\ isDefined ca' i = true
        /\ ca_lookup newItem ca' i = x
        /\ (forall j, j <> i -> isDefined ca' j = isDefined ca j)
        /\ (forall j, j <> i -> ca_lookup newItem ca' j = ca_lookup newItem ca j)).
Proof.
  split.
  - intros Hout. unfold ca_setitem.
    replace ((i <=? ca_top ca) && (base ca - 1 <=? i)) with false by lia. reflexivity.
  - intros Hin. unfold ca_setitem.
    replace ((i <=? ca_top ca) && (base ca - 1 <=? i)) with true by lia.
    assert (Hlen : 0 <= Z.of_nat (length (items ca))) by lia.
    destruct (i =? base ca - 1) eqn:E1; [|destruct (i =? ca_top ca) eqn:E2].
    + eexists; split; [reflexivity|].
      unfold ca_lookup, isDefined, ca_top in *; cbn [base items length].
      split; [lia|]. split.
      * replace ((base ca - 1 <=? i)
                 && (i <? Z.of_nat (S (length (items ca))) + (base ca - 1)))
          with true by lia.
        replace (Z.to_nat (i - (base ca - 1))) with O by lia. reflexivity.
      * split; intros j Hj; [lia|].
        destruct ((base ca <=? j) && (j <? Z.of_nat (length (items ca)) + base ca)) eqn:Hd.
        -- replace ((base ca - 1 <=? j)
                    && (j <? Z.of_nat (S (length (items ca))) + (base ca - 1)))
             with true by lia.
           replace (Z.to_nat (j - (base ca - 1))) with (S (Z.to_nat (j - base ca))) by lia.
           reflexivity.
        -- replace ((base ca - 1 <=? j)
                    && (j <? Z.of_nat (S (length (items ca))) + (base ca - 1)))
             with false by lia.
           reflexivity.
    + eexists; split; [reflexivity|].
      unfold ca_lookup, isDefined, ca_top in *; cbn [base items].
      rewrite !length_app; cbn [length].
      split; [lia|]. split.
      * replace ((base ca <=? i) && (i <? Z.of_nat (length (items ca) + 1) + base ca))
          with true by lia.
        rewrite app_nth2 by lia.
        replace (Z.to_nat (i - base ca) - length (items ca))%nat with O by lia. reflexivity.
      * split; intros j Hj; [lia|].
        destruct ((base ca <=? j) && (j <? Z.of_nat (length (items ca)) + base ca)) eqn:Hd.
        -- replace ((base ca <=? j) && (j <? Z.of_nat (length (items ca) + 1) + base ca))
             with true by lia.
           rewrite app_nth1 by lia. reflexivity.
        -- replace ((base ca <=? j) && (j <? Z.of_nat (length (items ca) + 1) + base ca))
             with false by lia.
           reflexivity.
    + assert (Hd : isDefined ca i = true) by (unfold isDefined, ca_top in *; lia).
      eexists; split; [reflexivity|].
      split; [now rewrite ca_store_defined|]. split.
      * rewrite (ca_store_lookup A newItem ca i x i Hd), Z.eqb_refl. reflexivity.
      * split; intros j Hj.
        -- apply ca_store_defined.
        -- rewrite (ca_store_lookup A newItem ca i x j Hd).
           replace (j =? i) with false by lia. reflexivity.
Qed.

(* ================================================================== *)
(** * Searching a walk: [FindDisjointEdge], [FindFirstMergingEdgeOrFinalEdge] *)

Lemma find_ext_eq {A} (p q : A -> bool) l : (forall x, p x = q x) -> find p l = find q l.
Proof. intros H. induction l as [|x l IH]; simpl; [reflexivity|]. now rewrite H, IH. Qed.

Lemma FindDisjointEdge_run g W : forall h,
  gshape (h_graph h g) -> Forall near W ->
  exists h',
    FindDisjointEdge g W h = Ret (find (fun e => negb (has (h_graph h g) e)) W, h')
    /\ q_ok g h h'.
Proof.
  induction W as [|e W IH]; intros h Hs Hn.
  - exists h. split; [reflexivity|now apply q_ok_refl].
  - inversion Hn as [|? ? He HW]; subst.
    destruct (hasEdge_run h g e Hs He) as (h1 & R1 & Q1).
    cbn [FindDisjointEdge find]. rewrite (bind_run _ _ _ _ _ R1).
    destruct (has (h_graph h g) e) eqn:E; cbn [negb].
    + destruct (IH h1 (q_shape _ _ _ Q1) HW) as (h2 & R2 & Q2).
      exists h2. split; [|eapply q_ok_trans; eauto].
      rewrite R2. f_equal. f_equal. apply find_ext_eq.
      intros x. now rewrite (gsim_has _ _ x (q_sim _ _ _ Q1)).
    + exists h1. split; [reflexivity|assumption].
Qed.

(** What [isMergingEdge] computes on a stored edge. *)
Definition merging (G : Graph) (e : edge) : bool :=
  if vindex (fst e) <? vindex (snd e)
  then 1 <? Z.of_nat (length (li G (vindex (fst e)) (snd e)))
  else 1 <? Z.of_nat (length (ri G (vindex (snd e)) (snd e))).

Lemma isMergingEdge_run h g e :
  gshape (h_graph h g) -> gwf (h_graph h g) -> has (h_graph h g) e = true ->
  exists h', isMergingEdge g e h = Ret (merging (h_graph h g) e, h') /\ q_ok g h h'.
Proof.
  intros Hs W Hh. destruct e as [u v].
  pose proof (has_adjacent _ _ W Hh) as Ha. unfold adjacent in Ha; simpl in Ha.
  destruct (hasEdge_run h g (u, v) Hs (adjacent_near (u, v) Ha)) as (h1 & R1 & Q1).
  pose proof (q_shape _ _ _ Q1) as Hs1.
  pose proof (gs_el _ _ (q_sim _ _ _ Q1)) as El1.
  unfold isMergingEdge, merging. cbn [fst snd].
  rewrite (bind_run _ _ _ _ _ R1), Hh.
  change (assert_ true) with (@ret unit tt). rewrite bind_ret_l.
  destruct (vindex u <? vindex v) eqn:Hc.
  - assert (Hlt : vindex v = vindex u + 1) by lia.
    destruct (E_at_q h1 g (vindex u) v Hs1 (or_intror Hlt)) as (h2 & R2 & Q2).
    rewrite (bind_run _ _ _ _ _ R2), El1.
    exists h2. split; [reflexivity|eapply q_ok_trans; eauto].
  - destruct (E_at_q h1 g (vindex v) v Hs1 (in_slice_self v)) as (h2 & R2 & Q2).
    rewrite (bind_run _ _ _ _ _ R2), El1.
    exists h2. split; [reflexivity|eapply q_ok_trans; eauto].
Qed.

Lemma merging_iff G u v :
  gwf G -> has G (u, v) = true ->
  (merging G (u, v) = true
   <-> exists u', u' <> u /\ vindex u' = vindex u /\ has G (u', v) = true).
Proof.
  intros W Hh.
  pose proof (has_adjacent _ _ W Hh) as Ha. unfold adjacent in Ha; simpl in Ha.
  unfold merging; cbn [fst snd].
  destruct (vindex u <? vindex v) eqn:Hc.
  - rewrite (more_than_one u).
    + split; intros (x & A & B).
      * apply li_iff in A as (A1 & A2 & A3); auto. exists x. auto.
      * exists x. split; auto. apply li_iff; auto. repeat split; auto; lia.
    + apply (wf_nd _ W).
    + apply li_iff; auto. repeat split; auto; lia.
  - rewrite (more_than_one u).
    + split; intros (x & A & B).
      * apply ri_iff in A as (A1 & A2 & A3); auto. exists x. repeat split; auto; lia.
      * exists x. split; auto. apply ri_iff; auto. repeat split; try tauto; lia.
    + apply (wf_nd _ W).
    + apply ri_iff; auto. repeat split; auto; lia.
Qed.

Lemma merging_gsim G G' e : gsim G G' -> merging G' e = merging G e.
Proof. intros S. unfold merging, li, ri. now rewrite !(gs_el _ _ S). Qed.

Lemma FindFirst_run g W : forall e h,
  gshape (h_graph h g) -> gwf (h_graph h g) ->
  (forall f, In f W -> has (h_graph h g) f = true) ->
  exists r h' W1 W2,
    FindFirstMergingEdgeOrFinalEdge g (W ++ [e]) h = Ret (r, h')
    /\ q_ok g h h'
    /\ W ++ [e] = W1 ++ r :: W2
    /\ (forall f, In f W1 -> merging (h_graph h g) f = false)
    /\ (W2 = [] \/ merging (h_graph h g) r = true).
Proof.
  induction W as [|f W IH]; intros e h Hs Wf Hall.
  - exists e, h, [], []. split; [reflexivity|]. split; [now apply q_ok_refl|].
    split; [reflexivity|]. split; [intros ? []|now left].
  - destruct (isMergingEdge_run h g f Hs Wf (Hall f (or_introl eq_refl))) as (h1 & R1 & Q1).
    assert (Step : FindFirstMergingEdgeOrFinalEdge g ((f :: W) ++ [e]) h
                   = bind (isMergingEdge g f)
                       (fun b => if b then ret f
                                 else FindFirstMergingEdgeOrFinalEdge g (W ++ [e])) h).
    { cbn [app FindFirstMergingEdgeOrFinalEdge].
      destruct (W ++ [e]) eqn:E; [destruct W; discriminate|reflexivity]. }
    rewrite Step, (bind_run _ _ _ _ _ R1).
    destruct (merging (h_graph h g) f) eqn:M.
    + exists f, h1, [], (W ++ [e]). split; [reflexivity|]. split; [assumption|].
      split; [reflexivity|]. split; [intros ? []|now right].
    + assert (Wf1 : gwf (h_graph h1 g)) by (eapply gsim_gwf; [apply (q_sim _ _ _ Q1)|assumption]).
      assert (Hall1 : forall x, In x W -> has (h_graph h1 g) x = true).
      { intros x Hx. rewrite (gsim_has _ _ x (q_sim _ _ _ Q1)). apply Hall. now right. }
      destruct (IH e h1 (q_shape _ _ _ Q1) Wf1 Hall1) as (r & h2 & W1 & W2 & R2 & Q2 & Eq & Pre & Post).
      exists r, h2, (f :: W1), W2. split; [assumption|].
      split; [eapply q_ok_trans; eauto|].
      split; [cbn [app]; now rewrite Eq|].
      split.
      * intros x [<-|Hx]; [assumption|].
        rewrite <- (merging_gsim _ _ x (q_sim _ _ _ Q1)). now apply Pre.
      * destruct Post as [P|P]; [now left|right].
        now rewrite <- (merging_gsim _ _ r (q_sim _ _ _ Q1)).
Qed.

Section WalkSearch.
Variable symbols : list string.

(** X8.  [FindDisjointEdge(R, W)] returns the first edge of the walk [W]
    that the reference graph [R] does not store, and [None] when [R] stores
    them all; the search leaves the edge set and the size of [R] as they
    were. *)
Theorem X8_find_disjoint_edge (ops : list op) (g : gref) (h : heap) (W : list edge) :
  forallb (op_okb symbols) ops = true ->
  build symbols ops empty_heap = Ret (g, h) ->
  forallb nearb W = true ->
  exists h',
    FindDisjointEdge g W h = Ret (find (fun e => negb (meme e (replay ops []))) W, h')
    /\ (forall e, nearb e = true ->
          exists h'', hasEdge g e h' = Ret (meme e (replay ops []), h''))
    /\ size g h' = Ret (Z.of_nat (length (replay ops [])), h').
Proof.
  intros Hall Hb HW. destruct (build_stores symbols ops g h Hall Hb) as (Ok & [Hh Hnd Hc]).
  assert (Hn : Forall near W).
  { apply Forall_forall. intros e He. apply nearb_true.
    rewrite forallb_forall in HW. now apply HW. }
  destruct (FindDisjointEdge_run g W h (ok_shape _ _ Ok) Hn) as (h' & R & Q).
  exists h'. split; [|split].
  - rewrite R. f_equal. f_equal. apply find_ext_eq. intros x. now rewrite Hh.
  - intros e He. apply nearb_true in He.
    destruct (hasEdge_run h' g e (q_shape _ _ _ Q) He) as (h2 & R2 & _).
    exists h2. now rewrite R2, (gsim_has _ _ e (q_sim _ _ _ Q)), Hh.
  - unfold size, get_graph, bind, ret. now rewrite (gs_count _ _ (q_sim _ _ _ Q)), Hc.
Qed.

(** X9.  [FindFirstMergingEdgeOrFinalEdge(G, W)] fails with [IndexError] on
    the empty walk and returns the only edge of a one-edge walk without
    looking at the graph.  On a walk whose edges, the last one apart, are
    stored in [G], it returns an edge [r] of the walk such that no edge
    before [r] is a merging edge and [r] is a merging edge or the last edge
    of the walk; an edge [(u, v)] being merging when another stored edge
    enters [v] from the index of [u].  When the first edge of a longer walk
    is not stored, the assertion of [isMergingEdge] fails. *)
Theorem X9_first_merging_or_final (ops : list op) (g : gref) (h : heap) :
  forallb (op_okb symbols) ops = true ->
  build symbols ops empty_heap = Ret (g, h) ->
  let is_merging (e : edge) :=
    exists u', u' <> fst e /\ vindex u' = vindex (fst e) /\ In (u', snd e) (replay ops []) in
  FindFirstMergingEdgeOrFinalEdge g [] h = Raise IndexError
  /\ (forall e, FindFirstMergingEdgeOrFinalEdge g [e] h = Ret (e, h))
  /\ (forall W e, (forall f, In f W -> In f (replay ops [])) ->
        exists r h' W1 W2,
          FindFirstMergingEdgeOrFinalEdge g (W ++ [e]) h = Ret (r, h')
          /\ W ++ [e] = W1 ++ r :: W2
          /\ (forall f, In f W1 -> ~ is_merging f)
          /\ (W2 = [] \/ is_merging r))
  /\ (forall f f' W, ~ In f (replay ops []) ->
        FindFirstMergingEdgeOrFinalEdge g (f :: f' :: W) h = Raise AssertionError).
Proof.
  intros Hall Hb is_merging.
  destruct (build_stores symbols ops g h Hall Hb) as (Ok & [Hh Hnd Hc]).
  destruct Ok as [Hs Wf _ _ _].
  assert (Hin : forall e, In e (replay ops []) <-> has (h_graph h g) e = true)
    by (intros e; now rewrite Hh, meme_In).
  assert (Mg : forall f, has (h_graph h g) f = true ->
                         (merging (h_graph h g) f = true <-> is_merging f)).
  { intros [u v] Hf. rewrite (merging_iff _ u v Wf Hf). unfold is_merging; cbn [fst snd].
    split; intros (x & A & B & C); exists x; rewrite Hin in *; auto. }
  split; [reflexivity|]. split; [reflexivity|]. split.
  - intros W e HW.
    assert (HW' : forall f, In f W -> has (h_graph h g) f = true)
      by (intros f Hf; apply Hin; auto).
    destruct (FindFirst_run g W e h Hs Wf HW') as (r & h' & W1 & W2 & R & _ & Eq & Pre & Post).
    exists r, h', W1, W2. split; [assumption|]. split; [assumption|].
    assert (InW : forall X f W2', W ++ [e] = X ++ f :: W2' -> W2' <> [] -> In f W).
    { intros X f W2' E Hne.
      assert (I : In f (removelast (W ++ [e]))).
      { rewrite E, removelast_app by discriminate. apply in_or_app. right.
        destruct W2'; [congruence|]. now left. }
      now rewrite removelast_last in I. }
    split.
    + intros f Hf Hm.
      apply in_split in Hf as (A & B & ->).
      assert (Hst : In f W).
      { apply (InW A f (B ++ r :: W2)); [now rewrite Eq, <- app_assoc|].
        destruct B; discriminate. }
      apply Mg in Hm; [|now apply HW'].
      rewrite Pre in Hm; [discriminate|]. apply in_or_app. right. now left.
    + destruct Post as [P|P]; [now left|].
      destruct W2 as [|w W2]; [now left|right].
      apply Mg; [|assumption]. apply HW'. apply (InW W1 r (w :: W2) Eq). discriminate.
  - intros f f' W Habs.
    assert (Hf : has (h_graph h g) f = false).
    { destruct (has (h_graph h g) f) eqn:E; auto. apply Hin in E. contradiction. }
    cbn [FindFirstMergingEdgeOrFinalEdge]. apply bind_raise.
    unfold isMergingEdge. now apply hasEdge_absent_assert.
Qed.

End WalkSearch.

(** X8 on the graph of [Ex.G1_ops], which stores [(v0, a)] and not
    [(a, b)]. *)
Lemma X8_find_disjoint_edge_witness :
  (forallb (op_okb Ex.symbols) Ex.G1_ops = true
   /\ build Ex.symbols Ex.G1_ops empty_heap = Ret (O, Ex.G1_heap)
   /\ forallb nearb [(Ex.v0, Ex.a); (Ex.a, Ex.b)] = true)
  /\ exists h',
       FindDisjointEdge O [(Ex.v0, Ex.a); (Ex.a, Ex.b)] Ex.G1_heap
       = Ret (find (fun e => negb (meme e (replay Ex.G1_ops [])))
                   [(Ex.v0, Ex.a); (Ex.a, Ex.b)], h')
       /\ (forall e, nearb e = true ->
             exists h'', hasEdge O e h' = Ret (meme e (replay Ex.G1_ops []), h''))
       /\ size O h' = Ret (Z.of_nat (length (replay Ex.G1_ops [])), h').
Proof.
  split; [split; [|split]; vm_compute; reflexivity|].
  apply (X8_find_disjoint_edge Ex.symbols Ex.G1_ops O Ex.G1_heap
           [(Ex.v0, Ex.a); (Ex.a, Ex.b)]); vm_compute; reflexivity.
Defined.

(** X9 on the graph of [Ex.G1_ops] and the walk [(v0, a); (a, b)], whose
    last edge is not stored. *)
Lemma X9_first_merging_or_final_witness :
  (forallb (op_okb Ex.symbols) Ex.G1_ops = true
   /\ build Ex.symbols Ex.G1_ops empty_heap = Ret (O, Ex.G1_heap)
   /\ forall f, In f [(Ex.v0, Ex.a)] -> In f (replay Ex.G1_ops []))
  /\ FindFirstMergingEdgeOrFinalEdge O [] Ex.G1_heap = Raise IndexError
  /\ exists r h' W1 W2,
       FindFirstMergingEdgeOrFinalEdge O ([(Ex.v0, Ex.a)] ++ [(Ex.a, Ex.b)]) Ex.G1_heap
       = Ret (r, h')
       /\ [(Ex.v0, Ex.a)] ++ [(Ex.a, Ex.b)] = W1 ++ r :: W2
       /\ (forall f, In f W1 ->
             ~ exists u', u' <> fst f /\ vindex u' = vindex (fst f)
                          /\ In (u', snd f) (replay Ex.G1_ops []))
       /\ (W2 = [] \/ exists u', u' <> fst r /\ vindex u' = vindex (fst r)
                                 /\ In (u', snd r) (replay Ex.G1_ops [])).
Proof.
  assert (Hin : forall f, In f [(Ex.v0, Ex.a)] -> In f (replay Ex.G1_ops []))
    by (intros f [<-|[]]; vm_compute; left; reflexivity).
  split; [split; [|split]; [vm_compute; reflexivity|vm_compute; reflexivity|exact Hin]|].
  split.
  - apply (X9_first_merging_or_final Ex.symbols Ex.G1_ops O Ex.G1_heap);
      vm_compute; reflexivity.
  - apply (X9_first_merging_or_final Ex.symbols Ex.G1_ops O Ex.G1_heap);
      [vm_compute; reflexivity|vm_compute; reflexivity|exact Hin].
Defined.

(* ================================================================== *)
(** * [EdgeSlice.__getitem__] *)

(** X10.  [EdgeSlice.__getitem__] fails its assertion for a vertex of
    another cell than the slice's own or the next one.  For a vertex of the
    slice it returns the vertex's edge lists, empty ones at the vertex when
    there were none; the read keeps the index and the edge counter of the
    slice and the entries of all other vertices, and a second read returns
    the same lists and changes nothing. *)
Theorem X10_edge_slice_read (s : EdgeSlice) (v : vertex) :
  (es_index s <> vindex v /\ es_index s <> vindex v - 1 ->
     es_getitem s v = Raise AssertionError)
  /\ (es_index s = vindex v \/ es_index s = vindex v - 1 ->
      exists el s',
        es_getitem s v = Ret (el, s')
        /\ el = match dict_get vertex_eq_dec v (edges s) with
                | Some a => a
                | None => new_EdgeListOf v
                end
        /\ es_getitem s' v = Ret (el, s')
        /\ es_index s' = es_index s
        /\ es_size s' = es_size s
        /\ (forall w, w <> v ->
              dict_get vertex_eq_dec w (edges s') = dict_get vertex_eq_dec w (edges s))).
Proof.
  unfold es_getitem. split.
  - intros [H1 H2].
    replace ((es_index s =? vindex v) || (es_index s =? vindex v - 1)) with false by lia.
    reflexivity.
  - intros Hin.
    replace ((es_index s =? vindex v) || (es_index s =? vindex v - 1)) with true by lia.
    destruct (dict_get vertex_eq_dec v (edges s)) as [a|] eqn:E.
    + exists a, s. rewrite E.
      replace ((es_index s =? vindex v) || (es_index s =? vindex v - 1)) with true by lia.
      repeat split; auto.
    + eexists _, _. split; [reflexivity|]. split; [reflexivity|].
      cbn [es_index edges edgeCount].
      replace ((es_index s =? vindex v) || (es_index s =? vindex v - 1)) with true by lia.
      rewrite dict_get_set. destruct (vertex_eq_dec v v) as [_|N]; [|congruence].
      split; [reflexivity|]. split; [reflexivity|]. split; [reflexivity|].
      intros w Hw. rewrite dict_get_set. destruct (vertex_eq_dec w v); [contradiction|reflexivity].
Qed.

(* ================================================================== *)
(** * The vertex registry [V] of a graph *)

Lemma replay_app a b l : replay (a ++ b) l = replay b (replay a l).
Proof. revert l; induction a as [|[e|e] a IH]; intros l; simpl; auto. Qed.

Lemma replay_In ops : forall l e, In e (replay ops l) -> In e l \/ In (Add e) ops.
Proof.
  induction ops as [|[e0|e0] ops IH]; intros l e H; simpl in *; auto.
  - apply IH in H as [H|H]; auto.
    apply set_add_In in H as [->|H]; auto.
  - apply IH in H as [H|H]; auto.
    apply set_remove_In in H as [H _]. auto.
Qed.

(** [w] is an endpoint of an edge some [addEdge] call of [ops] was given. *)
Definition registered_by (ops : list op) (w : vertex) : Prop :=
  exists e, In (Add e) ops /\ (w = fst e \/ w = snd e).

(** The cases of the registry of [g] hold their floor vertex and the
    endpoints [ops] registered, and nothing else. *)
Definition registry (h : heap) (g : gref) (ops : list op) : Prop :=
  forall i t q s w,
    In w (case_members (h_vaxis h (gV (h_graph h g))) i t q s)
    <-> (t = O /\ w = Floor i q s)
        \/ (transitionCase w = mkT i t q s /\ registered_by ops w).

Lemma registered_by_app a b w :
  registered_by (a ++ b) w <-> registered_by a w \/ registered_by b w.
Proof.
  unfold registered_by. split.
  - intros (e & H & E). apply in_app_or in H as [H|H]; [left|right]; eauto.
  - intros [(e & H & E)|(e & H & E)]; exists e; split; auto; apply in_or_app; auto.
Qed.

Section Registry.
Variable symbols : list string.

Lemma apply_op_registry h g o done :
  g_ok h g -> stores h g (replay done []) -> registry h g done ->
  op_okb symbols o = true ->
  exists h', apply_op symbols g o h = Ret (tt, h') /\ g_ok h' g
             /\ stores h' g (replay (done ++ [o]) [])
             /\ registry h' g (done ++ [o]).
Proof.
  intros Hok Hst Hreg Ho.
  destruct (apply_op_stores symbols h g o _ Hok Hst Ho) as (h' & R & Ok' & St').
  exists h'. split; [assumption|]. split; [assumption|].
  split; [now rewrite replay_app|].
  destruct o as [[u v]|[u v]]; cbn [op_okb] in Ho.
  - apply andb_true_iff in Ho as [Ho Hv]. apply andb_true_iff in Ho as [Ha Hu].
    apply adjacentb_true in Ha. apply over_alphabet_true in Hu, Hv. cbn [fst snd] in Hu, Hv.
    change (addEdge symbols g (u, v) h = Ret (tt, h')) in R.
    destruct (addEdge_run symbols h g u v Hok Ha Hu Hv)
      as (h2 & R2 & _ & _ & HV & _ & _ & _ & _ & Mem).
    rewrite R in R2. injection R2 as <-.
    intros i t q s w. rewrite HV, Mem, (Hreg i t q s w), registered_by_app.
    assert (New : registered_by [Add (u, v)] w <-> w = u \/ w = v).
    { unfold registered_by. split.
      - intros (e & [E|[]] & H). injection E as <-. exact H.
      - intros H. exists (u, v). split; [now left|exact H]. }
    rewrite New.
    destruct (has (h_graph h g) (u, v)) eqn:E.
    + (* already stored: its endpoints were registered when it was added *)
      assert (Old : w = u \/ w = v -> registered_by done w).
      { intros H. exists (u, v). split; [|exact H].
        rewrite (st_has _ _ _ Hst) in E. apply meme_In in E.
        apply replay_In in E as [[]|E]. exact E. }
      intuition discriminate.
    + tauto.
  - apply nearb_true in Ho.
    change (removeEdge g (u, v) h = Ret (tt, h')) in R.
    destruct (removeEdge_run h g u v (ok_shape _ _ Hok) (ok_wf _ _ Hok) Ho)
      as (h2 & R2 & F & _ & _ & HV & _).
    rewrite R in R2. injection R2 as <-.
    intros i t q s w. rewrite HV, (fg_vaxis _ _ _ F), (Hreg i t q s w), registered_by_app.
    assert (New : ~ registered_by [Remove (u, v)] w).
    { intros (e & [E|[]] & _). discriminate. }
    tauto.
Qed.

Lemma run_ops_registry ops : forall h g done,
  g_ok h g -> stores h g (replay done []) -> registry h g done ->
  forallb (op_okb symbols) ops = true ->
  exists h', run_ops symbols g ops h = Ret (tt, h') /\ g_ok h' g
             /\ stores h' g (replay (done ++ ops) [])
             /\ registry h' g (done ++ ops).
Proof.
  induction ops as [|o ops IH]; intros h g done Hok Hst Hreg Hall; simpl in *.
  - exists h. rewrite app_nil_r. auto.
  - apply andb_true_iff in Hall as [Ho Hall].
    destruct (apply_op_registry h g o done Hok Hst Hreg Ho) as (h1 & R1 & Ok1 & St1 & Rg1).
    destruct (IH h1 g _ Ok1 St1 Rg1 Hall) as (h2 & R2 & Ok2 & St2 & Rg2).
    exists h2. rewrite <- app_assoc in St2, Rg2.
    split; [|auto].
    unfold run_ops, forM_ in *. simpl. rewrite (bind_run _ _ _ _ _ R1). exact R2.
Qed.

Lemma build_registry ops g h :
  forallb (op_okb symbols) ops = true ->
  build symbols ops empty_heap = Ret (g, h) ->
  g_ok h g /\ stores h g (replay ops []) /\ registry h g ops.
Proof.
  intros Hall Hb. unfold build in Hb.
  destruct (new_graph_run empty_heap) as (h1 & R1 & HG & HV & _).
  destruct (new_graph_ok _ _ _ R1) as (Ok1 & C1).
  assert (St1 : stores h1 (h_ngraph empty_heap) (replay [] [])).
  { constructor; [|constructor|assumption].
    intros e. rewrite HG. apply has_empty. }
  assert (Rg1 : registry h1 (h_ngraph empty_heap) []).
  { intros i t q s w. rewrite HG; cbn [gV]. rewrite HV.
    assert (E : case_members (mkCA 0 []) i t q s = tc_members (new_TransitionCase i t q s)).
    { unfold case_members, case_lookup, tier_lookup, ca_lookup.
      replace (isDefined (mkCA 0 (@nil TierArray)) i) with false
        by (unfold isDefined, ca_top; simpl; lia).
      simpl. now destruct t. }
    rewrite E. unfold new_TransitionCase, registered_by; cbn [tc_members].
    destruct t; simpl.
    - split; [intros [<-|[]]; auto|].
      intros [[_ ->]|[_ (e & [] & _)]]. now left.
    - split; [intros []|]. intros [[H _]|[_ (e & [] & _)]]. discriminate. }
  destruct (run_ops_registry ops h1 _ [] Ok1 St1 Rg1 Hall) as (h2 & R2 & Ok2 & St2 & Rg2).
  rewrite (bind_run _ _ _ _ _ R1), (bind_run _ _ _ _ _ R2) in Hb.
  injection Hb as <- <-. auto.
Qed.

(** X11.  The registry: on a graph built within the contract, reading
    [V[i][t][q][s]] for a symbol [s] of the alphabet yields the case with
    these four fields, and its members are exactly the floor vertex of the
    case (when [t = 0]) and the vertices with these four fields that were an
    endpoint of an edge given to [addEdge]; [removeEdge] unregisters
    nothing. *)
Theorem X11_vertex_registry (ops : list op) (g : gref) (h : heap)
    (i : Z) (t : nat) (q s : string) :
  forallb (op_okb symbols) ops = true ->
  build symbols ops empty_heap = Ret (g, h) ->
  In s symbols ->
  exists T h',
    V_at symbols (fun T => T) g i t q s h = Ret (T, h')
    /\ tc_key T = mkT i t q s
    /\ (forall w, In w (tc_members T)
                  <-> (t = O /\ w = Floor i q s)
                      \/ (transitionCase w = mkT i t q s
                          /\ exists e, In (Add e) ops /\ (w = fst e \/ w = snd e))).
Proof.
  intros Hall Hb Hs. destruct (build_registry ops g h Hall Hb) as (Ok & _ & Rg).
  destruct (V_at_run symbols (fun T => T) h g i t q s (ok_vshape _ _ Ok) Hs (fun _ => eq_refl))
    as (h' & R & _).
  eexists _, h'. split; [exact R|]. split; [reflexivity|].
  intros w. cbn [tc_members]. apply Rg.
Qed.

(** X12.  [IPrecedent(v)] is the empty set for a floor vertex, and reads
    nothing.  For a vertex above the floor, whose predecessor symbol is in
    the alphabet, it is the registry case at the index of [v], one tier
    below, with the predecessor state and symbol of [v]: its members are
    the floor vertex of that case, when that tier is the floor, and the
    registered endpoints with these four fields. *)
Theorem X12_IPrecedent (ops : list op) (g : gref) (h : heap) (v : vertex) :
  forallb (op_okb symbols) ops = true ->
  build symbols ops empty_heap = Ret (g, h) ->
  (vtier v = O -> IPrecedent symbols g v h = Ret (PlainSet [], h))
  /\ (forall p, pred v = Some p -> In (t_symbol p) symbols ->
        t_index p = vindex v /\ S (t_tier p) = vtier v
        /\ exists P h',
             IPrecedent symbols g v h = Ret (P, h')
             /\ (forall w, In w (elems P)
                           <-> (t_tier p = O
                                /\ w = Floor (t_index p) (t_state p) (t_symbol p))
                               \/ (transitionCase w = p
                                   /\ exists e, In (Add e) ops /\ (w = fst e \/ w = snd e)))).
Proof.
  intros Hall Hb. destruct (build_registry ops g h Hall Hb) as (Ok & _ & Rg).
  split.
  - destruct v; simpl; [reflexivity|discriminate].
  - intros p Hp Hs. destruct v as [|i t q s pq ps]; simpl in Hp; [discriminate|].
    injection Hp as <-. cbn [t_index t_tier t_state t_symbol vindex vtier] in *.
    split; [reflexivity|]. split; [reflexivity|].
    destruct (V_at_run symbols (fun T => T) h g i t pq ps (ok_vshape _ _ Ok) Hs
                (fun _ => eq_refl)) as (h' & R & _).
    eexists _, h'. split.
    + unfold IPrecedent. rewrite (bind_run _ _ _ _ _ R). reflexivity.
    + intros w. cbn [elems tc_members]. apply Rg.
Qed.

End Registry.

(** A graph with an edge into the second tier. *)
Module Ex2.
Import Ex.
Local Open Scope string_scope.
Definition a1 : vertex := Upper 1 0 "a" "0" "a" "0".
Definition G2_ops : list op := [Add (v0, a); Add (v0, a1)].
Definition G2_heap : heap := heap_of (build symbols G2_ops).
Definition G3_ops : list op := [Add (v0, a); Add (a, v0); Add (v0, a1)].
Definition G3_heap : heap := heap_of (build symbols G3_ops).
End Ex2.

(** X11 on the graph of [Ex2.G2_ops] and the case of [Ex.a]. *)
Lemma X11_vertex_registry_witness :
  (forallb (op_okb Ex.symbols) Ex2.G2_ops = true
   /\ build Ex.symbols Ex2.G2_ops empty_heap = Ret (O, Ex2.G2_heap)
   /\ In (vsymbol Ex.a) Ex.symbols)
  /\ exists T h',
       V_at Ex.symbols (fun T => T) O 1 O (vstate Ex.a) (vsymbol Ex.a) Ex2.G2_heap = Ret (T, h')
       /\ tc_key T = mkT 1 O (vstate Ex.a) (vsymbol Ex.a)
       /\ (forall w, In w (tc_members T)
                     <-> (O = O /\ w = Floor 1 (vstate Ex.a) (vsymbol Ex.a))
                         \/ (transitionCase w = mkT 1 O (vstate Ex.a) (vsymbol Ex.a)
                             /\ exists e, In (Add e) Ex2.G2_ops /\ (w = fst e \/ w = snd e))).
Proof.
  split; [split; [|split]; [vm_compute; reflexivity|vm_compute; reflexivity
                            |vm_compute; left; reflexivity]|].
  apply (X11_vertex_registry Ex.symbols Ex2.G2_ops O Ex2.G2_heap 1 O (vstate Ex.a) (vsymbol Ex.a));
    [vm_compute; reflexivity|vm_compute; reflexivity|vm_compute; left; reflexivity].
Defined.

(** X12 on the graph of [Ex2.G2_ops]: the precedent of [Ex2.a1] is the case
    of [Ex.a]. *)
Lemma X12_IPrecedent_witness :
  (forallb (op_okb Ex.symbols) Ex2.G2_ops = true
   /\ build Ex.symbols Ex2.G2_ops empty_heap = Ret (O, Ex2.G2_heap)
   /\ pred Ex2.a1 = Some (transitionCase Ex.a)
   /\ In (t_symbol (transitionCase Ex.a)) Ex.symbols)
  /\ exists P h',
       IPrecedent Ex.symbols O Ex2.a1 Ex2.G2_heap = Ret (P, h')
       /\ (forall w, In w (elems P)
                     <-> (t_tier (transitionCase Ex.a) = O
                          /\ w = Floor (t_index (transitionCase Ex.a))
                                       (t_state (transitionCase Ex.a))
                                       (t_symbol (transitionCase Ex.a)))
                         \/ (transitionCase w = transitionCase Ex.a
                             /\ exists e, In (Add e) Ex2.G2_ops /\ (w = fst e \/ w = snd e))).
Proof.
  assert (Hs : In (t_symbol (transitionCase Ex.a)) Ex.symbols)
    by (vm_compute; left; reflexivity).
  split; [split; [|split; [|split]];
          [vm_compute; reflexivity|vm_compute; reflexivity|reflexivity|exact Hs]|].
  apply (X12_IPrecedent Ex.symbols Ex2.G2_ops O Ex2.G2_heap Ex2.a1);
    [vm_compute; reflexivity|vm_compute; reflexivity|reflexivity|exact Hs].
Defined.

(* ================================================================== *)
(** * Indirect succedents *)

Lemma set_union_In {A} (eqd : forall a b : A, {a = b} + {a <> b}) r : forall l x,
  In x (set_union eqd l r) <-> In x l \/ In x r.
Proof.
  unfold set_union. induction r as [|y r IH]; intros l x; simpl; [tauto|].
  rewrite IH, set_add_In. intuition.
Qed.

Lemma set_union_NoDup {A} (eqd : forall a b : A, {a = b} + {a <> b}) r : forall l,
  NoDup l -> NoDup (set_union eqd l r).
Proof.
  unfold set_union. induction r as [|y r IH]; intros l H; simpl; auto.
  apply IH. now apply set_add_NoDup.
Qed.

Lemma set_of_In {A} (eqd : forall a b : A, {a = b} + {a <> b}) l x :
  In x (set_of eqd l) <-> In x l.
Proof. unfold set_of. rewrite set_union_In. simpl. tauto. Qed.

Lemma set_of_NoDup {A} (eqd : forall a b : A, {a = b} + {a <> b}) l : NoDup (set_of eqd l).
Proof. apply set_union_NoDup. constructor. Qed.

Lemma TKey_eqb_true a b : TKey_eqb a b = true <-> a = b.
Proof.
  unfold TKey_eqb. destruct a, b; simpl.
  rewrite !andb_true_iff, Z.eqb_eq, Nat.eqb_eq, !String.eqb_eq.
  split; [intros [[[-> ->] ->] ->]; reflexivity|intros H; injection H; auto].
Qed.

Lemma dict_keys_get {K A} (eqd : forall a b : K, {a = b} + {a <> b}) k (d : list (K * A)) :
  In k (map fst d) <-> exists a, dict_get eqd k d = Some a.
Proof.
  induction d as [|[k0 a0] d IH]; simpl.
  - split; [tauto|intros (a & H); discriminate].
  - destruct (eqd k k0) as [->|N].
    + split; eauto.
    + rewrite <- IH. split; auto. intros [H|H]; [congruence|auto].
Qed.

Lemma lift_run {A} (o : outcome A) a h : o = Ret a -> lift o h = Ret (a, h).
Proof. intros ->. reflexivity. Qed.

(** [s.pred == T] as a filter. *)
Definition pred_b (T : TKey) (w : vertex) : bool :=
  match pred w with Some p => TKey_eqb p T | None => false end.

Lemma filterO_pred T l :
  (forall w, In w l -> pred w <> None) -> filterO (pred_is T) l = Ret (filter (pred_b T) l).
Proof.
  induction l as [|w l IH]; intros H; simpl; [reflexivity|].
  unfold pred_is at 1, pred_b at 1.
  destruct (pred w) eqn:E; [|exfalso; apply (H w); [now left|exact E]].
  simpl. rewrite IH by (intros x Hx; apply H; now right). reflexivity.
Qed.

(** A read of the registry: everything but axis [r] is untouched, and the
    cases of [r] keep their members. *)
Record v_ok (r : nat) (h h' : heap) : Prop := mk_v_ok
  { vq_frame : frame_v r h h';
    vq_shape : vshape (h_vaxis h' r);
    vq_mem : forall i t q s,
        case_members (h_vaxis h' r) i t q s = case_members (h_vaxis h r) i t q s }.

Lemma v_ok_refl r h : vshape (h_vaxis h r) -> v_ok r h h.
Proof. constructor; auto using frame_v_refl. Qed.

Lemma v_ok_trans r h1 h2 h3 : v_ok r h1 h2 -> v_ok r h2 h3 -> v_ok r h1 h3.
Proof.
  intros [a b c] [a' b' c']; constructor; eauto using frame_v_trans.
  intros. now rewrite c', c.
Qed.

Lemma v_ok_vwf r h h' : v_ok r h h' -> vwf (h_vaxis h r) -> vwf (h_vaxis h' r).
Proof.
  intros [_ _ M] [a b c]. constructor; intros *; rewrite ?M; auto.
Qed.

Lemma V_tier_spec V i t :
  vshape V ->
  exists d V',
    V_tier V i t = Ret (d, V')
    /\ d = match tier_lookup V i t with Some d0 => d0 | None => new_StateDict i t end
    /\ vshape V'
    /\ (forall i' t' q' s', case_lookup V' i' t' q' s' = case_lookup V i' t' q' s').
Proof.
  intros HV. unfold V_tier.
  destruct (ca_getitem_spec _ new_TierArray (fun _ _ => true) V i (V_ca_ok V))
    as (V1 & R1 & L1 & D1 & M1 & _).
  rewrite R1; cbn [obind].
  set (ta := ca_lookup new_TierArray V i).
  destruct (ta_getitem_spec ta t) as (d & ta1 & R2 & Hd & Hci & Hlen & Hnth).
  rewrite R2; cbn [obind].
  assert (Hta : cell_index ta = i) by apply (vs_cell _ HV).
  exists d, (ca_store V1 i ta1). split; [reflexivity|].
  assert (Hcell : forall i', ca_lookup new_TierArray (ca_store V1 i ta1) i'
                             = if i' =? i then ta1 else ca_lookup new_TierArray V i').
  { intros i'. rewrite ca_store_lookup by assumption. now rewrite L1. }
  assert (Htl : forall i' t', tier_lookup (ca_store V1 i ta1) i' t'
                 = if i' =? i then
                     match tier_lookup V i t' with
                     | Some x => Some x
                     | None => if (t' <=? t)%nat then Some (new_StateDict i t') else None
                     end
                   else tier_lookup V i' t').
  { intros i' t'. unfold tier_lookup at 1. rewrite Hcell.
    destruct (i' =? i) eqn:Ei; [|reflexivity].
    rewrite Hnth, Hta. reflexivity. }
  assert (Hlk : forall i' t' q' s',
             case_lookup (ca_store V1 i ta1) i' t' q' s' = case_lookup V i' t' q' s').
  { intros i' t' q' s'. unfold case_lookup. rewrite Htl.
    destruct (i' =? i) eqn:Ei; [|reflexivity].
    apply Z.eqb_eq in Ei; subst i'.
    destruct (tier_lookup V i t') eqn:E; [reflexivity|].
    destruct (t' <=? t)%nat; reflexivity. }
  split; [|split; [|exact Hlk]].
  - rewrite Hnth in Hd. unfold tier_lookup. fold ta.
    destruct (nth_error (ta_items ta) t); [congruence|].
    rewrite Nat.leb_refl, Hta in Hd. congruence.
  - constructor.
    + intros i'. rewrite Hcell. destruct (i' =? i) eqn:Ei; [|apply (vs_cell _ HV)].
      rewrite Hci. lia.
    + intros i' t' d'. rewrite Htl.
      destruct (i' =? i) eqn:Ei; [|apply (vs_tier _ HV)].
      apply Z.eqb_eq in Ei; subst i'.
      destruct (tier_lookup V i t') eqn:E.
      * intros H; injection H as <-. apply (vs_tier _ HV _ _ _ E).
      * destruct (t' <=? t)%nat; [|discriminate].
        intros H; injection H as <-; auto.
    + intros i' t' d' q' y'. rewrite Htl.
      destruct (i' =? i) eqn:Ei; [|apply (vs_state _ HV)].
      apply Z.eqb_eq in Ei; subst i'.
      destruct (tier_lookup V i t') eqn:E.
      * intros H; injection H as <-. apply (vs_state _ HV _ _ _ _ _ E).
      * destruct (t' <=? t)%nat; [|discriminate].
        intros H; injection H as <-; discriminate.
    + intros i' t' q' s' T'. rewrite Hlk. apply (vs_case _ HV).
Qed.

Lemma upd_vaxis_same h r V : h_vaxis (upd_vaxis h r V) r = V.
Proof. unfold upd_vaxis; simpl. now rewrite Nat.eqb_refl. Qed.

Lemma put_vaxis_run h r V : put_vaxis r V h = Ret (tt, upd_vaxis h r V).
Proof. reflexivity. Qed.

Lemma frame_v_upd r h V : frame_v r h (upd_vaxis h r V).
Proof.
  constructor; auto. intros k Hk. unfold upd_vaxis; simpl.
  destruct (Nat.eqb k r) eqn:E; auto. apply Nat.eqb_eq in E. contradiction.
Qed.

Section Succedents.
Variable delta : string -> string -> string * string * Z.
Variable symbols : list string.
Variable iter_v : list vertex -> list vertex.
Hypothesis iter_v_In : forall l x, In x (iter_v l) <-> In x l.

(** Reading a case without changing it. *)
Lemma V_at_id_run h g i t q s :
  vshape (h_vaxis h (gV (h_graph h g))) -> In s symbols ->
  exists h',
    V_at symbols (fun T => T) g i t q s h
    = Ret (mkTC (mkT i t q s) (case_members (h_vaxis h (gV (h_graph h g))) i t q s), h')
    /\ v_ok (gV (h_graph h g)) h h'.
Proof.
  intros HV Hs.
  destruct (V_at_run symbols (fun T => T) h g i t q s HV Hs (fun _ => eq_refl))
    as (h' & R & F & HV' & Hlk).
  exists h'. split; [exact R|]. constructor; auto.
  intros i' t' q' s'. unfold case_members at 1. rewrite Hlk.
  destruct (same_path i t q s i' t' q' s') eqn:E; [|reflexivity].
  apply same_path_true in E as (-> & -> & -> & ->). reflexivity.
Qed.

Lemma succ_fold g i t s T keys : forall h acc,
  vshape (h_vaxis h (gV (h_graph h g))) -> vwf (h_vaxis h (gV (h_graph h g))) ->
  In s symbols ->
  exists h',
    foldM (fun S_ q =>
             C <- V_at symbols (fun T => T) g i (S t) q s ;;
             L <- lift (filterO (pred_is T) (iter_v (tc_members C))) ;;
             ret (S_ ++ L))
          keys acc h
    = Ret (acc ++ flat_map (fun q => filter (pred_b T)
                                       (iter_v (case_members (h_vaxis h (gV (h_graph h g)))
                                                             i (S t) q s))) keys, h')
    /\ v_ok (gV (h_graph h g)) h h'.
Proof.
  induction keys as [|q keys IH]; intros h acc HV HW Hs.
  - exists h. simpl. rewrite app_nil_r. split; [reflexivity|now apply v_ok_refl].
  - destruct (V_at_id_run h g i (S t) q s HV Hs) as (h1 & R1 & Q1).
    cbn [foldM flat_map].
    assert (Hup : forall w, In w (iter_v (case_members (h_vaxis h (gV (h_graph h g)))
                                                       i (S t) q s)) -> pred w <> None).
    { intros w Hw. apply (proj1 (iter_v_In _ _)) in Hw. apply (vw_key _ HW) in Hw.
      destruct w; [discriminate|simpl; discriminate]. }
    assert (Inner : (C <- V_at symbols (fun T => T) g i (S t) q s ;;
                     L <- lift (filterO (pred_is T) (iter_v (tc_members C))) ;;
                     ret (acc ++ L)) h
                    = Ret (acc ++ filter (pred_b T)
                             (iter_v (case_members (h_vaxis h (gV (h_graph h g)))
                                                   i (S t) q s)), h1)).
    { rewrite (bind_run _ _ _ _ _ R1). cbn [tc_members].
      rewrite (bind_run _ _ _ _ _ (lift_run _ _ h1 (filterO_pred T _ Hup))).
      reflexivity. }
    rewrite (bind_run _ _ _ _ _ Inner).
    assert (Eg : gV (h_graph h1 g) = gV (h_graph h g))
      by now rewrite (fv_graph _ _ _ (vq_frame _ _ _ Q1)).
    assert (HV1 : vshape (h_vaxis h1 (gV (h_graph h1 g))))
      by (rewrite Eg; apply (vq_shape _ _ _ Q1)).
    assert (HW1 : vwf (h_vaxis h1 (gV (h_graph h1 g))))
      by (rewrite Eg; apply (v_ok_vwf _ _ _ Q1 HW)).
    destruct (IH h1 (acc ++ filter (pred_b T)
                       (iter_v (case_members (h_vaxis h (gV (h_graph h g))) i (S t) q s)))
                HV1 HW1 Hs) as (h2 & R2 & Q2).
    exists h2. split.
    + rewrite R2, <- app_assoc. f_equal. f_equal. f_equal. f_equal.
      apply flat_map_ext. intros q'. now rewrite Eg, (vq_mem _ _ _ Q1).
    + rewrite Eg in Q2. eapply v_ok_trans; eauto.
Qed.

Lemma ISuccedent_run h g v :
  vshape (h_vaxis h (gV (h_graph h g))) -> vwf (h_vaxis h (gV (h_graph h g))) ->
  In (output delta v) symbols ->
  exists S_ h',
    ISuccedent delta symbols iter_v g v h = Ret (S_, h')
    /\ v_ok (gV (h_graph h g)) h h'
    /\ NoDup S_
    /\ (forall w, In w S_
                  <-> In w (case_members (h_vaxis h (gV (h_graph h g)))
                                         (vindex v) (S (vtier v)) (vstate w) (output delta v))
                      /\ pred w = Some (transitionCase v)).
Proof.
  intros HV HW Hs. unfold ISuccedent.
  set (r := gV (h_graph h g)) in *. set (V := h_vaxis h r) in *.
  rewrite (bind_run (get_graph g) _ h (h_graph h g) h eq_refl).
  rewrite (bind_run (get_vaxis (gV (h_graph h g))) _ h V h eq_refl).
  destruct (V_tier_spec V (vindex v) (S (vtier v)) HV) as (d & V' & R1 & Hd & HV' & Hlk).
  rewrite (bind_run _ _ _ _ _ (lift_run _ _ h R1)). cbv beta iota.
  rewrite (bind_run _ _ _ _ _ (put_vaxis_run h _ V')).
  fold r. set (h1 := upd_vaxis h r V').
  assert (Eg : gV (h_graph h1 g) = r) by reflexivity.
  assert (Q1 : v_ok r h h1).
  { constructor.
    - apply frame_v_upd.
    - unfold h1. now rewrite upd_vaxis_same.
    - intros i t q s. unfold h1. rewrite upd_vaxis_same. unfold case_members.
      now rewrite Hlk. }
  assert (HV1 : vshape (h_vaxis h1 (gV (h_graph h1 g))))
    by (rewrite Eg; apply (vq_shape _ _ _ Q1)).
  assert (HW1 : vwf (h_vaxis h1 (gV (h_graph h1 g))))
    by (rewrite Eg; apply (v_ok_vwf _ _ _ Q1 HW)).
  destruct (succ_fold g (vindex v) (vtier v) (output delta v) (transitionCase v)
              (map fst (sd_items d)) h1 [] HV1 HW1 Hs) as (h2 & R2 & Q2).
  rewrite (bind_run _ _ _ _ _ R2). rewrite Eg in Q2.
  eexists _, h2. split; [reflexivity|].
  split; [eapply v_ok_trans; eauto|].
  split; [apply set_of_NoDup|].
  intros w. rewrite set_of_In. cbn [app]. rewrite in_flat_map. rewrite Eg.
  split.
  - intros (q & Hq & Hw). apply filter_In in Hw as [Hw Hp].
    apply (proj1 (iter_v_In _ _)) in Hw. rewrite (vq_mem _ _ _ Q1) in Hw. fold V in Hw.
    pose proof (vw_key _ HW _ _ _ _ _ Hw) as K.
    assert (q = vstate w) by (unfold transitionCase in K; congruence). subst q.
    split; [exact Hw|].
    unfold pred_b in Hp. destruct (pred w); [|discriminate].
    apply TKey_eqb_true in Hp. now subst.
  - intros [Hw Hp]. exists (vstate w). split.
    + (* the state of a registered vertex is a key of the tier *)
      apply (dict_keys_get string_dec). subst d.
      unfold case_members, case_lookup in Hw.
      destruct (tier_lookup V (vindex v) (S (vtier v))) as [d0|]; [|destruct Hw].
      destruct (dict_get string_dec (vstate w) (sd_items d0)) as [y|]; [eauto|destruct Hw].
    + apply filter_In. split.
      * apply (proj2 (iter_v_In _ _)). now rewrite (vq_mem _ _ _ Q1).
      * unfold pred_b. rewrite Hp. now apply TKey_eqb_true.
Qed.

(** X13.  [ISuccedent(v)], on a graph built within the contract and for a
    vertex whose output symbol is in the alphabet, returns without
    duplicates exactly the vertices that were an endpoint of an edge given
    to [addEdge], lie at the index of [v] one tier above it, carry the
    output symbol of [v] as their symbol, and have the transition case of
    [v] as their recorded predecessor. *)
Theorem X13_ISuccedent (ops : list op) (g : gref) (h : heap) (v : vertex) :
  forallb (op_okb symbols) ops = true ->
  build symbols ops empty_heap = Ret (g, h) ->
  In (output delta v) symbols ->
  exists S_ h',
    ISuccedent delta symbols iter_v g v h = Ret (S_, h')
    /\ NoDup S_
    /\ (forall w, In w S_
                  <-> (exists e, In (Add e) ops /\ (w = fst e \/ w = snd e))
                      /\ vindex w = vindex v /\ vtier w = S (vtier v)
                      /\ vsymbol w = output delta v
                      /\ pred w = Some (transitionCase v)).
Proof.
  intros Hall Hb Hs. destruct (build_registry symbols ops g h Hall Hb) as (Ok & _ & Rg).
  destruct (ISuccedent_run h g v (ok_vshape _ _ Ok) (ok_vwf _ _ Ok) Hs)
    as (S_ & h' & R & _ & Hnd & Hin).
  exists S_, h'. split; [exact R|]. split; [exact Hnd|].
  intros w. rewrite Hin, (Rg _ _ _ _ w). unfold registered_by, transitionCase.
  split.
  - intros [[[H _]|[K Hr]] Hp]; [discriminate|].
    injection K as K1 K2 K3. auto.
  - intros (Hr & K1 & K2 & K3 & Hp). split; [|exact Hp].
    right. split; [|exact Hr]. now rewrite K1, K2, K3.
Qed.

End Succedents.

(** X13 on the graph of [Ex2.G2_ops]: [Ex2.a1] is the succedent of
    [Ex.a]. *)
Lemma X13_ISuccedent_witness :
  ((forall l x, In x (Ex.iter_v l) <-> In x l)
   /\ forallb (op_okb Ex.symbols) Ex2.G2_ops = true
   /\ build Ex.symbols Ex2.G2_ops empty_heap = Ret (O, Ex2.G2_heap)
   /\ In (output Ex.delta Ex.a) Ex.symbols)
  /\ exists S_ h',
       ISuccedent Ex.delta Ex.symbols Ex.iter_v O Ex.a Ex2.G2_heap = Ret (S_, h')
       /\ NoDup S_
       /\ (forall w, In w S_
                     <-> (exists e, In (Add e) Ex2.G2_ops /\ (w = fst e \/ w = snd e))
                         /\ vindex w = vindex Ex.a /\ vtier w = S (vtier Ex.a)
                         /\ vsymbol w = output Ex.delta Ex.a
                         /\ pred w = Some (transitionCase Ex.a)).
Proof.
  assert (Hi : forall l x, In x (Ex.iter_v l) <-> In x l) by (intros l x; reflexivity).
  assert (Hs : In (output Ex.delta Ex.a) Ex.symbols) by (vm_compute; left; reflexivity).
  split; [split; [exact Hi|split; [|split]];
          [vm_compute; reflexivity|vm_compute; reflexivity|exact Hs]|].
  apply (X13_ISuccedent Ex.delta Ex.symbols Ex.iter_v Hi Ex2.G2_ops O Ex2.G2_heap Ex.a);
    [vm_compute; reflexivity|vm_compute; reflexivity|exact Hs].
Defined.

(* ================================================================== *)
(** * [TransitionCase.vertex] *)

Section CaseVertex.
Variable iter_v : list vertex -> list vertex.

Lemma filter_method_eq (p : TKey) l :
  filter (fun x => method_eq_str x (t_state p) && method_eq_str x (t_symbol p)) l = [].
Proof. induction l; simpl; auto. Qed.

(** X14.  [T.vertex(P)] above the floor: with no precedent it fails on the
    attribute access, with a precedent of another index or of a tier other
    than the one below it fails its assertion.  With a precedent that fits,
    it returns the vertex of [T] with predecessor [P], which is a member of
    [T] afterwards; the case keeps its fields and all its members, and
    gains no second copy of a member.  A later call with a precedent of the
    same state and symbol returns an equal vertex and leaves the case as it
    is. *)
Theorem X14_case_vertex (T : TransitionCase) (t : nat) (P P' : TKey) :
  t_tier (tc_key T) = S t ->
  TransitionCase_vertex iter_v T None = Raise AttributeError
  /\ (t_index P <> t_index (tc_key T) \/ t_tier P <> t ->
      TransitionCase_vertex iter_v T (Some P) = Raise AssertionError)
  /\ (t_index P = t_index (tc_key T) -> t_tier P = t ->
      exists v T1,
        TransitionCase_vertex iter_v T (Some P) = Ret (Some v, T1)
        /\ transitionCase v = tc_key T /\ pred v = Some P
        /\ tc_key T1 = tc_key T
        /\ (forall w, In w (tc_members T1) <-> w = v \/ In w (tc_members T))
        /\ (NoDup (tc_members T) -> NoDup (tc_members T1))
        /\ (t_index P' = t_index P -> t_tier P' = t_tier P ->
            t_state P' = t_state P -> t_symbol P' = t_symbol P ->
            TransitionCase_vertex iter_v T1 (Some P') = Ret (Some v, T1))).
Proof.
  intros Ht. unfold TransitionCase_vertex. rewrite Ht.
  split; [reflexivity|]. split.
  - intros [H|H].
    + replace (t_index P =? t_index (tc_key T)) with false by lia. reflexivity.
    + destruct (t_index P =? t_index (tc_key T)); [|reflexivity]. cbn [negb].
      replace (Nat.eqb (t_tier P) t) with false
        by (symmetry; now apply Nat.eqb_neq).
      reflexivity.
  - intros Hi Hti.
    replace (t_index P =? t_index (tc_key T)) with true by lia.
    replace (Nat.eqb (t_tier P) t) with true by (symmetry; now apply Nat.eqb_eq).
    cbn [negb]. rewrite filter_method_eq.
    unfold mk_vertex. rewrite Ht. cbn [obind].
    eexists _, _. split; [reflexivity|].
    split; [destruct T as [[i t0 q s] m]; simpl in *; now subst|].
    split; [destruct P as [pi pt pq ps]; simpl in *; now subst|].
    split; [reflexivity|].
    split; [intros w; cbn [tc_members]; apply set_add_In|].
    split; [cbn [tc_members]; apply set_add_NoDup|].
    intros E1 E2 E3 E4. cbn [tc_key tc_members]. rewrite Ht.
    replace (t_index P' =? t_index (tc_key T)) with true by lia.
    replace (Nat.eqb (t_tier P') t) with true by (symmetry; apply Nat.eqb_eq; congruence).
    cbn [negb]. rewrite filter_method_eq.
    cbn [obind]. rewrite E3, E4.
    f_equal. f_equal. f_equal.
    unfold set_add.
    destruct (in_dec vertex_eq_dec _ (if in_dec vertex_eq_dec _ (tc_members T)
                                      then _ else _)) as [|N]; [reflexivity|].
    exfalso. apply N. destruct (in_dec vertex_eq_dec _ (tc_members T)); auto.
    apply in_or_app. right. now left.
Qed.

End CaseVertex.

(** X14 on the case [(1, 1, "a", "0")] and the precedent [(1, 0, "a",
    "0")]. *)
Lemma X14_case_vertex_witness :
  let T := mkTC (transitionCase Ex2.a1) [] in
  let P := transitionCase Ex.a in
  (t_tier (tc_key T) = 1%nat /\ t_index P = t_index (tc_key T) /\ t_tier P = O)
  /\ exists v T1,
       TransitionCase_vertex Ex.iter_v T (Some P) = Ret (Some v, T1)
       /\ transitionCase v = tc_key T /\ pred v = Some P
       /\ tc_key T1 = tc_key T
       /\ (forall w, In w (tc_members T1) <-> w = v \/ In w (tc_members T))
       /\ (NoDup (tc_members T) -> NoDup (tc_members T1))
       /\ (t_index P = t_index P -> t_tier P = t_tier P ->
           t_state P = t_state P -> t_symbol P = t_symbol P ->
           TransitionCase_vertex Ex.iter_v T1 (Some P) = Ret (Some v, T1)).
Proof.
  intros T P.
  split; [split; [|split]; reflexivity|].
  apply (X14_case_vertex Ex.iter_v T O P P); reflexivity.
Defined.

(* ================================================================== *)
(** * Where [TakeArbitraryWalk] stops before its first step *)

Lemma out_list_fst G v e : In e (out_list G v) -> fst e = v.
Proof. unfold out_list. rewrite in_map_iff. intros (w & <- & _). reflexivity. Qed.

Section WalkStart.
Variable symbols : list string.
Variable iter_v : list vertex -> list vertex.

(** X15.  [TakeArbitraryWalk(G, V0)], on a graph built within the contract:
    with no start vertex, [list(V0)[0]] raises [IndexError]; when no stored
    edge leaves the first start vertex the walk is empty; when a stored edge
    leaves a start vertex whose index is neither [0] nor [-1], the first
    write to the surface fails the assertion of [CellArray.__setitem__]. *)
Theorem X15_walk_start (ops : list op) (g : gref) (h : heap) (fuel : nat)
    (V0 : list vertex) :
  forallb (op_okb symbols) ops = true ->
  build symbols ops empty_heap = Ret (g, h) ->
  (iter_v V0 = [] -> TakeArbitraryWalk symbols iter_v fuel g V0 h = Raise IndexError)
  /\ (forall v0 r, iter_v V0 = v0 :: r ->
        (forall e, In e (replay ops []) -> fst e <> v0) ->
        exists h', TakeArbitraryWalk symbols iter_v fuel g V0 h = Ret ([], h'))
  /\ (forall v0 r w, iter_v V0 = v0 :: r ->
        In (v0, w) (replay ops []) -> vindex v0 <> 0 -> vindex v0 <> -1 ->
        TakeArbitraryWalk symbols iter_v (S fuel) g V0 h = Raise AssertionError).
Proof.
  intros Hall Hb. destruct (build_stores symbols ops g h Hall Hb) as (Ok & [Hh Hnd Hc]).
  assert (Hin : forall e, In e (replay ops []) <-> has (h_graph h g) e = true)
    by (intros e; now rewrite Hh, meme_In).
  unfold TakeArbitraryWalk. split; [|split].
  - intros ->. reflexivity.
  - intros v0 r -> Hno.
    destruct (outgoingEdgeOf_run h g v0 (ok_shape _ _ Ok)) as (h1 & R1 & _).
    rewrite (bind_run _ _ _ _ _ R1).
    destruct (out_list (h_graph h g) v0) as [|e l] eqn:E; [exists h1; reflexivity|].
    exfalso. assert (I : In e (out_list (h_graph h g) v0)) by (rewrite E; now left).
    apply (out_list_has _ _ _ (ok_wf _ _ Ok)) in I as [I1 I2].
    apply Hin in I2. now apply (Hno e).
  - intros v0 r w -> Hw H0 H1.
    destruct (outgoingEdgeOf_run h g v0 (ok_shape _ _ Ok)) as (h1 & R1 & _).
    rewrite (bind_run _ _ _ _ _ R1).
    destruct (out_list (h_graph h g) v0) as [|e l] eqn:E.
    + exfalso. assert (I : In (v0, w) (out_list (h_graph h g) v0)).
      { apply (out_list_has _ _ _ (ok_wf _ _ Ok)). split; [reflexivity|now apply Hin]. }
      rewrite E in I. destruct I.
    + assert (I : In e (out_list (h_graph h g) v0)) by (rewrite E; now left).
      apply out_list_fst in I. destruct e as [u v]. cbn [fst] in I. subst u.
      cbn [walkLoop]. apply bind_raise.
      unfold lift, ca_setitem, ca_top; cbn [base items length].
      replace ((vindex v0 <=? Z.of_nat 0 + 0) && (0 - 1 <=? vindex v0)) with false by lia.
      reflexivity.
Qed.

End WalkStart.

(** X15 on the graph of [Ex.G1_ops]: no stored edge leaves [Ex.b], and
    [Ex.a], which has index [1], cannot start a walk. *)
Lemma X15_walk_start_witness :
  (forallb (op_okb Ex.symbols) Ex.G1_ops = true
   /\ build Ex.symbols Ex.G1_ops empty_heap = Ret (O, Ex.G1_heap)
   /\ Ex.iter_v [Ex.b] = Ex.b :: []
   /\ (forall e, In e (replay Ex.G1_ops []) -> fst e <> Ex.b))
  /\ exists h', TakeArbitraryWalk Ex.symbols Ex.iter_v 5 O [Ex.b] Ex.G1_heap = Ret ([], h').
Proof.
  assert (Hno : forall e, In e (replay Ex.G1_ops []) -> fst e <> Ex.b).
  { vm_compute. intros e [<-|[]]. discriminate. }
  split; [split; [|split; [|split]];
          [vm_compute; reflexivity|vm_compute; reflexivity|reflexivity|exact Hno]|].
  refine (proj1 (proj2 (X15_walk_start Ex.symbols Ex.iter_v Ex.G1_ops O Ex.G1_heap 5 [Ex.b]
                          _ _)) Ex.b [] eq_refl Hno);
    vm_compute; reflexivity.
Defined.

(* ================================================================== *)
(** * Reads of a graph and of its registry *)

(** What a query of graph [g] may change: cells of [g] and of its registry
    get materialised; every edge list, counter and case keeps its
    contents. *)
Record r_ok (g : gref) (h h' : heap) : Prop := mk_r_ok
  { r_frame : frame_gv g (gV (h_graph h g)) h h';
    r_sim : gsim (h_graph h g) (h_graph h' g);
    r_shape : gshape (h_graph h' g);
    r_vshape : vshape (h_vaxis h' (gV (h_graph h g)));
    r_mem : forall i t q s,
        case_members (h_vaxis h' (gV (h_graph h g))) i t q s
        = case_members (h_vaxis h (gV (h_graph h g))) i t q s }.

Lemma r_ok_refl g h :
  gshape (h_graph h g) -> vshape (h_vaxis h (gV (h_graph h g))) -> r_ok g h h.
Proof. constructor; auto using frame_gv_refl, gsim_refl. Qed.

Lemma r_ok_trans g h1 h2 h3 : r_ok g h1 h2 -> r_ok g h2 h3 -> r_ok g h1 h3.
Proof.
  intros [a b c d e] [a' b' c' d' e'].
  pose proof (gs_V _ _ b) as EV. rewrite EV in *.
  constructor; eauto using frame_gv_trans, gsim_trans.
  intros. now rewrite e', e.
Qed.

Lemma q_ok_r_ok g h h' :
  q_ok g h h' -> vshape (h_vaxis h (gV (h_graph h g))) -> r_ok g h h'.
Proof.
  intros [F S Sh] HV. constructor; auto.
  - now apply frame_g_gv.
  - now rewrite (fg_vaxis _ _ _ F).
  - intros. now rewrite (fg_vaxis _ _ _ F).
Qed.

Lemma v_ok_r_ok g h h' :
  v_ok (gV (h_graph h g)) h h' -> gshape (h_graph h g) -> r_ok g h h'.
Proof.
  intros [F Sh M] Hs. constructor; auto.
  - now apply frame_v_gv.
  - rewrite (fv_graph _ _ _ F). apply gsim_refl.
  - now rewrite (fv_graph _ _ _ F).
Qed.

Lemma r_ok_vwf g h h' :
  r_ok g h h' -> vwf (h_vaxis h (gV (h_graph h g))) -> vwf (h_vaxis h' (gV (h_graph h' g))).
Proof.
  intros [_ S _ _ M] [a b c]. rewrite (gs_V _ _ S).
  constructor; intros *; rewrite ?M; auto.
Qed.

Lemma r_ok_g_ok g h h' : r_ok g h h' -> g_ok h g -> g_ok h' g.
Proof.
  intros R [a b c d e]. constructor.
  - apply (r_shape _ _ _ R).
  - eapply gsim_gwf; [apply (r_sim _ _ _ R)|assumption].
  - eapply gsim_gsum; [apply (r_sim _ _ _ R)|assumption].
  - rewrite (gs_V _ _ (r_sim _ _ _ R)). apply (r_vshape _ _ _ R).
  - now apply (r_ok_vwf _ _ _ R).
Qed.

Lemma r_ok_stores g h h' l : r_ok g h h' -> stores h g l -> stores h' g l.
Proof.
  intros R [a b c]. constructor; auto.
  - intros e. now rewrite (gsim_has _ _ e (r_sim _ _ _ R)).
  - now rewrite (gs_count _ _ (r_sim _ _ _ R)).
Qed.

Lemma r_ok_registry g h h' ops : r_ok g h h' -> registry h g ops -> registry h' g ops.
Proof.
  intros R Rg i t q s w. rewrite (gs_V _ _ (r_sim _ _ _ R)), (r_mem _ _ _ R). apply Rg.
Qed.

Lemma E_getitem_q h g i :
  gshape (h_graph h g) ->
  exists h', E_getitem g i h = Ret (slice_of (h_graph h g) i, h') /\ q_ok g h h'.
Proof.
  intros Hs. destruct (E_getitem_run h g i Hs) as (h' & R & F & S & _).
  exists h'. split; [exact R|]. constructor; auto.
  - now apply slice_same_gsim.
  - eapply slice_same_gshape; eauto.
Qed.

(** The members of the case [IPrecedent(v)] returns. *)
Definition prec_members (V : Vaxis) (v : vertex) : list vertex :=
  match v with
  | Floor _ _ _ => []
  | Upper i t _ _ pq ps => case_members V i t pq ps
  end.

(** The symbol of the recorded predecessor is one of the alphabet. *)
Definition pred_symbol_ok (symbols : list string) (v : vertex) : Prop :=
  match pred v with Some p => In (t_symbol p) symbols | None => True end.

Lemma wsum_perm {A} (f : A -> Z) l l' : Permutation l l' -> wsum f l = wsum f l'.
Proof. induction 1; simpl; lia. Qed.

Lemma wsum_ext_in {A} (f f' : A -> Z) l :
  (forall x, In x l -> f x = f' x) -> wsum f l = wsum f' l.
Proof.
  induction l as [|a l IH]; intros H; simpl; [reflexivity|].
  rewrite H, IH; auto; [intros; apply H; now right|now left].
Qed.

Lemma wsum_flat_map {A B} (k : A -> list B) l :
  Z.of_nat (length (flat_map k l)) = wsum (fun a => Z.of_nat (length (k a))) l.
Proof. induction l as [|a l IH]; simpl; [reflexivity|]. rewrite length_app. lia. Qed.

Lemma NoDup_same_length {A} (a b : list A) :
  NoDup a -> NoDup b -> (forall x, In x a <-> In x b) -> length a = length b.
Proof. intros Ha Hb H. apply Permutation_length. now apply NoDup_Permutation. Qed.

Lemma NoDup_flat_map_pair {A B} (mk : A -> B -> A * B) (k : A -> list B) l :
  (forall a b, fst (mk a b) = a) -> (forall a b b', mk a b = mk a b' -> b = b') ->
  NoDup l -> (forall a, NoDup (k a)) ->
  NoDup (flat_map (fun a => map (mk a) (k a)) l).
Proof.
  intros Hfst Hinj Hl Hk. induction Hl as [|a l Ha Hl IH]; simpl; [constructor|].
  apply NoDup_app; [apply NoDup_map_inj; [intros x y; apply Hinj|apply Hk]|exact IH|].
  intros x H1 H2. apply in_map_iff in H1 as (b & <- & _).
  apply in_flat_map in H2 as (a' & Ha' & H2). apply in_map_iff in H2 as (b' & E & _).
  apply (f_equal fst) in E. rewrite !Hfst in E. subst a'. contradiction.
Qed.

Lemma NoDup_flat_map_pair_r {A B} (k : B -> list A) l :
  NoDup l -> (forall b, NoDup (k b)) ->
  NoDup (flat_map (fun b => map (fun a => (a, b)) (k b)) l).
Proof.
  intros Hl Hk. induction Hl as [|b l Hb Hl IH]; simpl; [constructor|].
  apply NoDup_app; [apply NoDup_map_inj; [intros x y E; congruence|apply Hk]|exact IH|].
  intros x H1 H2. apply in_map_iff in H1 as (a & <- & _).
  apply in_flat_map in H2 as (b' & Hb' & H2). apply in_map_iff in H2 as (a' & E & _).
  injection E as _ ->. contradiction.
Qed.

(** Stored edges that leave a vertex of [L], all of whose vertices sit on
    cell [k], towards the other cell [j] of slice [i]. *)
Lemma count_out_edges G l L i j k :
  gwf G -> (forall e, has G e = meme e l) -> NoDup l -> NoDup L ->
  (forall p, In p L -> vindex p = k) ->
  (k = i /\ j = i + 1) \/ (k = i + 1 /\ j = i) ->
  wsum (fun p => Z.of_nat (length (ro G i p)) + Z.of_nat (length (lo G i p))) L
  = Z.of_nat (length (filter (fun f => memv (fst f) L && (vindex (snd f) =? j)) l)).
Proof.
  intros W Hh Hl HL Hk Hijk.
  assert (Hin : forall e, In e l <-> has G e = true) by (intros e; now rewrite Hh, meme_In).
  rewrite (wsum_ext_in _ (fun p => Z.of_nat (length (map (pair p) (ro G i p ++ lo G i p))))).
  2:{ intros p _. rewrite length_map, length_app. lia. }
  rewrite <- (wsum_flat_map (fun p => map (pair p) (ro G i p ++ lo G i p))).
  f_equal. apply NoDup_same_length.
  - apply (NoDup_flat_map_pair pair); auto; [intros; congruence|].
    intros p. destruct (wf_nd _ W i p) as (N1 & _ & N3 & _).
    apply NoDup_app; auto.
    intros x H1 H2. apply (wf_ro _ W) in H1. apply (wf_lo _ W) in H2. lia.
  - now apply NoDup_filter.
  - intros [p x]. rewrite in_flat_map, filter_In, andb_true_iff, Z.eqb_eq, Hin.
    cbn [fst snd]. unfold memv, mem. split.
    + intros (p' & Hp & Hx). apply in_map_iff in Hx as (x' & E & Hx). injection E as -> ->.
      pose proof (Hk _ Hp) as Kp.
      destruct (in_dec vertex_eq_dec p L); [|contradiction].
      apply in_app_or in Hx as [Hx|Hx].
      * apply ro_iff in Hx as (A1 & A2 & A3); auto. repeat split; auto. lia.
      * apply lo_iff in Hx as (A1 & A2 & A3); auto. repeat split; auto. lia.
    + intros (Hs & Hp & Hx). destruct (in_dec vertex_eq_dec p L) as [I|]; [|discriminate].
      pose proof (Hk _ I) as Kp. exists p. split; [exact I|].
      apply in_map. apply in_or_app.
      destruct Hijk as [[-> ->]|[-> ->]].
      * left. apply ro_iff; auto.
      * right. apply lo_iff; auto.
Qed.

(** Stored edges that enter a vertex of [L] from the other cell [j] of
    slice [i]. *)
Lemma count_in_edges G l L i j k :
  gwf G -> (forall e, has G e = meme e l) -> NoDup l -> NoDup L ->
  (forall p, In p L -> vindex p = k) ->
  (k = i /\ j = i + 1) \/ (k = i + 1 /\ j = i) ->
  wsum (fun p => Z.of_nat (length (li G i p)) + Z.of_nat (length (ri G i p))) L
  = Z.of_nat (length (filter (fun f => memv (snd f) L && (vindex (fst f) =? j)) l)).
Proof.
  intros W Hh Hl HL Hk Hijk.
  assert (Hin : forall e, In e l <-> has G e = true) by (intros e; now rewrite Hh, meme_In).
  rewrite (wsum_ext_in _ (fun p => Z.of_nat (length (map (fun x => (x, p))
                                                         (li G i p ++ ri G i p))))).
  2:{ intros p _. rewrite length_map, length_app. lia. }
  rewrite <- (wsum_flat_map (fun p => map (fun x => (x, p)) (li G i p ++ ri G i p))).
  f_equal. apply NoDup_same_length.
  - apply NoDup_flat_map_pair_r; auto.
    intros p. destruct (wf_nd _ W i p) as (_ & N2 & _ & N4).
    apply NoDup_app; auto.
    intros x H1 H2. apply (wf_li _ W) in H1. apply (wf_ri _ W) in H2. lia.
  - now apply NoDup_filter.
  - intros [x p]. rewrite in_flat_map, filter_In, andb_true_iff, Z.eqb_eq, Hin.
    cbn [fst snd]. unfold memv, mem. split.
    + intros (p' & Hp & Hx). apply in_map_iff in Hx as (x' & E & Hx). injection E as -> ->.
      pose proof (Hk _ Hp) as Kp.
      destruct (in_dec vertex_eq_dec p L); [|contradiction].
      apply in_app_or in Hx as [Hx|Hx].
      * apply li_iff in Hx as (A1 & A2 & A3); auto. repeat split; auto. lia.
      * apply ri_iff in Hx as (A1 & A2 & A3); auto. repeat split; auto. lia.
    + intros (Hs & Hp & Hx). destruct (in_dec vertex_eq_dec p L) as [I|]; [|discriminate].
      pose proof (Hk _ I) as Kp. exists p. split; [exact I|].
      apply (in_map (fun y => (y, p))). apply in_or_app.
      destruct Hijk as [[-> ->]|[-> ->]].
      * right. apply ri_iff; auto.
      * left. apply li_iff; auto.
Qed.

(** The counting loops of [CountIPrecedents] and [CountISuccedents]. *)
Lemma count_fold g i (F : Z -> EdgeListOf -> Z) (f : EdgeListOf -> Z) L : forall h acc,
  (forall c a, F c a = c + f a) ->
  gshape (h_graph h g) -> (forall p, In p L -> in_slice i p) ->
  exists h',
    foldM (fun cnt p => a <- E_at g i p ;; ret (F cnt a)) L acc h
    = Ret (acc + wsum (fun p => f (el_of (h_graph h g) i p)) L, h')
    /\ q_ok g h h'.
Proof.
  induction L as [|p L IH]; intros h acc HF Hs Hin.
  - exists h. simpl. rewrite Z.add_0_r. split; [reflexivity|now apply q_ok_refl].
  - destruct (E_at_q h g i p Hs (Hin p (or_introl eq_refl))) as (h1 & R1 & Q1).
    assert (Inner : (a <- E_at g i p ;; ret (F acc a)) h
                    = Ret (acc + f (el_of (h_graph h g) i p), h1)).
    { rewrite (bind_run _ _ _ _ _ R1). unfold ret. now rewrite HF. }
    cbn [foldM]. rewrite (bind_run _ _ _ _ _ Inner).
    destruct (IH h1 (acc + f (el_of (h_graph h g) i p)) HF (q_shape _ _ _ Q1))
      as (h2 & R2 & Q2); [intros q Hq; apply Hin; now right|].
    exists h2. split; [|eapply q_ok_trans; eauto].
    rewrite R2. f_equal. f_equal. cbn [wsum fold_right].
    rewrite (wsum_ext_in (fun p0 => f (el_of (h_graph h1 g) i p0))
                         (fun p0 => f (el_of (h_graph h g) i p0))).
    + unfold wsum. lia.
    + intros x _. now rewrite (gs_el _ _ (q_sim _ _ _ Q1)).
Qed.

Section PrecedentCount.
Variable delta : string -> string -> string * string * Z.
Variable symbols : list string.
Variable iter_v : list vertex -> list vertex.
Hypothesis iter_v_perm : forall l, Permutation (iter_v l) l.

Lemma iter_v_perm_In l x : In x (iter_v l) <-> In x l.
Proof.
  split; apply Permutation_in; [apply iter_v_perm|apply Permutation_sym, iter_v_perm].
Qed.

Lemma IPrecedent_run h g v :
  g_ok h g -> pred_symbol_ok symbols v ->
  exists P h',
    IPrecedent symbols g v h = Ret (P, h')
    /\ elems P = prec_members (h_vaxis h (gV (h_graph h g))) v
    /\ r_ok g h h'.
Proof.
  intros Ok Hp. destruct v as [i q s|i t q s pq ps]; cbn [IPrecedent prec_members].
  - exists (PlainSet []), h. split; [reflexivity|]. split; [reflexivity|].
    apply r_ok_refl; apply Ok.
  - unfold pred_symbol_ok in Hp; cbn [pred t_symbol] in Hp.
    destruct (V_at_id_run symbols h g i t pq ps (ok_vshape _ _ Ok) Hp) as (h' & R & Q).
    eexists _, h'. rewrite (bind_run _ _ _ _ _ R). split; [reflexivity|].
    split; [reflexivity|]. apply v_ok_r_ok; [assumption|apply Ok].
Qed.

Lemma prec_members_index V v p : vwf V -> In p (prec_members V v) -> vindex p = vindex v.
Proof.
  intros W H. destruct v as [|i t q s pq ps]; [destruct H|].
  apply (vw_key _ W) in H. unfold transitionCase in H. injection H as -> _ _ _. reflexivity.
Qed.

Lemma CountIPrecedents_run h g e :
  g_ok h g -> near e -> pred_symbol_ok symbols (snd e) ->
  exists h',
    CountIPrecedents symbols iter_v g e h
    = Ret (wsum (fun p => Z.of_nat (length (ro (h_graph h g) (index e) p))
                          + Z.of_nat (length (lo (h_graph h g) (index e) p)))
                (prec_members (h_vaxis h (gV (h_graph h g))) (snd e)), h')
    /\ r_ok g h h'.
Proof.
  intros Ok Hn Hp. unfold CountIPrecedents. fold (index e).
  destruct (E_getitem_q h g (index e) (ok_shape _ _ Ok)) as (h1 & R1 & Q1).
  rewrite (bind_run _ _ _ _ _ R1).
  pose proof (q_ok_r_ok _ _ _ Q1 (ok_vshape _ _ Ok)) as RO1.
  pose proof (r_ok_g_ok _ _ _ RO1 Ok) as Ok1.
  destruct (IPrecedent_run h1 g (snd e) Ok1 Hp) as (P & h2 & R2 & EP & RO2).
  rewrite (bind_run _ _ _ _ _ R2).
  pose proof (r_ok_g_ok _ _ _ RO2 Ok1) as Ok2.
  assert (EV : prec_members (h_vaxis h1 (gV (h_graph h1 g))) (snd e)
               = prec_members (h_vaxis h (gV (h_graph h g))) (snd e)).
  { rewrite (gs_V _ _ (r_sim _ _ _ RO1)). unfold prec_members.
    destruct (snd e); [reflexivity|apply (r_mem _ _ _ RO1)]. }
  rewrite EP, EV.
  set (L := prec_members (h_vaxis h (gV (h_graph h g))) (snd e)) in *.
  assert (Hsl : forall p, In p (iter_v L) -> in_slice (index e) p).
  { intros p Hp'. apply (proj1 (iter_v_perm_In _ _)) in Hp'.
    unfold L in Hp'. apply (prec_members_index _ _ _ (ok_vwf _ _ Ok)) in Hp'.
    unfold in_slice, index, near in *. lia. }
  destruct (count_fold g (index e)
              (fun cnt a => cnt + Z.of_nat (length (right_outgoing a))
                            + Z.of_nat (length (left_outgoing a)))
              (fun a => Z.of_nat (length (right_outgoing a))
                        + Z.of_nat (length (left_outgoing a)))
              (iter_v L) h2 0 (fun c a => eq_sym (Z.add_assoc _ _ _))
              (ok_shape _ _ Ok2) Hsl) as (h3 & R3 & Q3).
  exists h3. split.
  - rewrite R3. f_equal. f_equal. rewrite Z.add_0_l.
    rewrite (wsum_perm _ _ _ (iter_v_perm L)).
    apply wsum_ext_in. intros p _. unfold ro, lo.
    now rewrite (gs_el _ _ (r_sim _ _ _ RO2)), (gs_el _ _ (r_sim _ _ _ RO1)).
  - eapply r_ok_trans; [exact RO1|]. eapply r_ok_trans; [exact RO2|].
    apply q_ok_r_ok; [exact Q3|apply Ok2].
Qed.

Lemma CountISuccedents_run h g e :
  g_ok h g -> near e -> In (output delta (fst e)) symbols ->
  exists S_ h',
    CountISuccedents delta symbols iter_v g e h
    = Ret (wsum (fun p => Z.of_nat (length (li (h_graph h g) (index e) p))
                          + Z.of_nat (length (ri (h_graph h g) (index e) p))) S_, h')
    /\ NoDup S_
    /\ (forall w, In w S_
                  <-> In w (case_members (h_vaxis h (gV (h_graph h g)))
                              (vindex (fst e)) (S (vtier (fst e))) (vstate w)
                              (output delta (fst e)))
                      /\ pred w = Some (transitionCase (fst e)))
    /\ r_ok g h h'.
Proof.
  intros Ok Hn Hs. unfold CountISuccedents. fold (index e).
  destruct (E_getitem_q h g (index e) (ok_shape _ _ Ok)) as (h1 & R1 & Q1).
  rewrite (bind_run _ _ _ _ _ R1).
  pose proof (q_ok_r_ok _ _ _ Q1 (ok_vshape _ _ Ok)) as RO1.
  pose proof (r_ok_g_ok _ _ _ RO1 Ok) as Ok1.
  destruct (ISuccedent_run delta symbols iter_v iter_v_perm_In h1 g (fst e)
              (ok_vshape _ _ Ok1) (ok_vwf _ _ Ok1) Hs) as (S_ & h2 & R2 & Q2 & Hnd & Hin).
  rewrite (bind_run _ _ _ _ _ R2).
  pose proof (v_ok_r_ok _ _ _ Q2 (ok_shape _ _ Ok1)) as RO2.
  pose proof (r_ok_g_ok _ _ _ RO2 Ok1) as Ok2.
  assert (Hin' : forall w, In w S_
                  <-> In w (case_members (h_vaxis h (gV (h_graph h g)))
                              (vindex (fst e)) (S (vtier (fst e))) (vstate w)
                              (output delta (fst e)))
                      /\ pred w = Some (transitionCase (fst e))).
  { intros w. rewrite Hin, (gs_V _ _ (r_sim _ _ _ RO1)), (r_mem _ _ _ RO1). tauto. }
  assert (Hsl : forall p, In p (iter_v S_) -> in_slice (index e) p).
  { intros p Hp'. apply (proj1 (iter_v_perm_In _ _)) in Hp'. apply Hin' in Hp' as [Hp' _].
    apply (vw_key _ (ok_vwf _ _ Ok)) in Hp'.
    apply (f_equal t_index) in Hp'. cbn [t_index transitionCase] in Hp'.
    unfold in_slice, index, near in *. lia. }
  destruct (count_fold g (index e)
              (fun cnt a => cnt + Z.of_nat (length (left_incoming a))
                            + Z.of_nat (length (right_incoming a)))
              (fun a => Z.of_nat (length (left_incoming a))
                        + Z.of_nat (length (right_incoming a)))
              (iter_v S_) h2 0 (fun c a => eq_sym (Z.add_assoc _ _ _))
              (ok_shape _ _ Ok2) Hsl) as (h3 & R3 & Q3).
  exists S_, h3. split; [|split; [exact Hnd|split; [exact Hin'|]]].
  - rewrite R3. f_equal. f_equal. rewrite Z.add_0_l.
    rewrite (wsum_perm _ _ _ (iter_v_perm S_)).
    apply wsum_ext_in. intros p _. unfold li, ri.
    now rewrite (gs_el _ _ (r_sim _ _ _ RO2)), (gs_el _ _ (r_sim _ _ _ RO1)).
  - eapply r_ok_trans; [exact RO1|]. eapply r_ok_trans; [exact RO2|].
    apply q_ok_r_ok; [exact Q3|apply Ok2].
Qed.

(** The stored edges [CountIPrecedents((u, v))] counts: those that leave a
    vertex of the predecessor case of [v] towards the cell of [u]. *)
Definition prec_edge (u v : vertex) (f : edge) : bool :=
  pred_b (transitionCase (fst f)) v && (vindex (snd f) =? vindex u).

(** The stored edges [CountISuccedents((u, v))] counts: those that enter,
    from the cell of [v], a vertex whose predecessor case is that of [u] and
    whose symbol is the output of [u]. *)
Definition succ_edge (u v : vertex) (f : edge) : bool :=
  pred_b (transitionCase u) (snd f) && String.eqb (vsymbol (snd f)) (output delta u)
  && (vindex (fst f) =? vindex v).

Lemma stored_registered ops e :
  In e (replay ops []) -> registered_by ops (fst e) /\ registered_by ops (snd e).
Proof.
  intros H. apply replay_In in H as [[]|H]. split; exists e; auto.
Qed.

(** X16.  [CountIPrecedents((u, v))], for an index-adjacent pair on a graph
    built within the contract, is the number of stored edges that leave a
    vertex of the predecessor case of [v] towards the cell of [u]; it is [0]
    when [v] is on the floor. *)
Theorem X16_CountIPrecedents (ops : list op) (g : gref) (h : heap) (u v : vertex) :
  forallb (op_okb symbols) ops = true ->
  build symbols ops empty_heap = Ret (g, h) ->
  adjacentb (u, v) = true -> pred_symbol_ok symbols v ->
  exists h',
    CountIPrecedents symbols iter_v g (u, v) h
    = Ret (Z.of_nat (length (filter (prec_edge u v) (replay ops []))), h')
    /\ (vtier v = O -> filter (prec_edge u v) (replay ops []) = []).
Proof.
  intros Hall Hb Ha Hp. apply adjacentb_true in Ha.
  destruct (build_registry symbols ops g h Hall Hb) as (Ok & [Hh Hnd Hc] & Rg).
  destruct (CountIPrecedents_run h g (u, v) Ok (adjacent_near _ Ha) Hp) as (h' & R & _).
  exists h'. split.
  - rewrite R. f_equal. f_equal. cbn [snd].
    set (V := h_vaxis h (gV (h_graph h g))) in *.
    assert (HL : NoDup (prec_members V v)).
    { destruct v; [constructor|apply (vw_nd _ (ok_vwf _ _ Ok))]. }
    unfold adjacent in Ha; cbn [fst snd] in Ha.
    rewrite (count_out_edges _ (replay ops []) (prec_members V v) (index (u, v))
               (vindex u) (vindex v) (ok_wf _ _ Ok) Hh Hnd HL);
      [|intros p Hp'; now apply (prec_members_index V v p (ok_vwf _ _ Ok))
       |unfold index; cbn [fst snd]; lia].
    apply (f_equal Z.of_nat). apply (f_equal (@length edge)).
    apply filter_ext_in. intros [p x] Hf. cbn [fst snd].
    unfold prec_edge. cbn [fst snd]. f_equal. unfold pred_b, prec_members, memv, mem.
    destruct v as [|i t q s pq ps]; cbn [pred]; [reflexivity|].
    destruct (stored_registered ops (p, x) Hf) as [Rp _]. cbn [fst] in Rp.
    destruct (in_dec vertex_eq_dec p (case_members V i t pq ps)) as [I|N].
    + apply (vw_key _ (ok_vwf _ _ Ok)) in I. symmetry. apply TKey_eqb_true. now symmetry.
    + destruct (TKey_eqb (mkT i t pq ps) (transitionCase p)) eqn:E; [|reflexivity].
      apply TKey_eqb_true in E. exfalso. apply N. apply Rg. right. split; auto.
  - intros Hv. destruct v; [|discriminate].
    unfold prec_edge, pred_b; cbn [pred]. clear.
    induction (replay ops []); simpl; auto.
Qed.

(** X17.  [CountISuccedents((u, v))], for an index-adjacent pair on a graph
    built within the contract and a [u] whose output symbol is in the
    alphabet, is the number of stored edges that enter, from the cell of
    [v], a vertex whose recorded predecessor is the transition case of [u]
    and whose symbol is the output symbol of [u]. *)
Theorem X17_CountISuccedents (ops : list op) (g : gref) (h : heap) (u v : vertex) :
  forallb (op_okb symbols) ops = true ->
  build symbols ops empty_heap = Ret (g, h) ->
  adjacentb (u, v) = true -> In (output delta u) symbols ->
  exists h',
    CountISuccedents delta symbols iter_v g (u, v) h
    = Ret (Z.of_nat (length (filter (succ_edge u v) (replay ops []))), h').
Proof.
  intros Hall Hb Ha Hs. apply adjacentb_true in Ha.
  destruct (build_registry symbols ops g h Hall Hb) as (Ok & [Hh Hnd Hc] & Rg).
  destruct (CountISuccedents_run h g (u, v) Ok (adjacent_near _ Ha) Hs)
    as (S_ & h' & R & HS & Hin & _).
  exists h'. rewrite R. f_equal. f_equal. cbn [fst] in *.
  set (V := h_vaxis h (gV (h_graph h g))) in *.
  unfold adjacent in Ha; cbn [fst snd] in Ha.
  assert (Hk : forall p, In p S_ -> vindex p = vindex u).
  { intros p Hp. apply Hin in Hp as [Hp _]. apply (vw_key _ (ok_vwf _ _ Ok)) in Hp.
    unfold transitionCase in Hp. now injection Hp. }
  rewrite (count_in_edges _ (replay ops []) S_ (index (u, v))
             (vindex v) (vindex u) (ok_wf _ _ Ok) Hh Hnd HS Hk);
    [|unfold index; cbn [fst snd]; lia].
  apply (f_equal Z.of_nat). apply (f_equal (@length edge)).
  apply filter_ext_in. intros [x p] Hf. cbn [fst snd].
  unfold succ_edge. cbn [fst snd]. f_equal. unfold pred_b, memv, mem. cbn [snd].
  destruct (stored_registered ops (x, p) Hf) as [_ Rp]. cbn [snd] in Rp.
  destruct (in_dec vertex_eq_dec p S_) as [I|N].
  - apply Hin in I as [I Hp]. rewrite Hp.
    apply (vw_key _ (ok_vwf _ _ Ok)) in I. unfold transitionCase in I.
    injection I as _ _ Es. symmetry. apply andb_true_iff. split.
    + now apply TKey_eqb_true.
    + now apply String.eqb_eq.
  - destruct (pred p) as [k|] eqn:E; [|reflexivity].
    destruct (TKey_eqb k (transitionCase u)) eqn:E1; [|reflexivity].
    destruct (String.eqb (vsymbol p) (output delta u)) eqn:E2; [|reflexivity].
    apply TKey_eqb_true in E1. apply String.eqb_eq in E2. subst k.
    exfalso. apply N. apply Hin. split; [|exact E].
    apply Rg. right. split; [|exact Rp].
    destruct p as [|i t q s pq ps]; [discriminate|].
    cbn [pred] in E. unfold transitionCase in E. injection E as E3 E4 _ _.
    unfold transitionCase. cbn [vindex vtier vstate vsymbol] in *.
    now rewrite E2, E3, E4.
Qed.

End PrecedentCount.

(** X16 on the graph of [Ex2.G3_ops]: the edge [(a, v0)] leaves the
    predecessor case of [a1] towards the cell of [v0]. *)
Lemma X16_CountIPrecedents_witness :
  ((forall l, Permutation (Ex.iter_v l) l)
   /\ forallb (op_okb Ex.symbols) Ex2.G3_ops = true
   /\ build Ex.symbols Ex2.G3_ops empty_heap = Ret (O, Ex2.G3_heap)
   /\ adjacentb (Ex.v0, Ex2.a1) = true
   /\ pred_symbol_ok Ex.symbols Ex2.a1)
  /\ exists h',
       CountIPrecedents Ex.symbols Ex.iter_v O (Ex.v0, Ex2.a1) Ex2.G3_heap
       = Ret (Z.of_nat (length (filter (prec_edge Ex.v0 Ex2.a1) (replay Ex2.G3_ops []))), h')
       /\ (vtier Ex2.a1 = O -> filter (prec_edge Ex.v0 Ex2.a1) (replay Ex2.G3_ops []) = []).
Proof.
  assert (Hi : forall l, Permutation (Ex.iter_v l) l) by (intros l; apply Permutation_refl).
  assert (Hp : pred_symbol_ok Ex.symbols Ex2.a1) by (vm_compute; left; reflexivity).
  split; [split; [exact Hi|split; [|split; [|split]]];
          [vm_compute; reflexivity|vm_compute; reflexivity|vm_compute; reflexivity|exact Hp]|].
  apply (X16_CountIPrecedents Ex.symbols Ex.iter_v Hi Ex2.G3_ops O Ex2.G3_heap Ex.v0 Ex2.a1);
    [vm_compute; reflexivity|vm_compute; reflexivity|vm_compute; reflexivity|exact Hp].
Defined.

(** X17 on the graph of [Ex2.G3_ops]: the edge [(v0, a1)] enters the
    succedent [a1] of [a] from the cell of [v0]. *)
Lemma X17_CountISuccedents_witness :
  ((forall l, Permutation (Ex.iter_v l) l)
   /\ forallb (op_okb Ex.symbols) Ex2.G3_ops = true
   /\ build Ex.symbols Ex2.G3_ops empty_heap = Ret (O, Ex2.G3_heap)
   /\ adjacentb (Ex.a, Ex.v0) = true
   /\ In (output Ex.delta Ex.a) Ex.symbols)
  /\ exists h',
       CountISuccedents Ex.delta Ex.symbols Ex.iter_v O (Ex.a, Ex.v0) Ex2.G3_heap
       = Ret (Z.of_nat (length (filter (succ_edge Ex.delta Ex.a Ex.v0)
                                       (replay Ex2.G3_ops []))), h').
Proof.
  assert (Hi : forall l, Permutation (Ex.iter_v l) l) by (intros l; apply Permutation_refl).
  assert (Hs : In (output Ex.delta Ex.a) Ex.symbols) by (vm_compute; left; reflexivity).
  split; [split; [exact Hi|split; [|split; [|split]]];
          [vm_compute; reflexivity|vm_compute; reflexivity|vm_compute; reflexivity|exact Hs]|].
  apply (X17_CountISuccedents Ex.delta Ex.symbols Ex.iter_v Hi Ex2.G3_ops O Ex2.G3_heap
           Ex.a Ex.v0);
    [vm_compute; reflexivity|vm_compute; reflexivity|vm_compute; reflexivity|exact Hs].
Defined.

(* ================================================================== *)
(** * The edges [GetIPrecedents] and [GetISuccedents] collect *)

Lemma out_list_gsim G G' v : gsim G G' -> out_list G' v = out_list G v.
Proof. intros S. unfold out_list. now rewrite !(gs_el _ _ S). Qed.

Lemma in_list_gsim G G' v : gsim G G' -> in_list G' v = in_list G v.
Proof. intros S. unfold in_list. now rewrite !(gs_el _ _ S). Qed.

Lemma prec_members_r_ok g h h' v :
  r_ok g h h' ->
  prec_members (h_vaxis h' (gV (h_graph h' g))) v
  = prec_members (h_vaxis h (gV (h_graph h g))) v.
Proof.
  intros R. rewrite (gs_V _ _ (r_sim _ _ _ R)). unfold prec_members.
  destruct v; [reflexivity|apply (r_mem _ _ _ R)].
Qed.

(** The test of [GetIPrecedents] on a candidate edge [f], given the members
    [Lu] of the predecessor case of [u]. *)
Definition prec_cond (Lu : list vertex) (u : vertex) (f : edge) : bool :=
  memv (snd f) Lu || vertex_eqb u (snd f)
  || (Z.of_nat (vtier (snd f)) <? Z.of_nat (vtier u) - 1).

(** Membership in [ISuccedent(u)], read off the registry. *)
Definition succ_mem (delta : string -> string -> string * string * Z)
    (V : Vaxis) (u w : vertex) : bool :=
  memv w (case_members V (vindex u) (S (vtier u)) (vstate w) (output delta u))
  && pred_b (transitionCase u) w.

(** The test of [GetISuccedents] on a candidate edge [f]. *)
Definition succ_cond (delta : string -> string -> string * string * Z)
    (V : Vaxis) (v : vertex) (f : edge) : bool :=
  succ_mem delta V v (fst f) || vertex_eqb v (fst f)
  || (Z.of_nat (vtier v) + 1 <? Z.of_nat (vtier (fst f))).

Lemma pred_b_true T w : pred_b T w = true <-> pred w = Some T.
Proof.
  unfold pred_b. destruct (pred w) as [k|]; [|split; discriminate].
  rewrite TKey_eqb_true. split; [now intros ->|now intros [= ->]].
Qed.

Section PrecedentEdges.
Variable delta : string -> string -> string * string * Z.
Variable symbols : list string.
Variable iter_v : list vertex -> list vertex.
Hypothesis iter_v_In : forall l x, In x (iter_v l) <-> In x l.

Lemma prec_inner g u O_ : forall h P,
  g_ok h g -> pred_symbol_ok symbols u ->
  exists h',
    foldM (fun P f =>
             let u_ := snd f in
             Pu <- IPrecedent symbols g u ;;
             if memv u_ (elems Pu) || vertex_eqb u u_
                || (Z.of_nat (vtier u_) <? Z.of_nat (vtier u) - 1)
             then ret (P ++ [(fst f, u_)]) else ret P)
          O_ P h
    = Ret (P ++ filter (prec_cond (prec_members (h_vaxis h (gV (h_graph h g))) u) u) O_, h')
    /\ r_ok g h h'.
Proof.
  set (body := fun (P : list (vertex * vertex)) (f : vertex * vertex) =>
                 let u_ := snd f in
                 Pu <- IPrecedent symbols g u ;;
                 if memv u_ (elems Pu) || vertex_eqb u u_
                    || (Z.of_nat (vtier u_) <? Z.of_nat (vtier u) - 1)
                 then ret (P ++ [(fst f, u_)]) else ret P).
  induction O_ as [|f O_ IH]; intros h P Ok Hp.
  - exists h. simpl. rewrite app_nil_r. split; [reflexivity|apply r_ok_refl; apply Ok].
  - destruct (IPrecedent_run symbols h g u Ok Hp) as (Pu & h1 & R1 & EP & RO1).
    set (c := prec_cond (prec_members (h_vaxis h (gV (h_graph h g))) u) u).
    assert (Inner : body P f h = Ret (P ++ (if c f then [f] else []), h1)).
    { unfold body. cbv zeta. rewrite (bind_run _ _ _ _ _ R1), EP. unfold c, prec_cond.
      destruct (memv (snd f) _ || vertex_eqb u (snd f)
                || (Z.of_nat (vtier (snd f)) <? Z.of_nat (vtier u) - 1)).
      - now rewrite <- surjective_pairing.
      - now rewrite app_nil_r. }
    change (foldM body (f :: O_) P h) with (bind (body P f) (fun b' => foldM body O_ b') h).
    rewrite (bind_run _ _ _ _ _ Inner).
    pose proof (r_ok_g_ok _ _ _ RO1 Ok) as Ok1.
    destruct (IH h1 (P ++ (if c f then [f] else [])) Ok1 Hp) as (h2 & R2 & RO2).
    exists h2. split; [|eapply r_ok_trans; eauto].
    rewrite R2, (prec_members_r_ok _ _ _ u RO1). fold c. cbn [filter].
    rewrite <- app_assoc. destruct (c f); reflexivity.
Qed.

Lemma prec_outer g u L : forall h P,
  g_ok h g -> pred_symbol_ok symbols u ->
  exists h',
    foldM (fun P v_ =>
             O_ <- outgoingEdgeOf g v_ ;;
             foldM (fun P f =>
                      let u_ := snd f in
                      Pu <- IPrecedent symbols g u ;;
                      if memv u_ (elems Pu) || vertex_eqb u u_
                         || (Z.of_nat (vtier u_) <? Z.of_nat (vtier u) - 1)
                      then ret (P ++ [(fst f, u_)]) else ret P)
                   O_ P)
          L P h
    = Ret (P ++ flat_map (fun v_ =>
                            filter (prec_cond (prec_members (h_vaxis h (gV (h_graph h g))) u) u)
                                   (out_list (h_graph h g) v_)) L, h')
    /\ r_ok g h h'.
Proof.
  set (body := fun (P : list (vertex * vertex)) (f : vertex * vertex) =>
                 let u_ := snd f in
                 Pu <- IPrecedent symbols g u ;;
                 if memv u_ (elems Pu) || vertex_eqb u u_
                    || (Z.of_nat (vtier u_) <? Z.of_nat (vtier u) - 1)
                 then ret (P ++ [(fst f, u_)]) else ret P).
  set (obody := fun (P : list (vertex * vertex)) (v_ : vertex) =>
                  O_ <- outgoingEdgeOf g v_ ;; foldM body O_ P).
  induction L as [|v_ L IH]; intros h P Ok Hp.
  - exists h. simpl. rewrite app_nil_r. split; [reflexivity|apply r_ok_refl; apply Ok].
  - destruct (outgoingEdgeOf_run h g v_ (ok_shape _ _ Ok)) as (h1 & R1 & Q1).
    pose proof (q_ok_r_ok _ _ _ Q1 (ok_vshape _ _ Ok)) as RO1.
    pose proof (r_ok_g_ok _ _ _ RO1 Ok) as Ok1.
    destruct (prec_inner g u (out_list (h_graph h g) v_) h1 P Ok1 Hp) as (h2 & R2 & RO2).
    fold body in R2.
    pose proof (r_ok_g_ok _ _ _ RO2 Ok1) as Ok2.
    pose proof (r_ok_trans _ _ _ _ RO1 RO2) as RO12.
    assert (Inner : obody P v_ h
                    = Ret (P ++ filter (prec_cond (prec_members (h_vaxis h (gV (h_graph h g))) u) u)
                                       (out_list (h_graph h g) v_), h2)).
    { unfold obody. rewrite (bind_run _ _ _ _ _ R1), R2.
      now rewrite (prec_members_r_ok _ _ _ u RO1). }
    change (foldM obody (v_ :: L) P h) with (bind (obody P v_) (fun b' => foldM obody L b') h).
    rewrite (bind_run _ _ _ _ _ Inner).
    destruct (IH h2 (P ++ filter (prec_cond (prec_members (h_vaxis h (gV (h_graph h g))) u) u)
                                 (out_list (h_graph h g) v_)) Ok2 Hp) as (h3 & R3 & RO3).
    exists h3. split; [|eapply r_ok_trans; eauto].
    rewrite R3, (prec_members_r_ok _ _ _ u RO12). cbn [flat_map].
    rewrite <- app_assoc.
    rewrite (flat_map_ext
               (fun v_ => filter (prec_cond (prec_members (h_vaxis h (gV (h_graph h g))) u) u)
                                 (out_list (h_graph h2 g) v_))
               (fun v_ => filter (prec_cond (prec_members (h_vaxis h (gV (h_graph h g))) u) u)
                                 (out_list (h_graph h g) v_))); [reflexivity|].
    intros a. now rewrite (out_list_gsim _ _ a (r_sim _ _ _ RO12)).
Qed.

(** X18.  [GetIPrecedents((u, v))] on a graph built within the contract
    returns no edge when [v] is on the floor; otherwise it returns, each
    once, the stored edges [(a, b)] that leave a vertex [a] of the
    predecessor case of [v] and whose target [b] is in the predecessor case
    of [u], or is [u] itself, or lies more than one tier below [u]. *)
Theorem X18_GetIPrecedents (ops : list op) (g : gref) (h : heap) (u v : vertex) :
  forallb (op_okb symbols) ops = true ->
  build symbols ops empty_heap = Ret (g, h) ->
  pred_symbol_ok symbols u -> pred_symbol_ok symbols v ->
  exists P h',
    GetIPrecedents symbols iter_v g (u, v) h = Ret (P, h')
    /\ NoDup P
    /\ (vtier v = O -> P = [])
    /\ (forall a b, In (a, b) P
                    <-> In (a, b) (replay ops [])
                        /\ pred v = Some (transitionCase a)
                        /\ (pred u = Some (transitionCase b) \/ b = u
                            \/ (vtier b + 1 < vtier u)%nat)).
Proof.
  intros Hall Hb Hu Hv.
  destruct (build_registry symbols ops g h Hall Hb) as (Ok & [Hh Hnd Hc] & Rg).
  assert (Hin : forall e, In e (replay ops []) <-> has (h_graph h g) e = true)
    by (intros e; now rewrite Hh, meme_In).
  unfold GetIPrecedents.
  destruct (Nat.eqb (vtier v) 0) eqn:Ev.
  - apply Nat.eqb_eq in Ev. exists [], h. split; [reflexivity|].
    split; [constructor|]. split; [reflexivity|].
    intros a b. split; [intros []|]. intros (_ & H & _).
    destruct v; [discriminate|discriminate].
  - apply Nat.eqb_neq in Ev.
    destruct (IPrecedent_run symbols h g v Ok Hv) as (Pv & h1 & R1 & EP & RO1).
    rewrite (bind_run _ _ _ _ _ R1), EP.
    pose proof (r_ok_g_ok _ _ _ RO1 Ok) as Ok1.
    destruct (prec_outer g u (iter_v (prec_members (h_vaxis h (gV (h_graph h g))) v))
                h1 [] Ok1 Hu) as (h2 & R2 & RO2).
    rewrite (bind_run _ _ _ _ _ R2).
    eexists _, h2. split; [reflexivity|]. split; [apply set_of_NoDup|].
    split; [intros; contradiction|].
    intros a b. rewrite set_of_In. cbn [app]. rewrite in_flat_map.
    rewrite (prec_members_r_ok _ _ _ u RO1).
    set (V := h_vaxis h (gV (h_graph h g))) in *.
    assert (Mem : forall w k, registered_by ops w ->
                    (In w (prec_members V k) <-> pred k = Some (transitionCase w))).
    { intros w k Hw. destruct k as [|i t q s pq ps]; cbn [prec_members pred].
      - split; [intros []|discriminate].
      - unfold V. rewrite (Rg i t pq ps w). split.
        + intros [[-> ->]|[K _]]; [reflexivity|now rewrite K].
        + intros E. right. split; [congruence|exact Hw]. }
    split.
    + intros (a' & Ha & Hf). apply (proj1 (iter_v_In _ _)) in Ha.
      apply filter_In in Hf as [Hf Hc'].
      rewrite (out_list_gsim _ _ a' (r_sim _ _ _ RO1)) in Hf.
      apply (out_list_has _ _ _ (ok_wf _ _ Ok)) in Hf as [E Hs]. cbn [fst] in E. subst a'.
      apply Hin in Hs. destruct (stored_registered ops (a, b) Hs) as [Ra Rb].
      cbn [fst snd] in Ra, Rb.
      split; [exact Hs|]. split; [now apply (Mem a v Ra)|].
      unfold prec_cond in Hc'. cbn [snd] in Hc'.
      apply orb_true_iff in Hc' as [Hc'|Hc']; [apply orb_true_iff in Hc' as [Hc'|Hc']|].
      * left. apply memv_In in Hc'. now apply (Mem b u Rb).
      * right; left. apply vertex_eqb_true in Hc'. now subst.
      * right; right. lia.
    + intros (Hs & Ha & Hc'). destruct (stored_registered ops (a, b) Hs) as [Ra Rb].
      cbn [fst snd] in Ra, Rb.
      exists a. split; [apply (proj2 (iter_v_In _ _)); now apply (Mem a v Ra)|].
      apply filter_In. split.
      * rewrite (out_list_gsim _ _ a (r_sim _ _ _ RO1)).
        apply (out_list_has _ _ _ (ok_wf _ _ Ok)). split; [reflexivity|now apply Hin].
      * unfold prec_cond. cbn [snd].
        destruct Hc' as [Hc'|[Hc'|Hc']].
        -- apply (Mem b u Rb) in Hc'. apply memv_In in Hc'. now rewrite Hc'.
        -- subst b. rewrite vertex_eqb_refl. now rewrite orb_true_r.
        -- replace (Z.of_nat (vtier b) <? Z.of_nat (vtier u) - 1) with true by lia.
           now rewrite orb_true_r.
Qed.

Lemma succ_mem_iff h g v w S_ :
  (forall w, In w S_
             <-> In w (case_members (h_vaxis h (gV (h_graph h g)))
                         (vindex v) (S (vtier v)) (vstate w) (output delta v))
                 /\ pred w = Some (transitionCase v)) ->
  memv w S_ = succ_mem delta (h_vaxis h (gV (h_graph h g))) v w.
Proof.
  intros H. apply eq_true_iff_eq. unfold succ_mem.
  rewrite andb_true_iff, !memv_In, pred_b_true. apply H.
Qed.

Lemma succ_mem_r_ok g h h' v w :
  r_ok g h h' ->
  succ_mem delta (h_vaxis h' (gV (h_graph h' g))) v w
  = succ_mem delta (h_vaxis h (gV (h_graph h g))) v w.
Proof.
  intros R. unfold succ_mem. now rewrite (gs_V _ _ (r_sim _ _ _ R)), (r_mem _ _ _ R).
Qed.

Lemma ISuccedent_r h g v :
  g_ok h g -> In (output delta v) symbols ->
  exists S_ h',
    ISuccedent delta symbols iter_v g v h = Ret (S_, h')
    /\ r_ok g h h'
    /\ NoDup S_
    /\ (forall w, memv w S_ = succ_mem delta (h_vaxis h (gV (h_graph h g))) v w).
Proof.
  intros Ok Hs.
  destruct (ISuccedent_run delta symbols iter_v iter_v_In h g v
              (ok_vshape _ _ Ok) (ok_vwf _ _ Ok) Hs) as (S_ & h' & R & Q & Hnd & Hin).
  exists S_, h'. split; [exact R|]. split; [apply v_ok_r_ok; [exact Q|apply Ok]|].
  split; [exact Hnd|]. intros w. now apply succ_mem_iff.
Qed.

Lemma succ_inner g v (u_ : vertex) (I_ : list edge) : forall h (P : list edge),
  g_ok h g -> In (output delta v) symbols ->
  exists h',
    foldM (fun S_ f =>
             let v_ := fst f in
             Sv <- ISuccedent delta symbols iter_v g v ;;
             if memv v_ Sv || vertex_eqb v v_
                || (Z.of_nat (vtier v) + 1 <? Z.of_nat (vtier v_))
             then ret (S_ ++ [(v_, u_)]) else ret S_)
          I_ P h
    = Ret (P ++ map (fun f => (fst f, u_))
                    (filter (succ_cond delta (h_vaxis h (gV (h_graph h g))) v) I_), h')
    /\ r_ok g h h'.
Proof.
  set (body := fun (S_ : list (vertex * vertex)) (f : vertex * vertex) =>
                 let v_ := fst f in
                 Sv <- ISuccedent delta symbols iter_v g v ;;
                 if memv v_ Sv || vertex_eqb v v_
                    || (Z.of_nat (vtier v) + 1 <? Z.of_nat (vtier v_))
                 then ret (S_ ++ [(v_, u_)]) else ret S_).
  induction I_ as [|f I_ IH]; intros h P Ok Hs.
  - exists h. simpl. rewrite app_nil_r. split; [reflexivity|apply r_ok_refl; apply Ok].
  - destruct (ISuccedent_r h g v Ok Hs) as (Sv & h1 & R1 & RO1 & _ & Hm).
    set (c := succ_cond delta (h_vaxis h (gV (h_graph h g))) v).
    assert (Inner : body P f h = Ret (P ++ (if c f then [(fst f, u_)] else []), h1)).
    { unfold body. cbv zeta. rewrite (bind_run _ _ _ _ _ R1), Hm. unfold c, succ_cond.
      destruct (succ_mem delta _ v (fst f) || vertex_eqb v (fst f)
                || (Z.of_nat (vtier v) + 1 <? Z.of_nat (vtier (fst f)))).
      - reflexivity.
      - now rewrite app_nil_r. }
    change (foldM body (f :: I_) P h) with (bind (body P f) (fun b' => foldM body I_ b') h).
    rewrite (bind_run _ _ _ _ _ Inner).
    pose proof (r_ok_g_ok _ _ _ RO1 Ok) as Ok1.
    destruct (IH h1 (P ++ (if c f then [(fst f, u_)] else [])) Ok1 Hs) as (h2 & R2 & RO2).
    exists h2. split; [|eapply r_ok_trans; eauto].
    rewrite R2. rewrite <- app_assoc. f_equal. f_equal. f_equal.
    cbn [filter]. fold c.
    assert (E : filter (succ_cond delta (h_vaxis h1 (gV (h_graph h1 g))) v) I_ = filter c I_).
    { apply filter_ext. intros x. unfold c, succ_cond. now rewrite (succ_mem_r_ok _ _ _ v _ RO1). }
    rewrite E. destruct (c f); reflexivity.
Qed.

Lemma succ_outer g v L : forall h P,
  g_ok h g -> In (output delta v) symbols ->
  exists h',
    foldM (fun S_ u_ =>
             I_ <- incomingEdgeOf g u_ ;;
             foldM (fun S_ f =>
                      let v_ := fst f in
                      Sv <- ISuccedent delta symbols iter_v g v ;;
                      if memv v_ Sv || vertex_eqb v v_
                         || (Z.of_nat (vtier v) + 1 <? Z.of_nat (vtier v_))
                      then ret (S_ ++ [(v_, u_)]) else ret S_)
                   I_ S_)
          L P h
    = Ret (P ++ flat_map (fun u_ =>
                            map (fun f => (fst f, u_))
                                (filter (succ_cond delta (h_vaxis h (gV (h_graph h g))) v)
                                        (in_list (h_graph h g) u_))) L, h')
    /\ r_ok g h h'.
Proof.
  set (obody := fun (S_ : list (vertex * vertex)) (u_ : vertex) =>
                  I_ <- incomingEdgeOf g u_ ;;
                  foldM (fun S_ f =>
                           let v_ := fst f in
                           Sv <- ISuccedent delta symbols iter_v g v ;;
                           if memv v_ Sv || vertex_eqb v v_
                              || (Z.of_nat (vtier v) + 1 <? Z.of_nat (vtier v_))
                           then ret (S_ ++ [(v_, u_)]) else ret S_)
                        I_ S_).
  induction L as [|u_ L IH]; intros h P Ok Hs.
  - exists h. simpl. rewrite app_nil_r. split; [reflexivity|apply r_ok_refl; apply Ok].
  - destruct (incomingEdgeOf_run h g u_ (ok_shape _ _ Ok)) as (h1 & R1 & Q1).
    pose proof (q_ok_r_ok _ _ _ Q1 (ok_vshape _ _ Ok)) as RO1.
    pose proof (r_ok_g_ok _ _ _ RO1 Ok) as Ok1.
    destruct (succ_inner g v u_ (in_list (h_graph h g) u_) h1 P Ok1 Hs) as (h2 & R2 & RO2).
    pose proof (r_ok_g_ok _ _ _ RO2 Ok1) as Ok2.
    pose proof (r_ok_trans _ _ _ _ RO1 RO2) as RO12.
    set (c := succ_cond delta (h_vaxis h (gV (h_graph h g))) v).
    assert (Ec : forall h', r_ok g h h' -> forall l,
                 filter (succ_cond delta (h_vaxis h' (gV (h_graph h' g))) v) l = filter c l).
    { intros h' RO l. apply filter_ext. intros x. unfold c, succ_cond.
      now rewrite (succ_mem_r_ok _ _ _ v _ RO). }
    assert (Inner : obody P u_ h
                    = Ret (P ++ map (fun f => (fst f, u_))
                                    (filter c (in_list (h_graph h g) u_)), h2)).
    { unfold obody. rewrite (bind_run _ _ _ _ _ R1). cbv beta.
      refine (eq_trans R2 _). now rewrite (Ec h1 RO1). }
    change (foldM obody (u_ :: L) P h) with (bind (obody P u_) (fun b' => foldM obody L b') h).
    rewrite (bind_run _ _ _ _ _ Inner).
    destruct (IH h2 (P ++ map (fun f => (fst f, u_)) (filter c (in_list (h_graph h g) u_)))
                Ok2 Hs) as (h3 & R3 & RO3).
    exists h3. split; [|eapply r_ok_trans; eauto].
    rewrite R3. cbn [flat_map]. fold c.
    rewrite <- app_assoc.
    rewrite (flat_map_ext
               (fun u_ => map (fun f => (fst f, u_))
                              (filter (succ_cond delta (h_vaxis h2 (gV (h_graph h2 g))) v)
                                      (in_list (h_graph h2 g) u_)))
               (fun u_ => map (fun f => (fst f, u_))
                              (filter c (in_list (h_graph h g) u_)))); [reflexivity|].
    intros a.
    now rewrite (Ec h2 RO12), (in_list_gsim _ _ a (r_sim _ _ _ RO12)).
Qed.

(** X19.  [GetISuccedents((u, v))] on a graph built within the contract
    returns, each once, the stored edges [(a, b)] that enter a succedent
    [b] of [u] and whose source [a] is a succedent of [v], or is [v]
    itself, or lies more than one tier above [v]; a succedent of [x] being
    a vertex whose recorded predecessor is the transition case of [x] and
    whose symbol is the output symbol of [x]. *)
Theorem X19_GetISuccedents (ops : list op) (g : gref) (h : heap) (u v : vertex) :
  forallb (op_okb symbols) ops = true ->
  build symbols ops empty_heap = Ret (g, h) ->
  In (output delta u) symbols -> In (output delta v) symbols ->
  let succ_of (x w : vertex) :=
    pred w = Some (transitionCase x) /\ vsymbol w = output delta x in
  exists S_ h',
    GetISuccedents delta symbols iter_v g (u, v) h = Ret (S_, h')
    /\ NoDup S_
    /\ (forall a b, In (a, b) S_
                    <-> In (a, b) (replay ops [])
                        /\ succ_of u b
                        /\ (succ_of v a \/ a = v \/ (vtier v + 1 < vtier a)%nat)).
Proof.
  intros Hall Hb Hu Hv succ_of.
  destruct (build_registry symbols ops g h Hall Hb) as (Ok & [Hh Hnd Hc] & Rg).
  assert (Hin : forall e, In e (replay ops []) <-> has (h_graph h g) e = true)
    by (intros e; now rewrite Hh, meme_In).
  unfold GetISuccedents.
  destruct (ISuccedent_r h g u Ok Hu) as (Su & h1 & R1 & RO1 & _ & Hm).
  rewrite (bind_run _ _ _ _ _ R1).
  pose proof (r_ok_g_ok _ _ _ RO1 Ok) as Ok1.
  destruct (succ_outer g v (iter_v Su) h1 [] Ok1 Hv) as (h2 & R2 & RO2).
  rewrite (bind_run _ _ _ _ _ R2).
  eexists _, h2. split; [reflexivity|]. split; [apply set_of_NoDup|].
  intros a b. rewrite set_of_In. cbn [app]. rewrite in_flat_map.
  set (V := h_vaxis h (gV (h_graph h g))) in *.
  assert (Mem : forall x w, registered_by ops w ->
                  (succ_mem delta V x w = true <-> succ_of x w)).
  { intros x w Hw. unfold succ_mem, succ_of.
    rewrite andb_true_iff, memv_In, pred_b_true. unfold V. rewrite (Rg _ _ _ _ w).
    split.
    - intros [[[E _]|[K _]] Hp]; [discriminate|]. split; [exact Hp|].
      now apply (f_equal t_symbol) in K.
    - intros [Hp Hs]. split; [|exact Hp]. right. split; [|exact Hw].
      destruct w as [|i t q s pq ps]; [discriminate|].
      cbn [pred] in Hp. unfold transitionCase in Hp. injection Hp as E1 E2 _ _.
      unfold transitionCase. cbn [vindex vtier vstate vsymbol] in *.
      now rewrite E1, E2, Hs. }
  split.
  - intros (b' & Hb' & Hf). apply (proj1 (iter_v_In _ _)) in Hb'.
    apply in_map_iff in Hf as (f & E & Hf). injection E as E1 E2. subst b'.
    apply filter_In in Hf as [Hf Hc'].
    rewrite (in_list_gsim _ _ b (r_sim _ _ _ RO1)) in Hf.
    apply (in_list_has _ _ _ (ok_wf _ _ Ok)) in Hf as [E Hs].
    destruct f as [a' b']. cbn [fst snd] in *. subst a' b'.
    apply Hin in Hs. destruct (stored_registered ops (a, b) Hs) as [Ra Rb].
    cbn [fst snd] in Ra, Rb.
    split; [exact Hs|]. split.
    + apply (Mem u b Rb). rewrite <- Hm. now apply memv_In.
    + unfold succ_cond in Hc'. cbn [fst] in Hc'.
      rewrite (succ_mem_r_ok _ _ _ v a RO1) in Hc'. fold V in Hc'.
      apply orb_true_iff in Hc' as [Hc'|Hc']; [apply orb_true_iff in Hc' as [Hc'|Hc']|].
      * left. now apply (Mem v a Ra).
      * right; left. apply vertex_eqb_true in Hc'. now subst.
      * right; right. lia.
  - intros (Hs & Hb' & Hc'). destruct (stored_registered ops (a, b) Hs) as [Ra Rb].
    cbn [fst snd] in Ra, Rb.
    exists b. split.
    + apply (proj2 (iter_v_In _ _)). apply memv_In. rewrite Hm. now apply (Mem u b Rb).
    + apply in_map_iff. exists (a, b). split; [reflexivity|].
      apply filter_In. split.
      * rewrite (in_list_gsim _ _ b (r_sim _ _ _ RO1)).
        apply (in_list_has _ _ _ (ok_wf _ _ Ok)). split; [reflexivity|now apply Hin].
      * unfold succ_cond. cbn [fst].
        rewrite (succ_mem_r_ok _ _ _ v a RO1). fold V.
        destruct Hc' as [Hc'|[Hc'|Hc']].
        -- apply (Mem v a Ra) in Hc'. now rewrite Hc'.
        -- subst a. rewrite vertex_eqb_refl. now rewrite orb_true_r.
        -- replace (Z.of_nat (vtier v) + 1 <? Z.of_nat (vtier a)) with true by lia.
           now rewrite orb_true_r.
Qed.

End PrecedentEdges.

(** X18 on the graph of [Ex2.G3_ops] and the pair [(v0, a1)]. *)
Lemma X18_GetIPrecedents_witness :
  ((forall l x, In x (Ex.iter_v l) <-> In x l)
   /\ forallb (op_okb Ex.symbols) Ex2.G3_ops = true
   /\ build Ex.symbols Ex2.G3_ops empty_heap = Ret (O, Ex2.G3_heap)
   /\ pred_symbol_ok Ex.symbols Ex.v0 /\ pred_symbol_ok Ex.symbols Ex2.a1)
  /\ exists P h',
       GetIPrecedents Ex.symbols Ex.iter_v O (Ex.v0, Ex2.a1) Ex2.G3_heap = Ret (P, h')
       /\ NoDup P
       /\ (vtier Ex2.a1 = O -> P = [])
       /\ (forall a b, In (a, b) P
                       <-> In (a, b) (replay Ex2.G3_ops [])
                           /\ pred Ex2.a1 = Some (transitionCase a)
                           /\ (pred Ex.v0 = Some (transitionCase b) \/ b = Ex.v0
                               \/ (vtier b + 1 < vtier Ex.v0)%nat)).
Proof.
  assert (Hi : forall l x, In x (Ex.iter_v l) <-> In x l) by (intros l x; reflexivity).
  assert (H0 : pred_symbol_ok Ex.symbols Ex.v0) by exact I.
  assert (H1 : pred_symbol_ok Ex.symbols Ex2.a1) by (vm_compute; left; reflexivity).
  split; [split; [exact Hi|split; [|split; [|split]]];
          [vm_compute; reflexivity|vm_compute; reflexivity|exact H0|exact H1]|].
  apply (X18_GetIPrecedents Ex.symbols Ex.iter_v Hi Ex2.G3_ops O Ex2.G3_heap Ex.v0 Ex2.a1);
    [vm_compute; reflexivity|vm_compute; reflexivity|exact H0|exact H1].
Defined.

(** X19 on the graph of [Ex2.G3_ops] and the pair [(a, v0)]. *)
Lemma X19_GetISuccedents_witness :
  ((forall l x, In x (Ex.iter_v l) <-> In x l)
   /\ forallb (op_okb Ex.symbols) Ex2.G3_ops = true
   /\ build Ex.symbols Ex2.G3_ops empty_heap = Ret (O, Ex2.G3_heap)
   /\ In (output Ex.delta Ex.a) Ex.symbols /\ In (output Ex.delta Ex.v0) Ex.symbols)
  /\ exists S_ h',
       GetISuccedents Ex.delta Ex.symbols Ex.iter_v O (Ex.a, Ex.v0) Ex2.G3_heap = Ret (S_, h')
       /\ NoDup S_
       /\ (forall a b, In (a, b) S_
                       <-> In (a, b) (replay Ex2.G3_ops [])
                           /\ (pred b = Some (transitionCase Ex.a)
                               /\ vsymbol b = output Ex.delta Ex.a)
                           /\ ((pred a = Some (transitionCase Ex.v0)
                                /\ vsymbol a = output Ex.delta Ex.v0)
                               \/ a = Ex.v0 \/ (vtier Ex.v0 + 1 < vtier a)%nat)).
Proof.
  assert (Hi : forall l x, In x (Ex.iter_v l) <-> In x l) by (intros l x; reflexivity).
  assert (H0 : In (output Ex.delta Ex.a) Ex.symbols) by (vm_compute; left; reflexivity).
  assert (H1 : In (output Ex.delta Ex.v0) Ex.symbols) by (vm_compute; left; reflexivity).
  split; [split; [exact Hi|split; [|split; [|split]]];
          [vm_compute; reflexivity|vm_compute; reflexivity|exact H0|exact H1]|].
  apply (X19_GetISuccedents Ex.delta Ex.symbols Ex.iter_v Hi Ex2.G3_ops O Ex2.G3_heap
           Ex.a Ex.v0);
    [vm_compute; reflexivity|vm_compute; reflexivity|exact H0|exact H1].
Defined.

(* ================================================================== *)
(** * The walk [TakeArbitraryWalk] takes *)

Lemma bind_inv {A B} (m : M A) (f : A -> M B) h b h' :
  bind m f h = Ret (b, h') -> exists a h1, m h = Ret (a, h1) /\ f a h1 = Ret (b, h').
Proof.
  unfold bind. destruct (m h) as [[a h1]| |]; [eauto|discriminate|discriminate].
Qed.

Lemma lift_inv {A} (o : outcome A) h a h' : lift o h = Ret (a, h') -> o = Ret a /\ h' = h.
Proof. unfold lift. destruct o; [intros [= -> ->]; auto|discriminate|discriminate]. Qed.

(** The predecessor symbols of the vertices given to [addEdge] are symbols
    of the alphabet: they were made by [TransitionCase.vertex] from a case
    of the registry. *)
Definition pred_okb (symbols : list string) (v : vertex) : bool :=
  match pred v with Some p => mem string_dec (t_symbol p) symbols | None => true end.

Definition op_predb (symbols : list string) (o : op) : bool :=
  match o with
  | Add e => pred_okb symbols (fst e) && pred_okb symbols (snd e)
  | Remove _ => true
  end.

Lemma pred_okb_true symbols v : pred_okb symbols v = true <-> pred_symbol_ok symbols v.
Proof.
  unfold pred_okb, pred_symbol_ok, mem. destruct (pred v); [|tauto].
  destruct (in_dec string_dec (t_symbol t) symbols); split; auto; discriminate.
Qed.

Lemma stored_pred_ok symbols ops e :
  forallb (op_predb symbols) ops = true -> In e (replay ops []) ->
  pred_symbol_ok symbols (fst e) /\ pred_symbol_ok symbols (snd e).
Proof.
  intros Hall H. apply replay_In in H as [[]|H].
  rewrite forallb_forall in Hall. apply Hall in H. cbn [op_predb] in H.
  apply andb_true_iff in H. now rewrite !pred_okb_true in H.
Qed.

(** Consecutive edges share a vertex. *)
Fixpoint chain (W : list edge) : Prop :=
  match W with
  | e :: ((f :: _) as W') => snd e = fst f /\ chain W'
  | _ => True
  end.

Section Walk.
Variable symbols : list string.
Variable iter_v : list vertex -> list vertex.

Lemma consistent_safe h g S_ f b S' h' :
  g_ok h g -> pred_symbol_ok symbols (snd f) ->
  consistent symbols g S_ f h = Ret ((b, S'), h') -> r_ok g h h'.
Proof.
  intros Ok Hp. unfold consistent.
  destruct (Nat.eqb (vtier (snd f)) 0).
  - intros [= _ _ <-]. apply r_ok_refl; apply Ok.
  - destruct (IPrecedent_run symbols h g (snd f) Ok Hp) as (P & h1 & R1 & _ & RO1).
    rewrite (bind_run _ _ _ _ _ R1). intros H.
    apply bind_inv in H as ([x S1] & h2 & H1 & H2).
    apply lift_inv in H1 as [_ ->].
    destruct P as [l|T]; [discriminate|]. destruct x as [k|]; [|discriminate].
    injection H2 as _ _ <-. exact RO1.
Qed.

Lemma consistent_fold g N_ : forall h acc S_ EN S2 h',
  g_ok h g -> (forall f, In f N_ -> pred_symbol_ok symbols (snd f)) ->
  foldM (fun '(acc, S2) f =>
           '(b, S3) <- consistent symbols g S2 f ;;
           ret (if b then acc ++ [f] else acc, S3))
        N_ (acc, S_) h = Ret ((EN, S2), h') ->
  r_ok g h h' /\ exists sub, EN = acc ++ sub /\ incl sub N_.
Proof.
  induction N_ as [|f N_ IH]; intros h acc S_ EN S2 h' Ok Hp H.
  - injection H as <- _ <-. split; [apply r_ok_refl; apply Ok|].
    exists []. rewrite app_nil_r. split; [reflexivity|intros x []].
  - cbn [foldM] in H. apply bind_inv in H as ([acc1 S1] & h1 & H1 & H2).
    apply bind_inv in H1 as ([b S3] & h0 & H0 & H1).
    injection H1 as <- <- <-.
    pose proof (consistent_safe _ _ _ _ _ _ _ Ok (Hp f (or_introl eq_refl)) H0) as RO1.
    destruct (IH h0 _ _ _ _ _ (r_ok_g_ok _ _ _ RO1 Ok)
                (fun x Hx => Hp x (or_intror Hx)) H2) as (RO2 & sub & E & Hsub).
    split; [eapply r_ok_trans; eauto|].
    destruct b.
    + exists (f :: sub). rewrite E, <- app_assoc. split; [reflexivity|].
      intros x [<-|Hx]; [now left|right; now apply Hsub].
    + exists sub. split; [exact E|]. intros x Hx. right. now apply Hsub.
Qed.

Lemma walkLoop_safe g l fuel : forall h S_ e W W' h',
  g_ok h g -> stores h g l ->
  (forall f, In f l -> pred_symbol_ok symbols (snd f)) ->
  In e l ->
  walkLoop symbols fuel g S_ e W h = Ret (W', h') ->
  r_ok g h h'
  /\ exists X, W' = W ++ e :: X /\ chain (e :: X) /\ (forall f, In f X -> In f l)
               /\ (length (e :: X) <= fuel)%nat.
Proof.
  induction fuel as [|fuel IH]; intros h S_ e W W' h' Ok St Hp He H; [discriminate|].
  destruct e as [u v]. cbn [walkLoop] in H.
  apply bind_inv in H as (S1 & h0 & H0 & H).
  apply lift_inv in H0 as [_ ->].
  unfold getNextEdges in H; cbn [snd] in H.
  destruct (outgoingEdgeOf_run h g v (ok_shape _ _ Ok)) as (h1 & R1 & Q1).
  rewrite (bind_run _ _ _ _ _ R1) in H.
  pose proof (q_ok_r_ok _ _ _ Q1 (ok_vshape _ _ Ok)) as RO1.
  pose proof (r_ok_g_ok _ _ _ RO1 Ok) as Ok1.
  assert (Hout : forall f, In f (out_list (h_graph h g) v) -> fst f = v /\ In f l).
  { intros f Hf. apply (out_list_has _ _ _ (ok_wf _ _ Ok)) in Hf as [E Hs].
    split; [exact E|]. rewrite (st_has _ _ _ St) in Hs. now apply meme_In. }
  apply bind_inv in H as ([EN S2] & h2 & H2 & H).
  destruct (consistent_fold g _ _ _ _ _ _ _ Ok1
              (fun f Hf => Hp f (proj2 (Hout f Hf))) H2) as (RO2 & sub & E & Hsub).
  cbn [app] in E. subst EN.
  pose proof (r_ok_trans _ _ _ _ RO1 RO2) as RO12.
  destruct sub as [|e' sub].
  - injection H as <- <-. split; [exact RO12|].
    exists []. split; [reflexivity|]. split; [exact I|]. split; [intros f []|simpl; lia].
  - assert (He' : In e' (out_list (h_graph h g) v)) by (apply Hsub; now left).
    apply Hout in He' as [Ef Hl].
    destruct (IH h2 S2 e' (W ++ [(u, v)]) W' h' (r_ok_g_ok _ _ _ RO12 Ok)
                (r_ok_stores _ _ _ _ RO12 St) Hp Hl H) as (RO3 & X & EW & Hch & HX & Hlen).
    split; [eapply r_ok_trans; eauto|].
    exists (e' :: X). split; [now rewrite EW, <- app_assoc|].
    split; [split; [now rewrite Ef|exact Hch]|].
    split; [intros f [<-|Hf]; auto|simpl in *; lia].
Qed.

(** X20.  Whenever [TakeArbitraryWalk(G, V0)] returns a walk, on a graph
    built within the contract, every edge of the walk is stored in [G],
    consecutive edges share a vertex, the first edge leaves the first start
    vertex, the walk has at most as many edges as the loop made rounds, and
    [G] stores the same edges as before. *)
Theorem X20_walk_is_chain (ops : list op) (g : gref) (h h' : heap) (fuel : nat)
    (V0 : list vertex) (W : list edge) :
  forallb (op_okb symbols) ops = true ->
  forallb (op_predb symbols) ops = true ->
  build symbols ops empty_heap = Ret (g, h) ->
  TakeArbitraryWalk symbols iter_v fuel g V0 h = Ret (W, h') ->
  (forall e, In e W -> In e (replay ops []))
  /\ chain W
  /\ (forall e W', W = e :: W' -> exists r, iter_v V0 = fst e :: r)
  /\ (length W <= fuel)%nat
  /\ (forall e, nearb e = true ->
        exists h'', hasEdge g e h' = Ret (meme e (replay ops []), h''))
  /\ size g h' = Ret (Z.of_nat (length (replay ops [])), h').
Proof.
  intros Hall Hpred Hb H.
  destruct (build_stores symbols ops g h Hall Hb) as (Ok & St).
  assert (Hp : forall f, In f (replay ops []) -> pred_symbol_ok symbols (snd f))
    by (intros f Hf; apply (stored_pred_ok symbols ops f Hpred Hf)).
  unfold TakeArbitraryWalk in H.
  destruct (iter_v V0) as [|v0 r] eqn:EV; [discriminate|].
  destruct (outgoingEdgeOf_run h g v0 (ok_shape _ _ Ok)) as (h1 & R1 & Q1).
  rewrite (bind_run _ _ _ _ _ R1) in H.
  pose proof (q_ok_r_ok _ _ _ Q1 (ok_vshape _ _ Ok)) as RO1.
  assert (Fin : forall h2, r_ok g h h2 ->
            (forall e, nearb e = true ->
               exists h'', hasEdge g e h2 = Ret (meme e (replay ops []), h''))
            /\ size g h2 = Ret (Z.of_nat (length (replay ops [])), h2)).
  { intros h2 RO. pose proof (r_ok_stores _ _ _ _ RO St) as [Hh _ Hc]. split.
    - intros e He. apply nearb_true in He.
      destruct (hasEdge_run h2 g e (r_shape _ _ _ RO) He) as (h3 & R3 & _).
      exists h3. now rewrite R3, Hh.
    - unfold size, get_graph, bind, ret. now rewrite Hc. }
  destruct (out_list (h_graph h g) v0) as [|e l] eqn:EO.
  - injection H as <- <-.
    split; [intros e []|]. split; [exact I|]. split; [discriminate|].
    split; [simpl; lia|]. now apply Fin.
  - assert (He : In e (out_list (h_graph h g) v0)) by (rewrite EO; now left).
    apply (out_list_has _ _ _ (ok_wf _ _ Ok)) in He as [Ef Hs].
    rewrite (st_has _ _ _ St) in Hs. apply meme_In in Hs.
    destruct (walkLoop_safe g (replay ops []) fuel h1 _ e [] W h'
                (r_ok_g_ok _ _ _ RO1 Ok) (r_ok_stores _ _ _ _ RO1 St) Hp Hs H)
      as (RO2 & X & EW & Hch & HX & Hlen).
    cbn [app] in EW. subst W.
    split; [intros f [<-|Hf]; auto|]. split; [exact Hch|].
    split; [intros e0 W' [= <- _]; exists r; now rewrite Ef|].
    split; [exact Hlen|]. apply Fin. eapply r_ok_trans; eauto.
Qed.

End Walk.

(** The heap a computation ends in when run on [h]. *)
Definition heap_after {A} (m : M A) (h : heap) : heap :=
  match m h with Ret (_, h') => h' | _ => h end.

(** X20 on the graph of [Ex.G1_ops], from [Ex.v0]: the walk is the one
    stored edge. *)
Lemma X20_walk_is_chain_witness :
  (forallb (op_okb Ex.symbols) Ex.G1_ops = true
   /\ forallb (op_predb Ex.symbols) Ex.G1_ops = true
   /\ build Ex.symbols Ex.G1_ops empty_heap = Ret (O, Ex.G1_heap)
   /\ TakeArbitraryWalk Ex.symbols Ex.iter_v 3 O [Ex.v0] Ex.G1_heap
      = Ret ([(Ex.v0, Ex.a)],
             heap_after (TakeArbitraryWalk Ex.symbols Ex.iter_v 3 O [Ex.v0]) Ex.G1_heap))
  /\ (forall e, In e [(Ex.v0, Ex.a)] -> In e (replay Ex.G1_ops []))
  /\ chain [(Ex.v0, Ex.a)]
  /\ (length [(Ex.v0, Ex.a)] <= 3)%nat.
Proof.
  split; [split; [|split; [|split]]; vm_compute; reflexivity|].
  destruct (X20_walk_is_chain Ex.symbols Ex.iter_v Ex.G1_ops O Ex.G1_heap
              (heap_after (TakeArbitraryWalk Ex.symbols Ex.iter_v 3 O [Ex.v0]) Ex.G1_heap)
              3 [Ex.v0] [(Ex.v0, Ex.a)])
    as (A & B & _ & D & _); [vm_compute; reflexivity|vm_compute; reflexivity
                             |vm_compute; reflexivity|vm_compute; reflexivity|].
  auto.
Defined.

(* ================================================================== *)
(** * What a query leaves behind when it returns *)

(** A heap property kept by every round of a loop is kept by the loop. *)
Lemma foldM_inv {A B} (P : B -> heap -> Prop) (f : B -> A -> M B) l :
  (forall b a h b' h', In a l -> P b h -> f b a h = Ret (b', h') -> P b' h') ->
  forall b h b' h', P b h -> foldM f l b h = Ret (b', h') -> P b' h'.
Proof.
  induction l as [|a l IH]; intros Hstep b h b' h' HP H.
  - injection H as <- <-. exact HP.
  - cbn [foldM] in H. apply bind_inv in H as (b1 & h1 & H1 & H2).
    apply (IH (fun b0 a0 h0 b0' h0' Ha => Hstep b0 a0 h0 b0' h0' (or_intror Ha)) b1 h1);
      [|exact H2].
    apply (Hstep b a h); auto. now left.
Qed.

(** The state of graph [g] a chain of reads from [h0] has reached. *)
Definition rd (g : gref) (h0 h : heap) : Prop := r_ok g h0 h /\ g_ok h g.

Lemma rd_init g h : g_ok h g -> rd g h h.
Proof. intros Ok. split; [apply r_ok_refl; apply Ok|exact Ok]. Qed.

Lemma rd_step g h0 h1 h2 : rd g h0 h1 -> r_ok g h1 h2 -> rd g h0 h2.
Proof.
  intros [R Ok] R'. split; [eapply r_ok_trans; eauto|eapply r_ok_g_ok; eauto].
Qed.

Lemma q_ok_rd g h0 h1 h2 : rd g h0 h1 -> q_ok g h1 h2 -> rd g h0 h2.
Proof. intros Rd Q. apply (rd_step _ _ _ _ Rd). apply q_ok_r_ok; [exact Q|apply Rd]. Qed.

Lemma E_at_far h g i v :
  gshape (h_graph h g) -> ~ in_slice i v -> E_at g i v h = Raise AssertionError.
Proof.
  intros Hs Hn. unfold E_at.
  destruct (E_getitem_run h g i Hs) as (h1 & R1 & _).
  rewrite (bind_run _ _ _ _ _ R1). apply bind_raise.
  unfold lift, es_getitem. destruct (Hs i) as (-> & _).
  unfold in_slice in Hn.
  replace ((i =? vindex v) || (i =? vindex v - 1)) with false by lia.
  reflexivity.
Qed.

Lemma in_slice_dec i v : {in_slice i v} + {~ in_slice i v}.
Proof.
  unfold in_slice. destruct (Z.eq_dec (vindex v) i); [left; auto|].
  destruct (Z.eq_dec (vindex v) (i + 1)); [left; auto|right; tauto].
Qed.

Lemma E_at_safe h g i v a h' :
  gshape (h_graph h g) -> E_at g i v h = Ret (a, h') ->
  a = el_of (h_graph h g) i v /\ q_ok g h h'.
Proof.
  intros Hs H. destruct (in_slice_dec i v) as [Hi|Hi].
  - destruct (E_at_q h g i v Hs Hi) as (h2 & R & Q). rewrite R in H.
    injection H as <- <-. auto.
  - rewrite (E_at_far h g i v Hs Hi) in H. discriminate.
Qed.

Lemma near_dec e : {near e} + {~ near e}.
Proof. unfold near. destruct (Z_le_gt_dec (Z.abs (vindex (fst e) - vindex (snd e))) 1); [left|right]; lia. Qed.

Lemma hasEdge_safe h g e b h' :
  gshape (h_graph h g) -> gwf (h_graph h g) -> hasEdge g e h = Ret (b, h') ->
  near e /\ b = has (h_graph h g) e /\ q_ok g h h'.
Proof.
  intros Hs W H. destruct (near_dec e) as [Hn|Hn].
  - destruct (hasEdge_run h g e Hs Hn) as (h2 & R & Q). rewrite R in H.
    injection H as <- <-. auto.
  - rewrite (hasEdge_far h g e Hs W Hn) in H. discriminate.
Qed.

Lemma isFoldingNode_run h g v :
  gshape (h_graph h g) ->
  exists b h', isFoldingNode g v h = Ret (b, h') /\ q_ok g h h'.
Proof.
  intros Hs. unfold isFoldingNode.
  destruct (E_at_q h g (vindex v - 1) v Hs (in_slice_pred v)) as (h1 & R1 & Q1).
  rewrite (bind_run _ _ _ _ _ R1).
  destruct (nonempty _ && nonempty _).
  - exists true, h1. split; [reflexivity|exact Q1].
  - destruct (E_at_q h1 g (vindex v) v (q_shape _ _ _ Q1) (in_slice_self v))
      as (h2 & R2 & Q2).
    rewrite (bind_run _ _ _ _ _ R2). eexists _, h2. split; [reflexivity|].
    eapply q_ok_trans; eauto.
Qed.

Lemma isSplittingEdge_run h g e :
  gshape (h_graph h g) -> gwf (h_graph h g) -> has (h_graph h g) e = true ->
  exists b h', isSplittingEdge g e h = Ret (b, h') /\ q_ok g h h'.
Proof.
  intros Hs W Hh. destruct e as [u v].
  pose proof (has_adjacent _ _ W Hh) as Ha. unfold adjacent in Ha; simpl in Ha.
  destruct (hasEdge_run h g (u, v) Hs (adjacent_near (u, v) Ha)) as (h1 & R1 & Q1).
  pose proof (q_shape _ _ _ Q1) as Hs1.
  unfold isSplittingEdge.
  rewrite (bind_run _ _ _ _ _ R1), Hh.
  change (assert_ true) with (@ret unit tt). rewrite bind_ret_l.
  destruct (vindex u <? vindex v) eqn:Hc.
  - destruct (E_at_q h1 g (vindex u) u Hs1 (in_slice_self u)) as (h2 & R2 & Q2).
    rewrite (bind_run _ _ _ _ _ R2).
    eexists _, h2. split; [reflexivity|eapply q_ok_trans; eauto].
  - assert (Hlt : vindex u = vindex v + 1) by lia.
    destruct (E_at_q h1 g (vindex v) u Hs1 (or_intror Hlt)) as (h2 & R2 & Q2).
    rewrite (bind_run _ _ _ _ _ R2).
    eexists _, h2. split; [reflexivity|eapply q_ok_trans; eauto].
Qed.

(** A read of the registry that returns would have returned over a larger
    alphabet as well. *)
Lemma syd_getitem_mono symbols y s r :
  syd_getitem symbols y s = Ret r -> syd_getitem (s :: symbols) y s = Ret r.
Proof.
  unfold syd_getitem. destruct (dict_get string_dec s (sy_items y)); auto.
  unfold mem. destruct (in_dec string_dec s symbols); [|discriminate].
  destruct (in_dec string_dec s (s :: symbols)) as [|N]; auto.
  exfalso. apply N. now left.
Qed.

Lemma V_case_mono symbols f V i t q s r :
  V_case symbols f V i t q s = Ret r -> V_case (s :: symbols) f V i t q s = Ret r.
Proof.
  unfold V_case.
  destruct (ca_getitem new_TierArray (fun _ _ => true) V i) as [[ta V1]| |]; cbn [obind]; auto.
  destruct (ta_getitem ta t) as [[d ta1]| |]; cbn [obind]; auto.
  destruct (sd_getitem d q) as [[y d1]| |]; cbn [obind]; auto.
  destruct (syd_getitem symbols y s) as [[T y1]| |] eqn:E; cbn [obind];
    [|discriminate|discriminate].
  rewrite (syd_getitem_mono _ _ _ _ E). auto.
Qed.

Section Safe.
Variable delta : string -> string -> string * string * Z.
Variable symbols : list string.
Variable iter_v : list vertex -> list vertex.
Variable iter_e : list edge -> list edge.

Lemma V_at_safe h g i t q s T h' :
  vshape (h_vaxis h (gV (h_graph h g))) ->
  V_at symbols (fun T => T) g i t q s h = Ret (T, h') ->
  v_ok (gV (h_graph h g)) h h'.
Proof.
  intros HV H.
  assert (H' : V_at (s :: symbols) (fun T => T) g i t q s h = Ret (T, h')).
  { unfold V_at, bind, get_graph, get_vaxis, lift, put_vaxis in *.
    destruct (V_case symbols (fun T0 => T0) (h_vaxis h (gV (h_graph h g))) i t q s)
      as [[T0 V']| |] eqn:E; [|discriminate|discriminate].
    rewrite (V_case_mono _ _ _ _ _ _ _ _ E). exact H. }
  destruct (V_at_id_run (s :: symbols) h g i t q s HV (or_introl eq_refl)) as (h2 & R & Q).
  rewrite R in H'. injection H' as _ <-. exact Q.
Qed.

Lemma IPrecedent_safe h g v P h' :
  g_ok h g -> IPrecedent symbols g v h = Ret (P, h') -> r_ok g h h'.
Proof.
  intros Ok H. destruct v as [i q s|i t q s pq ps]; cbn [IPrecedent] in H.
  - injection H as _ <-. apply r_ok_refl; apply Ok.
  - apply bind_inv in H as (T & h1 & H1 & H2). injection H2 as _ <-.
    apply v_ok_r_ok; [|apply Ok]. eapply V_at_safe; [apply Ok|exact H1].
Qed.

Lemma ISuccedent_safe h g v S_ h' :
  g_ok h g -> ISuccedent delta symbols iter_v g v h = Ret (S_, h') -> r_ok g h h'.
Proof.
  intros Ok H. unfold ISuccedent in H.
  set (r := gV (h_graph h g)) in *. set (V := h_vaxis h r) in *.
  rewrite (bind_run (get_graph g) _ h (h_graph h g) h eq_refl) in H.
  rewrite (bind_run (get_vaxis (gV (h_graph h g))) _ h V h eq_refl) in H.
  destruct (V_tier_spec V (vindex v) (S (vtier v)) (ok_vshape _ _ Ok))
    as (d & V' & R1 & Hd & HV' & Hlk).
  rewrite (bind_run _ _ _ _ _ (lift_run _ _ h R1)) in H. cbv beta iota in H.
  rewrite (bind_run _ _ _ _ _ (put_vaxis_run h _ V')) in H.
  fold r in H. set (h1 := upd_vaxis h r V') in *.
  assert (Q1 : v_ok r h h1).
  { constructor.
    - apply frame_v_upd.
    - unfold h1. now rewrite upd_vaxis_same.
    - intros i t q s. unfold h1. rewrite upd_vaxis_same. unfold case_members.
      now rewrite Hlk. }
  pose proof (v_ok_r_ok g h h1 Q1 (ok_shape _ _ Ok)) as RO1.
  apply bind_inv in H as (L & h2 & H2 & H3). injection H3 as _ <-.
  apply (foldM_inv (fun _ h' => rd g h h')) in H2; [apply H2| |].
  - intros b q h3 b' h4 _ Rd Hq.
    apply bind_inv in Hq as (T & h5 & Hq1 & Hq2).
    apply bind_inv in Hq2 as (L' & h6 & Hq2 & Hq3).
    apply lift_inv in Hq2 as [_ ->]. injection Hq3 as _ <-.
    apply (rd_step _ _ _ _ Rd). apply v_ok_r_ok; [|apply Rd].
    eapply V_at_safe; [apply Rd|exact Hq1].
  - apply (rd_step _ _ _ _ (rd_init _ _ Ok) RO1).
Qed.

Lemma count_fold_safe g i (F : Z -> EdgeListOf -> Z) L h0 : forall acc h n h',
  rd g h0 h ->
  foldM (fun cnt p => a <- E_at g i p ;; ret (F cnt a)) L acc h = Ret (n, h') ->
  rd g h0 h'.
Proof.
  intros acc h n h' Rd H.
  apply (foldM_inv (fun _ h' => rd g h0 h')) in H; [exact H| |exact Rd].
  intros b p h1 b' h2 _ Rd1 Hp.
  apply bind_inv in Hp as (a & h3 & Hp1 & Hp2). injection Hp2 as _ <-.
  apply E_at_safe in Hp1 as [_ Q]; [|apply Rd1].
  eapply q_ok_rd; eauto.
Qed.

Lemma CountIPrecedents_safe h g e n h' :
  g_ok h g -> CountIPrecedents symbols iter_v g e h = Ret (n, h') -> r_ok g h h'.
Proof.
  intros Ok H. unfold CountIPrecedents in H.
  destruct (E_getitem_q h g (Z.min (vindex (fst e)) (vindex (snd e))) (ok_shape _ _ Ok))
    as (h1 & R1 & Q1).
  rewrite (bind_run _ _ _ _ _ R1) in H.
  pose proof (q_ok_rd _ _ _ _ (rd_init _ _ Ok) Q1) as Rd1.
  apply bind_inv in H as (P & h2 & H2 & H3).
  apply IPrecedent_safe in H2; [|apply Rd1].
  pose proof (rd_step _ _ _ _ Rd1 H2) as Rd2.
  apply (count_fold_safe g _ _ _ h _ _ _ _ Rd2) in H3. apply H3.
Qed.

Lemma CountISuccedents_safe h g e n h' :
  g_ok h g -> CountISuccedents delta symbols iter_v g e h = Ret (n, h') -> r_ok g h h'.
Proof.
  intros Ok H. unfold CountISuccedents in H.
  destruct (E_getitem_q h g (Z.min (vindex (fst e)) (vindex (snd e))) (ok_shape _ _ Ok))
    as (h1 & R1 & Q1).
  rewrite (bind_run _ _ _ _ _ R1) in H.
  pose proof (q_ok_rd _ _ _ _ (rd_init _ _ Ok) Q1) as Rd1.
  apply bind_inv in H as (P & h2 & H2 & H3).
  apply ISuccedent_safe in H2; [|apply Rd1].
  pose proof (rd_step _ _ _ _ Rd1 H2) as Rd2.
  apply (count_fold_safe g _ _ _ h _ _ _ _ Rd2) in H3. apply H3.
Qed.

Lemma GetIPrecedents_safe h g e P h' :
  g_ok h g -> GetIPrecedents symbols iter_v g e h = Ret (P, h') ->
  r_ok g h h'
  /\ (forall f, In f P -> has (h_graph h g) f = true).
Proof.
  intros Ok H. destruct e as [u v]. unfold GetIPrecedents in H.
  destruct (Nat.eqb (vtier v) 0).
  - injection H as <- <-. split; [apply r_ok_refl; apply Ok|intros f []].
  - apply bind_inv in H as (Pv & h1 & H1 & H).
    apply IPrecedent_safe in H1; [|exact Ok].
    pose proof (rd_step _ _ _ _ (rd_init _ _ Ok) H1) as Rd1.
    apply bind_inv in H as (L & h2 & H2 & H3). injection H3 as <- <-.
    apply (foldM_inv (fun L' h' => rd g h h'
                                   /\ forall f, In f L' -> has (h_graph h g) f = true))
      in H2.
    + destruct H2 as [Rd2 HL]. split; [apply Rd2|].
      intros f Hf. apply set_of_In in Hf. now apply HL.
    + intros b v_ h3 b' h4 _ [Rd3 Hb] Hq.
      apply bind_inv in Hq as (O_ & h5 & Hq1 & Hq2).
      destruct (outgoingEdgeOf_run h3 g v_ (ok_shape _ _ (proj2 Rd3))) as (h6 & R6 & Q6).
      rewrite R6 in Hq1. injection Hq1 as <- <-.
      pose proof (q_ok_rd _ _ _ _ Rd3 Q6) as Rd6.
      apply (foldM_inv (fun L' h' => rd g h h'
                          /\ forall f, In f L' -> has (h_graph h g) f = true)) in Hq2;
        [exact Hq2| |split; [exact Rd6|exact Hb]].
      intros b0 f h7 b0' h8 Hf [Rd7 Hb0] Hq.
      cbv zeta in Hq. apply bind_inv in Hq as (Pu & h9 & Hq3 & Hq4).
      apply IPrecedent_safe in Hq3; [|apply Rd7].
      pose proof (rd_step _ _ _ _ Rd7 Hq3) as Rd9.
      assert (Hst : has (h_graph h g) f = true).
      { apply (out_list_has _ _ _ (ok_wf _ _ (proj2 Rd3))) in Hf as [_ Hf].
        now rewrite (gsim_has _ _ f (r_sim _ _ _ (proj1 Rd3))) in Hf. }
      destruct (memv (snd f) (elems Pu) || vertex_eqb u (snd f)
                || (Z.of_nat (vtier (snd f)) <? Z.of_nat (vtier u) - 1));
        injection Hq4 as <- <-; (split; [exact Rd9|]); [|exact Hb0].
      intros x Hx. apply in_app_or in Hx as [Hx|[<-|[]]]; [now apply Hb0|].
      now rewrite <- surjective_pairing.
    + split; [exact Rd1|intros f []].
Qed.

Lemma GetISuccedents_safe h g e S_ h' :
  g_ok h g -> GetISuccedents delta symbols iter_v g e h = Ret (S_, h') ->
  r_ok g h h'
  /\ (forall f, In f S_ -> has (h_graph h g) f = true).
Proof.
  intros Ok H. destruct e as [u v]. unfold GetISuccedents in H.
  apply bind_inv in H as (Su & h1 & H1 & H).
  apply ISuccedent_safe in H1; [|exact Ok].
  pose proof (rd_step _ _ _ _ (rd_init _ _ Ok) H1) as Rd1.
  apply bind_inv in H as (L & h2 & H2 & H3). injection H3 as <- <-.
  apply (foldM_inv (fun L' h' => rd g h h'
                                 /\ forall f, In f L' -> has (h_graph h g) f = true))
    in H2.
  - destruct H2 as [Rd2 HL]. split; [apply Rd2|].
    intros f Hf. apply set_of_In in Hf. now apply HL.
  - intros b u_ h3 b' h4 _ [Rd3 Hb] Hq.
    apply bind_inv in Hq as (I_ & h5 & Hq1 & Hq2).
    destruct (incomingEdgeOf_run h3 g u_ (ok_shape _ _ (proj2 Rd3))) as (h6 & R6 & Q6).
    rewrite R6 in Hq1. injection Hq1 as <- <-.
    pose proof (q_ok_rd _ _ _ _ Rd3 Q6) as Rd6.
    apply (foldM_inv (fun L' h' => rd g h h'
                        /\ forall f, In f L' -> has (h_graph h g) f = true)) in Hq2;
      [exact Hq2| |split; [exact Rd6|exact Hb]].
    intros b0 f h7 b0' h8 Hf [Rd7 Hb0] Hq.
    cbv zeta in Hq. apply bind_inv in Hq as (Sv & h9 & Hq3 & Hq4).
    apply ISuccedent_safe in Hq3; [|apply Rd7].
    pose proof (rd_step _ _ _ _ Rd7 Hq3) as Rd9.
    assert (Hst : has (h_graph h g) f = true /\ snd f = u_).
    { apply (in_list_has _ _ _ (ok_wf _ _ (proj2 Rd3))) in Hf as [E Hf].
      now rewrite (gsim_has _ _ f (r_sim _ _ _ (proj1 Rd3))) in Hf. }
    destruct Hst as [Hst Eu].
    destruct (memv (fst f) Sv || vertex_eqb v (fst f)
              || (Z.of_nat (vtier v) + 1 <? Z.of_nat (vtier (fst f))));
      injection Hq4 as <- <-; (split; [exact Rd9|]); [|exact Hb0].
    intros x Hx. apply in_app_or in Hx as [Hx|[<-|[]]]; [now apply Hb0|].
    now rewrite <- Eu, <- surjective_pairing.
  - split; [exact Rd1|intros f []].
Qed.

(* ------------------------------------------------------------------ *)
(** ** The cover edges are computed by reads *)

Lemma weakCeilingLoop_safe g v0 h0 fuel : forall Q Vv C h C' h',
  rd g h0 h ->
  weakCeilingLoop symbols iter_v fuel g v0 Q Vv C h = Ret (C', h') ->
  rd g h0 h'.
Proof.
  induction fuel as [|fuel IH]; intros Q Vv C h C' h' Rd H; [discriminate|].
  cbn [weakCeilingLoop] in H. destruct Q as [|u Q'].
  - injection H as _ <-. exact Rd.
  - destruct (memv u Vv); [eapply IH; eauto|].
    destruct (isFoldingNode_run h g u (ok_shape _ _ (proj2 Rd))) as (b & h1 & R1 & Q1).
    rewrite (bind_run _ _ _ _ _ R1) in H.
    pose proof (q_ok_rd _ _ _ _ Rd Q1) as Rd1.
    destruct (b || vertex_eqb u v0).
    + apply bind_inv in H as (P & h2 & H2 & H3).
      apply IPrecedent_safe in H2; [|apply Rd1].
      eapply IH; [|exact H3]. eapply rd_step; eauto.
    + destruct (incomingEdgeOf_run h1 g u (ok_shape _ _ (proj2 Rd1))) as (h2 & R2 & Q2).
      rewrite (bind_run _ _ _ _ _ R2) in H.
      eapply IH; [|exact H]. eapply q_ok_rd; eauto.
Qed.

Lemma GetWeakCeilingAdjacentEdges_safe g h0 fuel e0 Ef h C h' :
  rd g h0 h ->
  GetWeakCeilingAdjacentEdges symbols iter_v fuel g e0 Ef h = Ret (C, h') ->
  rd g h0 h'.
Proof.
  intros Rd H. destruct e0 as [u0 v0]. unfold GetWeakCeilingAdjacentEdges in H.
  eapply weakCeilingLoop_safe; eauto.
Qed.

(** The cover sets live outside the heap. *)
Lemma C_getitem_heap C i l C' h h' : C_getitem C i h = Ret ((l, C'), h') -> h' = h.
Proof. unfold C_getitem. intros H. now apply lift_inv in H as [_ ->]. Qed.

Lemma C_add_heap C i e C' h h' : C_add C i e h = Ret (C', h') -> h' = h.
Proof.
  unfold C_add. intros H. apply bind_inv in H as ([l C1] & h1 & H1 & H2).
  apply C_getitem_heap in H1 as ->. now injection H2 as _ <-.
Qed.

Lemma coverLoop_safe g Ef h0 fuel : forall Q C h C' h',
  rd g h0 h ->
  coverLoop symbols iter_v iter_e fuel g Ef Q C h = Ret (C', h') ->
  rd g h0 h'.
Proof.
  induction fuel as [|fuel IH]; intros Q C h C' h' Rd H; [discriminate|].
  cbn [coverLoop] in H. destruct Q as [|f Q'].
  - injection H as _ <-. exact Rd.
  - apply bind_inv in H as (Ec & h1 & H1 & H).
    apply (GetWeakCeilingAdjacentEdges_safe g h0 _ _ _ _ _ _ Rd) in H1.
    apply bind_inv in H as ([Q'' C''] & h2 & H2 & H).
    eapply IH; [|exact H].
    apply (foldM_inv (fun _ h' => rd g h0 h')) in H2; [exact H2| |exact H1].
    intros [Q1 C1] e h3 [Q2 C2] h4 _ Rd3 Hq.
    apply bind_inv in Hq as ([l C3] & h5 & Hq1 & Hq2).
    apply C_getitem_heap in Hq1 as ->.
    destruct (meme e l).
    + injection Hq2 as _ _ <-. exact Rd3.
    + apply bind_inv in Hq2 as (C4 & h6 & Hq2 & Hq3).
      apply C_add_heap in Hq2 as ->. injection Hq3 as _ _ <-. exact Rd3.
Qed.

Lemma collectLoop_safe g h0 fuel : forall C0 Q Ev C h C' h',
  rd g h0 h ->
  collectLoop fuel g C0 Q Ev C h = Ret (C', h') ->
  rd g h0 h'.
Proof.
  induction fuel as [|fuel IH]; intros C0 Q Ev C h C' h' Rd H; [discriminate|].
  cbn [collectLoop] in H. destruct (pop_right Q) as [[e Q']|].
  - destruct (meme e Ev); [eapply IH; eauto|].
    apply bind_inv in H as ([l0 C0'] & h1 & H1 & H).
    apply C_getitem_heap in H1 as ->.
    apply bind_inv in H as (C1 & h2 & H2 & H).
    assert (h2 = h) as ->.
    { destruct (meme e l0); [now apply C_add_heap in H2|now injection H2]. }
    destruct (incomingEdgeOf_run h g (fst e) (ok_shape _ _ (proj2 Rd))) as (h3 & R3 & Q3).
    rewrite (bind_run _ _ _ _ _ R3) in H.
    eapply IH; [|exact H]. eapply q_ok_rd; eauto.
  - injection H as _ <-. exact Rd.
Qed.

Lemma ComputeCoverEdges_safe g fuel Ef h C h' :
  g_ok h g ->
  ComputeCoverEdges symbols iter_v iter_e fuel g Ef h = Ret (C, h') ->
  rd g h h'.
Proof.
  intros Ok H. unfold ComputeCoverEdges in H.
  apply bind_inv in H as (C1 & h1 & H1 & H).
  apply (foldM_inv (fun _ h' => rd g h h')) in H1; [| |now apply rd_init].
  2:{ intros b a h2 b' h3 _ Rd Hq. apply C_add_heap in Hq as ->. exact Rd. }
  apply bind_inv in H as (C2 & h2 & H2 & H).
  apply (coverLoop_safe g Ef h _ _ _ _ _ _ H1) in H2.
  unfold collectEdgesWithPath in H.
  eapply collectLoop_safe; eauto.
Qed.

End Safe.

(* ================================================================== *)
(** * The feasible graph is a subgraph *)

Lemma pop_right_spec {A} (l : list A) x l' : pop_right l = Some (x, l') -> l = l' ++ [x].
Proof.
  unfold pop_right. destruct (rev l) as [|y r] eqn:E; [discriminate|].
  intros [= -> <-]. rewrite <- (rev_involutive l), E. reflexivity.
Qed.

Lemma g_ok_frame h h' g :
  h_graph h' g = h_graph h g ->
  h_vaxis h' (gV (h_graph h g)) = h_vaxis h (gV (h_graph h g)) ->
  g_ok h g -> g_ok h' g.
Proof. intros EG EV [a b c d e]. constructor; rewrite EG, ?EV; assumption. Qed.

Lemma stores_frame h h' g l : h_graph h' g = h_graph h g -> stores h g l -> stores h' g l.
Proof. intros EG [a b c]. constructor; rewrite ?EG; auto. Qed.

(** Graph [g] and its registry lie within the allocated part of the heap. *)
Definition alloc (h : heap) (g : gref) : Prop :=
  (g < h_ngraph h)%nat /\ (gV (h_graph h g) < h_nvaxis h)%nat.

(** The graph [G] that is read and the graph [H] that is built from it:
    two graphs with registries of their own, [H] storing edges of [G]
    only. *)
Record world (h : heap) (G H : gref) (l lH : list edge) : Prop := mk_world
  { w_G : g_ok h G;
    w_stG : stores h G l;
    w_aG : alloc h G;
    w_H : g_ok h H;
    w_stH : stores h H lH;
    w_aH : alloc h H;
    w_sub : incl lH l;
    w_ne : H <> G;
    w_nev : gV (h_graph h H) <> gV (h_graph h G) }.

Lemma world_read_G h h' G H l lH :
  world h G H l lH -> r_ok G h h' -> world h' G H l lH.
Proof.
  intros [a b [c1 c2] d e [f1 f2] i j k] R.
  pose proof (r_frame _ _ _ R) as F.
  assert (EH : h_graph h' H = h_graph h H) by (apply (fgv_graph _ _ _ _ F); exact j).
  assert (EV : h_vaxis h' (gV (h_graph h H)) = h_vaxis h (gV (h_graph h H)))
    by (apply (fgv_vaxis _ _ _ _ F); exact k).
  constructor; auto.
  - eapply r_ok_g_ok; eauto.
  - eapply r_ok_stores; eauto.
  - split; [now rewrite (fgv_ng _ _ _ _ F)|].
    now rewrite (gs_V _ _ (r_sim _ _ _ R)), (fgv_nv _ _ _ _ F).
  - now apply (g_ok_frame h h' H).
  - now apply (stores_frame h h' H).
  - split; [now rewrite (fgv_ng _ _ _ _ F)|]. now rewrite EH, (fgv_nv _ _ _ _ F).
  - now rewrite EH, (gs_V _ _ (r_sim _ _ _ R)).
Qed.

Lemma world_read_H h h' G H l lH :
  world h G H l lH -> r_ok H h h' -> world h' G H l lH.
Proof.
  intros [a b [c1 c2] d e [f1 f2] i j k] R.
  pose proof (r_frame _ _ _ R) as F.
  assert (EG : h_graph h' G = h_graph h G)
    by (apply (fgv_graph _ _ _ _ F); intros E; apply j; now symmetry).
  assert (EV : h_vaxis h' (gV (h_graph h G)) = h_vaxis h (gV (h_graph h G)))
    by (apply (fgv_vaxis _ _ _ _ F); intros E; apply k; now symmetry).
  constructor; auto.
  - now apply (g_ok_frame h h' G).
  - now apply (stores_frame h h' G).
  - split; [now rewrite (fgv_ng _ _ _ _ F)|]. now rewrite EG, (fgv_nv _ _ _ _ F).
  - eapply r_ok_g_ok; eauto.
  - eapply r_ok_stores; eauto.
  - split; [now rewrite (fgv_ng _ _ _ _ F)|].
    now rewrite (gs_V _ _ (r_sim _ _ _ R)), (fgv_nv _ _ _ _ F).
  - now rewrite EG, (gs_V _ _ (r_sim _ _ _ R)).
Qed.

Lemma world_q_H h h' G H l lH :
  world h G H l lH -> q_ok H h h' -> world h' G H l lH.
Proof.
  intros Wd Q. apply (world_read_H _ _ _ _ _ _ Wd).
  apply q_ok_r_ok; [exact Q|apply (w_H _ _ _ _ _ Wd)].
Qed.

Lemma world_q_G h h' G H l lH :
  world h G H l lH -> q_ok G h h' -> world h' G H l lH.
Proof.
  intros Wd Q. apply (world_read_G _ _ _ _ _ _ Wd).
  apply q_ok_r_ok; [exact Q|apply (w_G _ _ _ _ _ Wd)].
Qed.

Section Feasible.
Variable delta : string -> string -> string * string * Z.
Variable symbols : list string.
Variable iter_v : list vertex -> list vertex.
Variable iter_e : list edge -> list edge.

(** The stored edges are within the contract of [addEdge]. *)
Definition edges_ok (l : list edge) : Prop :=
  forall e, In e l -> adjacent e /\ In (vsymbol (fst e)) symbols /\ In (vsymbol (snd e)) symbols.

Lemma world_add_H h G H l lH e :
  world h G H l lH -> edges_ok l -> In e l ->
  exists h', addEdge symbols H e h = Ret (tt, h') /\ world h' G H l (set_add edge_eq_dec e lH).
Proof.
  intros [a b [c1 c2] d s [f1 f2] i j k] Hl He.
  destruct (Hl e He) as (Ha & Hu & Hv). destruct e as [u v]. cbn [fst snd] in *.
  destruct (addEdge_run symbols h H u v d Ha Hu Hv)
    as (h' & R & F & Ok' & HV & _).
  assert (Hop : op_okb symbols (Add (u, v)) = true).
  { cbn [op_okb]. rewrite !andb_true_iff. split; [split|];
      [now apply adjacentb_true|now apply over_alphabet_true|now apply over_alphabet_true]. }
  destruct (apply_op_stores symbols h H (Add (u, v)) lH d s Hop) as (h2 & R2 & _ & St2).
  change (addEdge symbols H (u, v) h = Ret (tt, h2)) in R2.
  rewrite R in R2. injection R2 as <-. cbn [replay] in St2.
  exists h'. split; [exact R|].
  assert (EG : h_graph h' G = h_graph h G)
    by (apply (fgv_graph _ _ _ _ F); intros E; apply j; now symmetry).
  assert (EV : h_vaxis h' (gV (h_graph h G)) = h_vaxis h (gV (h_graph h G)))
    by (apply (fgv_vaxis _ _ _ _ F); intros E; apply k; now symmetry).
  constructor; auto.
  - now apply (g_ok_frame h h' G).
  - now apply (stores_frame h h' G).
  - split; [now rewrite (fgv_ng _ _ _ _ F)|]. now rewrite EG, (fgv_nv _ _ _ _ F).
  - split; [now rewrite (fgv_ng _ _ _ _ F)|]. now rewrite HV, (fgv_nv _ _ _ _ F).
  - intros x Hx. apply set_add_In in Hx as [->|Hx]; auto.
  - now rewrite EG, HV.
Qed.

Lemma world_remove_H h G H l lH e :
  world h G H l lH -> near e ->
  exists h', removeEdge H e h = Ret (tt, h') /\ world h' G H l (set_remove e lH).
Proof.
  intros [a b [c1 c2] d s [f1 f2] i j k] Hn. destruct e as [u v].
  destruct (removeEdge_run h H u v (ok_shape _ _ d) (ok_wf _ _ d) Hn)
    as (h' & R & F & _ & _ & HV & _).
  assert (Hop : op_okb symbols (Remove (u, v)) = true) by now apply nearb_true.
  destruct (apply_op_stores symbols h H (Remove (u, v)) lH d s Hop) as (h2 & R2 & Ok2 & St2).
  change (removeEdge H (u, v) h = Ret (tt, h2)) in R2.
  rewrite R in R2. injection R2 as <-. cbn [replay] in St2.
  exists h'. split; [exact R|].
  assert (EG : h_graph h' G = h_graph h G)
    by (apply (fg_others _ _ _ F); intros E; apply j; now symmetry).
  constructor; auto.
  - apply (g_ok_frame h h' G); auto. apply (fg_vaxis _ _ _ F).
  - now apply (stores_frame h h' G).
  - split; [now rewrite (fg_ng _ _ _ F)|]. now rewrite EG, (fg_nv _ _ _ F).
  - split; [now rewrite (fg_ng _ _ _ F)|]. now rewrite HV, (fg_nv _ _ _ F).
  - intros x Hx. apply set_remove_In in Hx as [Hx _]. auto.
  - now rewrite EG, HV.
Qed.

Lemma world_out h G H l lH v :
  world h G H l lH ->
  exists h', outgoingEdgeOf G v h = Ret (out_list (h_graph h G) v, h')
             /\ world h' G H l lH /\ incl (out_list (h_graph h G) v) l.
Proof.
  intros Wd. destruct (outgoingEdgeOf_run h G v (ok_shape _ _ (w_G _ _ _ _ _ Wd)))
    as (h' & R & Q).
  exists h'. split; [exact R|]. split; [eapply world_q_G; eauto|].
  intros f Hf. apply (out_list_has _ _ _ (ok_wf _ _ (w_G _ _ _ _ _ Wd))) in Hf as [_ Hf].
  rewrite (st_has _ _ _ (w_stG _ _ _ _ _ Wd)) in Hf. now apply meme_In.
Qed.

Lemma world_in h G H l lH v :
  world h G H l lH ->
  exists h', incomingEdgeOf G v h = Ret (in_list (h_graph h G) v, h')
             /\ world h' G H l lH /\ incl (in_list (h_graph h G) v) l.
Proof.
  intros Wd. destruct (incomingEdgeOf_run h G v (ok_shape _ _ (w_G _ _ _ _ _ Wd)))
    as (h' & R & Q).
  exists h'. split; [exact R|]. split; [eapply world_q_G; eauto|].
  intros f Hf. apply (in_list_has _ _ _ (ok_wf _ _ (w_G _ _ _ _ _ Wd))) in Hf as [_ Hf].
  rewrite (st_has _ _ _ (w_stG _ _ _ _ _ Wd)) in Hf. now apply meme_In.
Qed.

Lemma reachableLoop_safe G H l V0 Ef (Hl : edges_ok l) fuel : forall T Er C h Er' C' h' lH,
  world h G H l lH -> incl T l ->
  reachableLoop delta symbols iter_v fuel G H V0 Ef T Er C h = Ret ((Er', C'), h') ->
  exists lH', world h' G H l lH'.
Proof.
  induction fuel as [|fuel IH]; intros T Er C h Er' C' h' lH Wd HT Hr; [discriminate|].
  cbn [reachableLoop] in Hr. destruct (pop_right T) as [[f T']|] eqn:EP.
  2:{ injection Hr as _ _ <-. eauto. }
  apply pop_right_spec in EP. subst T.
  assert (Hf : In f l) by (apply HT, in_or_app; right; now left).
  assert (HT' : incl T' l) by (intros x Hx; apply HT, in_or_app; now left).
  destruct (Hl f Hf) as (Ha & _).
  destruct (hasEdge_run h H f (ok_shape _ _ (w_H _ _ _ _ _ Wd)) (adjacent_near _ Ha))
    as (h1 & R1 & Q1).
  rewrite (bind_run _ _ _ _ _ R1) in Hr.
  pose proof (world_q_H _ _ _ _ _ _ Wd Q1) as Wd1.
  destruct (has (h_graph h H) f); [eapply IH; eauto|].
  destruct (world_add_H h1 G H l lH f Wd1 Hl Hf) as (h2 & R2 & Wd2).
  rewrite (bind_run _ _ _ _ _ R2) in Hr.
  destruct f as [u v].
  apply bind_inv in Hr as ([l0 C1] & h3 & H3 & Hr).
  apply C_getitem_heap in H3 as ->.
  (* succedent count *)
  apply bind_inv in Hr as (Er1 & h3 & H3 & Hr).
  assert (Wd3 : world h3 G H l (set_add edge_eq_dec (u, v) lH)).
  { destruct (negb (meme (u, v) l0)).
    - apply bind_inv in H3 as (n & h4 & H4 & H5). injection H5 as _ <-.
      apply CountISuccedents_safe in H4; [|apply Wd2].
      eapply world_read_G; eauto.
    - injection H3 as _ <-. exact Wd2. }
  (* precedent count *)
  apply bind_inv in Hr as (Er2 & h4 & H4 & Hr).
  assert (Wd4 : world h4 G H l (set_add edge_eq_dec (u, v) lH)).
  { destruct (0 <? Z.of_nat (vtier v)).
    - apply bind_inv in H4 as (n & h5 & H5 & H6). injection H6 as _ <-.
      apply CountIPrecedents_safe in H5; [|apply Wd3].
      eapply world_read_G; eauto.
    - injection H4 as _ <-. exact Wd3. }
  (* next edges *)
  apply bind_inv in Hr as ([T1 Er3] & h5 & H5 & Hr).
  assert (Wd5 : world h5 G H l (set_add edge_eq_dec (u, v) lH) /\ incl T1 l).
  { destruct (negb (meme (u, v) Ef)).
    - unfold getNextEdges in H5. cbn [snd] in H5.
      destruct (world_out h4 G H l _ v Wd4) as (h6 & R6 & Wd6 & Ho).
      rewrite (bind_run _ _ _ _ _ R6) in H5.
      destruct (out_list (h_graph h4 G) v) as [|x En];
        injection H5 as <- _ <-; (split; [exact Wd6|]); [exact HT'|].
      intros y Hy. apply in_app_or in Hy as [Hy|Hy]; auto.
    - injection H5 as <- _ <-. split; [exact Wd4|exact HT']. }
  destruct Wd5 as [Wd5 HT1].
  (* previous edges *)
  apply bind_inv in Hr as ([T2 Er4] & h6 & H6 & Hr).
  assert (Wd6 : world h6 G H l (set_add edge_eq_dec (u, v) lH) /\ incl T2 l).
  { destruct (negb (memv u V0)).
    - unfold getPrevEdges in H6. cbn [fst] in H6.
      destruct (world_in h5 G H l _ u Wd5) as (h7 & R7 & Wd7 & Hi).
      rewrite (bind_run _ _ _ _ _ R7) in H6.
      destruct (in_list (h_graph h5 G) u) as [|x Eb];
        injection H6 as <- _ <-; (split; [exact Wd7|]); [exact HT1|].
      intros y Hy. apply in_app_or in Hy as [Hy|Hy]; auto.
    - injection H6 as <- _ <-. split; [exact Wd5|exact HT1]. }
  destruct Wd6 as [Wd6 HT2].
  eapply IH; eauto.
Qed.

(** What is known of the graph the cascade returns. *)
Definition sub_of (h : heap) (G R_ : gref) (l : list edge) : Prop :=
  g_ok h G /\ stores h G l /\ R_ <> G
  /\ exists lR, g_ok h R_ /\ stores h R_ lR /\ incl lR l.

Lemma world_sub h G H l lH : world h G H l lH -> sub_of h G H l.
Proof.
  intros Wd. split; [apply Wd|]. split; [apply Wd|]. split; [apply Wd|].
  exists lH. split; [apply Wd|]. split; [apply Wd|apply Wd].
Qed.

Lemma world_fresh h G H l lH :
  world h G H l lH ->
  exists R_ h', DynamicComputationGraph h = Ret (R_, h') /\ sub_of h' G R_ l.
Proof.
  intros Wd. destruct (new_graph_run h) as (h' & R & HG & HV & OG & OV & _).
  exists (h_ngraph h), h'. split; [exact R|].
  destruct (new_graph_ok _ _ _ R) as (Ok' & Cn).
  destruct (w_aG _ _ _ _ _ Wd) as [A1 A2].
  assert (EG : h_graph h' G = h_graph h G) by (apply OG; lia).
  split; [|split; [|split]].
  - apply (g_ok_frame h h' G); [exact EG| |apply Wd]. apply OV. lia.
  - apply (stores_frame h h' G); [exact EG|apply Wd].
  - lia.
  - exists []. split; [exact Ok'|]. split; [|intros x []].
    constructor; [|constructor|exact Cn].
    intros e. rewrite HG. apply has_empty.
Qed.

Lemma cascadeLoop_safe G H l Ef fuel : forall T Ef_ C h R_ h' lH,
  world h G H l lH ->
  cascadeLoop delta symbols iter_v iter_e fuel H Ef T Ef_ C h = Ret (R_, h') ->
  sub_of h' G R_ l.
Proof.
  induction fuel as [|fuel IH]; intros T Ef_ C h R_ h' lH Wd H0; [discriminate|].
  cbn [cascadeLoop] in H0. destruct (pop_right T) as [[e T0]|].
  2:{ injection H0 as <- <-. eapply world_sub; eauto. }
  apply bind_inv in H0 as (b & h1 & H1 & H0).
  apply hasEdge_safe in H1 as (Hn & Hb & Q1);
    [|apply (w_H _ _ _ _ _ Wd)|apply (w_H _ _ _ _ _ Wd)].
  pose proof (world_q_H _ _ _ _ _ _ Wd Q1) as Wd1.
  destruct b; cbn [negb] in H0; [|eapply IH; eauto].
  assert (Hs : forall h2, world h2 G H l lH -> has (h_graph h2 H) e = true).
  { intros h2 Wd'. rewrite (st_has _ _ _ (w_stH _ _ _ _ _ Wd')).
    rewrite <- (st_has _ _ _ (w_stH _ _ _ _ _ Wd)). now symmetry. }
  (* merging test and next edges *)
  destruct (isMergingEdge_run h1 H e (ok_shape _ _ (w_H _ _ _ _ _ Wd1))
              (ok_wf _ _ (w_H _ _ _ _ _ Wd1)) (Hs _ Wd1)) as (h2 & R2 & Q2).
  rewrite (bind_run _ _ _ _ _ R2) in H0.
  pose proof (world_q_H _ _ _ _ _ _ Wd1 Q2) as Wd2.
  apply bind_inv in H0 as (T1 & h3 & H3 & H0).
  assert (Wd3 : world h3 G H l lH).
  { destruct (negb (merging (h_graph h1 H) e)).
    - unfold getNextEdges in H3.
      destruct (outgoingEdgeOf_run h2 H (snd e) (ok_shape _ _ (w_H _ _ _ _ _ Wd2)))
        as (h4 & R4 & Q4).
      rewrite (bind_run _ _ _ _ _ R4) in H3. injection H3 as _ <-.
      eapply world_q_H; eauto.
    - injection H3 as _ <-. exact Wd2. }
  (* succedent edges *)
  apply bind_inv in H0 as (Es & h4 & H4 & H0).
  apply GetISuccedents_safe in H4 as [RO4 _]; [|apply Wd3].
  pose proof (world_read_H _ _ _ _ _ _ Wd3 RO4) as Wd4.
  apply bind_inv in H0 as (T2 & h5 & H5 & H0).
  apply (foldM_inv (fun _ h' => world h' G H l lH)) in H5; [| |exact Wd4].
  2:{ intros b a h6 b' h7 _ Wd6 Hq.
      apply bind_inv in Hq as (n & h8 & Hq1 & Hq2). injection Hq2 as _ <-.
      apply CountIPrecedents_safe in Hq1; [|apply Wd6].
      eapply world_read_H; eauto. }
  (* precedent edges *)
  apply bind_inv in H0 as (Ep & h6 & H6 & H0).
  apply GetIPrecedents_safe in H6 as [RO6 _]; [|apply H5].
  pose proof (world_read_H _ _ _ _ _ _ H5 RO6) as Wd6.
  apply bind_inv in H0 as ([T3 C1] & h7 & H7 & H0).
  apply (foldM_inv (fun _ h' => world h' G H l lH)) in H7; [| |exact Wd6].
  2:{ intros [Tb Cb] a h8 [Tb' Cb'] h9 _ Wd8 Hq.
      apply bind_inv in Hq as ([l0 C'] & h10 & Hq1 & Hq2).
      apply C_getitem_heap in Hq1 as ->.
      destruct (meme a l0); [injection Hq2 as _ _ <-; exact Wd8|].
      apply bind_inv in Hq2 as (n & h11 & Hq2 & Hq3). injection Hq3 as _ _ <-.
      apply CountISuccedents_safe in Hq2; [|apply Wd8].
      eapply world_read_H; eauto. }
  (* splitting test and previous edges *)
  destruct (isSplittingEdge_run h7 H e (ok_shape _ _ (w_H _ _ _ _ _ H7))
              (ok_wf _ _ (w_H _ _ _ _ _ H7)) (Hs _ H7)) as (sp & h8 & R8 & Q8).
  rewrite (bind_run _ _ _ _ _ R8) in H0.
  pose proof (world_q_H _ _ _ _ _ _ H7 Q8) as Wd8.
  apply bind_inv in H0 as (T4 & h9 & H9 & H0).
  assert (Wd9 : world h9 G H l lH).
  { destruct (negb sp).
    - unfold getPrevEdges in H9.
      destruct (incomingEdgeOf_run h8 H (fst e) (ok_shape _ _ (w_H _ _ _ _ _ Wd8)))
        as (h10 & R10 & Q10).
      rewrite (bind_run _ _ _ _ _ R10) in H9. injection H9 as _ <-.
      eapply world_q_H; eauto.
    - injection H9 as _ <-. exact Wd8. }
  (* removal *)
  destruct (world_remove_H h9 G H l lH e Wd9 Hn) as (h10 & R10 & Wd10).
  rewrite (bind_run _ _ _ _ _ R10) in H0.
  destruct (meme e Ef_); [|eapply IH; eauto].
  destruct (set_remove e Ef_); [|eapply IH; eauto].
  destruct (world_fresh _ _ _ _ _ Wd10) as (R' & h11 & R11 & Sub).
  rewrite R11 in H0. injection H0 as <- <-. exact Sub.
Qed.

Hypothesis iter_e_In : forall l x, In x (iter_e l) -> In x l.

Lemma build_alloc ops g h :
  forallb (op_okb symbols) ops = true ->
  build symbols ops empty_heap = Ret (g, h) -> alloc h g.
Proof.
  intros Hall Hb. unfold build in Hb.
  destruct (new_graph_run empty_heap) as (h1 & R1 & HG & _ & _ & _ & N1 & N2).
  destruct (new_graph_ok _ _ _ R1) as (Ok1 & _).
  rewrite (bind_run _ _ _ _ _ R1) in Hb.
  assert (A1 : alloc h1 (h_ngraph empty_heap)).
  { split; [rewrite N1; auto|]. rewrite HG, N2. cbn [gV]. auto. }
  assert (Gen : forall ops h g, g_ok h g -> alloc h g ->
            forallb (op_okb symbols) ops = true ->
            forall h', run_ops symbols g ops h = Ret (tt, h') -> alloc h' g).
  { clear. induction ops as [|o ops IH]; intros h g Ok A Hall h' H; simpl in *.
    - unfold run_ops, forM_ in H. simpl in H. injection H as <-. exact A.
    - apply andb_true_iff in Hall as [Ho Hall].
      destruct (apply_op_ok symbols h g o Ok Ho) as (h1 & R1 & Ok1 & F & HV).
      unfold run_ops, forM_ in H. cbn [foldM] in H.
      rewrite (bind_run _ _ _ _ _ R1) in H.
      apply (IH h1 g Ok1); auto.
      destruct A as [A1 A2]. split; [now rewrite (fgv_ng _ _ _ _ F)|].
      now rewrite HV, (fgv_nv _ _ _ _ F). }
  apply bind_inv in Hb as ([] & h2 & H2 & H3). injection H3 as <- <-.
  eapply Gen; eauto.
Qed.

Lemma stored_edges_ok ops :
  forallb (op_okb symbols) ops = true -> edges_ok (replay ops []).
Proof.
  intros Hall e He. apply replay_In in He as [[]|He].
  rewrite forallb_forall in Hall. apply Hall in He. cbn [op_okb] in He.
  rewrite !andb_true_iff in He. destruct He as [[Ha Hu] Hv].
  split; [now apply adjacentb_true|]. split; now apply over_alphabet_true.
Qed.

Lemma ComputeFeasibleGraph_safe ops g h fuel V0 Ef Er_ R_ h' :
  forallb (op_okb symbols) ops = true ->
  build symbols ops empty_heap = Ret (g, h) ->
  ComputeFeasibleGraph delta symbols iter_v iter_e fuel g V0 Ef Er_ h = Ret (R_, h') ->
  sub_of h' g R_ (replay ops []).
Proof.
  intros Hall Hb H.
  destruct (build_stores symbols ops g h Hall Hb) as (Ok & St).
  pose proof (build_alloc ops g h Hall Hb) as Al.
  pose proof (stored_edges_ok ops Hall) as Hl.
  unfold ComputeFeasibleGraph in H.
  apply bind_inv in H as (C & h1 & H1 & H).
  apply ComputeCoverEdges_safe in H1 as [RO1 Ok1]; [|exact Ok].
  pose proof (r_ok_stores _ _ _ _ RO1 St) as St1.
  assert (Al1 : alloc h1 g).
  { destruct Al as [A1 A2]. pose proof (r_frame _ _ _ RO1) as F.
    split; [now rewrite (fgv_ng _ _ _ _ F)|].
    now rewrite (gs_V _ _ (r_sim _ _ _ RO1)), (fgv_nv _ _ _ _ F). }
  apply bind_inv in H as ([[H_ Er] C'] & h2 & H2 & H).
  unfold GetStepPendentEdgesWithReachableGraph in H2.
  apply bind_inv in H2 as (E0 & h3 & H3 & H2).
  (* the start edges *)
  apply (foldM_inv (fun E h' => (g_ok h' g /\ stores h' g (replay ops []) /\ alloc h' g)
                                /\ incl E (replay ops []))) in H3.
  2:{ intros b v0 h4 b' h5 _ [(Ok4 & St4 & Al4) Hb4] Hq.
      destruct (outgoingEdgeOf_run h4 g v0 (ok_shape _ _ Ok4)) as (h6 & R6 & Q6).
      rewrite (bind_run _ _ _ _ _ R6) in Hq. injection Hq as <- <-.
      pose proof (q_ok_r_ok _ _ _ Q6 (ok_vshape _ _ Ok4)) as RO6.
      split; [split; [eapply r_ok_g_ok; eauto|split; [eapply r_ok_stores; eauto|]]|].
      - destruct Al4 as [A1 A2]. pose proof (r_frame _ _ _ RO6) as F.
        split; [now rewrite (fgv_ng _ _ _ _ F)|].
        now rewrite (gs_V _ _ (r_sim _ _ _ RO6)), (fgv_nv _ _ _ _ F).
      - intros x Hx. apply set_union_In in Hx as [Hx|Hx]; auto.
        apply (out_list_has _ _ _ (ok_wf _ _ Ok4)) in Hx as [_ Hx].
        rewrite (st_has _ _ _ St4) in Hx. now apply meme_In. }
  2:{ split; [auto|intros x []]. }
  destruct H3 as [(Ok3 & St3 & Al3) HE0].
  (* the reachable graph *)
  apply bind_inv in H2 as (H0 & h4 & H4 & H2).
  destruct (new_graph_run h3) as (h5 & R5 & HG & HV & OG & OV & N1 & N2).
  rewrite R5 in H4. injection H4 as <- <-.
  destruct (new_graph_ok _ _ _ R5) as (OkH & CnH).
  destruct Al3 as [A1 A2].
  assert (EG : h_graph h5 g = h_graph h3 g) by (apply OG; lia).
  assert (Wd : world h5 g (h_ngraph h3) (replay ops []) []).
  { constructor.
    - apply (g_ok_frame h3 h5 g); [exact EG| |exact Ok3]. apply OV. lia.
    - now apply (stores_frame h3 h5 g).
    - split; [lia|]. rewrite EG. lia.
    - exact OkH.
    - constructor; [|constructor|exact CnH]. intros e. rewrite HG. apply has_empty.
    - split; [lia|]. rewrite HG. cbn [gV]. lia.
    - intros x [].
    - lia.
    - rewrite HG, EG. cbn [gV]. lia. }
  apply bind_inv in H2 as ([Er' C''] & h6 & H6 & H2). injection H2 as <- <- <- <-.
  apply (reachableLoop_safe g (h_ngraph h3) (replay ops []) V0 Ef Hl fuel _ _ _ _ _ _ _ _ Wd)
    in H6 as (lH & Wd6).
  2:{ intros x Hx. apply iter_e_In in Hx. auto. }
  exact (cascadeLoop_safe g (h_ngraph h3) (replay ops []) Ef fuel _ _ _ _ _ _ _ Wd6 H).
Qed.

(** X21.  Whenever [ComputeFeasibleGraph(G, V0, Ef)] returns, on a graph
    [G] built within the contract, the result is a graph other than [G]
    that stores only edges of [G], so that its size is at most that of
    [G]; and [G] itself stores the same edges as before. *)
Theorem X21_feasible_subgraph (ops : list op) (g : gref) (h h' : heap) (fuel : nat)
    (V0 : list vertex) (Ef Er_ : list edge) (R_ : gref) :
  forallb (op_okb symbols) ops = true ->
  build symbols ops empty_heap = Ret (g, h) ->
  ComputeFeasibleGraph delta symbols iter_v iter_e fuel g V0 Ef Er_ h = Ret (R_, h') ->
  R_ <> g
  /\ (forall e, nearb e = true ->
        exists b h'', hasEdge R_ e h' = Ret (b, h'')
                      /\ (b = true -> In e (replay ops [])))
  /\ (exists n, size R_ h' = Ret (n, h') /\ 0 <= n <= Z.of_nat (length (replay ops [])))
  /\ (forall e, nearb e = true ->
        exists h'', hasEdge g e h' = Ret (meme e (replay ops []), h''))
  /\ size g h' = Ret (Z.of_nat (length (replay ops [])), h').
Proof.
  intros Hall Hb H.
  destruct (ComputeFeasibleGraph_safe ops g h fuel V0 Ef Er_ R_ h' Hall Hb H)
    as (OkG & StG & Hne & lR & OkR & StR & Hsub).
  destruct (build_stores symbols ops g h Hall Hb) as (_ & [_ Hnd _]).
  split; [exact Hne|]. split; [|split; [|split]].
  - intros e He. apply nearb_true in He.
    destruct (hasEdge_run h' R_ e (ok_shape _ _ OkR) He) as (h2 & R2 & _).
    eexists _, h2. split; [exact R2|].
    rewrite (st_has _ _ _ StR). intros Hm. apply meme_In in Hm. auto.
  - exists (Z.of_nat (length lR)). split.
    + unfold size, get_graph, bind, ret. now rewrite (st_count _ _ _ StR).
    + split; [lia|]. apply inj_le. apply NoDup_incl_length; [apply (st_nd _ _ _ StR)|exact Hsub].
  - intros e He. apply nearb_true in He.
    destruct (hasEdge_run h' g e (ok_shape _ _ OkG) He) as (h2 & R2 & _).
    exists h2. now rewrite R2, (st_has _ _ _ StG).
  - unfold size, get_graph, bind, ret. now rewrite (st_count _ _ _ StG).
Qed.

End Feasible.

(** X21 on the graph of [Ex.G1_ops], from [Ex.v0] to the stored edge
    [(v0, a)]: the feasible graph is graph [1], of size [1]. *)
Lemma X21_feasible_subgraph_witness :
  ((forall l x, In x (Ex.iter_e l) -> In x l)
   /\ forallb (op_okb Ex.symbols) Ex.G1_ops = true
   /\ build Ex.symbols Ex.G1_ops empty_heap = Ret (O, Ex.G1_heap)
   /\ ComputeFeasibleGraph Ex.delta Ex.symbols Ex.iter_v Ex.iter_e 10 O
        [Ex.v0] [(Ex.v0, Ex.a)] [] Ex.G1_heap
      = Ret (1%nat,
             heap_after (ComputeFeasibleGraph Ex.delta Ex.symbols Ex.iter_v Ex.iter_e 10 O
                           [Ex.v0] [(Ex.v0, Ex.a)] []) Ex.G1_heap))
  /\ 1%nat <> O
  /\ (forall e, nearb e = true ->
        exists b h'',
          hasEdge 1%nat e (heap_after (ComputeFeasibleGraph Ex.delta Ex.symbols Ex.iter_v
                                     Ex.iter_e 10 O [Ex.v0] [(Ex.v0, Ex.a)] []) Ex.G1_heap)
          = Ret (b, h'')
          /\ (b = true -> In e (replay Ex.G1_ops []))).
Proof.
  assert (Hi : forall l x, In x (Ex.iter_e l) -> In x l) by (intros l x H; exact H).
  split; [split; [exact Hi|split; [|split]]; vm_compute; reflexivity|].
  destruct (X21_feasible_subgraph Ex.delta Ex.symbols Ex.iter_v Ex.iter_e Hi
              Ex.G1_ops O Ex.G1_heap
              (heap_after (ComputeFeasibleGraph Ex.delta Ex.symbols Ex.iter_v Ex.iter_e 10 O
                             [Ex.v0] [(Ex.v0, Ex.a)] []) Ex.G1_heap)
              10 [Ex.v0] [(Ex.v0, Ex.a)] [] 1%nat)
    as (A & B & _); [vm_compute; reflexivity|vm_compute; reflexivity
                     |vm_compute; reflexivity|].
  split; [exact A|exact B].
Defined.

(* ================================================================== *)
(** * A heap of graphs over the edges of one graph *)

(** Every graph of the heap is well formed and stores edges of [l0] only.
    Graphs may share a registry. *)
Definition heap_ok (h : heap) (l0 : list edge) : Prop :=
  forall k, (k < h_ngraph h)%nat ->
    g_ok h k /\ (gV (h_graph h k) < h_nvaxis h)%nat
    /\ exists lk, stores h k lk /\ incl lk l0.

(** ... and the graphs below [n] are allocated. *)
Definition hk (l0 : list edge) (n : nat) (h : heap) : Prop :=
  heap_ok h l0 /\ (n <= h_ngraph h)%nat.

Lemma hk_weaken l0 n m h : hk l0 n h -> (m <= n)%nat -> hk l0 m h.
Proof. intros [a b] Hm. split; [exact a|lia]. Qed.

Lemma hk_g_ok l0 n h k : hk l0 n h -> (k < n)%nat -> g_ok h k.
Proof. intros [a b] Hk. apply a. lia. Qed.

Lemma hk_stored l0 n h k e :
  hk l0 n h -> (k < n)%nat -> has (h_graph h k) e = true -> In e l0.
Proof.
  intros [a b] Hk He. destruct (a k) as (_ & _ & lk & St & Hsub); [lia|].
  apply Hsub. apply meme_In. now rewrite <- (st_has _ _ _ St).
Qed.

Lemma g_ok_parts h k :
  gshape (h_graph h k) -> gwf (h_graph h k) -> gsum (h_graph h k) ->
  vshape (h_vaxis h (gV (h_graph h k))) -> vwf (h_vaxis h (gV (h_graph h k))) ->
  g_ok h k.
Proof. intros. constructor; assumption. Qed.

(** A change of graph [k] and of its registry that keeps [k] well formed
    keeps the heap so. *)
Lemma hk_frame l0 n h h' k lk' :
  hk l0 n h -> (k < h_ngraph h)%nat ->
  frame_gv k (gV (h_graph h k)) h h' ->
  g_ok h' k -> gV (h_graph h' k) = gV (h_graph h k) ->
  stores h' k lk' -> incl lk' l0 ->
  hk l0 n h'.
Proof.
  intros [Hok Hn] Hk F Ok' HV St' Hsub.
  split; [|now rewrite (fgv_ng _ _ _ _ F)].
  intros j Hj. rewrite (fgv_ng _ _ _ _ F) in Hj. rewrite (fgv_nv _ _ _ _ F).
  destruct (Nat.eq_dec j k) as [->|Hjk].
  - split; [exact Ok'|]. split; [|eauto].
    rewrite HV. now apply (Hok k).
  - destruct (Hok j Hj) as (Okj & Aj & lj & Stj & Hlj).
    assert (EG : h_graph h' j = h_graph h j) by (apply (fgv_graph _ _ _ _ F); exact Hjk).
    split; [|split; [now rewrite EG|]].
    + destruct (Nat.eq_dec (gV (h_graph h j)) (gV (h_graph h k))) as [E|N].
      * apply g_ok_parts; rewrite EG; try apply Okj.
        -- rewrite E, <- HV. apply Ok'.
        -- rewrite E, <- HV. apply Ok'.
      * apply (g_ok_frame h h' j); auto. apply (fgv_vaxis _ _ _ _ F). exact N.
    + exists lj. split; [now apply (stores_frame h h' j)|exact Hlj].
Qed.

Lemma hk_read l0 n h h' k :
  hk l0 n h -> (k < h_ngraph h)%nat -> r_ok k h h' -> hk l0 n h'.
Proof.
  intros Hk Hlt R. destruct (proj1 Hk k Hlt) as (Ok & _ & lk & St & Hsub).
  apply (hk_frame l0 n h h' k lk Hk Hlt (r_frame _ _ _ R)); auto.
  - eapply r_ok_g_ok; eauto.
  - apply (gs_V _ _ (r_sim _ _ _ R)).
  - eapply r_ok_stores; eauto.
Qed.

Lemma hk_q l0 n h h' k :
  hk l0 n h -> (k < n)%nat -> q_ok k h h' -> hk l0 n h'.
Proof.
  intros Hk Hlt Q. apply (hk_read l0 n h h' k Hk); [destruct Hk; lia|].
  apply q_ok_r_ok; [exact Q|]. apply (hk_g_ok _ _ _ _ Hk Hlt).
Qed.

Lemma hk_r l0 n h h' k :
  hk l0 n h -> (k < n)%nat -> r_ok k h h' -> hk l0 n h'.
Proof. intros Hk Hlt R. apply (hk_read l0 n h h' k Hk); [destruct Hk; lia|exact R]. Qed.

Lemma hk_ngraph_r k h h' : r_ok k h h' -> h_ngraph h' = h_ngraph h.
Proof. intros R. apply (fgv_ng _ _ _ _ (r_frame _ _ _ R)). Qed.

Lemma size_run g h : size g h = Ret (gcount (h_graph h g), h).
Proof. reflexivity. Qed.

Lemma isMergingEdge_safe h g e b h' :
  gshape (h_graph h g) -> gwf (h_graph h g) ->
  isMergingEdge g e h = Ret (b, h') -> q_ok g h h' /\ has (h_graph h g) e = true.
Proof.
  intros Hs W H. pose proof H as H0. unfold isMergingEdge in H.
  apply bind_inv in H as (b0 & h1 & H1 & H2).
  apply hasEdge_safe in H1 as (_ & -> & _); auto.
  destruct (has (h_graph h g) e) eqn:E; [|discriminate].
  destruct (isMergingEdge_run h g e Hs W E) as (h3 & R3 & Q3).
  rewrite R3 in H0. injection H0 as _ <-. auto.
Qed.

Lemma isSplittingEdge_safe h g e b h' :
  gshape (h_graph h g) -> gwf (h_graph h g) ->
  isSplittingEdge g e h = Ret (b, h') -> q_ok g h h'.
Proof.
  intros Hs W H. pose proof H as H0. unfold isSplittingEdge in H.
  apply bind_inv in H as (b0 & h1 & H1 & H2).
  apply hasEdge_safe in H1 as (_ & -> & _); auto.
  destruct (has (h_graph h g) e) eqn:E; [|discriminate].
  destruct (isSplittingEdge_run h g e Hs W E) as (b3 & h3 & R3 & Q3).
  rewrite R3 in H0. injection H0 as _ <-. auto.
Qed.

Section HeapOfGraphs.
Variable delta : string -> string -> string * string * Z.
Variable symbols : list string.
Variable iter_v : list vertex -> list vertex.
Variable iter_e : list edge -> list edge.
Hypothesis iter_e_In : forall l x, In x (iter_e l) -> In x l.

Variable l0 : list edge.
Hypothesis l0_ok : edges_ok symbols l0.

Lemma hk_add n h k e :
  hk l0 n h -> (k < n)%nat -> In e l0 ->
  exists h', addEdge symbols k e h = Ret (tt, h') /\ hk l0 n h'.
Proof.
  intros Hk Hlt He. assert (Hlt' : (k < h_ngraph h)%nat) by (destruct Hk; lia).
  destruct (proj1 Hk k Hlt') as (Ok & _ & lk & St & Hsub).
  destruct (l0_ok e He) as (Ha & Hu & Hv). destruct e as [u v]. cbn [fst snd] in *.
  destruct (addEdge_run symbols h k u v Ok Ha Hu Hv) as (h' & R & F & Ok' & HV & _).
  assert (Hop : op_okb symbols (Add (u, v)) = true).
  { cbn [op_okb]. rewrite !andb_true_iff. split; [split|];
      [now apply adjacentb_true|now apply over_alphabet_true|now apply over_alphabet_true]. }
  destruct (apply_op_stores symbols h k (Add (u, v)) lk Ok St Hop) as (h2 & R2 & _ & St2).
  change (addEdge symbols k (u, v) h = Ret (tt, h2)) in R2.
  rewrite R in R2. injection R2 as <-. cbn [replay] in St2.
  exists h'. split; [exact R|].
  apply (hk_frame l0 n h h' k _ Hk Hlt' F Ok' HV St2).
  intros x Hx. apply set_add_In in Hx as [->|Hx]; auto.
Qed.

Lemma hk_remove n h k e :
  hk l0 n h -> (k < n)%nat -> near e ->
  exists h', removeEdge k e h = Ret (tt, h') /\ hk l0 n h'.
Proof.
  intros Hk Hlt Hn. assert (Hlt' : (k < h_ngraph h)%nat) by (destruct Hk; lia).
  destruct (proj1 Hk k Hlt') as (Ok & _ & lk & St & Hsub). destruct e as [u v].
  destruct (removeEdge_run h k u v (ok_shape _ _ Ok) (ok_wf _ _ Ok) Hn)
    as (h' & R & F & _ & _ & HV & _).
  assert (Hop : op_okb symbols (Remove (u, v)) = true) by now apply nearb_true.
  destruct (apply_op_stores symbols h k (Remove (u, v)) lk Ok St Hop)
    as (h2 & R2 & Ok2 & St2).
  change (removeEdge k (u, v) h = Ret (tt, h2)) in R2.
  rewrite R in R2. injection R2 as <-. cbn [replay] in St2.
  exists h'. split; [exact R|].
  apply (hk_frame l0 n h h' k _ Hk Hlt' (frame_g_gv _ _ _ _ F) Ok2 HV St2).
  intros x Hx. apply set_remove_In in Hx as [Hx _]. auto.
Qed.

Lemma heap_ok_new h :
  heap_ok h l0 ->
  exists h', DynamicComputationGraph h = Ret (h_ngraph h, h')
             /\ heap_ok h' l0 /\ h_ngraph h' = S (h_ngraph h)
             /\ gcount (h_graph h' (h_ngraph h)) = 0.
Proof.
  intros Hok. destruct (new_graph_run h) as (h' & R & HG & HV & OG & OV & N1 & N2).
  destruct (new_graph_ok _ _ _ R) as (Ok' & Cn).
  exists h'. split; [exact R|]. split; [|split; [exact N1|exact Cn]].
  intros j Hj. rewrite N1 in Hj. rewrite N2.
  destruct (Nat.eq_dec j (h_ngraph h)) as [->|Hne].
  - split; [exact Ok'|]. split; [rewrite HG; cbn [gV]; lia|].
    exists []. split; [|intros x []].
    constructor; [|constructor|exact Cn]. intros e. rewrite HG. apply has_empty.
  - destruct (Hok j) as (Okj & Aj & lj & Stj & Hlj); [lia|].
    assert (EG : h_graph h' j = h_graph h j) by (apply OG; exact Hne).
    split; [|split; [rewrite EG; lia|]].
    + apply (g_ok_frame h h' j); auto. apply OV. lia.
    + exists lj. split; [now apply (stores_frame h h' j)|exact Hlj].
Qed.

Lemma hk_new n h :
  hk l0 n h ->
  exists h', DynamicComputationGraph h = Ret (h_ngraph h, h')
             /\ hk l0 (S (h_ngraph h)) h'
             /\ gcount (h_graph h' (h_ngraph h)) = 0.
Proof.
  intros [Hok Hn]. destruct (heap_ok_new h Hok) as (h' & R & Hok' & N & Cn).
  exists h'. split; [exact R|]. split; [split; [exact Hok'|lia]|exact Cn].
Qed.

Lemma hk_out n h g v :
  hk l0 n h -> (g < n)%nat ->
  exists h', outgoingEdgeOf g v h = Ret (out_list (h_graph h g) v, h')
             /\ hk l0 n h' /\ incl (out_list (h_graph h g) v) l0.
Proof.
  intros Hk Hg. pose proof (hk_g_ok _ _ _ _ Hk Hg) as Ok.
  destruct (outgoingEdgeOf_run h g v (ok_shape _ _ Ok)) as (h' & R & Q).
  exists h'. split; [exact R|]. split; [eapply hk_q; eauto|].
  intros f Hf. apply (out_list_has _ _ _ (ok_wf _ _ Ok)) in Hf as [_ Hf].
  eapply hk_stored; eauto.
Qed.

Lemma hk_in n h g v :
  hk l0 n h -> (g < n)%nat ->
  exists h', incomingEdgeOf g v h = Ret (in_list (h_graph h g) v, h')
             /\ hk l0 n h' /\ incl (in_list (h_graph h g) v) l0.
Proof.
  intros Hk Hg. pose proof (hk_g_ok _ _ _ _ Hk Hg) as Ok.
  destruct (incomingEdgeOf_run h g v (ok_shape _ _ Ok)) as (h' & R & Q).
  exists h'. split; [exact R|]. split; [eapply hk_q; eauto|].
  intros f Hf. apply (in_list_has _ _ _ (ok_wf _ _ Ok)) in Hf as [_ Hf].
  eapply hk_stored; eauto.
Qed.

Lemma reachableLoop_hk n G H V0 Ef fuel : forall T Er C h r h',
  hk l0 n h -> (G < n)%nat -> (H < n)%nat -> incl T l0 ->
  reachableLoop delta symbols iter_v fuel G H V0 Ef T Er C h = Ret (r, h') ->
  hk l0 n h'.
Proof.
  induction fuel as [|fuel IH]; intros T Er C h r h' Hk HG HH HT Hr; [discriminate|].
  cbn [reachableLoop] in Hr. destruct (pop_right T) as [[f T']|] eqn:EP.
  2:{ injection Hr as _ <-. exact Hk. }
  apply pop_right_spec in EP. subst T.
  assert (Hf : In f l0) by (apply HT, in_or_app; right; now left).
  assert (HT' : incl T' l0) by (intros x Hx; apply HT, in_or_app; now left).
  destruct (l0_ok f Hf) as (Ha & _).
  destruct (hasEdge_run h H f (ok_shape _ _ (hk_g_ok _ _ _ _ Hk HH)) (adjacent_near _ Ha))
    as (h1 & R1 & Q1).
  rewrite (bind_run _ _ _ _ _ R1) in Hr.
  pose proof (hk_q _ _ _ _ _ Hk HH Q1) as Hk1.
  destruct (has (h_graph h H) f); [eapply IH; eauto|].
  destruct (hk_add n h1 H f Hk1 HH Hf) as (h2 & R2 & Hk2).
  rewrite (bind_run _ _ _ _ _ R2) in Hr.
  destruct f as [u v].
  apply bind_inv in Hr as ([lc C1] & h3 & H3 & Hr).
  apply C_getitem_heap in H3 as ->.
  apply bind_inv in Hr as (Er1 & h3 & H3 & Hr).
  assert (Hk3 : hk l0 n h3).
  { destruct (negb (meme (u, v) lc)).
    - apply bind_inv in H3 as (c & h4 & H4 & H5). injection H5 as _ <-.
      apply CountISuccedents_safe in H4; [|apply (hk_g_ok _ _ _ _ Hk2 HG)].
      apply (hk_r l0 n _ _ G Hk2 HG H4).
    - injection H3 as _ <-. exact Hk2. }
  apply bind_inv in Hr as (Er2 & h4 & H4 & Hr).
  assert (Hk4 : hk l0 n h4).
  { destruct (0 <? Z.of_nat (vtier v)).
    - apply bind_inv in H4 as (c & h5 & H5 & H6). injection H6 as _ <-.
      apply CountIPrecedents_safe in H5; [|apply (hk_g_ok _ _ _ _ Hk3 HG)].
      apply (hk_r l0 n _ _ G Hk3 HG H5).
    - injection H4 as _ <-. exact Hk3. }
  apply bind_inv in Hr as ([T1 Er3] & h5 & H5 & Hr).
  assert (Hk5 : hk l0 n h5 /\ incl T1 l0).
  { destruct (negb (meme (u, v) Ef)).
    - unfold getNextEdges in H5. cbn [snd] in H5.
      destruct (hk_out n h4 G v Hk4 HG) as (h6 & R6 & Hk6 & Ho).
      rewrite (bind_run _ _ _ _ _ R6) in H5.
      destruct (out_list (h_graph h4 G) v) as [|x En];
        injection H5 as <- _ <-; (split; [exact Hk6|]); [exact HT'|].
      intros y Hy. apply in_app_or in Hy as [Hy|Hy]; auto.
    - injection H5 as <- _ <-. split; [exact Hk4|exact HT']. }
  destruct Hk5 as [Hk5 HT1].
  apply bind_inv in Hr as ([T2 Er4] & h6 & H6 & Hr).
  assert (Hk6 : hk l0 n h6 /\ incl T2 l0).
  { destruct (negb (memv u V0)).
    - unfold getPrevEdges in H6. cbn [fst] in H6.
      destruct (hk_in n h5 G u Hk5 HG) as (h7 & R7 & Hk7 & Hi).
      rewrite (bind_run _ _ _ _ _ R7) in H6.
      destruct (in_list (h_graph h5 G) u) as [|x Eb];
        injection H6 as <- _ <-; (split; [exact Hk7|]); [exact HT1|].
      intros y Hy. apply in_app_or in Hy as [Hy|Hy]; auto.
    - injection H6 as <- _ <-. split; [exact Hk5|exact HT1]. }
  destruct Hk6 as [Hk6 HT2].
  eapply IH; eauto.
Qed.

Lemma cascadeLoop_hk n H Ef fuel : forall T Ef_ C h R_ h',
  hk l0 n h -> (H < n)%nat ->
  cascadeLoop delta symbols iter_v iter_e fuel H Ef T Ef_ C h = Ret (R_, h') ->
  exists n', (n <= n')%nat /\ hk l0 n' h' /\ (R_ < n')%nat.
Proof.
  induction fuel as [|fuel IH]; intros T Ef_ C h R_ h' Hk HH H0; [discriminate|].
  cbn [cascadeLoop] in H0. destruct (pop_right T) as [[e T0]|].
  2:{ injection H0 as <- <-. exists n. auto. }
  apply bind_inv in H0 as (b & h1 & H1 & H0).
  pose proof (hk_g_ok _ _ _ _ Hk HH) as Ok.
  apply hasEdge_safe in H1 as (Hn & Hb & Q1); [|apply Ok|apply Ok].
  pose proof (hk_q _ _ _ _ _ Hk HH Q1) as Hk1.
  destruct b; cbn [negb] in H0; [|eapply IH; eauto].
  apply bind_inv in H0 as (mg & h2 & H2 & H0).
  pose proof (hk_g_ok _ _ _ _ Hk1 HH) as Ok1.
  apply isMergingEdge_safe in H2 as [Q2 _]; [|apply Ok1|apply Ok1].
  pose proof (hk_q _ _ _ _ _ Hk1 HH Q2) as Hk2.
  apply bind_inv in H0 as (T1 & h3 & H3 & H0).
  assert (Hk3 : hk l0 n h3).
  { destruct (negb mg).
    - unfold getNextEdges in H3.
      destruct (hk_out n h2 H (snd e) Hk2 HH) as (h4 & R4 & Hk4 & _).
      rewrite (bind_run _ _ _ _ _ R4) in H3. injection H3 as _ <-. exact Hk4.
    - injection H3 as _ <-. exact Hk2. }
  apply bind_inv in H0 as (Es & h4 & H4 & H0).
  apply GetISuccedents_safe in H4 as [RO4 _]; [|apply (hk_g_ok _ _ _ _ Hk3 HH)].
  pose proof (hk_r _ _ _ _ _ Hk3 HH RO4) as Hk4.
  apply bind_inv in H0 as (T2 & h5 & H5 & H0).
  apply (foldM_inv (fun _ h' => hk l0 n h')) in H5; [| |exact Hk4].
  2:{ intros b a h6 b' h7 _ Hk6 Hq.
      apply bind_inv in Hq as (c & h8 & Hq1 & Hq2). injection Hq2 as _ <-.
      apply CountIPrecedents_safe in Hq1; [|apply (hk_g_ok _ _ _ _ Hk6 HH)].
      eapply hk_r; eauto. }
  apply bind_inv in H0 as (Ep & h6 & H6 & H0).
  apply GetIPrecedents_safe in H6 as [RO6 _]; [|apply (hk_g_ok _ _ _ _ H5 HH)].
  pose proof (hk_r _ _ _ _ _ H5 HH RO6) as Hk6.
  apply bind_inv in H0 as ([T3 C1] & h7 & H7 & H0).
  apply (foldM_inv (fun _ h' => hk l0 n h')) in H7; [| |exact Hk6].
  2:{ intros [Tb Cb] a h8 [Tb' Cb'] h9 _ Hk8 Hq.
      apply bind_inv in Hq as ([lc C'] & h10 & Hq1 & Hq2).
      apply C_getitem_heap in Hq1 as ->.
      destruct (meme a lc); [injection Hq2 as _ _ <-; exact Hk8|].
      apply bind_inv in Hq2 as (c & h11 & Hq2 & Hq3). injection Hq3 as _ _ <-.
      apply CountISuccedents_safe in Hq2; [|apply (hk_g_ok _ _ _ _ Hk8 HH)].
      eapply hk_r; eauto. }
  apply bind_inv in H0 as (sp & h8 & H8 & H0).
  pose proof (hk_g_ok _ _ _ _ H7 HH) as Ok7.
  apply isSplittingEdge_safe in H8; [|apply Ok7|apply Ok7].
  pose proof (hk_q _ _ _ _ _ H7 HH H8) as Hk8.
  apply bind_inv in H0 as (T4 & h9 & H9 & H0).
  assert (Hk9 : hk l0 n h9).
  { destruct (negb sp).
    - unfold getPrevEdges in H9.
      destruct (hk_in n h8 H (fst e) Hk8 HH) as (h10 & R10 & Hk10 & _).
      rewrite (bind_run _ _ _ _ _ R10) in H9. injection H9 as _ <-. exact Hk10.
    - injection H9 as _ <-. exact Hk8. }
  destruct (hk_remove n h9 H e Hk9 HH Hn) as (h10 & R10 & Hk10).
  rewrite (bind_run _ _ _ _ _ R10) in H0.
  destruct (meme e Ef_); [|eapply IH; eauto].
  destruct (set_remove e Ef_); [|eapply IH; eauto].
  destruct (hk_new n h10 Hk10) as (h11 & R11 & Hk11 & _).
  rewrite R11 in H0. injection H0 as <- <-.
  exists (S (h_ngraph h10)). split; [destruct Hk10; lia|]. split; [exact Hk11|lia].
Qed.

Lemma ComputeFeasibleGraph_hk n g fuel V0 Ef Er_ h R_ h' :
  hk l0 n h -> (g < n)%nat ->
  ComputeFeasibleGraph delta symbols iter_v iter_e fuel g V0 Ef Er_ h = Ret (R_, h') ->
  exists n', (n <= n')%nat /\ hk l0 n' h' /\ (R_ < n')%nat.
Proof.
  intros Hk Hg H. unfold ComputeFeasibleGraph in H.
  apply bind_inv in H as (C & h1 & H1 & H).
  apply ComputeCoverEdges_safe in H1 as [RO1 _]; [|apply (hk_g_ok _ _ _ _ Hk Hg)].
  pose proof (hk_r _ _ _ _ _ Hk Hg RO1) as Hk1.
  apply bind_inv in H as ([[H_ Er] C'] & h2 & H2 & H).
  unfold GetStepPendentEdgesWithReachableGraph in H2.
  apply bind_inv in H2 as (E0 & h3 & H3 & H2).
  apply (foldM_inv (fun E h' => hk l0 n h' /\ incl E l0)) in H3.
  2:{ intros b v0 h4 b' h5 _ [Hk4 Hb4] Hq.
      destruct (hk_out n h4 g v0 Hk4 Hg) as (h6 & R6 & Hk6 & Ho).
      rewrite (bind_run _ _ _ _ _ R6) in Hq. injection Hq as <- <-.
      split; [exact Hk6|].
      intros x Hx. apply set_union_In in Hx as [Hx|Hx]; auto. }
  2:{ split; [exact Hk1|intros x []]. }
  destruct H3 as [Hk3 HE0].
  apply bind_inv in H2 as (H0 & h4 & H4 & H2).
  destruct (hk_new n h3 Hk3) as (h5 & R5 & Hk5 & _).
  rewrite R5 in H4. injection H4 as <- <-.
  assert (Hn3 : (n <= h_ngraph h3)%nat) by (destruct Hk3; lia).
  apply bind_inv in H2 as ([Er' C''] & h6 & H6 & H2). injection H2 as <- <- <- <-.
  apply (reachableLoop_hk (S (h_ngraph h3)) g (h_ngraph h3) V0 Ef fuel _ _ _ _ _ _ Hk5)
    in H6; [|lia|lia|intros x Hx; apply iter_e_In in Hx; auto].
  apply (cascadeLoop_hk (S (h_ngraph h3)) (h_ngraph h3) Ef fuel _ _ _ _ _ _ H6) in H;
    [|lia].
  destruct H as (n' & Hn' & Hk' & HR). exists n'. split; [lia|]. auto.
Qed.

End HeapOfGraphs.

(* ------------------------------------------------------------------ *)
(** ** The walk search keeps the heap of graphs *)

Lemma get_graph_run g h : get_graph g h = Ret (h_graph h g, h).
Proof. reflexivity. Qed.

Lemma get_vaxis_run r h : get_vaxis r h = Ret (h_vaxis h r, h).
Proof. reflexivity. Qed.

(** [G.V = self.V]: the copy takes the registry of the graph it copies. *)
Lemma hk_share l0 n h g G :
  hk l0 n h -> (g < n)%nat -> (G < n)%nat ->
  exists h',
    put_graph G (mkG (gV (h_graph h g)) (gE (h_graph h G)) (gcount (h_graph h G))) h
    = Ret (tt, h')
    /\ hk l0 n h'.
Proof.
  intros [Hok Hn] Hg HG.
  eexists. split; [reflexivity|].
  set (h2 := mkH _ _ _ _).
  assert (EGG : h_graph h2 G
                = mkG (gV (h_graph h g)) (gE (h_graph h G)) (gcount (h_graph h G)))
    by (unfold h2; cbn [h_graph]; now rewrite Nat.eqb_refl).
  assert (EGo : forall j, j <> G -> h_graph h2 j = h_graph h j).
  { intros j Hj. unfold h2; cbn [h_graph]. apply Nat.eqb_neq in Hj. now rewrite Hj. }
  assert (EV : forall r, h_vaxis h2 r = h_vaxis h r) by reflexivity.
  split; [|exact Hn].
  intros j Hj. change (h_ngraph h2) with (h_ngraph h) in Hj.
  change (h_nvaxis h2) with (h_nvaxis h).
  destruct (Nat.eq_dec j G) as [->|Hne].
  - destruct (Hok G Hj) as (OkG & AG & lG & StG & HlG).
    destruct (Hok g) as (Okg & Ag & _); [lia|].
    split; [|split].
    + constructor; rewrite ?EV, EGG; cbn [gV].
      * exact (ok_shape _ _ OkG).
      * apply (gwf_el_eq (h_graph h G)); [reflexivity|apply OkG].
      * exact (ok_sum _ _ OkG).
      * apply Okg.
      * apply Okg.
    + rewrite EGG. cbn [gV]. exact Ag.
    + exists lG. split; [|exact HlG]. destruct StG as [a b c].
      constructor; rewrite ?EGG; auto.
  - destruct (Hok j Hj) as (Okj & Aj & lj & Stj & Hlj).
    pose proof (EGo j Hne) as EG.
    split; [|split].
    + apply (g_ok_frame h h2 j); auto.
    + now rewrite EG.
    + exists lj. split; [now apply (stores_frame h h2 j)|exact Hlj].
Qed.

Lemma scanEdgeIndex_hk l0 n g d fuel : forall m h r h',
  hk l0 n h -> (g < n)%nat -> scanEdgeIndex fuel g d m h = Ret (r, h') -> hk l0 n h'.
Proof.
  induction fuel as [|fuel IH]; intros m h r h' Hk Hg H; [discriminate|].
  cbn [scanEdgeIndex] in H.
  destruct (E_getitem_q h g m (ok_shape _ _ (hk_g_ok _ _ _ _ Hk Hg))) as (h1 & R1 & Q1).
  rewrite (bind_run _ _ _ _ _ R1) in H.
  pose proof (hk_q _ _ _ _ _ Hk Hg Q1) as Hk1.
  destruct (es_size _ =? 0); [eapply IH; eauto|].
  injection H as _ <-. exact Hk1.
Qed.

Lemma anyM_hk l0 n G l : forall h b h',
  hk l0 n h -> (G < n)%nat -> anyM (hasEdge G) l h = Ret (b, h') -> hk l0 n h'.
Proof.
  induction l as [|x l IH]; intros h b h' Hk HG H.
  - injection H as _ <-. exact Hk.
  - cbn [anyM] in H. apply bind_inv in H as (b0 & h1 & H1 & H).
    pose proof (hk_g_ok _ _ _ _ Hk HG) as Ok.
    apply hasEdge_safe in H1 as (_ & _ & Q1); [|apply Ok|apply Ok].
    pose proof (hk_q _ _ _ _ _ Hk HG Q1) as Hk1.
    destruct b0; [injection H as _ <-; exact Hk1|eapply IH; eauto].
Qed.

Lemma FindDisjointEdge_hk l0 n R W : forall h f h',
  hk l0 n h -> (R < n)%nat -> FindDisjointEdge R W h = Ret (f, h') ->
  hk l0 n h' /\ forall x, f = Some x -> In x W.
Proof.
  induction W as [|e W IH]; intros h f h' Hk HR H.
  - injection H as <- <-. split; [exact Hk|discriminate].
  - cbn [FindDisjointEdge] in H. apply bind_inv in H as (b0 & h1 & H1 & H).
    pose proof (hk_g_ok _ _ _ _ Hk HR) as Ok.
    apply hasEdge_safe in H1 as (_ & _ & Q1); [|apply Ok|apply Ok].
    pose proof (hk_q _ _ _ _ _ Hk HR Q1) as Hk1.
    destruct b0; cbn [negb] in H.
    + destruct (IH _ _ _ Hk1 HR H) as [Hk2 Hx]. split; [exact Hk2|].
      intros x E. right. now apply Hx.
    + injection H as <- <-. split; [exact Hk1|]. intros x [= <-]. now left.
Qed.

Lemma FindFirst_hk l0 n G W : forall h e h',
  hk l0 n h -> (G < n)%nat ->
  FindFirstMergingEdgeOrFinalEdge G W h = Ret (e, h') ->
  hk l0 n h' /\ In e W.
Proof.
  induction W as [|x W IH]; intros h e h' Hk HG H; [discriminate|].
  destruct W as [|y W].
  - injection H as <- <-. split; [exact Hk|now left].
  - change (bind (isMergingEdge G x)
              (fun b => if b then ret x else FindFirstMergingEdgeOrFinalEdge G (y :: W)) h
            = Ret (e, h')) in H.
    apply bind_inv in H as (b & h1 & H1 & H).
    pose proof (hk_g_ok _ _ _ _ Hk HG) as Ok.
    apply isMergingEdge_safe in H1 as [Q1 _]; [|apply Ok|apply Ok].
    pose proof (hk_q _ _ _ _ _ Hk HG Q1) as Hk1.
    destruct b.
    + injection H as <- <-. split; [exact Hk1|now left].
    + destruct (IH _ _ _ Hk1 HG H) as [Hk2 Hx]. split; [exact Hk2|now right].
Qed.

Section WalkSearchHeap.
Variable delta : string -> string -> string * string * Z.
Variable symbols : list string.
Variable iter_v : list vertex -> list vertex.
Variable iter_e : list edge -> list edge.
Hypothesis iter_e_In : forall l x, In x (iter_e l) -> In x l.

Variable l0 : list edge.
Hypothesis l0_ok : edges_ok symbols l0.

Lemma forM_add_hk n G (A : Type) (mk : A -> edge) l : forall h u h',
  hk l0 n h -> (G < n)%nat -> (forall a, In a l -> In (mk a) l0) ->
  forM_ l (fun a => addEdge symbols G (mk a)) h = Ret (u, h') -> hk l0 n h'.
Proof.
  intros h u h' Hk HG Hl H. unfold forM_ in H.
  apply (foldM_inv (fun _ h => hk l0 n h)) in H; [exact H| |exact Hk].
  intros [] a ha [] hb Ha Hka Hq.
  destruct (hk_add symbols l0 l0_ok n ha G (mk a) Hka HG (Hl a Ha)) as (hc & Rc & Hkc).
  rewrite Rc in Hq. injection Hq as <-. exact Hkc.
Qed.

Lemma getCopyedGraph_hk n g fuel h G h' :
  hk l0 n h -> (g < n)%nat ->
  getCopyedGraph symbols fuel g h = Ret (G, h') ->
  exists n', (n <= n')%nat /\ hk l0 n' h' /\ (G < n')%nat.
Proof.
  intros Hk Hg H. unfold getCopyedGraph in H.
  destruct (hk_new l0 n h Hk) as (h1 & R1 & Hk1 & _).
  rewrite (bind_run _ _ _ _ _ R1) in H.
  assert (Hn : (n <= h_ngraph h)%nat) by (destruct Hk; lia).
  set (N := h_ngraph h) in *.
  assert (Hg1 : (g < S N)%nat) by lia.
  assert (HN : (N < S N)%nat) by lia.
  exists (S N). split; [lia|]. split; [|].
  2:{ rewrite (bind_run _ _ _ _ _ (size_run g h1)) in H.
      destruct (gcount (h_graph h1 g) =? 0); [now injection H as <- _|].
      apply bind_inv in H as (a1 & x1 & _ & H). apply bind_inv in H as (a2 & x2 & _ & H).
      apply bind_inv in H as (a3 & x3 & _ & H). apply bind_inv in H as (a4 & x4 & _ & H).
      apply bind_inv in H as (a5 & x5 & _ & H). apply bind_inv in H as (a6 & x6 & _ & H).
      now injection H as <- _. }
  rewrite (bind_run _ _ _ _ _ (size_run g h1)) in H.
  destruct (gcount (h_graph h1 g) =? 0); [injection H as _ <-; exact Hk1|].
  rewrite (bind_run _ _ _ _ _ (get_graph_run g h1)) in H.
  rewrite (bind_run _ _ _ _ _ (get_graph_run N h1)) in H.
  destruct (hk_share l0 (S N) h1 g N Hk1 Hg1 HN) as (h2 & R2 & Hk2).
  rewrite (bind_run _ _ _ _ _ R2) in H.
  apply bind_inv in H as (m & h3 & H3 & H).
  unfold minEdgeIndex in H3.
  rewrite (bind_run _ _ _ _ _ (get_graph_run g h2)) in H3.
  rewrite (bind_run _ _ _ _ _ (get_vaxis_run _ h2)) in H3.
  apply (scanEdgeIndex_hk l0 (S N) g _ fuel _ _ _ _ Hk2 Hg1) in H3.
  apply bind_inv in H as (M_ & h4 & H4 & H).
  unfold maxEdgeIndex in H4.
  rewrite (bind_run _ _ _ _ _ (get_graph_run g h3)) in H4.
  rewrite (bind_run _ _ _ _ _ (get_vaxis_run _ h3)) in H4.
  apply (scanEdgeIndex_hk l0 (S N) g _ fuel _ _ _ _ H3 Hg1) in H4.
  apply bind_inv in H as (u & h5 & H5 & H). injection H as _ <-.
  unfold forM_ at 1 in H5.
  apply (foldM_inv (fun _ h => hk l0 (S N) h)) in H5; [exact H5| |exact H4].
  intros [] i hx [] hy _ Hkx Hq.
  pose proof (hk_g_ok _ _ _ _ Hkx Hg1) as Okx.
  destruct (E_getitem_q hx g i (ok_shape _ _ Okx)) as (h6 & R6 & Q6).
  rewrite (bind_run _ _ _ _ _ R6) in Hq.
  pose proof (hk_q _ _ _ _ _ Hkx Hg1 Q6) as Hk6.
  assert (Hel : forall el, In el (map snd (edges (slice_of (h_graph hx g) i))) ->
            (forall v, In v (right_incoming el) -> In (v, at_ el) l0)
            /\ (forall v, In v (right_outgoing el) -> In (at_ el, v) l0)).
  { intros el Hin. apply in_map_iff in Hin as ([k el'] & E & Hin). cbn [snd] in E. subst el'.
    destruct (ok_shape _ _ Okx i) as (_ & Hnd & Hat).
    pose proof (Hat k el Hin) as Hk'.
    assert (Eel : el_of (h_graph hx g) i k = el).
    { unfold el_of. now rewrite (dict_In_get _ _ vertex_eq_dec k el _ Hnd Hin). }
    rewrite Hk'. split; intros v Hv; apply (hk_stored l0 (S N) hx g _ Hkx Hg1).
    - apply (in_ri_has _ i); [apply Okx|]. now rewrite Eel.
    - apply (in_ro_has _ i); [apply Okx|]. now rewrite Eel. }
  unfold forM_ at 1 in Hq.
  apply (foldM_inv (fun _ h => hk l0 (S N) h)) in Hq; [exact Hq| |exact Hk6].
  intros [] el hz [] hw Hin Hkz Hq2. destruct (Hel el Hin) as [Hri Hro].
  apply bind_inv in Hq2 as ([] & h7 & H7 & H8).
  apply (forM_add_hk (S N) N vertex (fun v => (v, at_ el)) _ _ _ _ Hkz HN Hri) in H7.
  apply (forM_add_hk (S N) N vertex (fun v => (at_ el, v)) _ _ _ _ H7 HN Hro) in H8.
  exact H8.
Qed.

Lemma obsoleteLoop_hk n G_U G fuel : forall T Ev Eo h r h',
  hk l0 n h -> (G_U < n)%nat -> (G < n)%nat -> incl T l0 ->
  obsoleteLoop symbols iter_v fuel G_U G T Ev Eo h = Ret (r, h') -> hk l0 n h'.
Proof.
  induction fuel as [|fuel IH]; intros T Ev Eo h r h' Hk HU HG HT H; [discriminate|].
  cbn [obsoleteLoop] in H. destruct (pop_right T) as [[e T']|] eqn:EP.
  2:{ injection H as _ <-. exact Hk. }
  apply pop_right_spec in EP. subst T.
  assert (He : In e l0) by (apply HT, in_or_app; right; now left).
  assert (HT' : incl T' l0) by (intros x Hx; apply HT, in_or_app; now left).
  destruct (meme e Ev); [eapply IH; eauto|].
  destruct (l0_ok e He) as (Ha & _).
  destruct (hasEdge_run h G e (ok_shape _ _ (hk_g_ok _ _ _ _ Hk HG)) (adjacent_near _ Ha))
    as (h1 & R1 & Q1).
  rewrite (bind_run _ _ _ _ _ R1) in H.
  pose proof (hk_q _ _ _ _ _ Hk HG Q1) as Hk1.
  destruct (has (h_graph h G) e).
  - unfold getNextEdges in H.
    destruct (hk_out l0 n h1 G_U (snd e) Hk1 HU) as (h2 & R2 & Hk2 & Ho).
    rewrite (bind_run _ _ _ _ _ R2) in H.
    apply (IH _ _ _ _ _ _ Hk2 HU HG) in H; [exact H|].
    intros x Hx. apply in_app_or in Hx as [Hx|Hx]; auto.
  - destruct (0 <? Z.of_nat (vtier (snd e))); [|eapply IH; eauto].
    apply bind_inv in H as (c & h2 & H2 & H).
    apply CountIPrecedents_safe in H2; [|apply (hk_g_ok _ _ _ _ Hk1 HG)].
    pose proof (hk_r l0 n _ _ G Hk1 HG H2) as Hk2.
    destruct (0 <? c); [|eapply IH; eauto].
    destruct (hk_add symbols l0 l0_ok n h2 G e Hk2 HG He) as (h3 & R3 & Hk3).
    rewrite (bind_run _ _ _ _ _ R3) in H.
    eapply IH; eauto.
Qed.

Lemma AddFinalEdgesOfObsoleteWalks_hk n G_U G fuel V0 h Eo h' :
  hk l0 n h -> (G_U < n)%nat -> (G < n)%nat ->
  AddFinalEdgesOfObsoleteWalks symbols iter_v iter_e fuel G_U G V0 h = Ret (Eo, h') ->
  hk l0 n h'.
Proof.
  intros Hk HU HG H. unfold AddFinalEdgesOfObsoleteWalks in H.
  apply bind_inv in H as (ES & h1 & H1 & H).
  apply (foldM_inv (fun E h' => hk l0 n h' /\ incl E l0)) in H1.
  2:{ intros b v0 h4 b' h5 _ [Hk4 Hb4] Hq.
      destruct (hk_out l0 n h4 G_U v0 Hk4 HU) as (h6 & R6 & Hk6 & Ho).
      rewrite (bind_run _ _ _ _ _ R6) in Hq. injection Hq as <- <-.
      split; [exact Hk6|].
      intros x Hx. apply set_union_In in Hx as [Hx|Hx]; auto.
      apply set_of_In in Hx. auto. }
  2:{ split; [exact Hk|intros x []]. }
  destruct H1 as [Hk1 HE].
  apply (obsoleteLoop_hk n G_U G fuel _ _ _ _ _ _ Hk1 HU HG) in H; [exact H|].
  intros x Hx. apply iter_e_In in Hx. auto.
Qed.

Lemma PruneWalk_hk n G_U G fuel V0 Ef W po h G_ h' :
  hk l0 n h -> (G_U < n)%nat -> (G < n)%nat -> incl W l0 ->
  PruneWalk delta symbols iter_v iter_e fuel G_U G V0 Ef W po h = Ret (G_, h') ->
  exists n', (n <= n')%nat /\ hk l0 n' h' /\ (G_ < n')%nat.
Proof.
  intros Hk HU HG HW H. unfold PruneWalk in H.
  apply bind_inv in H as (e_ & h1 & H1 & H).
  apply (FindFirst_hk l0 n G W _ _ _ Hk HG) in H1 as [Hk1 He_].
  assert (Hl : In e_ l0) by auto.
  apply bind_inv in H as (Eo & h2 & H2 & H).
  assert (Hk2 : hk l0 n h2).
  { destruct po; [|injection H2 as _ <-; exact Hk1].
    apply (AddFinalEdgesOfObsoleteWalks_hk n G_U G fuel V0 _ _ _ Hk1 HU HG H2). }
  destruct (hk_remove symbols l0 n h2 G e_ Hk2 HG (adjacent_near _ (proj1 (l0_ok _ Hl))))
    as (h3 & R3 & Hk3).
  rewrite (bind_run _ _ _ _ _ R3) in H.
  apply bind_inv in H as (G1 & h4 & H4 & H).
  apply (ComputeFeasibleGraph_hk delta symbols iter_v iter_e iter_e_In l0 l0_ok
           n G fuel _ _ _ _ _ _ Hk3 HG) in H4.
  destruct H4 as (n1 & Hn1 & Hk4 & HG1).
  assert (HGn : (G < n1)%nat) by lia.
  destruct (hk_add symbols l0 l0_ok n1 h4 G e_ Hk4 HGn Hl) as (h5 & R5 & Hk5).
  rewrite (bind_run _ _ _ _ _ R5) in H.
  rewrite (bind_run _ _ _ _ _ (size_run G1 h5)) in H.
  apply bind_inv in H as (keep & h6 & H6 & H).
  assert (Hk6 : hk l0 n1 h6).
  { destruct (0 <? gcount (h_graph h5 G1)); [|injection H6 as _ <-; exact Hk5].
    apply (anyM_hk l0 n1 G _ _ _ _ Hk5 HGn H6). }
  apply bind_inv in H as ([] & h7 & H7 & H8). injection H8 as <- <-.
  exists n1. split; [exact Hn1|]. split; [|exact HG1].
  destruct keep; [|injection H7 as <-; exact Hk6].
  unfold forM_ in H7.
  apply (foldM_inv (fun _ h => hk l0 n1 h)) in H7; [exact H7| |exact Hk6].
  intros [] e ha [] hb _ Hka Hq. apply bind_inv in Hq as (b & hc & Hc & Hd).
  pose proof (hk_g_ok _ _ _ _ Hka HG1) as Oka.
  apply hasEdge_safe in Hc as (Hne & _ & Qc); [|apply Oka|apply Oka].
  pose proof (hk_q _ _ _ _ _ Hka HG1 Qc) as Hkc.
  destruct b; [|injection Hd as <-; exact Hkc].
  destruct (hk_remove symbols l0 n1 hc G1 e Hkc HG1 Hne) as (hd & Rd & Hkd).
  rewrite Rd in Hd. injection Hd as <-. exact Hkd.
Qed.

Lemma consistent_any h g S_ f b S' h' :
  g_ok h g -> consistent symbols g S_ f h = Ret ((b, S'), h') -> r_ok g h h'.
Proof.
  intros Ok. unfold consistent.
  destruct (Nat.eqb (vtier (snd f)) 0).
  - intros [= _ _ <-]. apply r_ok_refl; apply Ok.
  - intros H. apply bind_inv in H as (P & h1 & H1 & H).
    apply (IPrecedent_safe symbols _ _ _ _ _ Ok) in H1.
    apply bind_inv in H as ([x S1] & h2 & H2 & H).
    apply lift_inv in H2 as [_ ->].
    destruct P as [l|T]; [discriminate|]. destruct x as [k|]; [|discriminate].
    injection H as _ _ <-. exact H1.
Qed.

Lemma consistent_fold_hk n g N_ : forall h acc S_ EN S2 h',
  hk l0 n h -> (g < n)%nat ->
  foldM (fun '(acc, S2) f =>
           '(b, S3) <- consistent symbols g S2 f ;;
           ret (if b then acc ++ [f] else acc, S3))
        N_ (acc, S_) h = Ret ((EN, S2), h') ->
  hk l0 n h' /\ exists sub, EN = acc ++ sub /\ incl sub N_.
Proof.
  induction N_ as [|f N_ IH]; intros h acc S_ EN S2 h' Hk Hg H.
  - injection H as <- _ <-. split; [exact Hk|].
    exists []. rewrite app_nil_r. split; [reflexivity|intros x []].
  - cbn [foldM] in H. apply bind_inv in H as ([acc1 S1] & h1 & H1 & H2).
    apply bind_inv in H1 as ([b S3] & h0 & H0 & H1).
    injection H1 as <- <- <-.
    apply (consistent_any _ _ _ _ _ _ _ (hk_g_ok _ _ _ _ Hk Hg)) in H0.
    pose proof (hk_r l0 n _ _ g Hk Hg H0) as Hk0.
    destruct (IH h0 _ _ _ _ _ Hk0 Hg H2) as (Hk2 & sub & E & Hsub).
    split; [exact Hk2|].
    destruct b.
    + exists (f :: sub). rewrite E, <- app_assoc. split; [reflexivity|].
      intros x [<-|Hx]; [now left|right; now apply Hsub].
    + exists sub. split; [exact E|]. intros x Hx. right. now apply Hsub.
Qed.

Lemma walkLoop_hk n g fuel : forall h S_ e W W' h',
  hk l0 n h -> (g < n)%nat -> In e l0 ->
  walkLoop symbols fuel g S_ e W h = Ret (W', h') ->
  hk l0 n h'
  /\ exists X, W' = W ++ e :: X /\ chain (e :: X) /\ (forall f, In f X -> In f l0).
Proof.
  induction fuel as [|fuel IH]; intros h S_ e W W' h' Hk Hg He H; [discriminate|].
  destruct e as [u v]. cbn [walkLoop] in H.
  apply bind_inv in H as (S1 & h0 & H0 & H).
  apply lift_inv in H0 as [_ ->].
  unfold getNextEdges in H; cbn [snd] in H.
  pose proof (hk_g_ok _ _ _ _ Hk Hg) as Ok.
  destruct (hk_out l0 n h g v Hk Hg) as (h1 & R1 & Hk1 & Ho).
  rewrite (bind_run _ _ _ _ _ R1) in H.
  assert (Hout : forall f, In f (out_list (h_graph h g) v) -> fst f = v /\ In f l0).
  { intros f Hf. split; [|now apply Ho].
    now apply (out_list_has _ _ _ (ok_wf _ _ Ok)) in Hf as [E _]. }
  apply bind_inv in H as ([EN S2] & h2 & H2 & H).
  destruct (consistent_fold_hk n g _ _ _ _ _ _ _ Hk1 Hg H2) as (Hk2 & sub & E & Hsub).
  cbn [app] in E. subst EN.
  destruct sub as [|e' sub].
  - injection H as <- <-. split; [exact Hk2|].
    exists []. split; [reflexivity|]. split; [exact I|intros f []].
  - assert (He' : In e' (out_list (h_graph h g) v)) by (apply Hsub; now left).
    apply Hout in He' as [Ef Hl].
    destruct (IH h2 S2 e' (W ++ [(u, v)]) W' h' Hk2 Hg Hl H) as (Hk3 & X & EW & Hch & HX).
    split; [exact Hk3|].
    exists (e' :: X). split; [now rewrite EW, <- app_assoc|].
    split; [split; [now rewrite Ef|exact Hch]|].
    intros f [<-|Hf]; auto.
Qed.

(** What a walk of the search is: edges of [l0], consecutive edges sharing
    a vertex, the first one leaving the first start vertex. *)
Definition walk_of (V0 : list vertex) (W : list edge) : Prop :=
  incl W l0 /\ chain W
  /\ forall x W', W = x :: W' -> exists r, iter_v V0 = fst x :: r.

Lemma TakeArbitraryWalk_hk n g fuel V0 h W h' :
  hk l0 n h -> (g < n)%nat ->
  TakeArbitraryWalk symbols iter_v fuel g V0 h = Ret (W, h') ->
  hk l0 n h' /\ walk_of V0 W.
Proof.
  intros Hk Hg H. unfold TakeArbitraryWalk in H.
  destruct (iter_v V0) as [|v0 r] eqn:EV; [discriminate|].
  pose proof (hk_g_ok _ _ _ _ Hk Hg) as Ok.
  destruct (hk_out l0 n h g v0 Hk Hg) as (h1 & R1 & Hk1 & Ho).
  rewrite (bind_run _ _ _ _ _ R1) in H.
  destruct (out_list (h_graph h g) v0) as [|e l] eqn:EO.
  - injection H as <- <-. split; [exact Hk1|].
    split; [intros x []|]. split; [exact I|discriminate].
  - assert (He : In e (out_list (h_graph h g) v0)) by (rewrite EO; now left).
    apply (out_list_has _ _ _ (ok_wf _ _ Ok)) in He as [Ef _].
    assert (Hl : In e l0) by (apply Ho; now left).
    destruct (walkLoop_hk n g fuel h1 _ e [] W h' Hk1 Hg Hl H)
      as (Hk2 & X & EW & Hch & HX).
    cbn [app] in EW. subst W. split; [exact Hk2|].
    split; [intros f [<-|Hf]; auto|]. split; [exact Hch|].
    intros x W' [= <- _]. exists r. unfold walk_of. rewrite EV. now rewrite Ef.
Qed.

(** What the search for a feasible or disjoint edge hands back: a walk, and
    an edge that lies on it. *)
Definition found (V0 : list vertex) (e : option edge) (W : option (list edge)) : Prop :=
  (forall w, W = Some w -> walk_of V0 w)
  /\ (forall e', e = Some e' -> exists w, W = Some w /\ In e' w).

Lemma found_none V0 : found V0 None None.
Proof. split; discriminate. Qed.

Lemma feasibleOrDisjointLoop_hk G_U R V0 ef fuel : forall n G h e W h',
  hk l0 n h -> (G_U < n)%nat -> (G < n)%nat -> (R < n)%nat ->
  feasibleOrDisjointLoop delta symbols iter_v iter_e fuel G_U G R V0 ef h
  = Ret ((e, W), h') ->
  (exists n', (n <= n')%nat /\ hk l0 n' h') /\ found V0 e W.
Proof.
  induction fuel as [|fuel IH]; intros n G h e W h' Hk HU HG HR H; [discriminate|].
  cbn [feasibleOrDisjointLoop] in H.
  rewrite (bind_run _ _ _ _ _ (size_run G h)) in H.
  destruct (negb (0 <? gcount (h_graph h G))).
  { injection H as <- <- <-. split; [exists n; auto|apply found_none]. }
  apply bind_inv in H as (W1 & h1 & H1 & H).
  apply (TakeArbitraryWalk_hk n G _ V0 _ _ _ Hk HG) in H1 as [Hk1 HW].
  destruct W1 as [|x W1].
  { injection H as <- <- <-. split; [exists n; auto|apply found_none]. }
  destruct (meme ef (x :: W1)) eqn:Em.
  { injection H as <- <- <-. split; [exists n; auto|].
    split; [intros w [= <-]; exact HW|].
    intros e' [= <-]. exists (x :: W1). split; [reflexivity|now apply meme_In]. }
  rewrite (bind_run _ _ _ _ _ (size_run R h1)) in H.
  destruct (0 <? gcount (h_graph h1 R)).
  { apply bind_inv in H as (f & h2 & H2 & H). injection H as <- <- <-.
    apply (FindDisjointEdge_hk l0 n R _ _ _ _ Hk1 HR) in H2 as [Hk2 Hf].
    split; [exists n; auto|].
    split; [intros w [= <-]; exact HW|].
    intros e' E. exists (x :: W1). split; [reflexivity|now apply Hf]. }
  apply bind_inv in H as (H_ & h2 & H2 & H).
  apply (PruneWalk_hk n G_U G _ V0 _ _ _ _ _ _ Hk1 HU HG (proj1 HW)) in H2.
  destruct H2 as (n1 & Hn1 & Hk2 & HH).
  rewrite (bind_run _ _ _ _ _ (size_run H_ h2)) in H.
  destruct (gcount (h_graph h2 H_) =? 0).
  - apply bind_inv in H as ([] & h3 & H3 & H).
    apply (forM_add_hk n1 R edge (fun e => e) _ _ _ _ Hk2) in H3; [|lia|exact (proj1 HW)].
    apply bind_inv in H as (G' & h4 & H4 & H).
    apply (PruneWalk_hk n1 G_U G _ V0 _ _ _ _ _ _ H3) in H4;
      [|lia|lia|exact (proj1 HW)].
    destruct H4 as (n2 & Hn2 & Hk4 & HG').
    destruct (IH n2 G' h4 e W h' Hk4) as [(n3 & Hn3 & Hk') Hf]; [lia|exact HG'|lia|exact H|].
    split; [exists n3; split; [lia|exact Hk']|exact Hf].
  - destruct (IH n1 H_ h2 e W h' Hk2) as [(n3 & Hn3 & Hk') Hf]; [lia|exact HH|lia|exact H|].
    split; [exists n3; split; [lia|exact Hk']|exact Hf].
Qed.

Lemma FindFeasibleOrDisjointEdge_hk n G_U G V0 ef fuel h e W h' :
  hk l0 n h -> (G_U < n)%nat -> (G < n)%nat ->
  FindFeasibleOrDisjointEdge delta symbols iter_v iter_e fuel G_U G V0 ef h
  = Ret ((e, W), h') ->
  (exists n', (n <= n')%nat /\ hk l0 n' h') /\ found V0 e W.
Proof.
  intros Hk HU HG H. unfold FindFeasibleOrDisjointEdge in H.
  apply bind_inv in H as (G' & h1 & H1 & H).
  apply (getCopyedGraph_hk n G _ _ _ _ Hk HG) in H1 as (n1 & Hn1 & Hk1 & HG').
  destruct (hk_new l0 n1 h1 Hk1) as (h2 & R2 & Hk2 & _).
  rewrite (bind_run _ _ _ _ _ R2) in H.
  assert (Hn : (n1 <= h_ngraph h1)%nat) by (destruct Hk1; lia).
  destruct (feasibleOrDisjointLoop_hk G_U (h_ngraph h1) V0 ef fuel _ G' h2 e W h' Hk2)
    as [(n3 & Hn3 & Hk') Hf]; [lia|lia|lia|exact H|].
  split; [exists n3; split; [lia|exact Hk']|exact Hf].
Qed.

Lemma verifyLoop_hk G0 V0 ef fuel : forall n G h W h',
  hk l0 n h -> (G0 < n)%nat -> (G < n)%nat ->
  verifyLoop delta symbols iter_v iter_e fuel G0 G V0 ef h = Ret (Some W, h') ->
  walk_of V0 W /\ In ef W.
Proof.
  induction fuel as [|fuel IH]; intros n G h W h' Hk H0 HG H; [discriminate|].
  cbn [verifyLoop] in H.
  rewrite (bind_run _ _ _ _ _ (size_run G h)) in H.
  destruct (negb (0 <? gcount (h_graph h G))); [discriminate|].
  apply bind_inv in H as ([e W1] & h1 & H1 & H).
  apply (FindFeasibleOrDisjointEdge_hk n G0 G V0 ef _ _ _ _ _ Hk H0 HG) in H1.
  destruct H1 as [(n1 & Hn1 & Hk1) [HW He]].
  destruct e as [e'|]; [|discriminate].
  destruct (He e' eq_refl) as (w & -> & Hin).
  destruct (meme e' [ef]) eqn:Em.
  - injection H as <- _. apply meme_In in Em as [<-|[]].
    split; [now apply HW|exact Hin].
  - assert (Hl : In e' l0) by (apply (proj1 (HW w eq_refl)); exact Hin).
    destruct (hk_remove symbols l0 n1 h1 G e' Hk1 ltac:(lia)
                (adjacent_near _ (proj1 (l0_ok _ Hl)))) as (h2 & R2 & Hk2).
    rewrite (bind_run _ _ _ _ _ R2) in H.
    apply bind_inv in H as (G' & h3 & H3 & H).
    apply (ComputeFeasibleGraph_hk delta symbols iter_v iter_e iter_e_In l0 l0_ok
             n1 G _ _ _ _ _ _ _ Hk2 ltac:(lia)) in H3.
    destruct H3 as (n2 & Hn2 & Hk3 & HG').
    apply (IH n2 G' h3 W h' Hk3); [lia|exact HG'|exact H].
Qed.

End WalkSearchHeap.

(* ------------------------------------------------------------------ *)
(** ** The walk that [VerifyExistenceOfWalk] returns *)

Module Ex3.
Import Ex.
Definition G4_ops : list op := [Add (v0, a); Add (a, b)].
Definition G4_heap : heap := heap_of (build symbols G4_ops).
End Ex3.

Section Verify.
Variable delta : string -> string -> string * string * Z.
Variable symbols : list string.
Variable iter_v : list vertex -> list vertex.
Variable iter_e : list edge -> list edge.
Hypothesis iter_e_In : forall l x, In x (iter_e l) -> In x l.

Lemma run_ops_ngraph ops : forall h g h',
  g_ok h g -> forallb (op_okb symbols) ops = true ->
  run_ops symbols g ops h = Ret (tt, h') -> h_ngraph h' = h_ngraph h.
Proof.
  induction ops as [|o ops IH]; intros h g h' Ok Hall H.
  - unfold run_ops, forM_ in H. cbn [foldM] in H. now injection H as <-.
  - cbn [forallb] in Hall. apply andb_true_iff in Hall as [Ho Hall].
    destruct (apply_op_ok symbols h g o Ok Ho) as (h1 & R1 & Ok1 & F & _).
    unfold run_ops, forM_ in H. cbn [foldM] in H.
    rewrite (bind_run _ _ _ _ _ R1) in H.
    rewrite (IH h1 g h' Ok1 Hall H). apply (fgv_ng _ _ _ _ F).
Qed.

(** The heap of a built graph holds that graph alone. *)
Lemma build_hk ops g h :
  forallb (op_okb symbols) ops = true ->
  build symbols ops empty_heap = Ret (g, h) ->
  hk (replay ops []) (S g) h.
Proof.
  intros Hall Hb.
  destruct (build_stores symbols ops g h Hall Hb) as (Ok & St).
  destruct (build_alloc symbols ops g h Hall Hb) as (A1 & A2).
  assert (NG : g = O /\ h_ngraph h = 1%nat).
  { unfold build in Hb.
    destruct (new_graph_run empty_heap) as (h1 & R1 & _ & _ & _ & _ & N1 & _).
    destruct (new_graph_ok _ _ _ R1) as (Ok1 & _).
    rewrite (bind_run _ _ _ _ _ R1) in Hb.
    apply bind_inv in Hb as ([] & h2 & H2 & H3). injection H3 as <- <-.
    split; [reflexivity|].
    rewrite (run_ops_ngraph ops h1 _ h2 Ok1 Hall H2), N1. reflexivity. }
  destruct NG as [-> NG].
  split; [|lia].
  intros k Hk. assert (k = O) by lia. subst k.
  split; [exact Ok|]. split; [exact A2|].
  exists (replay ops []). split; [exact St|apply incl_refl].
Qed.

(** X22.  Whenever [VerifyExistenceOfWalk(G0, V0, ef)] returns a walk, on a
    graph built within the contract, the walk passes through [ef], each of
    its edges is an edge [G0] stored when the call was made, consecutive
    edges share a vertex, and the first edge leaves the first start
    vertex. *)
Theorem X22_verified_walk (ops : list op) (g : gref) (h h' : heap) (fuel : nat)
    (V0 : list vertex) (ef : edge) (W : list edge) :
  forallb (op_okb symbols) ops = true ->
  build symbols ops empty_heap = Ret (g, h) ->
  VerifyExistenceOfWalk delta symbols iter_v iter_e fuel g V0 ef h = Ret (Some W, h') ->
  In ef W
  /\ (forall e, In e W -> In e (replay ops []))
  /\ chain W
  /\ exists x W' r, W = x :: W' /\ iter_v V0 = fst x :: r.
Proof.
  intros Hall Hb H.
  pose proof (build_hk ops g h Hall Hb) as Hk.
  pose proof (stored_edges_ok symbols ops Hall) as Hl.
  unfold VerifyExistenceOfWalk in H.
  apply bind_inv in H as (G & h1 & H1 & H).
  apply (ComputeFeasibleGraph_hk delta symbols iter_v iter_e iter_e_In _ Hl
           (S g) g fuel _ _ _ _ _ _ Hk (Nat.lt_succ_diag_r g)) in H1.
  destruct H1 as (n1 & Hn1 & Hk1 & HG).
  destruct (verifyLoop_hk delta symbols iter_v iter_e iter_e_In _ Hl g V0 ef fuel
              n1 G h1 W h' Hk1 ltac:(lia) HG H) as [(Hsub & Hch & Hhd) Hin].
  split; [exact Hin|]. split; [exact Hsub|]. split; [exact Hch|].
  destruct W as [|x W']; [destruct Hin|].
  destruct (Hhd x W' eq_refl) as [r Hr]. exists x, W', r. auto.
Qed.

End Verify.

(** X22 on the graph of [Ex3.G4_ops], the start vertex [Ex.v0] and the target
    edge [(Ex.a, Ex.b)]: the walk returned has two edges. *)
Lemma X22_verified_walk_witness :
  ((forall l x, In x (Ex.iter_e l) -> In x l)
   /\ forallb (op_okb Ex.symbols) Ex3.G4_ops = true
   /\ build Ex.symbols Ex3.G4_ops empty_heap = Ret (O, Ex3.G4_heap)
   /\ VerifyExistenceOfWalk Ex.delta Ex.symbols Ex.iter_v Ex.iter_e 20 O
        [Ex.v0] (Ex.a, Ex.b) Ex3.G4_heap
      = Ret (Some [(Ex.v0, Ex.a); (Ex.a, Ex.b)],
             heap_after (VerifyExistenceOfWalk Ex.delta Ex.symbols Ex.iter_v Ex.iter_e 20 O
                           [Ex.v0] (Ex.a, Ex.b)) Ex3.G4_heap))
  /\ In (Ex.a, Ex.b) [(Ex.v0, Ex.a); (Ex.a, Ex.b)]
  /\ (forall e, In e [(Ex.v0, Ex.a); (Ex.a, Ex.b)] -> In e (replay Ex3.G4_ops []))
  /\ chain [(Ex.v0, Ex.a); (Ex.a, Ex.b)].
Proof.
  assert (Hi : forall l x, In x (Ex.iter_e l) -> In x l) by (intros l x H; exact H).
  split; [split; [exact Hi|split; [|split]]; vm_compute; reflexivity|].
  destruct (X22_verified_walk Ex.delta Ex.symbols Ex.iter_v Ex.iter_e Hi
              Ex3.G4_ops O Ex3.G4_heap
              (heap_after (VerifyExistenceOfWalk Ex.delta Ex.symbols Ex.iter_v Ex.iter_e
                             20 O [Ex.v0] (Ex.a, Ex.b)) Ex3.G4_heap)
              20 [Ex.v0] (Ex.a, Ex.b) [(Ex.v0, Ex.a); (Ex.a, Ex.b)])
    as (A & B & C & _); [vm_compute; reflexivity|vm_compute; reflexivity
                         |vm_compute; reflexivity|].
  split; [exact A|]. split; [exact B|exact C].
Defined.

(* ------------------------------------------------------------------ *)
(** ** [getCopyedGraph] *)

Lemma scanEdgeIndex_rd g h0 d fuel : forall m h r h',
  rd g h0 h -> scanEdgeIndex fuel g d m h = Ret (r, h') -> rd g h0 h'.
Proof.
  induction fuel as [|fuel IH]; intros m h r h' Rd H; [discriminate|].
  cbn [scanEdgeIndex] in H.
  destruct (E_getitem_q h g m (ok_shape _ _ (proj2 Rd))) as (h1 & R1 & Q1).
  rewrite (bind_run _ _ _ _ _ R1) in H.
  pose proof (q_ok_rd _ _ _ _ Rd Q1) as Rd1.
  destruct (es_size _ =? 0); [eapply IH; eauto|].
  injection H as _ <-. exact Rd1.
Qed.

(** While [g] is copied into [N]: both are graphs of the heap, [g] stores
    [l0], and both use the registry [r]. *)
Definition copying (l0 : list edge) (g N : gref) (r : nat) (h : heap) : Prop :=
  hk l0 (S N) h /\ stores h g l0 /\ gV (h_graph h N) = r /\ gV (h_graph h g) = r.

Lemma copying_read l0 g N r h h' :
  (g < N)%nat -> copying l0 g N r h -> r_ok g h h' -> copying l0 g N r h'.
Proof.
  intros Hg (Hk & St & VN & Vg) R.
  split; [apply (hk_r l0 (S N) h h' g Hk); [lia|exact R]|].
  split; [now apply (r_ok_stores g h h' l0 R)|].
  split.
  - rewrite (fgv_graph _ _ _ _ (r_frame _ _ _ R) N); [exact VN|lia].
  - now rewrite (gs_V _ _ (r_sim _ _ _ R)).
Qed.

Lemma copying_share l0 g N h :
  hk l0 (S N) h -> (g < N)%nat -> stores h g l0 ->
  exists h',
    put_graph N (mkG (gV (h_graph h g)) (gE (h_graph h N)) (gcount (h_graph h N))) h
    = Ret (tt, h')
    /\ copying l0 g N (gV (h_graph h g)) h'.
Proof.
  intros Hk Hg St.
  destruct (hk_share l0 (S N) h g N Hk) as (h2 & R2 & Hk2); [lia|lia|].
  exists h2. split; [exact R2|].
  unfold put_graph in R2. injection R2 as <-.
  assert (E : Nat.eqb g N = false) by (apply Nat.eqb_neq; lia).
  split; [exact Hk2|]. split; [|split].
  - apply (stores_frame h _ g); [|exact St]. cbn [h_graph]. now rewrite E.
  - cbn [h_graph]. now rewrite Nat.eqb_refl.
  - cbn [h_graph]. now rewrite E.
Qed.

Section Copy.
Variable symbols : list string.
Variable l0 : list edge.
Hypothesis l0_ok : edges_ok symbols l0.

Lemma copying_add g N r h e h' :
  (g < N)%nat -> copying l0 g N r h -> In e l0 ->
  addEdge symbols N e h = Ret (tt, h') -> copying l0 g N r h'.
Proof.
  intros Hg (Hk & St & VN & Vg) He H.
  destruct (hk_add symbols l0 l0_ok (S N) h N e Hk) as (h2 & R2 & Hk2); [lia|exact He|].
  rewrite R2 in H. injection H as <-.
  destruct (l0_ok e He) as (Ha & Hu & Hv). destruct e as [u v]. cbn [fst snd] in *.
  destruct (addEdge_run symbols h N u v (hk_g_ok _ _ _ _ Hk (Nat.lt_succ_diag_r N))
              Ha Hu Hv) as (h3 & R3 & F & _ & HV & _).
  rewrite R2 in R3. injection R3 as <-.
  assert (EG : h_graph h2 g = h_graph h g) by (apply (fgv_graph _ _ _ _ F); lia).
  split; [exact Hk2|]. split; [now apply (stores_frame h h2 g)|].
  split; [now rewrite HV|now rewrite EG].
Qed.

Lemma forM_add_copying g N r (A : Type) (mk : A -> edge) l : forall h u h',
  (g < N)%nat -> copying l0 g N r h -> (forall a, In a l -> In (mk a) l0) ->
  forM_ l (fun a => addEdge symbols N (mk a)) h = Ret (u, h') -> copying l0 g N r h'.
Proof.
  intros h u h' Hg Hc Hl H. unfold forM_ in H.
  apply (foldM_inv (fun _ h => copying l0 g N r h)) in H; [exact H| |exact Hc].
  intros [] a ha [] hb Ha Hca Hq.
  apply (copying_add g N r ha (mk a) hb Hg Hca (Hl a Ha) Hq).
Qed.

(** What a graph of the heap answers. *)
Lemma hk_hasEdge n h G :
  hk l0 n h -> (G < n)%nat ->
  forall e, nearb e = true ->
    exists b h'', hasEdge G e h = Ret (b, h'') /\ (b = true -> In e l0).
Proof.
  intros Hk HG e He. apply nearb_true in He.
  destruct (hasEdge_run h G e (ok_shape _ _ (hk_g_ok _ _ _ _ Hk HG)) He) as (h2 & R & _).
  exists (has (h_graph h G) e), h2. split; [exact R|].
  apply (hk_stored l0 n h G e Hk HG).
Qed.

Lemma stores_answers h g l :
  g_ok h g -> stores h g l ->
  (forall e, nearb e = true -> exists h'', hasEdge g e h = Ret (meme e l, h''))
  /\ size g h = Ret (Z.of_nat (length l), h).
Proof.
  intros Ok [Hh _ Hc]. split.
  - intros e He. apply nearb_true in He.
    destruct (hasEdge_run h g e (ok_shape _ _ Ok) He) as (h3 & R3 & _).
    exists h3. now rewrite R3, Hh.
  - rewrite size_run. now rewrite Hc.
Qed.

Lemma getCopyedGraph_copying g fuel h G h' :
  hk l0 (S g) h -> stores h g l0 ->
  getCopyedGraph symbols fuel g h = Ret (G, h') ->
  G = h_ngraph h /\ (g < G)%nat /\ hk l0 (S G) h' /\ stores h' g l0
  /\ (l0 = [] -> gcount (h_graph h' G) = 0 /\ gV (h_graph h' G) <> gV (h_graph h' g))
  /\ (l0 <> [] -> gV (h_graph h' G) = gV (h_graph h' g)).
Proof.
  intros Hk St H. unfold getCopyedGraph in H.
  destruct (new_graph_run h) as (h1 & R1 & HG & _ & OG & _ & _ & _).
  destruct (hk_new l0 (S g) h Hk) as (h1' & R1' & Hk1 & Cn).
  rewrite R1 in R1'. injection R1' as <-.
  rewrite (bind_run _ _ _ _ _ R1) in H.
  assert (Hn : (S g <= h_ngraph h)%nat) by (destruct Hk; lia).
  destruct (proj1 Hk g Hn) as (_ & Ag & _).
  set (N := h_ngraph h) in *.
  assert (Hg : (g < N)%nat) by lia.
  assert (EG : h_graph h1 g = h_graph h g) by (apply OG; lia).
  pose proof (stores_frame h h1 g l0 EG St) as St1.
  rewrite (bind_run _ _ _ _ _ (size_run g h1)) in H.
  rewrite (st_count _ _ _ St1) in H.
  destruct (Z.of_nat (length l0) =? 0) eqn:E0.
  - injection H as <- <-. split; [reflexivity|]. split; [exact Hg|].
    split; [exact Hk1|]. split; [exact St1|]. split.
    + intros _. split; [exact Cn|]. rewrite HG, EG. cbn [gV]. lia.
    + intros Hne. destruct l0; [congruence|]. cbn [length] in E0. lia.
  - rewrite (bind_run _ _ _ _ _ (get_graph_run g h1)) in H.
    rewrite (bind_run _ _ _ _ _ (get_graph_run N h1)) in H.
    destruct (copying_share l0 g N h1 Hk1 Hg St1) as (h2 & R2 & Hc2).
    rewrite (bind_run _ _ _ _ _ R2) in H.
    set (r := gV (h_graph h1 g)) in *.
    assert (Rd : forall hx, copying l0 g N r hx -> rd g hx hx).
    { intros hx (Hkx & _). apply rd_init. apply (hk_g_ok _ _ _ _ Hkx). lia. }
    apply bind_inv in H as (m & h3 & H3 & H).
    unfold minEdgeIndex in H3.
    rewrite (bind_run _ _ _ _ _ (get_graph_run g h2)) in H3.
    rewrite (bind_run _ _ _ _ _ (get_vaxis_run _ h2)) in H3.
    apply (scanEdgeIndex_rd g h2 _ fuel _ _ _ _ (Rd h2 Hc2)) in H3.
    pose proof (copying_read l0 g N r h2 h3 Hg Hc2 (proj1 H3)) as Hc3.
    apply bind_inv in H as (M_ & h4 & H4 & H).
    unfold maxEdgeIndex in H4.
    rewrite (bind_run _ _ _ _ _ (get_graph_run g h3)) in H4.
    rewrite (bind_run _ _ _ _ _ (get_vaxis_run _ h3)) in H4.
    apply (scanEdgeIndex_rd g h3 _ fuel _ _ _ _ (Rd h3 Hc3)) in H4.
    pose proof (copying_read l0 g N r h3 h4 Hg Hc3 (proj1 H4)) as Hc4.
    apply bind_inv in H as (u & h5 & H5 & H). injection H as <- <-.
    assert (Hc5 : copying l0 g N r h5).
    { unfold forM_ at 1 in H5.
      apply (foldM_inv (fun _ h => copying l0 g N r h)) in H5; [exact H5| |exact Hc4].
      intros [] i hx [] hy _ Hcx Hq.
      pose proof (proj1 Hcx) as Hkx.
      assert (Hg1 : (g < S N)%nat) by lia.
      pose proof (hk_g_ok _ _ _ _ Hkx Hg1) as Okx.
      destruct (E_getitem_q hx g i (ok_shape _ _ Okx)) as (h6 & R6 & Q6).
      rewrite (bind_run _ _ _ _ _ R6) in Hq.
      pose proof (copying_read l0 g N r hx h6 Hg Hcx
                    (q_ok_r_ok _ _ _ Q6 (ok_vshape _ _ Okx))) as Hc6.
      assert (Hel : forall el, In el (map snd (edges (slice_of (h_graph hx g) i))) ->
                (forall v, In v (right_incoming el) -> In (v, at_ el) l0)
                /\ (forall v, In v (right_outgoing el) -> In (at_ el, v) l0)).
      { intros el Hin. apply in_map_iff in Hin as ([k el'] & E & Hin).
        cbn [snd] in E. subst el'.
        destruct (ok_shape _ _ Okx i) as (_ & Hnd & Hat).
        pose proof (Hat k el Hin) as Hk'.
        assert (Eel : el_of (h_graph hx g) i k = el).
        { unfold el_of. now rewrite (dict_In_get _ _ vertex_eq_dec k el _ Hnd Hin). }
        rewrite Hk'. split; intros v Hv; apply (hk_stored l0 (S N) hx g _ Hkx Hg1).
        - apply (in_ri_has _ i); [apply Okx|]. now rewrite Eel.
        - apply (in_ro_has _ i); [apply Okx|]. now rewrite Eel. }
      unfold forM_ at 1 in Hq.
      apply (foldM_inv (fun _ h => copying l0 g N r h)) in Hq; [exact Hq| |exact Hc6].
      intros [] el hz [] hw Hin Hcz Hq2. destruct (Hel el Hin) as [Hri Hro].
      apply bind_inv in Hq2 as ([] & h7 & H7 & H8).
      apply (forM_add_copying g N r vertex (fun v => (v, at_ el)) _ _ _ _ Hg Hcz Hri) in H7.
      apply (forM_add_copying g N r vertex (fun v => (at_ el, v)) _ _ _ _ Hg H7 Hro) in H8.
      exact H8. }
    destruct Hc5 as (Hk5 & St5 & VN & Vg).
    split; [reflexivity|]. split; [exact Hg|]. split; [exact Hk5|]. split; [exact St5|].
    split.
    + intros ->. cbn [length] in E0. discriminate.
    + intros _. now rewrite VN, Vg.
Qed.

End Copy.

Section CopyOfBuilt.
Variable symbols : list string.

(** X23.  Whenever [getCopyedGraph()] returns, on a graph built within the
    contract, the copy is another graph object that stores only edges of
    the graph copied, and the graph copied answers [hasEdge] and [size] as
    before.  The copy of a graph without edges is empty and has a registry
    of its own; the copy of a graph with edges has the registry of the
    graph copied, the same object. *)
Theorem X23_copied_graph (ops : list op) (g : gref) (h h' : heap) (fuel : nat) (G : gref) :
  forallb (op_okb symbols) ops = true ->
  build symbols ops empty_heap = Ret (g, h) ->
  getCopyedGraph symbols fuel g h = Ret (G, h') ->
  G <> g
  /\ (forall e, nearb e = true ->
        exists b h'', hasEdge G e h' = Ret (b, h'') /\ (b = true -> In e (replay ops [])))
  /\ (forall e, nearb e = true ->
        exists h'', hasEdge g e h' = Ret (meme e (replay ops []), h''))
  /\ size g h' = Ret (Z.of_nat (length (replay ops [])), h')
  /\ (replay ops [] = [] ->
        size G h' = Ret (0, h') /\ gV (h_graph h' G) <> gV (h_graph h' g))
  /\ (replay ops [] <> [] -> gV (h_graph h' G) = gV (h_graph h' g)).
Proof.
  intros Hall Hb H.
  pose proof (build_hk symbols ops g h Hall Hb) as Hk.
  destruct (build_stores symbols ops g h Hall Hb) as (_ & St).
  pose proof (stored_edges_ok symbols ops Hall) as Hl.
  destruct (getCopyedGraph_copying symbols _ Hl g fuel h G h' Hk St H)
    as (_ & Hg & Hk' & St' & He & Hne).
  split; [lia|].
  split; [apply (hk_hasEdge _ (S G) h' G Hk'); lia|].
  assert (Ok' : g_ok h' g) by (apply (hk_g_ok _ _ _ _ Hk'); lia).
  destruct (stores_answers h' g _ Ok' St') as [A B].
  split; [exact A|]. split; [exact B|]. split; [|exact Hne].
  intros E. destruct (He E) as [C D]. split; [|exact D].
  rewrite size_run. now rewrite C.
Qed.

End CopyOfBuilt.

(** X23 on the graph of [Ex3.G4_ops]: the copy is graph [1] and shares the
    registry. *)
Lemma X23_copied_graph_witness :
  (forallb (op_okb Ex.symbols) Ex3.G4_ops = true
   /\ build Ex.symbols Ex3.G4_ops empty_heap = Ret (O, Ex3.G4_heap)
   /\ getCopyedGraph Ex.symbols 10 O Ex3.G4_heap
      = Ret (1%nat, heap_after (getCopyedGraph Ex.symbols 10 O) Ex3.G4_heap))
  /\ 1%nat <> O
  /\ (forall e, nearb e = true ->
        exists b h'',
          hasEdge 1%nat e (heap_after (getCopyedGraph Ex.symbols 10 O) Ex3.G4_heap)
          = Ret (b, h'')
          /\ (b = true -> In e (replay Ex3.G4_ops []))).
Proof.
  split; [split; [|split]; vm_compute; reflexivity|].
  destruct (X23_copied_graph Ex.symbols Ex3.G4_ops O Ex3.G4_heap
              (heap_after (getCopyedGraph Ex.symbols 10 O) Ex3.G4_heap) 10 1%nat)
    as (A & B & _); [vm_compute; reflexivity|vm_compute; reflexivity
                     |vm_compute; reflexivity|].
  split; [exact A|exact B].
Defined.

(* ------------------------------------------------------------------ *)
(** ** Changing the copy *)

Section CopyIndependence.
Variable symbols : list string.

(** Calls on graph [G] leave every other graph object as it is. *)
Lemma run_ops_other ops : forall h G g,
  g_ok h G -> G <> g -> forallb (op_okb symbols) ops = true ->
  exists h', run_ops symbols G ops h = Ret (tt, h') /\ g_ok h' G
             /\ h_graph h' g = h_graph h g
             /\ gV (h_graph h' G) = gV (h_graph h G).
Proof.
  induction ops as [|o ops IH]; intros h G g Ok Hne Hall.
  - exists h. split; [reflexivity|]. auto.
  - cbn [forallb] in Hall. apply andb_true_iff in Hall as [Ho Hall].
    destruct (apply_op_ok symbols h G o Ok Ho) as (h1 & R1 & Ok1 & F & HV).
    destruct (IH h1 G g Ok1 Hne Hall) as (h2 & R2 & Ok2 & EG & HV2).
    exists h2. split.
    + unfold run_ops, forM_. cbn [foldM]. rewrite (bind_run _ _ _ _ _ R1). exact R2.
    + split; [exact Ok2|]. split.
      * rewrite EG. apply (fgv_graph _ _ _ _ F). auto.
      * now rewrite HV2.
Qed.

(** C9, as amended (copy independence).  The copy that [getCopyedGraph()]
    returns, of a graph built within the contract, owns its edge lists:
    whatever [addEdge] and [removeEdge] calls within their contract are made
    on the copy, also with vertices the graph copied never saw, they
    complete, and the graph copied answers [hasEdge] and [size] as before
    the copy was made.  The vertex registry is shared when the graph copied
    has edges: it is one object for both graphs, before and after the
    calls. *)
Theorem C9_copy_edges_independent (ops ops' : list op) (g : gref) (h h1 : heap)
    (fuel : nat) (G : gref) :
  forallb (op_okb symbols) ops = true ->
  build symbols ops empty_heap = Ret (g, h) ->
  getCopyedGraph symbols fuel g h = Ret (G, h1) ->
  forallb (op_okb symbols) ops' = true ->
  exists h2,
    run_ops symbols G ops' h1 = Ret (tt, h2)
    /\ (forall e, nearb e = true ->
          exists h'', hasEdge g e h2 = Ret (meme e (replay ops []), h''))
    /\ size g h2 = Ret (Z.of_nat (length (replay ops [])), h2)
    /\ (replay ops [] <> [] ->
          gV (h_graph h1 G) = gV (h_graph h1 g) /\ gV (h_graph h2 G) = gV (h_graph h2 g)).
Proof.
  intros Hall Hb H Hall'.
  pose proof (build_hk symbols ops g h Hall Hb) as Hk.
  destruct (build_stores symbols ops g h Hall Hb) as (_ & St).
  pose proof (stored_edges_ok symbols ops Hall) as Hl.
  destruct (getCopyedGraph_copying symbols _ Hl g fuel h G h1 Hk St H)
    as (_ & Hg & Hk1 & St1 & _ & Hne).
  assert (OkG : g_ok h1 G) by (apply (hk_g_ok _ _ _ _ Hk1); lia).
  assert (Okg : g_ok h1 g) by (apply (hk_g_ok _ _ _ _ Hk1); lia).
  destruct (run_ops_other ops' h1 G g OkG ltac:(lia) Hall') as (h2 & R2 & _ & EG & HV).
  exists h2. split; [exact R2|].
  pose proof (stores_frame h1 h2 g _ EG St1) as [Hh _ Hc].
  split; [|split].
  - intros e He. apply nearb_true in He.
    assert (Hs : gshape (h_graph h2 g)) by (rewrite EG; apply Okg).
    destruct (hasEdge_run h2 g e Hs He) as (h3 & R3 & _).
    exists h3. now rewrite R3, Hh.
  - rewrite size_run. now rewrite Hc.
  - intros Hn. split; [now apply Hne|]. rewrite HV, EG. now apply Hne.
Qed.

End CopyIndependence.

(** C9 as amended, on the graph of [Ex3.G4_ops]: the edge [(v0, a1)], with
    a vertex new to the graph, is added to the copy. *)
Lemma C9_copy_edges_independent_witness :
  (forallb (op_okb Ex.symbols) Ex3.G4_ops = true
   /\ build Ex.symbols Ex3.G4_ops empty_heap = Ret (O, Ex3.G4_heap)
   /\ getCopyedGraph Ex.symbols 10 O Ex3.G4_heap
      = Ret (1%nat, heap_after (getCopyedGraph Ex.symbols 10 O) Ex3.G4_heap)
   /\ forallb (op_okb Ex.symbols) [Add (Ex.v0, Ex2.a1)] = true)
  /\ exists h2,
       run_ops Ex.symbols 1%nat [Add (Ex.v0, Ex2.a1)]
         (heap_after (getCopyedGraph Ex.symbols 10 O) Ex3.G4_heap) = Ret (tt, h2)
       /\ (forall e, nearb e = true ->
             exists h'', hasEdge O e h2 = Ret (meme e (replay Ex3.G4_ops []), h''))
       /\ size O h2 = Ret (Z.of_nat (length (replay Ex3.G4_ops [])), h2).
Proof.
  split; [split; [|split; [|split]]; vm_compute; reflexivity|].
  destruct (C9_copy_edges_independent Ex.symbols Ex3.G4_ops [Add (Ex.v0, Ex2.a1)]
              O Ex3.G4_heap (heap_after (getCopyedGraph Ex.symbols 10 O) Ex3.G4_heap)
              10 1%nat)
    as (h2 & A & B & C & _); [vm_compute; reflexivity|vm_compute; reflexivity
                              |vm_compute; reflexivity|vm_compute; reflexivity|].
  exists h2. split; [exact A|]. split; [exact B|exact C].
Defined.

(** C9 as stated fails: [ISuccedent(a)] on the graph of [Ex3.G4_ops] is
    empty before and holds [a1] after [addEdge((v0, a1))] on its copy, which
    registers [a1] in the registry the two graphs share. *)
Lemma C9_counterexample :
  result ((g <- build Ex.symbols Ex3.G4_ops ;;
           c <- getCopyedGraph Ex.symbols 10 g ;;
           before <- ISuccedent Ex.delta Ex.symbols Ex.iter_v g Ex.a ;;
           addEdge Ex.symbols c (Ex.v0, Ex2.a1) ;;
           after <- ISuccedent Ex.delta Ex.symbols Ex.iter_v g Ex.a ;;
           ret (before, after)) empty_heap)
  = Ret ([], [Ex2.a1]).
Proof. vm_compute. reflexivity. Qed.

(* ------------------------------------------------------------------ *)
(** ** Indirect succedents against indirect precedents *)

(** A vertex one tier above [Ex.a] that records the case of [Ex.a] as its
    predecessor but carries the symbol ["1"], which [Ex.delta] does not
    write from that case. *)
Module Ex4.
Import Ex.
Local Open Scope string_scope.
Definition w1 : vertex := Upper 1 0 "a" "1" "a" "0".
Definition G5_ops : list op := [Add (v0, a); Add (v0, w1)].
End Ex4.

Section Inversion.
Variable delta : string -> string -> string * string * Z.
Variable symbols : list string.
Variable iter_v : list vertex -> list vertex.
Hypothesis iter_v_In : forall l x, In x (iter_v l) <-> In x l.

(** What a read of a case that returns has read. *)
Lemma V_at_value h g i t q s T h' :
  vshape (h_vaxis h (gV (h_graph h g))) ->
  V_at symbols (fun T => T) g i t q s h = Ret (T, h') ->
  tc_members T = case_members (h_vaxis h (gV (h_graph h g))) i t q s.
Proof.
  intros HV H.
  assert (H' : V_at (s :: symbols) (fun T => T) g i t q s h = Ret (T, h')).
  { unfold V_at, bind, get_graph, get_vaxis, lift, put_vaxis in *.
    destruct (V_case symbols (fun T0 => T0) (h_vaxis h (gV (h_graph h g))) i t q s)
      as [[T0 V']| |] eqn:E; [|discriminate|discriminate].
    rewrite (V_case_mono _ _ _ _ _ _ _ _ E). exact H. }
  destruct (V_at_run (s :: symbols) (fun T => T) h g i t q s HV (or_introl eq_refl)
              (fun _ => eq_refl)) as (h2 & R & _).
  rewrite R in H'. injection H' as <- _. reflexivity.
Qed.

(** C8, as amended (precedent/succedent inversion).  On a graph built
    within the contract, for a vertex [u] that was an endpoint of an edge
    given to [addEdge] and whose output symbol is in the alphabet,
    [ISuccedent(u)] contains exactly the registered vertices at the index of
    [u], one tier above it, that carry the output symbol of [u] as their
    symbol and the transition case of [u] as their recorded predecessor.
    Every [w] in [ISuccedent(u)] has [u] in [IPrecedent(w)]; a registered
    [w] with [u] in [IPrecedent(w)] is in [ISuccedent(u)] when its symbol is
    the output symbol of [u]; and [IPrecedent] is empty on the floor. *)
Theorem C8_succedent_precedent (ops : list op) (g : gref) (h : heap) (u : vertex) :
  forallb (op_okb symbols) ops = true ->
  build symbols ops empty_heap = Ret (g, h) ->
  registered_by ops u ->
  In (output delta u) symbols ->
  exists S_ h',
    ISuccedent delta symbols iter_v g u h = Ret (S_, h')
    /\ (forall w, In w S_
                  <-> registered_by ops w
                      /\ vindex w = vindex u /\ vtier w = S (vtier u)
                      /\ vsymbol w = output delta u
                      /\ pred w = Some (transitionCase u))
    /\ (forall w, In w S_ ->
          exists P h'', IPrecedent symbols g w h = Ret (P, h'') /\ In u (elems P))
    /\ (forall w P h'',
          registered_by ops w -> vsymbol w = output delta u ->
          IPrecedent symbols g w h = Ret (P, h'') -> In u (elems P) -> In w S_)
    /\ (forall w, vtier w = O -> IPrecedent symbols g w h = Ret (PlainSet [], h)).
Proof.
  intros Hall Hb Hu Hs.
  destruct (build_registry symbols ops g h Hall Hb) as (Ok & _ & Rg).
  assert (Husym : In (vsymbol u) symbols).
  { destruct Hu as (e & He & Hu). rewrite forallb_forall in Hall.
    apply Hall in He. cbn [op_okb] in He. rewrite !andb_true_iff in He.
    destruct He as [[_ H1] H2]. apply over_alphabet_true in H1, H2.
    destruct Hu as [->| ->]; assumption. }
  destruct (ISuccedent_run delta symbols iter_v iter_v_In h g u
              (ok_vshape _ _ Ok) (ok_vwf _ _ Ok) Hs) as (S_ & h' & R & _ & _ & Hin).
  assert (Hiff : forall w, In w S_
                  <-> registered_by ops w
                      /\ vindex w = vindex u /\ vtier w = S (vtier u)
                      /\ vsymbol w = output delta u
                      /\ pred w = Some (transitionCase u)).
  { intros w. rewrite Hin, (Rg _ _ _ _ w). unfold transitionCase. split.
    - intros [[[H _]|[K Hr]] Hp]; [discriminate|].
      injection K as K1 K2 K3. auto.
    - intros (Hr & K1 & K2 & K3 & Hp). split; [|exact Hp].
      right. split; [|exact Hr]. now rewrite K1, K2, K3. }
  exists S_, h'. split; [exact R|]. split; [exact Hiff|]. split; [|split].
  - intros w Hw. apply Hiff in Hw as (_ & _ & _ & _ & Hp).
    destruct w as [|i t q s pq ps]; [discriminate|]. cbn [pred] in Hp.
    assert (Hp' : mkT i t pq ps = transitionCase u) by congruence.
    clear Hp. rename Hp' into Hp.
    assert (Hps : In ps symbols).
    { apply (f_equal t_symbol) in Hp. cbn [t_symbol transitionCase] in Hp.
      now rewrite Hp. }
    destruct (V_at_run symbols (fun T => T) h g i t pq ps (ok_vshape _ _ Ok) Hps
                (fun _ => eq_refl)) as (h2 & R2 & _).
    eexists _, h2. split.
    + cbn [IPrecedent]. rewrite (bind_run _ _ _ _ _ R2). reflexivity.
    + cbn [elems tc_members]. apply Rg. right. split; [now rewrite Hp|exact Hu].
  - intros w P h'' Hr Hsym HP HuP. apply Hiff.
    destruct w as [|i t q s pq ps]; cbn [IPrecedent] in HP.
    + injection HP as <- _. destruct HuP.
    + apply bind_inv in HP as (T & h1 & H1 & H2). injection H2 as <- _.
      cbn [elems] in HuP.
      rewrite (V_at_value h g i t pq ps T h1 (ok_vshape _ _ Ok) H1) in HuP.
      assert (K : transitionCase u = mkT i t pq ps).
      { apply Rg in HuP as [[-> ->]|[K _]]; [reflexivity|exact K]. }
      split; [exact Hr|]. cbn [vindex vtier pred]. rewrite K.
      unfold transitionCase in K. injection K as K1 K2 _ _.
      split; [now rewrite K1|]. split; [now rewrite K2|]. split; [exact Hsym|reflexivity].
  - intros w Hw. destruct w; [reflexivity|discriminate].
Qed.

End Inversion.

(** C8 as amended, on the graph of [Ex2.G2_ops] and the vertex [Ex.a], whose
    one indirect succedent is [Ex2.a1]. *)
Lemma C8_succedent_precedent_witness :
  ((forall l x, In x (Ex.iter_v l) <-> In x l)
   /\ forallb (op_okb Ex.symbols) Ex2.G2_ops = true
   /\ build Ex.symbols Ex2.G2_ops empty_heap = Ret (O, Ex2.G2_heap)
   /\ registered_by Ex2.G2_ops Ex.a
   /\ In (output Ex.delta Ex.a) Ex.symbols)
  /\ exists S_ h',
       ISuccedent Ex.delta Ex.symbols Ex.iter_v O Ex.a Ex2.G2_heap = Ret (S_, h')
       /\ (forall w, In w S_
                     <-> registered_by Ex2.G2_ops w
                         /\ vindex w = vindex Ex.a /\ vtier w = S (vtier Ex.a)
                         /\ vsymbol w = output Ex.delta Ex.a
                         /\ pred w = Some (transitionCase Ex.a))
       /\ (forall w, In w S_ ->
             exists P h'', IPrecedent Ex.symbols O w Ex2.G2_heap = Ret (P, h'')
                           /\ In Ex.a (elems P)).
Proof.
  assert (Hi : forall l x, In x (Ex.iter_v l) <-> In x l) by (intros l x; reflexivity).
  assert (Hs : In (output Ex.delta Ex.a) Ex.symbols) by (vm_compute; left; reflexivity).
  assert (Hr : registered_by Ex2.G2_ops Ex.a).
  { exists (Ex.v0, Ex.a). split; [left; reflexivity|right; reflexivity]. }
  split; [split; [exact Hi|split; [|split; [|split]]];
          [vm_compute; reflexivity|vm_compute; reflexivity|exact Hr|exact Hs]|].
  destruct (C8_succedent_precedent Ex.delta Ex.symbols Ex.iter_v Hi
              Ex2.G2_ops O Ex2.G2_heap Ex.a)
    as (S_ & h' & A & B & C & _);
    [vm_compute; reflexivity|vm_compute; reflexivity|exact Hr|exact Hs|].
  exists S_, h'. split; [exact A|]. split; [exact B|exact C].
Defined.

(** C8 as stated fails: [Ex4.w1] is registered at the index of [Ex.a], one
    tier above it, with the case of [Ex.a] as its recorded predecessor, and
    [Ex.a] is in [IPrecedent(w1)]; but [ISuccedent(a)] reads the cases of
    the output symbol of [Ex.a] only and does not contain [w1]. *)
Lemma C8_counterexample :
  vindex Ex4.w1 = vindex Ex.a /\ vtier Ex4.w1 = S (vtier Ex.a)
  /\ pred Ex4.w1 = Some (transitionCase Ex.a)
  /\ result ((g <- build Ex.symbols Ex4.G5_ops ;;
              S_ <- ISuccedent Ex.delta Ex.symbols Ex.iter_v g Ex.a ;;
              P <- IPrecedent Ex.symbols g Ex4.w1 ;;
              ret (S_, elems P)) empty_heap)
     = Ret ([], [Ex.a]).
Proof.
  split; [reflexivity|]. split; [reflexivity|]. split; [reflexivity|].
  vm_compute. reflexivity.
Qed.

(* ------------------------------------------------------------------ *)
(** ** One vertex for each predecessor state and symbol *)

(** A vertex of the case of [Ex2.a1] with another recorded predecessor. *)
Module Ex5.
Local Open Scope string_scope.
Definition w2 : vertex := Upper 1 0 "a" "0" "c" "0".
End Ex5.

Section CaseVertexDedup.
Variable iter_v : list vertex -> list vertex.

(** Two vertices of one case above the floor that record a predecessor of
    the same state and symbol have the same key. *)
Lemma same_case_same_pred (k : TKey) (w1 w2 : vertex) (p1 p2 : TKey) :
  transitionCase w1 = k -> transitionCase w2 = k ->
  pred w1 = Some p1 -> pred w2 = Some p2 ->
  t_state p1 = t_state p2 -> t_symbol p1 = t_symbol p2 -> w1 = w2.
Proof.
  intros K1 K2 H1 H2 Es Ey.
  destruct w1 as [|i1 t1 q1 s1 pq1 ps1]; [discriminate|].
  destruct w2 as [|i2 t2 q2 s2 pq2 ps2]; [discriminate|].
  cbn [pred] in H1, H2. injection H1 as <-. injection H2 as <-.
  cbn [t_state t_symbol] in Es, Ey. subst pq2 ps2.
  rewrite <- K2 in K1. unfold transitionCase in K1.
  cbn [vindex vtier vstate vsymbol] in K1. injection K1 as -> -> -> ->. reflexivity.
Qed.

(** C10 (vertex deduplication).  Vertices are the same when their keys are
    the same, which is how the program compares them.  For a case [T] above
    the floor, whose members carry the four fields of [T] and are listed
    once, and predecessors [P] and [P'] of the index of [T], one tier below,
    with the same state and the same symbol: [T.vertex(P)] and then
    [T.vertex(P')] return the same vertex, the second call leaves the case
    as the first made it, no member is removed, and the case holds at most
    one vertex for each predecessor state and symbol. *)
Theorem C10_vertex_dedup (T : TransitionCase) (t : nat) (P P' : TKey) :
  t_tier (tc_key T) = S t ->
  (forall w, In w (tc_members T) -> transitionCase w = tc_key T) ->
  NoDup (tc_members T) ->
  t_index P = t_index (tc_key T) -> t_tier P = t ->
  t_index P' = t_index (tc_key T) -> t_tier P' = t ->
  t_state P' = t_state P -> t_symbol P' = t_symbol P ->
  exists v T1,
    TransitionCase_vertex iter_v T (Some P) = Ret (Some v, T1)
    /\ TransitionCase_vertex iter_v T1 (Some P') = Ret (Some v, T1)
    /\ In v (tc_members T1)
    /\ tc_key T1 = tc_key T
    /\ (forall w, In w (tc_members T) -> In w (tc_members T1))
    /\ NoDup (tc_members T1)
    /\ (forall w1 w2 p1 p2,
          In w1 (tc_members T1) -> In w2 (tc_members T1) ->
          pred w1 = Some p1 -> pred w2 = Some p2 ->
          t_state p1 = t_state p2 -> t_symbol p1 = t_symbol p2 -> w1 = w2).
Proof.
  intros Ht Hkey Hnd Hi Hti Hi' Hti' Es Ey.
  unfold TransitionCase_vertex. rewrite Ht.
  replace (t_index P =? t_index (tc_key T)) with true by lia.
  replace (Nat.eqb (t_tier P) t) with true by (symmetry; now apply Nat.eqb_eq).
  cbn [negb]. rewrite filter_method_eq.
  unfold mk_vertex. rewrite Ht. cbn [obind].
  set (v := Upper (t_index (tc_key T)) t (t_state (tc_key T)) (t_symbol (tc_key T))
                  (t_state P) (t_symbol P)).
  assert (Kv : transitionCase v = tc_key T).
  { destruct T as [[i t0 q s] m]; simpl in *; now subst. }
  eexists v, _. split; [reflexivity|].
  cbn [tc_key tc_members]. rewrite Ht.
  replace (t_index P' =? t_index (tc_key T)) with true by lia.
  replace (Nat.eqb (t_tier P') t) with true by (symmetry; now apply Nat.eqb_eq).
  cbn [negb]. rewrite filter_method_eq. cbn [obind]. rewrite Es, Ey. fold v.
  assert (Hin : In v (set_add vertex_eq_dec v (tc_members T)))
    by (apply set_add_In; now left).
  split.
  - f_equal. f_equal. f_equal. unfold set_add at 1.
    destruct (in_dec vertex_eq_dec v (set_add vertex_eq_dec v (tc_members T)));
      [reflexivity|contradiction].
  - split; [exact Hin|]. split; [reflexivity|].
    split; [intros w Hw; apply set_add_In; now right|].
    split; [now apply set_add_NoDup|].
    intros w1 w2 p1 p2 H1 H2. apply (same_case_same_pred (tc_key T)).
    + apply set_add_In in H1 as [->|H1]; [exact Kv|now apply Hkey].
    + apply set_add_In in H2 as [->|H2]; [exact Kv|now apply Hkey].
Qed.

End CaseVertexDedup.

(** C10 on the case [(1, 1, "a", "0")], which holds a vertex with another
    predecessor, and the precedent [(1, 0, "a", "0")] given twice. *)
Lemma C10_vertex_dedup_witness :
  let T := mkTC (transitionCase Ex2.a1) [Ex5.w2] in
  let P := transitionCase Ex.a in
  (t_tier (tc_key T) = 1%nat
   /\ (forall w, In w (tc_members T) -> transitionCase w = tc_key T)
   /\ NoDup (tc_members T)
   /\ t_index P = t_index (tc_key T) /\ t_tier P = O)
  /\ exists v T1,
       TransitionCase_vertex Ex.iter_v T (Some P) = Ret (Some v, T1)
       /\ TransitionCase_vertex Ex.iter_v T1 (Some P) = Ret (Some v, T1)
       /\ In v (tc_members T1)
       /\ tc_key T1 = tc_key T
       /\ (forall w, In w (tc_members T) -> In w (tc_members T1)).
Proof.
  intros T P.
  assert (Hk : forall w, In w (tc_members T) -> transitionCase w = tc_key T)
    by (intros w [<-|[]]; reflexivity).
  assert (Hn : NoDup (tc_members T))
    by (constructor; [intros []|constructor]).
  split; [split; [reflexivity|split; [exact Hk|split; [exact Hn|split; reflexivity]]]|].
  destruct (C10_vertex_dedup Ex.iter_v T O P P)
    as (v & T1 & A & B & C & D & E & _); try reflexivity; [exact Hk|exact Hn|].
  exists v, T1. split; [exact A|]. split; [exact B|]. split; [exact C|].
  split; [exact D|exact E].
Defined.

(* ------------------------------------------------------------------ *)
(** ** The feasible graph and its target edges *)

(** Two small graphs.  In the first, the edge [e1] leaves the start vertex
    [p2] for a vertex of the second tier whose predecessor case has no
    outgoing edge; in the second, no stored edge enters the source of a
    target edge. *)
Module Ex6.
Local Open Scope string_scope.
Definition p1 : vertex := Floor 1 "p" "0".
Definition p2 : vertex := Floor 2 "p" "0".
Definition u1 : vertex := Upper 1 0 "p" "0" "p" "0".
Definition e1 : edge := (p2, u1).
Definition e2 : edge := (p2, p1).
Definition GA_ops : list op := [Add e1; Add e2].
Definition q1 : vertex := Floor 1 "q" "0".
Definition x1 : vertex := Upper 2 0 "q" "0" "q" "0".
Definition y1 : vertex := Upper 1 0 "q" "0" "p" "0".
Definition z1 : vertex := Upper 2 0 "p" "0" "p" "0".
Definition GB_ops : list op := [Add (p1, p2); Add (x1, y1); Add (p2, p1); Add (q1, z1)].
End Ex6.

Section FeasibleClaim.
Variable delta : string -> string -> string * string * Z.
Variable symbols : list string.
Variable iter_v : list vertex -> list vertex.
Variable iter_e : list edge -> list edge.
Hypothesis iter_e_In : forall l x, In x (iter_e l) -> In x l.

(** C1, as amended (feasible-graph monotonicity).  Whenever
    [ComputeFeasibleGraph(G, V0, Ef)] returns, on a graph [G] built within
    the contract, the result is another graph object and a subgraph of [G]:
    every edge of the result is an edge of [G], and its size is at most the
    size of [G]. *)
Theorem C1_feasible_subgraph (ops : list op) (g : gref) (h h' : heap) (fuel : nat)
    (V0 : list vertex) (Ef : list edge) (R_ : gref) :
  forallb (op_okb symbols) ops = true ->
  build symbols ops empty_heap = Ret (g, h) ->
  ComputeFeasibleGraph delta symbols iter_v iter_e fuel g V0 Ef [] h = Ret (R_, h') ->
  R_ <> g
  /\ (forall e, nearb e = true ->
        exists b h'', hasEdge R_ e h' = Ret (b, h'')
                      /\ (b = true -> exists h3, hasEdge g e h' = Ret (true, h3)))
  /\ (exists n m, size R_ h' = Ret (n, h') /\ size g h' = Ret (m, h') /\ 0 <= n <= m).
Proof.
  intros Hall Hb H.
  destruct (ComputeFeasibleGraph_safe delta symbols iter_v iter_e iter_e_In
              ops g h fuel V0 Ef [] R_ h' Hall Hb H)
    as (OkG & StG & Hne & lR & OkR & StR & Hsub).
  split; [exact Hne|]. split.
  - intros e He. apply nearb_true in He.
    destruct (hasEdge_run h' R_ e (ok_shape _ _ OkR) He) as (h2 & R2 & _).
    eexists _, h2. split; [exact R2|].
    rewrite (st_has _ _ _ StR). intros Hm. apply meme_In in Hm. apply Hsub in Hm.
    destruct (hasEdge_run h' g e (ok_shape _ _ OkG) He) as (h3 & R3 & _).
    exists h3. rewrite R3, (st_has _ _ _ StG). f_equal. f_equal. now apply meme_In.
  - exists (Z.of_nat (length lR)), (Z.of_nat (length (replay ops []))).
    split; [rewrite size_run; now rewrite (st_count _ _ _ StR)|].
    split; [rewrite size_run; now rewrite (st_count _ _ _ StG)|].
    split; [lia|]. apply inj_le.
    apply NoDup_incl_length; [apply (st_nd _ _ _ StR)|exact Hsub].
Qed.

End FeasibleClaim.

(** C1 as amended, on the graph of [Ex6.GA_ops] with both edges as
    targets. *)
Lemma C1_feasible_subgraph_witness :
  ((forall l x, In x (Ex.iter_e l) -> In x l)
   /\ forallb (op_okb Ex.symbols) Ex6.GA_ops = true
   /\ build Ex.symbols Ex6.GA_ops empty_heap = Ret (O, Ex.heap_of (build Ex.symbols Ex6.GA_ops))
   /\ ComputeFeasibleGraph Ex.delta Ex.symbols Ex.iter_v Ex.iter_e 10 O
        [Ex6.p2] [Ex6.e1; Ex6.e2] [] (Ex.heap_of (build Ex.symbols Ex6.GA_ops))
      = Ret (1%nat,
             heap_after (ComputeFeasibleGraph Ex.delta Ex.symbols Ex.iter_v Ex.iter_e 10 O
                           [Ex6.p2] [Ex6.e1; Ex6.e2] [])
                        (Ex.heap_of (build Ex.symbols Ex6.GA_ops))))
  /\ 1%nat <> O
  /\ (forall e, nearb e = true ->
        exists b h'',
          hasEdge 1%nat e
            (heap_after (ComputeFeasibleGraph Ex.delta Ex.symbols Ex.iter_v Ex.iter_e 10 O
                           [Ex6.p2] [Ex6.e1; Ex6.e2] [])
                        (Ex.heap_of (build Ex.symbols Ex6.GA_ops)))
          = Ret (b, h'')
          /\ (b = true ->
              exists h3,
                hasEdge O e
                  (heap_after (ComputeFeasibleGraph Ex.delta Ex.symbols Ex.iter_v
                                 Ex.iter_e 10 O [Ex6.p2] [Ex6.e1; Ex6.e2] [])
                              (Ex.heap_of (build Ex.symbols Ex6.GA_ops)))
                = Ret (true, h3))).
Proof.
  assert (Hi : forall l x, In x (Ex.iter_e l) -> In x l) by (intros l x H; exact H).
  split; [split; [exact Hi|split; [|split]]; vm_compute; reflexivity|].
  destruct (C1_feasible_subgraph Ex.delta Ex.symbols Ex.iter_v Ex.iter_e Hi
              Ex6.GA_ops O (Ex.heap_of (build Ex.symbols Ex6.GA_ops))
              (heap_after (ComputeFeasibleGraph Ex.delta Ex.symbols Ex.iter_v Ex.iter_e 10 O
                             [Ex6.p2] [Ex6.e1; Ex6.e2] [])
                          (Ex.heap_of (build Ex.symbols Ex6.GA_ops)))
              10 [Ex6.p2] [Ex6.e1; Ex6.e2] 1%nat)
    as (A & B & _); [vm_compute; reflexivity|vm_compute; reflexivity
                     |vm_compute; reflexivity|].
  split; [exact A|exact B].
Defined.

(** C1 as stated fails, twice.  On the graph of [Ex6.GA_ops] the target
    edge [e1] is stored and leaves the start vertex [p2], so it is reachable
    from [V0]; the result stores [e2] and not [e1].  On the graph of
    [Ex6.GB_ops] no stored edge enters the source of either target edge and
    neither source is the start vertex [p1], so no target edge is reachable
    from [V0]; the result has size [2]. *)
Lemma C1_counterexample :
  fst Ex6.e1 = Ex6.p2
  /\ result ((g <- build Ex.symbols Ex6.GA_ops ;;
              stored <- hasEdge g Ex6.e1 ;;
              R_ <- ComputeFeasibleGraph Ex.delta Ex.symbols Ex.iter_v Ex.iter_e 10 g
                      [Ex6.p2] [Ex6.e1; Ex6.e2] [] ;;
              kept <- hasEdge R_ Ex6.e1 ;;
              n <- size R_ ;;
              ret (stored, kept, n)) empty_heap)
     = Ret (true, false, 1)
  /\ Ex6.x1 <> Ex6.p1 /\ Ex6.q1 <> Ex6.p1
  /\ result ((g <- build Ex.symbols Ex6.GB_ops ;;
              into_x1 <- incomingEdgeOf g Ex6.x1 ;;
              into_q1 <- incomingEdgeOf g Ex6.q1 ;;
              R_ <- ComputeFeasibleGraph Ex.delta Ex.symbols Ex.iter_v Ex.iter_e 10 g
                      [Ex6.p1] [(Ex6.x1, Ex6.y1); (Ex6.q1, Ex6.z1)] [] ;;
              n <- size R_ ;;
              ret (into_x1, into_q1, n)) empty_heap)
     = Ret ([], [], 2).
Proof.
  split; [reflexivity|]. split; [vm_compute; reflexivity|].
  split; [discriminate|]. split; [discriminate|].
  vm_compute. reflexivity.
Qed.

(* ------------------------------------------------------------------ *)
(** ** The cascade and the target edges *)




Section CascadeTargets.
Variable delta : string -> string -> string * string * Z.
Variable symbols : list string.
Variable iter_v : list vertex -> list vertex.
Variable iter_e : list edge -> list edge.




End CascadeTargets.


